(** * AudioNoise: Kuramoto-coupled LFO group (coupled_lfo.h)

    A shallow embedding of [phase_sin], [phase_cos], [coupled_lfo_step]
    and [coupled_lfo_order_parameter].

    - [u32] values are integers in [0, 2^32) with the wrap-around written
      out ([wrap32]); [int] values are plain integers.
    - [float] is IEEE-754 binary32, modelled with the executable
      specification of the standard library ([SpecFloat] at precision 24,
      maximal exponent 128).  Every C operator on floats is one correctly
      rounded (nearest-even) operation: no contraction into fused
      multiply-add, no evaluation in a wider format.
    - The group is mutated through a pointer; the functions are written in
      a state-and-failure monad over the group, where failure stands for
      undefined behaviour of the C program (array access out of bounds,
      float-to-int conversion out of range).
    - lfo.h and util.h are not part of the sources at hand.  What
      coupled_lfo.h uses from them ([QUARTER_SINE_STEP_SHIFT],
      [quarter_sin], [u32_to_fraction], [lfo_step]) is kept behind the
      interfaces [sine_table] and [lfo_h]; the general theorems hold for
      every implementation of them, and [Ref] is the implementation used
      where a theorem is evaluated on concrete inputs.
    - The numerical theorems (accuracy of [phase_sin] and [phase_cos],
      the order parameter of a single oscillator) are about the table of
      [Ref]: 256 steps per quarter wave, each entry the float nearest to
      the sine at its node.  They compare the real value [F2R] of the
      float returned with the sine and cosine of the standard library's
      real numbers. *)

From Stdlib Require Import ZArith Lia Bool List.
From Stdlib Require Import Floats.SpecFloat.
From Stdlib Require Import Reals Lra Psatz.
From stdpp Require Import base list.

Local Open Scope Z_scope.

(** ** 32-bit unsigned arithmetic *)

Definition TWO_POW_32 : Z := 2 ^ 32.

Definition wrap32 (x : Z) : Z := x mod TWO_POW_32.

(** [~x] on a u32. *)
Definition u32_not (x : Z) : Z := TWO_POW_32 - 1 - x.

Definition is_u32 (x : Z) : Prop := 0 <= x < TWO_POW_32.

(** ** binary32 floats *)

Module F32.

Definition float : Type := spec_float.

Definition prec : Z := 24.
Definition emax : Z := 128.

Definition zero : float := S754_zero false.
Definition nan : float := S754_nan.

Definition add : float -> float -> float := SFadd prec emax.
Definition sub : float -> float -> float := SFsub prec emax.
Definition mul : float -> float -> float := SFmul prec emax.
Definition div : float -> float -> float := SFdiv prec emax.
Definition sqrtf : float -> float := SFsqrt prec emax.
Definition neg : float -> float := SFopp.

Definition ltb : float -> float -> bool := SFltb.
Definition leb : float -> float -> bool := SFleb.
Definition eqb : float -> float -> bool := SFeqb.

(** Conversion of an integer ([int] or [u32]) to float: the nearest
    float, ties to even. *)
Definition of_Z (n : Z) : float := binary_normalize prec emax n 0 false.

(** The nearest float to the ratio [n / d] of two positive integers. *)
Definition of_ratio (n d : Z) : float :=
  match n, d with
  | Zpos _, Zpos _ =>
      let '(q, e, l) := SFdiv_core_binary prec emax n 0 d 0 in
      binary_round_aux prec emax false q e l
  | _, _ => zero
  end.

(** Integral part of a float, toward zero; [None] for infinities and
    NaN. *)
Definition trunc (x : float) : option Z :=
  match x with
  | S754_zero _ => Some 0
  | S754_finite s m e => Some (cond_Zopp s (Z.shiftl (Zpos m) e))
  | S754_infinity _ | S754_nan => None
  end.

(** The C conversion [(s32)x]: the value is truncated toward zero; the
    behaviour is undefined when the integral part is not representable. *)
Definition to_s32 (x : float) : option Z :=
  match trunc x with
  | Some t => if (- 2 ^ 31 <=? t) && (t <? 2 ^ 31) then Some t else None
  | None => None
  end.

(** Rounding to the nearest integer, halves away from zero (C [roundf]);
    used only to write down what the specification says. *)
Definition round_nearest (x : float) : option Z :=
  match x with
  | S754_zero _ => Some 0
  | S754_finite s m e =>
      Some (cond_Zopp s (Z.shiftr (Z.shiftl (Zpos m) (e + 1) + 1) 1))
  | S754_infinity _ | S754_nan => None
  end.

Definition is_finite (x : float) : bool :=
  match x with
  | S754_zero _ | S754_finite _ _ _ => true
  | _ => false
  end.

End F32.

Abbreviation float := F32.float.

Declare Scope f32_scope.
Delimit Scope f32_scope with f32.
Infix "+" := F32.add : f32_scope.
Infix "-" := F32.sub : f32_scope.
Infix "*" := F32.mul : f32_scope.
Infix "/" := F32.div : f32_scope.
Notation "- x" := (F32.neg x) : f32_scope.

(** ** lfo.h: oscillator state and the interface of the absent headers *)

(** [struct lfo_state { u32 idx, step; }]: the phase and its per-sample
    increment. *)
Module lfo_state.
Record t : Type := mk { idx : Z; step : Z }.

Definition wf (l : t) : Prop := is_u32 (idx l) /\ is_u32 (step l).
End lfo_state.

Inductive lfo_type : Type := lfo_sinewave | lfo_triangle | lfo_sawtooth.

(** What coupled_lfo.h takes from the absent headers.  [quarter_sin i] is
    the table entry [quarter_sin[i]]. *)
Class sine_table : Type := {
  QUARTER_SINE_STEP_SHIFT : Z;
  quarter_sin : Z -> float;
  u32_to_fraction : Z -> float
}.

(** [lfo_step l type] is the oscillator left behind by
    [lfo_step(&l, type)] and the sample it returns. *)
Class lfo_h : Type := {
  lfo_step : lfo_state.t -> lfo_type -> lfo_state.t * float
}.

(** ** coupled_lfo.h *)

Definition MAX_COUPLED_LFOS : Z := 8.

Section CoupledLfo.

Context `{T : sine_table}.

(** Interpolation in the quarter table at an in-quadrant position
    [phase] (a u32, already shifted and mirrored): the lines of
    [phase_sin] from [idx] to [val]. *)
Definition quarter_interp (phase : Z) : float :=
  let idx := Z.shiftr phase (32 - QUARTER_SINE_STEP_SHIFT) in
  let a := quarter_sin idx in
  let b := quarter_sin (idx + 1) in
  let phase := wrap32 (Z.shiftl phase QUARTER_SINE_STEP_SHIFT) in
  (a + (b - a) * u32_to_fraction phase)%f32.

Definition phase_sin (phase : Z) : float :=
  let quarter := Z.shiftr phase 30 in
  let phase := wrap32 (Z.shiftl phase 2) in
  let phase := if negb (Z.land quarter 1 =? 0) then u32_not phase else phase in
  let idx := Z.shiftr phase (32 - QUARTER_SINE_STEP_SHIFT) in
  let a := quarter_sin idx in
  let b := quarter_sin (idx + 1) in
  let phase := wrap32 (Z.shiftl phase QUARTER_SINE_STEP_SHIFT) in
  let val := (a + (b - a) * u32_to_fraction phase)%f32 in
  let val := if negb (Z.land quarter 2 =? 0) then (- val)%f32 else val in
  val.

(** cos(phase) = sin(phase + pi/2) *)
Definition phase_cos (phase : Z) : float :=
  phase_sin (wrap32 (phase + Z.shiftl 1 30)).

End CoupledLfo.

(** [struct coupled_lfo_group]: [lfos] is the array of
    [MAX_COUPLED_LFOS] oscillators. *)
Record coupled_lfo_group : Type := {
  lfos : list lfo_state.t;
  count : Z;
  coupling : float
}.

(** The array has its [MAX_COUPLED_LFOS] slots. *)
Definition group_wf (g : coupled_lfo_group) : Prop :=
  Z.of_nat (length (lfos g)) = MAX_COUPLED_LFOS.

(** *** The monad of the functions that take the group by pointer *)

Definition M (A : Type) : Type :=
  coupled_lfo_group -> option (A * coupled_lfo_group).

Definition ret {A} (a : A) : M A := fun g => Some (a, g).

Definition bind {A B} (m : M A) (k : A -> M B) : M B :=
  fun g => match m g with
           | Some (a, g') => k a g'
           | None => None
           end.

(** Undefined behaviour. *)
Definition undefined {A} : M A := fun _ => None.

Definition lift {A} (o : option A) : M A :=
  match o with
  | Some a => ret a
  | None => undefined
  end.

Declare Scope m_scope.
Delimit Scope m_scope with M.
Notation "'do' x <- c1 ; c2" := (bind c1 (fun x => c2))
  (at level 10, x pattern, c1 at level 100, c2 at level 200,
   format "'[v' 'do'  x  <-  c1 ; '/' c2 ']'") : m_scope.
Notation "'run' c1 ; c2" := (bind c1 (fun _ => c2))
  (at level 10, c1 at level 100, c2 at level 200,
   format "'[v' 'run'  c1 ; '/' c2 ']'") : m_scope.

(** [g->count], [g->coupling] *)
Definition load_count : M Z := fun g => Some (count g, g).
Definition load_coupling : M float := fun g => Some (coupling g, g).

(** [g->lfos[i]], read and written; outside the array the behaviour is
    undefined. *)
Definition load_lfo (i : Z) : M lfo_state.t :=
  fun g =>
    if (0 <=? i) && (i <? MAX_COUPLED_LFOS) then
      match lfos g !! Z.to_nat i with
      | Some l => Some (l, g)
      | None => None
      end
    else None.

Definition store_lfo (i : Z) (l : lfo_state.t) : M unit :=
  fun g =>
    if (0 <=? i) && (i <? MAX_COUPLED_LFOS) && (Z.to_nat i <? length (lfos g))%nat then
      Some (tt, {| lfos := <[Z.to_nat i := l]> (lfos g);
                   count := count g;
                   coupling := coupling g |})
    else None.

(** [for (int j = start; j < start + n; j++) acc = body(j, acc);] *)
Fixpoint for_loop {A} (n : nat) (j : Z) (body : Z -> A -> M A) (acc : A) : M A :=
  match n with
  | O => ret acc
  | S n' => (do acc' <- body j acc; for_loop n' (j + 1) body acc')%M
  end.

Section CoupledLfoGroup.

Context `{T : sine_table} `{L : lfo_h}.

Local Open Scope m_scope.

(** Body of the loop of [coupled_lfo_step]. *)
Definition coupling_term (idx : Z) (j : Z) (sum : float) : M float :=
  if j =? idx then ret sum
  else
    do lj <- load_lfo j;
    do lfo <- load_lfo idx;
    ret (sum + phase_sin (wrap32 (lfo_state.idx lj - lfo_state.idx lfo)))%f32.

(** The block guarded by [g->coupling > 0 && g->count > 1]. *)
Definition coupling_adjust (idx : Z) : M unit :=
  do cnt <- load_count;
  do sum <- for_loop (Z.to_nat cnt) 0 (coupling_term idx) F32.zero;
  do K <- load_coupling;
  do cnt <- load_count;
  let adj := (K * sum / F32.of_Z cnt)%f32 in
  do lfo <- load_lfo idx;
  do d <- lift (F32.to_s32 (adj * F32.of_Z (lfo_state.step lfo))%f32);
  store_lfo idx (lfo_state.mk (wrap32 (lfo_state.idx lfo + d)) (lfo_state.step lfo)).

Definition coupled_lfo_step (idx : Z) (type : lfo_type) : M float :=
  do K <- load_coupling;
  do cnt <- load_count;
  run (if F32.ltb F32.zero K && (1 <? cnt) then coupling_adjust idx else ret tt);
  do lfo <- load_lfo idx;
  let '(lfo', val) := lfo_step lfo type in
  run store_lfo idx lfo';
  ret val.

(** Body of the loop of [coupled_lfo_order_parameter]; the accumulator
    is the pair [(cs, sn)]. *)
Definition order_term (i : Z) (acc : float * float) : M (float * float) :=
  do li <- load_lfo i;
  do li' <- load_lfo i;
  ret ((fst acc + phase_cos (lfo_state.idx li))%f32,
       (snd acc + phase_sin (lfo_state.idx li'))%f32).

Definition coupled_lfo_order_parameter : M float :=
  do cnt <- load_count;
  if cnt =? 0 then ret F32.zero
  else
    do cnt <- load_count;
    do acc <- for_loop (Z.to_nat cnt) 0 order_term (F32.zero, F32.zero);
    do cnt <- load_count;
    let cs := (fst acc / F32.of_Z cnt)%f32 in
    do cnt <- load_count;
    let sn := (snd acc / F32.of_Z cnt)%f32 in
    ret (F32.sqrtf (cs * cs + sn * sn)%f32).

(** [n] calls of [coupled_lfo_order_parameter] in a row, results
    dropped. *)
Fixpoint poll_order_parameter (n : nat) : M unit :=
  match n with
  | O => ret tt
  | S n' => run coupled_lfo_order_parameter; poll_order_parameter n'
  end.

(** [coupled_lfo_step] on slot [idx], once for each waveform of
    [types], results dropped. *)
Fixpoint step_sequence (idx : Z) (types : list lfo_type) : M unit :=
  match types with
  | [] => ret tt
  | type :: rest => run coupled_lfo_step idx type; step_sequence idx rest
  end.

End CoupledLfoGroup.

(** ** A reference implementation of the absent headers *)

Module Ref.

(** Fixed-point sine on [0, pi/2], scaled by [2^128]: the Taylor series
    to the term of degree 39. *)
Definition SCALE : Z := 2 ^ 128.

Definition PI_FIX : Z :=
  3141592653589793238462643383279502884197169399375105 * SCALE / 10 ^ 51.

Fixpoint sin_series (n : nat) (k : Z) (x2 term acc : Z) : Z :=
  match n with
  | O => acc
  | S n' =>
      let term' := - (term * x2 / SCALE) / ((2 * k + 2) * (2 * k + 3)) in
      sin_series n' (k + 1) x2 term' (acc + term')
  end.

Definition sin_fix (x : Z) : Z := sin_series 19 0 (x * x / SCALE) x x.

Definition STEP_SHIFT : Z := 8.
Definition STEPS : Z := 2 ^ STEP_SHIFT.

Definition quarter_sin_entry (i : Z) : float :=
  binary_normalize F32.prec F32.emax (sin_fix (i * PI_FIX / (2 * STEPS))) (-128) false.

(** Modelled from the spec: the quarter-wave sine table
    [quarter_sin[QUARTER_SINE_STEPS + 1]] of the absent generated header,
    a quarter period stored as a table of samples: here 256 steps, entry
    [i] the float nearest to [sin (i * pi / 512)]. *)
Definition quarter_sin_table : list float :=
  Eval vm_compute in
    map (fun i => quarter_sin_entry (Z.of_nat i)) (seq 0 257).

(** Modelled from the spec: [u32_to_fraction] of the absent util.h, the
    value [val / 2^32] as a float. *)
Definition u32_to_fraction (val : Z) : float :=
  binary_normalize F32.prec F32.emax val (-32) false.

#[global] Instance table : sine_table :=
  Build_sine_table
    STEP_SHIFT
    (fun i => nth (Z.to_nat i) quarter_sin_table F32.nan)
    u32_to_fraction.

(** Modelled from the spec: waveform readout of the absent lfo.h, sine
    through the table, triangle piecewise linear in [-1,1], sawtooth a
    linear ramp in [0,1]. *)
Definition readout (phase : Z) (type : lfo_type) : float :=
  match type with
  | lfo_sawtooth => u32_to_fraction phase
  | lfo_sinewave => phase_sin phase
  | lfo_triangle =>
      let quarter := Z.shiftr phase 30 in
      let phase := wrap32 (Z.shiftl phase 2) in
      let phase := if negb (Z.land quarter 1 =? 0) then u32_not phase else phase in
      let val := u32_to_fraction phase in
      if negb (Z.land quarter 2 =? 0) then (- val)%f32 else val
  end.

(** Modelled from the spec: [lfo_step] of the absent lfo.h, which adds
    the increment to the phase with wraparound and returns the waveform
    readout at the advanced phase. *)
Definition lfo_step (lfo : lfo_state.t) (type : lfo_type) : lfo_state.t * float :=
  let next := wrap32 (lfo_state.idx lfo + lfo_state.step lfo) in
  (lfo_state.mk next (lfo_state.step lfo), readout next type).

#[global] Instance lfo : lfo_h := Build_lfo_h lfo_step.

End Ref.

(** ** Specification-side definitions *)

(** The group with the oscillator in slot [i] replaced. *)
Definition set_lfo (g : coupled_lfo_group) (i : Z) (l : lfo_state.t) : coupled_lfo_group :=
  {| lfos := <[Z.to_nat i := l]> (lfos g);
     count := count g;
     coupling := coupling g |}.

(** The phase of the oscillator in slot [j]. *)
Definition phase_at (g : coupled_lfo_group) (j : Z) : Z :=
  match lfos g !! Z.to_nat j with
  | Some l => lfo_state.idx l
  | None => 0
  end.

Section SpecSide.

Context `{T : sine_table} `{L : lfo_h}.

(** Stepping the oscillator of slot [idx] on its own: [lfo_step] on
    that oscillator and nothing else. *)
Definition standalone_step (g : coupled_lfo_group) (idx : Z) (type : lfo_type)
  : option (float * coupled_lfo_group) :=
  match lfos g !! Z.to_nat idx with
  | Some l => Some (snd (lfo_step l type), set_lfo g idx (fst (lfo_step l type)))
  | None => None
  end.

(** S = sum over j <> idx of sin_of_phase (phase[j] - phase[idx]), the
    terms added in index order. *)
Definition coupling_sum (g : coupled_lfo_group) (idx : Z) : float :=
  fold_left
    (fun sum j =>
       if j =? idx then sum
       else (sum + phase_sin (wrap32 (phase_at g j - phase_at g idx)))%f32)
    (seqZ 0 (count g)) F32.zero.

(** adjustment = coupling * S / count *)
Definition adjustment (g : coupled_lfo_group) (idx : Z) : float :=
  (coupling g * coupling_sum g idx / F32.of_Z (count g))%f32.

(** The phase of slot [idx] after one step as the specification words
    it: the phase, plus round(adjustment * increment), plus the
    increment. *)
Definition spec_stepped_phase (g : coupled_lfo_group) (idx : Z) : option Z :=
  match lfos g !! Z.to_nat idx with
  | Some l =>
      match F32.round_nearest (adjustment g idx * F32.of_Z (lfo_state.step l))%f32 with
      | Some r => Some (wrap32 (lfo_state.idx l + r + lfo_state.step l))
      | None => None
      end
  | None => None
  end.

(** The in-quadrant position [phase_sin] interpolates at, and the sign
    it gives the result. *)
Definition quadrant_pos (phase : Z) : Z :=
  let quarter := Z.shiftr phase 30 in
  let phase := wrap32 (Z.shiftl phase 2) in
  if negb (Z.land quarter 1 =? 0) then u32_not phase else phase.

Definition quadrant_sign (quarter : Z) (val : float) : float :=
  if negb (Z.land quarter 2 =? 0) then (- val)%f32 else val.

(** The mean of the unit vectors, as sums over the active slots. *)
Definition cos_sum (g : coupled_lfo_group) : float :=
  fold_left (fun cs i => (cs + phase_cos (phase_at g i))%f32)
    (seqZ 0 (count g)) F32.zero.

Definition sin_sum (g : coupled_lfo_group) : float :=
  fold_left (fun sn i => (sn + phase_sin (phase_at g i))%f32)
    (seqZ 0 (count g)) F32.zero.

Definition mean_vector_magnitude (g : coupled_lfo_group) : float :=
  let cs := (cos_sum g / F32.of_Z (count g))%f32 in
  let sn := (sin_sum g / F32.of_Z (count g))%f32 in
  F32.sqrtf (cs * cs + sn * sn)%f32.

(** The same magnitude for a single oscillator at phase [p]. *)
Definition single_magnitude (p : Z) : float :=
  let cs := ((F32.zero + phase_cos p) / F32.of_Z 1)%f32 in
  let sn := ((F32.zero + phase_sin p) / F32.of_Z 1)%f32 in
  F32.sqrtf (cs * cs + sn * sn)%f32.

End SpecSide.

(** ** Concrete groups *)

Definition group_of (phases : list (Z * Z)) (n : Z) (K : float) : coupled_lfo_group :=
  {| lfos := map (fun p => lfo_state.mk (fst p) (snd p)) phases;
     count := n;
     coupling := K |}.

Definition f_one : float := F32.of_Z 1.
Definition f_half : float := F32.of_ratio 1 2.

(** Eight idle slots. *)
Definition idle_slots : list (Z * Z) := repeat (0, 0) 8.

(** Two oscillators at 1 Hz and 1.5 Hz (increments for 48 kHz), no
    coupling. *)
Definition group_uncoupled : coupled_lfo_group :=
  group_of ([(0, 89478); (0, 134218)] ++ repeat (0, 0) 6) 2 F32.zero.

(** Two oscillators a quarter turn apart with increment 7, coupling 1/2
    and coupling -1/2. *)
Definition group_quarter_turn (K : float) : coupled_lfo_group :=
  group_of ([(0, 7); (2 ^ 30, 7)] ++ repeat (0, 0) 6) 2 K.

(** Three oscillators locked at one phase, increment 89478 (1 Hz at
    48 kHz). *)
Definition group_locked : coupled_lfo_group :=
  group_of (repeat (763361994, 89478) 3 ++ repeat (0, 0) 5) 3 f_half.

Definition group_pos : coupled_lfo_group := group_quarter_turn f_half.
Definition group_neg : coupled_lfo_group := group_quarter_turn (- f_half)%f32.

(** One active oscillator; and no active oscillator, the slots and the
    coupling left filled. *)
Definition group_single : coupled_lfo_group :=
  group_of ((763361994, 89478) :: repeat (0, 0) 7) 1 f_half.

Definition group_empty : coupled_lfo_group :=
  group_of (repeat (763361994, 89478) 8) 0 f_half.

(** * Accuracy of the table lookup

    The definitions below serve the numerical theorems: the real value
    of a float, what it means for a float to be a rounding of a real
    number, and enclosures of the sine and cosine at the table nodes in
    fixed-point arithmetic. *)

Local Abbreviation prec := F32.prec.
Local Abbreviation emax := F32.emax.

(** ** Rounding to binary32, on integers *)

(** The round and sticky bits of a shift record are both clear. *)
Definition flags_clear (mrs : shr_record) : Prop := shr_r mrs = false /\ shr_s mrs = false.

(** The nonnegative float [z] has the value [M * 2^E], with a mantissa
    and an exponent in the binary32 range. *)
Definition represents (z : spec_float) (M E : Z) : Prop :=
  match z with
  | S754_zero false => M = 0
  | S754_finite false mz ez =>
      E <= ez /\ M = Zpos mz * 2 ^ (ez - E) /\
      Zpos mz < 2 ^ prec /\ emin prec emax <= ez
  | _ => False
  end.

(** The number of bits [binary_round_aux] drops from the mantissa [m]
    at exponent [e]. *)
Definition round_shift (m e : Z) : Z :=
  Z.max 0 (fexp prec emax (Zdigits2 m + e) - e).

(** ** Real values of floats *)

(** [2^e] as a real number. *)
Definition bpow (e : Z) : R := powerRZ 2 e.

(** The real value of a finite float; 0 for infinities and NaN, which
    the theorems exclude by a finiteness statement of their own. *)
Definition F2R (x : spec_float) : R :=
  match x with
  | S754_finite s m e => (IZR (cond_Zopp s (Zpos m)) * bpow e)%R
  | _ => 0%R
  end.

(** Zeros and positive finite floats with a mantissa of at most 24
    bits. *)
Definition nonneg_finite (x : spec_float) : Prop :=
  match x with
  | S754_zero _ => True
  | S754_finite false m e => (Zpos m < 2 ^ prec)%Z /\ (emin prec emax <= e)%Z
  | _ => False
  end.

Section RealValueDefs.

Local Open Scope R_scope.

(** [z] is a faithful rounding of the nonnegative real [v]: within one
    unit in the last place (or the smallest subnormal), zero when [v]
    is, and below every float that bounds [v]. *)
Definition rounds_to (z : spec_float) (v : R) : Prop :=
  nonneg_finite z /\
  Rabs (F2R z - v) <= v * bpow (-23) + bpow (-149) /\
  (v = 0 -> F2R z = 0) /\
  (forall (Mb : positive) (Eb : Z),
      (Zpos Mb < 2 ^ prec)%Z -> (emin prec emax <= Eb)%Z ->
      v <= IZR (Zpos Mb) * bpow Eb -> F2R z <= IZR (Zpos Mb) * bpow Eb).

End RealValueDefs.

(** ** Enclosures of sine and cosine at the table nodes *)

(** Fixed-point enclosures of sines and cosines, 100 fractional bits. *)
Definition ONE : Z := 2 ^ 100.

(** From an enclosure of [cos a] to one of [cos (a / 2)], by
    [cos (a/2)^2 = (1 + cos a) / 2]. *)
Definition half_step (lu : Z * Z) : Z * Z :=
  (Z.sqrt (ONE * ONE / 2 + ONE / 2 * fst lu),
   Z.sqrt (ONE * ONE / 2 + ONE / 2 * snd lu) + 1).

(** [half_encl j] encloses [cos (PI / 2^(j+1))]. *)
Fixpoint half_encl (j : nat) : Z * Z :=
  match j with
  | O => (0, 0)
  | S j' => half_step (half_encl j')
  end.

Record trig_box : Type := {
  sin_lo : Z; sin_hi : Z; cos_lo : Z; cos_hi : Z
}.

(** Enclosure of sin and cos of [PI / 512]. *)
Definition delta_box : trig_box :=
  let c := half_encl 8 in
  {| sin_lo := Z.sqrt (Z.max 0 (ONE * ONE - snd c * snd c));
     sin_hi := Z.sqrt (Z.max 0 (ONE * ONE - fst c * fst c)) + 1;
     cos_lo := fst c;
     cos_hi := snd c |}.

(** From the box of an angle to the box of the angle plus [PI / 512]. *)
Definition trig_step (b : trig_box) : trig_box :=
  let d := delta_box in
  {| sin_lo := (sin_lo b * cos_lo d + cos_lo b * sin_lo d) / ONE;
     sin_hi := (sin_hi b * cos_hi d + cos_hi b * sin_hi d) / ONE + 1;
     cos_lo := Z.max 0 ((cos_lo b * cos_lo d - sin_hi b * sin_hi d) / ONE);
     cos_hi := (cos_hi b * cos_hi d - sin_lo b * sin_lo d) / ONE + 1 |}.

(** [trig_encl k] encloses sin and cos of [k * PI / 512]. *)
Fixpoint trig_encl (k : nat) : trig_box :=
  match k with
  | O => {| sin_lo := 0; sin_hi := 0; cos_lo := ONE; cos_hi := ONE |}
  | S k' => trig_step (trig_encl k')
  end.

Section TrigEnclosureDefs.

Local Open Scope R_scope.

(** [x] lies between [l / 2^100] and [u / 2^100]. *)
Definition encl (l u : Z) (x : R) : Prop := IZR l <= x * IZR ONE <= IZR u.

(** The box [b] encloses the sine and the cosine of [a]. *)
Definition box_ok (b : trig_box) (a : R) : Prop :=
  (0 <= sin_lo b)%Z /\ (0 <= cos_lo b)%Z /\
  encl (sin_lo b) (sin_hi b) (sin a) /\ encl (cos_lo b) (cos_hi b) (cos a).

(** The angle between two table nodes. *)
Definition delta : R := PI / 512.

End TrigEnclosureDefs.

(** ** The reference table against the enclosures *)

(** The value of a table entry in units of [2^-100]. *)
Definition scaled (z : float) : option Z :=
  match z with
  | S754_zero _ => Some 0
  | S754_finite false m e =>
      if (Zpos m <? 2 ^ 24) && (-100 <=? e) then Some (Zpos m * 2 ^ (e + 100)) else None
  | _ => None
  end.

(** Table entries are compared with the sine within [2^-24]. *)
Definition EPS_TAB : Z := 2 ^ 76.

(** The entry [z] is within [2^-24] of every point of the sine
    enclosure of [b], and at most 1. *)
Definition entry_ok (z : float) (b : trig_box) : bool :=
  match scaled z with
  | Some t => (sin_hi b - EPS_TAB <=? t) && (t <=? sin_lo b + EPS_TAB) && (t <=? ONE)
  | None => false
  end.

(** [z <= z'] on table entries. *)
Definition entry_le (z z' : float) : bool :=
  match scaled z, scaled z' with
  | Some t, Some t' => t <=? t'
  | _, _ => false
  end.

(** Every entry is near the sine of its node and not above its
    successor. *)
Fixpoint check_table (tab : list float) (b : trig_box) : bool :=
  match tab with
  | [] => true
  | z :: rest =>
      entry_ok z b &&
      match rest with
      | z' :: _ => entry_le z z'
      | [] => true
      end &&
      check_table rest (trig_step b)
  end.

(** The entry [z] is at most [1 - 2^-16]. *)
Definition entry_below_one (z : float) : bool :=
  match scaled z with
  | Some t => t <=? ONE - 2 ^ 84
  | None => false
  end.

(** Entry [i] of the reference table. *)
Definition table_entry (i : nat) : float := nth i Ref.quarter_sin_table F32.nan.

(** ** Accuracy on the full circle *)

(** The angle a u32 phase stands for. *)
Definition phase_angle (p : Z) : R := (IZR p / 4294967296 * (2 * PI))%R.

(** Finite floats of either sign with a mantissa of at most 24 bits. *)
Definition valid_finite (x : float) : Prop :=
  match x with
  | S754_zero _ => True
  | S754_finite _ m e => (Zpos m < 2 ^ prec)%Z /\ (emin prec emax <= e)%Z
  | _ => False
  end.

(** * Beyond the claims: runs, schedules, safety and the effects

    Definitions for the further theorems: runs of samples and schedules
    of steps, what a rounding with a location means, roundings of reals
    of either sign, the conditions on the tables under which the
    numerical theorems hold, the order parameter in real numbers, and
    the two effects built on the oscillators. *)

Section RunDefs.

Context `{T : sine_table} `{L : lfo_h}.

(** Samples of a standalone oscillator, one for each waveform of
    [types]: the samples in order and the oscillator left behind. *)
Fixpoint standalone_run (l : lfo_state.t) (types : list lfo_type)
  : list float * lfo_state.t :=
  match types with
  | [] => ([], l)
  | type :: rest =>
      let '(l', v) := lfo_step l type in
      let '(vs, l'') := standalone_run l' rest in
      (v :: vs, l'')
  end.

(** The same samples taken through [coupled_lfo_step] on slot [idx]. *)
Fixpoint coupled_run (idx : Z) (types : list lfo_type) : M (list float) :=
  match types with
  | [] => ret []
  | type :: rest =>
      (do v <- coupled_lfo_step idx type;
       do vs <- coupled_run idx rest;
       ret (v :: vs))%M
  end.

(** Calls of [coupled_lfo_step] in the order of [sched], each entry a
    slot and a waveform; the samples are returned in order. *)
Fixpoint step_schedule (sched : list (Z * lfo_type)) : M (list float) :=
  match sched with
  | [] => ret []
  | (idx, type) :: rest =>
      (do v <- coupled_lfo_step idx type;
       do vs <- step_schedule rest;
       ret (v :: vs))%M
  end.

End RunDefs.

Section SignedDefs.

Local Open Scope R_scope.

(** What a location says about the real number [v] being rounded: it
    is [m * 2^e], or strictly between that and [(m + 1) * 2^e]. *)
Definition located (m e : Z) (l : location) (v : R) : Prop :=
  match l with
  | loc_Exact => v = IZR m * bpow e
  | loc_Inexact _ => IZR m * bpow e < v < IZR (m + 1) * bpow e
  end.

(** [z] is a faithful rounding of the real [v] of either sign. *)
Definition rounds_signed (z : float) (v : R) : Prop :=
  valid_finite z /\
  Rabs (F2R z - v) <= Rabs v * bpow (-23) + bpow (-149) /\
  (0 <= v -> 0 <= F2R z) /\ (v <= 0 -> F2R z <= 0) /\
  (forall (Mb : positive) (Eb : Z),
      (Zpos Mb < 2 ^ prec)%Z -> (emin prec emax <= Eb)%Z ->
      Rabs v <= IZR (Zpos Mb) * bpow Eb -> Rabs (F2R z) <= IZR (Zpos Mb) * bpow Eb).

(** Sum of the reals [tau j] over the indices [js]. *)
Definition real_sum (tau : Z -> R) (js : list Z) : R :=
  fold_right (fun j acc => tau j + acc) 0 js.

(** The mean of the unit vectors at the phases of the active slots,
    and its length: the order parameter [r = |(1/N) sum e^(i theta_j)|]
    in real numbers. *)
Definition mean_cos (g : coupled_lfo_group) : R :=
  real_sum (fun j => cos (phase_angle (phase_at g j))) (seqZ 0 (count g)) / IZR (count g).

Definition mean_sin (g : coupled_lfo_group) : R :=
  real_sum (fun j => sin (phase_angle (phase_at g j))) (seqZ 0 (count g)) / IZR (count g).

Definition kuramoto_order (g : coupled_lfo_group) : R :=
  sqrt (mean_cos g * mean_cos g + mean_sin g * mean_sin g).

End SignedDefs.

Section TableConditions.

Context `{T : sine_table}.

Local Open Scope R_scope.

(** The table gives finite values of magnitude at most 1. *)
Definition bounded_table : Prop :=
  forall p : Z, is_u32 p ->
    valid_finite (phase_sin p) /\ Rabs (F2R (phase_sin p)) <= 1.

(** The table lookups are finite, at most 1 in magnitude and within
    [1/10000] of the sine and cosine. *)
Definition accurate_table : Prop :=
  forall p : Z, is_u32 p ->
    (valid_finite (phase_sin p) /\ Rabs (F2R (phase_sin p)) <= 1 /\
     Rabs (F2R (phase_sin p) - sin (phase_angle p)) <= 1 / 10000) /\
    (valid_finite (phase_cos p) /\ Rabs (F2R (phase_cos p)) <= 1 /\
     Rabs (F2R (phase_cos p) - cos (phase_angle p)) <= 1 / 10000).

(** The table gives a sine that is not negative over the first half
    turn and not positive over the second. *)
Definition signed_table : Prop :=
  forall p : Z, is_u32 p ->
    ((p < 2 ^ 31)%Z -> 0 <= F2R (phase_sin p)) /\
    ((2 ^ 31 <= p)%Z -> F2R (phase_sin p) <= 0).

(** The interpolation in the quarter table moves by at most [dlt]
    from one in-quadrant position to the next, starts at 0, and gives
    finite values of magnitude at most 1. *)
Definition smooth_table (dlt : R) : Prop :=
  bounded_table /\
  F2R (quarter_interp 0) = 0 /\
  forall x : Z, is_u32 x -> is_u32 (x + 1) ->
    Rabs (F2R (quarter_interp (x + 1)) - F2R (quarter_interp x)) <= dlt.

End TableConditions.

(** Every other active oscillator is ahead of slot [idx] by less than
    half a turn; every other one is behind by at most half a turn. *)
Definition others_ahead (g : coupled_lfo_group) (idx : Z) : Prop :=
  forall j : Z, 0 <= j < count g -> j <> idx ->
    wrap32 (phase_at g j - phase_at g idx) < 2 ^ 31.

Definition others_behind (g : coupled_lfo_group) (idx : Z) : Prop :=
  forall j : Z, 0 <= j < count g -> j <> idx ->
    2 ^ 31 <= wrap32 (phase_at g j - phase_at g idx).

(** [0 <= x] or [x <= 0], by the flag. *)
Definition sided (b : bool) (x : R) : Prop := if b then (0 <= x)%R else (x <= 0)%R.

(** A finite binary32 value: a zero, or a mantissa and an exponent that
    the format admits. *)
Definition finite_float (x : float) : Prop :=
  valid_binary prec emax x = true /\ F32.is_finite x = true.

Section CancellationDefs.

Context `{T : sine_table}.

(** The term oscillator [j] adds to the coupling sum of oscillator
    [i], as a real number. *)
Definition coupling_term_value (g : coupled_lfo_group) (i j : Z) : R :=
  if (j =? i)%Z then 0%R
  else F2R (phase_sin (wrap32 (phase_at g j - phase_at g i))).

End CancellationDefs.

(** A group the coupling block cannot fail on: eight slots, at most
    eight of them active, a finite coupling of at most 1 and increments
    of at most [2^31] (half a turn a sample). *)
Definition group_ok (g : coupled_lfo_group) : Prop :=
  group_wf g /\ count g <= MAX_COUPLED_LFOS /\
  valid_finite (coupling g) /\ (F2R (coupling g) <= 1)%R /\
  Forall (fun l => 0 <= lfo_state.step l <= 2 ^ 31) (lfos g).

(** ** tremolo: amplitude modulation by one LFO *)

(** The static [tremolo] struct. *)
Module tremolo.
Record t : Type := mk { lfo : lfo_state.t; depth : float; wave : lfo_type }.
End tremolo.

Section Tremolo.

Context `{L : lfo_h}.

(** [tremolo_step]: the LFO is advanced and its sample, mapped from
    [-1, 1] to a gain, scales the input. *)
Definition tremolo_step (input : float) (t : tremolo.t) : float * tremolo.t :=
  let '(lfo', lfo) := lfo_step (tremolo.lfo t) (tremolo.wave t) in
  let mult := (f_one - tremolo.depth t * (f_one - lfo) * f_half)%f32 in
  ((input * mult)%f32, tremolo.mk lfo' (tremolo.depth t) (tremolo.wave t)).

End Tremolo.

(** The gain [1.0f - tremolo.depth * (1.0f - lfo) * 0.5f] of
    [tremolo_step]. *)
Definition tremolo_gain (depth lfo : float) : float :=
  (f_one - depth * (f_one - lfo) * f_half)%f32.

(** ** binary64, for the expressions C evaluates in [double] *)

Module F64.

Definition prec : Z := 53.
Definition emax : Z := 1024.

Definition add : spec_float -> spec_float -> spec_float := SFadd prec emax.
Definition mul : spec_float -> spec_float -> spec_float := SFmul prec emax.

(** Conversion of an [int]. *)
Definition of_Z (n : Z) : spec_float := binary_normalize prec emax n 0 false.

(** The constant [0.5]. *)
Definition half : spec_float := S754_finite false (2 ^ 52) (-53).

(** [float] to [double]: the value is kept. *)
Definition of_f32 (x : float) : spec_float :=
  match x with
  | S754_finite s m e => binary_normalize prec emax (cond_Zopp s (Zpos m)) e s
  | _ => x
  end.

(** [double] to [float]: the nearest float, ties to even. *)
Definition to_f32 (x : spec_float) : float :=
  match x with
  | S754_finite s m e => binary_normalize F32.prec F32.emax (cond_Zopp s (Zpos m)) e s
  | _ => x
  end.

End F64.

(** ** entrained.h: chorus voices modulated by a coupled group *)

(** What entrained.h takes from the absent effect.h: the delay line
    behind [sample_array_read] and [sample_array_write]. *)
Class effect_h : Type := {
  delay_line : Type;
  sample_array_read : float -> delay_line -> float;
  sample_array_write : float -> delay_line -> delay_line
}.

(** The static [entrained] struct. *)
Module entrained.
Record t : Type := mk {
  group : coupled_lfo_group;
  delay_base : float;
  depth : float;
  mix : float
}.
End entrained.

Definition ENTRAINED_VOICES : Z := 3.

Section Entrained.

Context `{T : sine_table} `{L : lfo_h} `{E : effect_h}.

(** The body of the loop of [entrained_step] for voice [i]: the voice
    is stepped and the delay line read at
    [delay_base * (1 + lfo * depth * 0.5)], the product and the sum in
    [double], the delay clamped below at 1. *)
Definition entrained_voice (i : Z) (wet : float) (s : entrained.t) (dl : delay_line)
  : option (float * entrained.t) :=
  match coupled_lfo_step i lfo_sinewave (entrained.group s) with
  | Some (lfo, g') =>
      let d := F64.to_f32
                 (F64.mul (F64.of_f32 (entrained.delay_base s))
                    (F64.add (F64.of_Z 1)
                       (F64.mul (F64.of_f32 (lfo * entrained.depth s)%f32) F64.half))) in
      let d := if F32.ltb d (F32.of_Z 1) then F32.of_Z 1 else d in
      Some ((wet + sample_array_read d dl)%f32,
            entrained.mk g' (entrained.delay_base s) (entrained.depth s) (entrained.mix s))
  | None => None
  end.

(** [for (int i = start; i < start + n; i++)] over the voices. *)
Fixpoint entrained_voices (n : nat) (i : Z) (wet : float) (s : entrained.t) (dl : delay_line)
  : option (float * entrained.t) :=
  match n with
  | O => Some (wet, s)
  | S n' =>
      match entrained_voice i wet s dl with
      | Some (wet', s') => entrained_voices n' (i + 1) wet' s' dl
      | None => None
      end
  end.

Definition entrained_step (input : float) (s : entrained.t) (dl : delay_line)
  : option (float * (entrained.t * delay_line)) :=
  match entrained_voices (Z.to_nat ENTRAINED_VOICES) 0 F32.zero s dl with
  | Some (wet, s') =>
      let wet := (wet / F32.of_Z ENTRAINED_VOICES)%f32 in
      let dl' := sample_array_write input dl in
      Some ((input * (F32.of_Z 1 - entrained.mix s') + wet * entrained.mix s')%f32,
            (s', dl'))
  | None => None
  end.

(** [entrained_step] on each sample of [inputs] in turn. *)
Fixpoint entrained_run (inputs : list float) (s : entrained.t) (dl : delay_line)
  : option (list float * (entrained.t * delay_line)) :=
  match inputs with
  | [] => Some ([], (s, dl))
  | input :: rest =>
      match entrained_step input s dl with
      | Some (out, (s', dl')) =>
          match entrained_run rest s' dl' with
          | Some (outs, final) => Some (out :: outs, final)
          | None => None
          end
      | None => None
      end
  end.

End Entrained.

(** The steps [entrained_step] makes on one sample, and over [n]
    samples: voices 0, 1, 2 in turn, each read as a sine. *)
Definition entrained_voice_steps : list (Z * lfo_type) :=
  (fun j => (j, lfo_sinewave)) <$> seqZ 0 ENTRAINED_VOICES.

Fixpoint entrained_schedule (n : nat) : list (Z * lfo_type) :=
  match n with
  | O => []
  | S n' => entrained_voice_steps ++ entrained_schedule n'
  end.

(** The group as [entrained_init] leaves it apart from the rates: three
    or more active voices in a group that [coupled_lfo_step] cannot fail
    on. *)
Definition entrained_ready (s : entrained.t) : Prop :=
  group_ok (entrained.group s) /\ ENTRAINED_VOICES <= count (entrained.group s).

Section MixDefs.

Context `{E : effect_h}.

(** Every read of the delay line [dl] gives a finite sample, of
    magnitude at most [2^96]. *)
Definition finite_reads (dl : delay_line) : Prop :=
  forall d : float,
    valid_finite (sample_array_read d dl) /\
    (Rabs (F2R (sample_array_read d dl)) <= bpow 96)%R.

End MixDefs.

(** ** Concrete inputs for the further theorems *)

(** Nine oscillators asked of an array of eight; and a count below
    zero. *)
Definition group_overfull : coupled_lfo_group := group_of idle_slots 9 f_half.

Definition group_negative : coupled_lfo_group :=
  group_of (repeat (763361994, 89478) 8) (-1) f_half.

(** Two oscillators half a turn apart. *)
Definition group_antiphase : coupled_lfo_group :=
  group_of ([(5, 7); (2 ^ 31 + 5, 7)] ++ repeat (0, 0) 6) 2 f_half.

(** A tremolo at half depth and one at depth zero, both on a 1 Hz
    sine. *)
Definition tremolo_half : tremolo.t :=
  tremolo.mk (lfo_state.mk 0 89478) f_half lfo_sinewave.

Definition tremolo_flat : tremolo.t :=
  tremolo.mk (lfo_state.mk 0 89478) F32.zero lfo_sinewave.

(** A delay line that holds silence, to evaluate [entrained_step] at
    concrete inputs. *)
Definition silent_line : effect_h :=
  Build_effect_h unit (fun _ _ => F32.zero) (fun _ dl => dl).

Definition entrained_locked : entrained.t :=
  entrained.mk group_locked (F32.of_Z 720) f_half f_half.

(** A delay line of one sample, which every read returns; and the
    chorus on the locked group with the mix at zero. *)
Definition hold_line : effect_h :=
  Build_effect_h float (fun _ dl => dl) (fun x _ => x).

Definition entrained_dry : entrained.t :=
  entrained.mk group_locked (F32.of_Z 720) f_half F32.zero.

(** The largest finite binary32 value, [(2^24 - 1) * 2^104]. *)
Definition f_max : float := S754_finite false (2 ^ 24 - 1) 104.

(** Three oscillators at three different phases, coupling 1/2. *)
Definition group_spread : coupled_lfo_group :=
  group_of ([(0, 89478); (2 ^ 30, 107374); (3000000000, 71583)] ++ repeat (0, 0) 5)
    3 f_half.

(** ** Basic facts *)

Lemma wrap32_is_u32 x : is_u32 (wrap32 x).
Proof. unfold is_u32, wrap32, TWO_POW_32. apply Z.mod_pos_bound. lia. Qed.

Lemma wrap32_small x : is_u32 x -> wrap32 x = x.
Proof. unfold is_u32, wrap32. intros Hx. now apply Z.mod_small. Qed.

Lemma neg_involutive (x : float) : (- - x)%f32 = x.
Proof. destruct x as [s|s| |s m e]; simpl; try reflexivity; now rewrite negb_involutive. Qed.

Section Facts.

Context `{T : sine_table} `{L : lfo_h}.

Lemma phase_sin_quadrant phase :
  phase_sin phase =
  quadrant_sign (Z.shiftr phase 30) (quarter_interp (quadrant_pos phase)).
Proof. reflexivity. Qed.

Lemma load_lfo_in_range (g : coupled_lfo_group) (i : Z) :
  Z.of_nat (length (lfos g)) = MAX_COUPLED_LFOS ->
  0 <= i < MAX_COUPLED_LFOS ->
  exists l, lfos g !! Z.to_nat i = Some l /\ load_lfo i g = Some (l, g).
Proof.
  intros Hlen Hi. unfold load_lfo.
  destruct (lfos g !! Z.to_nat i) as [l|] eqn:E.
  - exists l. split; [reflexivity|].
    replace ((0 <=? i) && (i <? MAX_COUPLED_LFOS)) with true; [reflexivity|].
    symmetry. apply andb_true_iff. split; [apply Z.leb_le | apply Z.ltb_lt]; lia.
  - apply lookup_ge_None in E. lia.
Qed.

Lemma load_lfo_phase (g : coupled_lfo_group) (i : Z) :
  Z.of_nat (length (lfos g)) = MAX_COUPLED_LFOS ->
  0 <= i < MAX_COUPLED_LFOS ->
  exists l, load_lfo i g = Some (l, g) /\ lfo_state.idx l = phase_at g i.
Proof.
  intros Hlen Hi. destruct (load_lfo_in_range g i Hlen Hi) as (l & E & Hl).
  exists l. split; [assumption|]. unfold phase_at. now rewrite E.
Qed.

Lemma store_lfo_in_range (g : coupled_lfo_group) (i : Z) (l : lfo_state.t) :
  Z.of_nat (length (lfos g)) = MAX_COUPLED_LFOS ->
  0 <= i < MAX_COUPLED_LFOS ->
  store_lfo i l g = Some (tt, set_lfo g i l).
Proof.
  intros Hlen Hi. unfold store_lfo.
  replace ((0 <=? i) && (i <? MAX_COUPLED_LFOS) && (Z.to_nat i <? length (lfos g))%nat)
    with true; [reflexivity|].
  symmetry. rewrite !andb_true_iff. repeat split.
  - apply Z.leb_le; lia.
  - apply Z.ltb_lt; lia.
  - apply Nat.ltb_lt. lia.
Qed.

(** The loop of [coupled_lfo_step] reads the group and leaves it as it
    is; its result is the sum written as a fold. *)
Lemma coupling_loop (g : coupled_lfo_group) (idx : Z) :
  Z.of_nat (length (lfos g)) = MAX_COUPLED_LFOS ->
  0 <= idx < MAX_COUPLED_LFOS ->
  forall (n : nat) (j : Z) (sum : float),
    0 <= j -> j + Z.of_nat n <= MAX_COUPLED_LFOS ->
    for_loop n j (coupling_term idx) sum g =
    Some (fold_left
            (fun sum j =>
               if j =? idx then sum
               else (sum + phase_sin (wrap32 (phase_at g j - phase_at g idx)))%f32)
            (seqZ j (Z.of_nat n)) sum, g).
Proof.
  intros Hlen Hidx. induction n as [|n IH]; intros j sum Hj Hn.
  - reflexivity.
  - rewrite seqZ_cons by lia.
    replace (Z.pred (Z.of_nat (S n))) with (Z.of_nat n) by lia.
    cbn [for_loop fold_left]. unfold bind at 1.
    assert (Hbody : coupling_term idx j sum g =
              Some ((if j =? idx then sum
                     else (sum + phase_sin (wrap32 (phase_at g j - phase_at g idx)))%f32), g)).
    { unfold coupling_term. destruct (j =? idx); [reflexivity|].
      destruct (load_lfo_phase g j Hlen) as (lj & Elj & <-); [lia|].
      destruct (load_lfo_phase g idx Hlen Hidx) as (li & Eli & <-).
      unfold bind. now rewrite Elj, Eli. }
    rewrite Hbody. apply IH; lia.
Qed.

Lemma order_loop (g : coupled_lfo_group) :
  Z.of_nat (length (lfos g)) = MAX_COUPLED_LFOS ->
  forall (n : nat) (j : Z) (acc : float * float),
    0 <= j -> j + Z.of_nat n <= MAX_COUPLED_LFOS ->
    for_loop n j order_term acc g =
    Some ((fold_left (fun cs i => (cs + phase_cos (phase_at g i))%f32)
             (seqZ j (Z.of_nat n)) (fst acc),
           fold_left (fun sn i => (sn + phase_sin (phase_at g i))%f32)
             (seqZ j (Z.of_nat n)) (snd acc)), g).
Proof.
  intros Hlen. induction n as [|n IH]; intros j acc Hj Hn.
  - destruct acc; reflexivity.
  - rewrite seqZ_cons by lia.
    replace (Z.pred (Z.of_nat (S n))) with (Z.of_nat n) by lia.
    cbn [for_loop fold_left]. unfold bind at 1.
    assert (Hbody : order_term j acc g =
              Some (((fst acc + phase_cos (phase_at g j))%f32,
                     (snd acc + phase_sin (phase_at g j))%f32), g)).
    { unfold order_term, bind.
      destruct (load_lfo_phase g j Hlen) as (lj & Elj & <-); [lia|].
      rewrite Elj. cbn iota beta. rewrite Elj. reflexivity. }
    rewrite Hbody. rewrite IH by lia. reflexivity.
Qed.

End Facts.

Section Stepping.

Context `{T : sine_table} `{L : lfo_h}.

Lemma seqZ_count (n : Z) : seqZ 0 (Z.of_nat (Z.to_nat n)) = seqZ 0 n.
Proof.
  destruct (Z.le_gt_cases 0 n) as [Hn|Hn].
  - now rewrite Z2Nat.id.
  - rewrite (seqZ_nil 0 n) by lia. replace (Z.to_nat n) with O by lia. reflexivity.
Qed.

Lemma set_lfo_twice (g : coupled_lfo_group) (i : Z) (l l' : lfo_state.t) :
  set_lfo (set_lfo g i l) i l' = set_lfo g i l'.
Proof. unfold set_lfo. cbn. now rewrite list_insert_insert_eq. Qed.

Lemma set_lfo_wf (g : coupled_lfo_group) (i : Z) (l : lfo_state.t) :
  group_wf g -> group_wf (set_lfo g i l).
Proof. unfold group_wf, set_lfo. cbn. now rewrite length_insert. Qed.

Lemma set_lfo_lookup (g : coupled_lfo_group) (i : Z) (l : lfo_state.t) :
  group_wf g -> 0 <= i < MAX_COUPLED_LFOS ->
  lfos (set_lfo g i l) !! Z.to_nat i = Some l.
Proof.
  unfold group_wf, set_lfo. intros Hwf Hi. cbn.
  apply list_lookup_insert_eq. lia.
Qed.

(** The call of [lfo_step] that ends [coupled_lfo_step]. *)
Lemma final_lfo_step (g : coupled_lfo_group) (idx : Z) (type : lfo_type) :
  group_wf g -> 0 <= idx < MAX_COUPLED_LFOS ->
  (do lfo <- load_lfo idx;
   let '(lfo', val) := lfo_step lfo type in
   run store_lfo idx lfo';
   ret val)%M g = standalone_step g idx type.
Proof.
  intros Hwf Hi. unfold standalone_step, bind.
  destruct (load_lfo_in_range g idx Hwf Hi) as (l & -> & ->).
  destruct (lfo_step l type) as [l' v]. cbn [fst snd].
  now rewrite store_lfo_in_range.
Qed.

(** Without the coupling block, [coupled_lfo_step] is [lfo_step] on the
    slot. *)
Lemma step_uncoupled (g : coupled_lfo_group) (idx : Z) (type : lfo_type) :
  group_wf g -> 0 <= idx < MAX_COUPLED_LFOS ->
  F32.ltb F32.zero (coupling g) && (1 <? count g) = false ->
  coupled_lfo_step idx type g = standalone_step g idx type.
Proof.
  intros Hwf Hi Hguard. unfold coupled_lfo_step.
  unfold bind at 1. unfold load_coupling at 1.
  unfold bind at 1. unfold load_count at 1.
  rewrite Hguard. unfold bind at 1. unfold ret at 1.
  now apply final_lfo_step.
Qed.

(** The coupling block: the sum, the adjustment, the conversion to
    [s32] and the addition to the phase. *)
Lemma coupling_adjust_eq (g : coupled_lfo_group) (idx : Z) (l : lfo_state.t) :
  group_wf g -> 0 <= idx < MAX_COUPLED_LFOS -> count g <= MAX_COUPLED_LFOS ->
  lfos g !! Z.to_nat idx = Some l ->
  coupling_adjust idx g =
  match F32.to_s32 (adjustment g idx * F32.of_Z (lfo_state.step l))%f32 with
  | Some d =>
      Some (tt, set_lfo g idx
                  (lfo_state.mk (wrap32 (lfo_state.idx l + d)) (lfo_state.step l)))
  | None => None
  end.
Proof.
  intros Hwf Hi Hcnt Hl. unfold coupling_adjust.
  unfold bind at 1. unfold load_count at 1.
  unfold bind at 1. rewrite (coupling_loop g idx Hwf Hi) by lia.
  rewrite seqZ_count. fold (coupling_sum g idx).
  unfold bind at 1. unfold load_coupling at 1.
  unfold bind at 1. unfold load_count at 1.
  fold (adjustment g idx).
  unfold bind at 1.
  destruct (load_lfo_in_range g idx Hwf Hi) as (l0 & El0 & ->).
  rewrite Hl in El0. injection El0 as <-.
  unfold bind.
  destruct (F32.to_s32 _) as [d|]; [|reflexivity].
  cbn [lift]. unfold ret at 1.
  now apply store_lfo_in_range.
Qed.

Lemma step_coupled (g : coupled_lfo_group) (idx : Z) (type : lfo_type) (l : lfo_state.t) :
  group_wf g -> 0 <= idx < MAX_COUPLED_LFOS -> count g <= MAX_COUPLED_LFOS ->
  lfos g !! Z.to_nat idx = Some l ->
  F32.ltb F32.zero (coupling g) && (1 <? count g) = true ->
  coupled_lfo_step idx type g =
  match F32.to_s32 (adjustment g idx * F32.of_Z (lfo_state.step l))%f32 with
  | Some d =>
      let l' := lfo_state.mk (wrap32 (lfo_state.idx l + d)) (lfo_state.step l) in
      Some (snd (lfo_step l' type), set_lfo g idx (fst (lfo_step l' type)))
  | None => None
  end.
Proof.
  intros Hwf Hi Hcnt Hl Hguard. unfold coupled_lfo_step.
  unfold bind at 1. unfold load_coupling at 1.
  unfold bind at 1. unfold load_count at 1.
  rewrite Hguard. unfold bind at 1.
  rewrite (coupling_adjust_eq g idx l Hwf Hi Hcnt Hl).
  destruct (F32.to_s32 _) as [d|]; [|reflexivity].
  cbv zeta.
  rewrite final_lfo_step by (auto using set_lfo_wf).
  unfold standalone_step. rewrite set_lfo_lookup by assumption.
  now rewrite set_lfo_twice.
Qed.

Lemma zero_not_positive (K : float) : F32.eqb K F32.zero = true -> F32.ltb F32.zero K = false.
Proof. destruct K as [s|s| |s m e]; try destruct s; cbn; congruence. Qed.

Lemma negative_not_positive (K : float) : F32.ltb K F32.zero = true -> F32.ltb F32.zero K = false.
Proof. destruct K as [s|s| |s m e]; try destruct s; cbn; congruence. Qed.

Lemma order_parameter_eq (g : coupled_lfo_group) :
  group_wf g -> count g <= MAX_COUPLED_LFOS ->
  coupled_lfo_order_parameter g =
  Some (if count g =? 0 then F32.zero else mean_vector_magnitude g, g).
Proof.
  intros Hwf Hcnt. unfold coupled_lfo_order_parameter.
  unfold bind at 1. unfold load_count at 1.
  destruct (count g =? 0) eqn:E; [reflexivity|].
  unfold bind at 1. unfold load_count at 1.
  unfold bind at 1. rewrite (order_loop g Hwf) by (unfold MAX_COUPLED_LFOS in *; lia).
  rewrite seqZ_count. reflexivity.
Qed.

End Stepping.

(** ** The claims *)

Section Claims.

Context `{T : sine_table} `{L : lfo_h}.

(** C8: for every 32-bit phase [p], the table-based cosine is the
    table-based sine a quarter turn later,
    [phase_cos p = phase_sin (p + 2^30)] with the addition wrapping
    modulo 2^32; the cosine reads the same table through [phase_sin]. *)
Theorem phase_cos_quarter_turn (p : Z) :
  phase_cos p = phase_sin ((p + 2 ^ 30) mod 2 ^ 32).
Proof. reflexivity. Qed.

(** C2: in a group with coupling == 0 or count <= 1, stepping slot
    [idx] in [0, count) returns the very sample [lfo_step] returns on
    that oscillator alone and leaves that oscillator in the state
    [lfo_step] leaves it in; nothing of the other slots enters the
    result. *)
Theorem zero_coupling_is_standalone (g : coupled_lfo_group) (idx : Z) (type : lfo_type) :
  group_wf g ->
  F32.eqb (coupling g) F32.zero = true \/ count g <= 1 ->
  0 <= idx < count g -> count g <= MAX_COUPLED_LFOS ->
  exists l,
    lfos g !! Z.to_nat idx = Some l /\
    coupled_lfo_step idx type g =
    Some (snd (lfo_step l type), set_lfo g idx (fst (lfo_step l type))).
Proof.
  intros Hwf Hzero Hidx Hcnt.
  assert (Hi : 0 <= idx < MAX_COUPLED_LFOS) by lia.
  destruct (load_lfo_in_range g idx Hwf Hi) as (l & Hl & _).
  exists l. split; [assumption|].
  rewrite step_uncoupled; [unfold standalone_step; now rewrite Hl|assumption..|].
  destruct Hzero as [HK|Hc].
  - now rewrite (zero_not_positive _ HK).
  - apply andb_false_iff. right. apply Z.ltb_ge. lia.
Qed.

(** C10: in a group whose coupling is strictly negative the guard
    [coupling > 0] fails, the coupling block is skipped, and stepping
    slot [idx] in [0, count) is [lfo_step] on that oscillator alone. *)
Theorem negative_coupling_is_standalone (g : coupled_lfo_group) (idx : Z) (type : lfo_type) :
  group_wf g ->
  F32.ltb (coupling g) F32.zero = true ->
  0 <= idx < count g -> count g <= MAX_COUPLED_LFOS ->
  exists l,
    lfos g !! Z.to_nat idx = Some l /\
    coupled_lfo_step idx type g =
    Some (snd (lfo_step l type), set_lfo g idx (fst (lfo_step l type))).
Proof.
  intros Hwf Hneg Hidx Hcnt.
  assert (Hi : 0 <= idx < MAX_COUPLED_LFOS) by lia.
  destruct (load_lfo_in_range g idx Hwf Hi) as (l & Hl & _).
  exists l. split; [assumption|].
  rewrite step_uncoupled; [unfold standalone_step; now rewrite Hl|assumption..|].
  now rewrite (negative_not_positive _ Hneg).
Qed.

(** C1, amended: in a group with coupling > 0 and 2 <= count <= 8, for
    [idx] in [0, count), [coupled_lfo_step] forms the sum S of
    [phase_sin (phase[j] - phase[idx])] over j <> idx (wrapping
    difference), the adjustment coupling * S / count, converts
    adjustment * increment[idx] to [s32] by truncation toward zero
    (defined when the integral part fits 32 signed bits), adds that to
    the phase, and then runs the oscillator's own [lfo_step] on the
    result. *)
Theorem positive_coupling_step
  (g : coupled_lfo_group) (idx : Z) (type : lfo_type) (l : lfo_state.t) (d : Z) :
  group_wf g ->
  F32.ltb F32.zero (coupling g) = true ->
  2 <= count g <= MAX_COUPLED_LFOS ->
  0 <= idx < count g ->
  lfos g !! Z.to_nat idx = Some l ->
  F32.trunc (adjustment g idx * F32.of_Z (lfo_state.step l))%f32 = Some d ->
  - 2 ^ 31 <= d < 2 ^ 31 ->
  let l' := lfo_state.mk (wrap32 (lfo_state.idx l + d)) (lfo_state.step l) in
  coupled_lfo_step idx type g =
  Some (snd (lfo_step l' type), set_lfo g idx (fst (lfo_step l' type))).
Proof.
  intros Hwf HK Hcnt Hidx Hl Hd Hrange l'.
  rewrite (step_coupled g idx type l); try assumption; try lia.
  - unfold F32.to_s32. rewrite Hd.
    replace ((- 2 ^ 31 <=? d) && (d <? 2 ^ 31)) with true; [reflexivity|].
    symmetry. apply andb_true_iff. split; [apply Z.leb_le | apply Z.ltb_lt]; lia.
  - rewrite HK. apply Z.ltb_lt. lia.
Qed.


(** C7: [coupled_lfo_order_parameter] is a pure read.  On every group
    with count <= 8 it returns with the group exactly as it was (every
    phase and increment, count and coupling), so any number of calls
    placed before any continuation, a step in particular, leave the
    continuation's result as it is. *)
Theorem order_parameter_pure_read (g : coupled_lfo_group) :
  group_wf g -> count g <= MAX_COUPLED_LFOS ->
  (exists r, coupled_lfo_order_parameter g = Some (r, g)) /\
  (forall n : nat, poll_order_parameter n g = Some (tt, g)) /\
  (forall (n : nat) (idx : Z) (type : lfo_type),
      (run poll_order_parameter n; coupled_lfo_step idx type)%M g =
      coupled_lfo_step idx type g).
Proof.
  intros Hwf Hcnt.
  assert (Hpoll : forall n : nat, poll_order_parameter n g = Some (tt, g)).
  { induction n as [|n IH]; [reflexivity|].
    cbn [poll_order_parameter]. unfold bind.
    now rewrite (order_parameter_eq g Hwf Hcnt). }
  split; [|split].
  - eexists. apply (order_parameter_eq g Hwf Hcnt).
  - exact Hpoll.
  - intros n idx type. unfold bind. now rewrite Hpoll.
Qed.

End Claims.

Section Antisymmetry.

Context `{T : sine_table}.

(** Quadrant number and in-quadrant offset of a phase, in the code's
    shifts. *)
Lemma quadrant_split (k r : Z) :
  0 <= k < 4 -> 0 <= r < 2 ^ 30 ->
  Z.shiftr (k * 2 ^ 30 + r) 30 = k /\
  wrap32 (Z.shiftl (k * 2 ^ 30 + r) 2) = 4 * r.
Proof.
  intros Hk Hr. rewrite Z.shiftr_div_pow2, Z.shiftl_mul_pow2 by lia.
  unfold wrap32, TWO_POW_32.
  change (2 ^ 30) with 1073741824 in *. change (2 ^ 32) with 4294967296.
  change (2 ^ 2) with 4.
  split; Z.div_mod_to_equations; lia.
Qed.

Lemma quadrant_pos_split (k r : Z) :
  0 <= k < 4 -> 0 <= r < 2 ^ 30 ->
  quadrant_pos (k * 2 ^ 30 + r) =
  if negb (Z.land k 1 =? 0) then u32_not (4 * r) else 4 * r.
Proof.
  intros Hk Hr. unfold quadrant_pos.
  destruct (quadrant_split k r Hk Hr) as [-> ->]. reflexivity.
Qed.

(** Where the odd symmetry of [phase_sin] stops: for 32-bit phases
    [p], [q] whose wrapping difference [d = p - q] is not a multiple of
    a quarter turn, [phase_sin (q - p)] is the exact negative of the
    value [phase_sin] gives in the quadrant of [d] at the in-quadrant
    position next to the one used for [d] (one below in quadrants 0 and
    2, one above in quadrants 1 and 3), not of [phase_sin (p - q)]
    itself: the mirror [~phase] is one unit off the exact reflection. *)
Lemma phase_sin_opposite_difference (p q : Z) :
  is_u32 p -> is_u32 q ->
  wrap32 (p - q) mod 2 ^ 30 <> 0 ->
  let d := wrap32 (p - q) in
  let quarter := Z.shiftr d 30 in
  phase_sin d = quadrant_sign quarter (quarter_interp (quadrant_pos d)) /\
  phase_sin (wrap32 (q - p)) =
  (- quadrant_sign quarter
       (quarter_interp
          (quadrant_pos d + (if Z.land quarter 1 =? 0 then -1 else 1))))%f32.
Proof.
  intros Hp Hq Hd d quarter. split; [reflexivity|].
  assert (Hdu : is_u32 d) by apply wrap32_is_u32.
  set (k := d / 2 ^ 30). set (r := d mod 2 ^ 30).
  assert (Hsplit : d = k * 2 ^ 30 + r).
  { unfold k, r. rewrite Z.mul_comm. apply Z.div_mod. lia. }
  assert (Hr : 0 < r < 2 ^ 30).
  { unfold r. pose proof (Z.mod_pos_bound d (2 ^ 30) ltac:(lia)). fold d in Hd. lia. }
  assert (Hk : 0 <= k < 4).
  { unfold is_u32, TWO_POW_32 in Hdu. unfold k.
    change (2 ^ 30) with 1073741824 in *. change (2 ^ 32) with 4294967296 in *.
    Z.div_mod_to_equations. lia. }
  assert (Hopp : wrap32 (q - p) = (3 - k) * 2 ^ 30 + (2 ^ 30 - r)).
  { assert (Hd0 : d <> 0).
    { intros E. apply Hd. fold d. rewrite E. reflexivity. }
    unfold wrap32 in *. replace (q - p) with (- (p - q)) by lia.
    rewrite Z.mod_opp_l_nz; [|unfold TWO_POW_32; lia|exact Hd0].
    fold d. rewrite Hsplit. unfold TWO_POW_32.
    change (2 ^ 30) with 1073741824. change (2 ^ 32) with 4294967296. lia. }
  rewrite Hopp, phase_sin_quadrant.
  assert (Hk' : 0 <= 3 - k < 4) by lia.
  assert (Hr' : 0 <= 2 ^ 30 - r < 2 ^ 30) by lia.
  destruct (quadrant_split (3 - k) (2 ^ 30 - r) Hk' Hr') as [Eq _].
  rewrite Eq, (quadrant_pos_split (3 - k) (2 ^ 30 - r) Hk' Hr').
  unfold quarter. rewrite Hsplit.
  destruct (quadrant_split k r ltac:(lia) ltac:(lia)) as [Eq' _].
  rewrite Eq', (quadrant_pos_split k r) by lia.
  unfold quadrant_sign, u32_not, TWO_POW_32.
  change (2 ^ 30) with 1073741824 in *. change (2 ^ 32) with 4294967296.
  assert (Hcases : k = 0 \/ k = 1 \/ k = 2 \/ k = 3) by lia.
  destruct Hcases as [-> | [-> | [-> | ->]]];
    repeat match goal with
      | |- context [Z.land ?a ?b =? 0] =>
          let v := eval vm_compute in (Z.land a b =? 0) in
          change (Z.land a b =? 0) with v
      end;
    cbn [negb]; rewrite ?neg_involutive; repeat f_equal; lia.
Qed.

End Antisymmetry.

(** * Numerical theory *)

(** ** Rounding to binary32, on integers *)

(* digits *)
Lemma digits2_pos_size (p : positive) : digits2_pos p = Pos.size p.
Proof. induction p; simpl; congruence. Qed.

Lemma Zdigits2_bounds (p : positive) :
  2 ^ (Zpos (digits2_pos p) - 1) <= Zpos p < 2 ^ Zpos (digits2_pos p).
Proof.
  rewrite digits2_pos_size. split.
  - pose proof (Pos.size_le p) as H.
    assert (E : Zpos (2 ^ Pos.size p) = 2 ^ Zpos (Pos.size p)) by apply Pos2Z.inj_pow.
    replace (Zpos (Pos.size p)) with (Z.succ (Zpos (Pos.size p) - 1)) in E by lia.
    rewrite Z.pow_succ_r in E by lia. lia.
  - pose proof (Pos.size_gt p) as H.
    assert (E : Zpos (2 ^ Pos.size p) = 2 ^ Zpos (Pos.size p)) by apply Pos2Z.inj_pow.
    lia.
Qed.

Lemma Zdigits2_nonneg (m : Z) : 0 <= Zdigits2 m.
Proof. destruct m; simpl; lia. Qed.

Lemma Zdigits2_upper (m : Z) : 0 <= m -> m < 2 ^ Zdigits2 m.
Proof.
  destruct m as [|p|p]; intros H; simpl; try lia.
  apply Zdigits2_bounds.
Qed.

Lemma Zdigits2_lower (m : Z) : 0 < m -> 2 ^ (Zdigits2 m - 1) <= m.
Proof.
  destruct m as [|p|p]; intros H; simpl; try lia.
  apply Zdigits2_bounds.
Qed.

Lemma Zdigits2_le (m : Z) (k : Z) : 0 <= k -> 0 <= m < 2 ^ k -> Zdigits2 m <= k.
Proof.
  intros Hk [H0 H]. destruct (Z.eq_dec m 0) as [->|Hm]; [simpl; lia|].
  pose proof (Zdigits2_lower m ltac:(lia)) as Hl.
  destruct (Z.le_gt_cases (Zdigits2 m) k) as [|Hgt]; [assumption|exfalso].
  assert (2 ^ k <= 2 ^ (Zdigits2 m - 1)) by (apply Z.pow_le_mono_r; lia).
  lia.
Qed.

Lemma shr_1_m (mrs : shr_record) : 0 <= shr_m mrs -> shr_m (shr_1 mrs) = shr_m mrs / 2.
Proof.
  destruct mrs as [m r s]. cbn [shr_m]. intros Hm.
  destruct m as [|p|p]; [reflexivity| |lia].
  destruct p as [p|p|]; cbn [shr_1 shr_m].
  - rewrite Pos2Z.inj_xI. Z.div_mod_to_equations. lia.
  - rewrite Pos2Z.inj_xO. Z.div_mod_to_equations. lia.
  - reflexivity.
Qed.

Lemma shr_1_exact (mrs : shr_record) :
  0 <= shr_m mrs -> flags_clear mrs -> shr_m mrs mod 2 = 0 -> flags_clear (shr_1 mrs).
Proof.
  destruct mrs as [m r s]. unfold flags_clear. cbn [shr_m shr_r shr_s].
  intros Hm [-> ->] Hmod.
  destruct m as [|p|p]; [split; reflexivity| |lia].
  destruct p as [p|p|]; cbn [shr_1 shr_r shr_s orb].
  - rewrite Pos2Z.inj_xI in Hmod. exfalso. Z.div_mod_to_equations. lia.
  - split; reflexivity.
  - discriminate Hmod.
Qed.

Lemma pow2_xI (p : positive) : 2 ^ Zpos p~1 = 2 * (2 ^ Zpos p * 2 ^ Zpos p).
Proof.
  replace (Zpos p~1) with (1 + Zpos p + Zpos p) by lia.
  rewrite !Z.pow_add_r by lia. change (2 ^ 1) with 2. lia.
Qed.

Lemma pow2_xO (p : positive) : 2 ^ Zpos p~0 = 2 ^ Zpos p * 2 ^ Zpos p.
Proof.
  replace (Zpos p~0) with (Zpos p + Zpos p) by lia.
  rewrite Z.pow_add_r by lia. reflexivity.
Qed.

Lemma iter_pos_shr_m (p : positive) : forall mrs,
  0 <= shr_m mrs -> shr_m (SpecFloat.iter_pos shr_1 p mrs) = shr_m mrs / 2 ^ Zpos p.
Proof.
  induction p as [p IH|p IH|]; intros mrs Hm; cbn [SpecFloat.iter_pos].
  - assert (H1 : 0 <= shr_m (shr_1 mrs)).
    { rewrite shr_1_m by assumption. apply Z.div_pos; lia. }
    assert (H2 : 0 <= shr_m (SpecFloat.iter_pos shr_1 p (shr_1 mrs))).
    { rewrite IH by assumption. apply Z.div_pos; lia. }
    rewrite IH, IH, shr_1_m by assumption.
    rewrite !Z.div_div by lia.
    f_equal. rewrite pow2_xI. lia.
  - assert (H2 : 0 <= shr_m (SpecFloat.iter_pos shr_1 p mrs)).
    { rewrite IH by assumption. apply Z.div_pos; lia. }
    rewrite IH, IH by assumption.
    rewrite !Z.div_div by lia.
    f_equal. rewrite pow2_xO. lia.
  - rewrite shr_1_m by assumption. reflexivity.
Qed.

Lemma iter_pos_shr_exact (p : positive) : forall mrs,
  0 <= shr_m mrs -> flags_clear mrs -> shr_m mrs mod 2 ^ Zpos p = 0 ->
  flags_clear (SpecFloat.iter_pos shr_1 p mrs).
Proof.
  induction p as [p IH|p IH|]; intros mrs Hm Hc Hmod; cbn [SpecFloat.iter_pos].
  - rewrite pow2_xI in Hmod.
    pose proof (Z.pow_pos_nonneg 2 (Zpos p) ltac:(lia) ltac:(lia)) as Hpow.
    assert (Hdiv : exists k, shr_m mrs = k * (2 * (2 ^ Zpos p * 2 ^ Zpos p))).
    { exists (shr_m mrs / (2 * (2 ^ Zpos p * 2 ^ Zpos p))).
      Z.div_mod_to_equations. nia. }
    destruct Hdiv as [k Hk].
    assert (H1 : 0 <= shr_m (shr_1 mrs)).
    { rewrite shr_1_m by assumption. apply Z.div_pos; lia. }
    assert (E1 : shr_m (shr_1 mrs) = k * 2 ^ Zpos p * 2 ^ Zpos p).
    { rewrite shr_1_m by assumption. rewrite Hk.
      replace (k * (2 * (2 ^ Zpos p * 2 ^ Zpos p))) with ((k * 2 ^ Zpos p * 2 ^ Zpos p) * 2) by lia.
      apply Z.div_mul. lia. }
    assert (C1 : flags_clear (shr_1 mrs)).
    { apply shr_1_exact; try assumption. rewrite Hk.
      replace (k * (2 * (2 ^ Zpos p * 2 ^ Zpos p))) with ((k * 2 ^ Zpos p * 2 ^ Zpos p) * 2) by lia.
      apply Z.mod_mul. lia. }
    assert (H2 : 0 <= shr_m (SpecFloat.iter_pos shr_1 p (shr_1 mrs))).
    { rewrite iter_pos_shr_m by assumption. apply Z.div_pos; lia. }
    apply IH; [assumption| |].
    + apply IH; [assumption..|]. rewrite E1. apply Z.mod_mul. lia.
    + rewrite iter_pos_shr_m by assumption. rewrite E1, Z.div_mul by lia.
      apply Z.mod_mul. lia.
  - rewrite pow2_xO in Hmod.
    pose proof (Z.pow_pos_nonneg 2 (Zpos p) ltac:(lia) ltac:(lia)) as Hpow.
    assert (Hdiv : exists k, shr_m mrs = k * 2 ^ Zpos p * 2 ^ Zpos p).
    { exists (shr_m mrs / (2 ^ Zpos p * 2 ^ Zpos p)).
      Z.div_mod_to_equations. nia. }
    destruct Hdiv as [k Hk].
    assert (H2 : 0 <= shr_m (SpecFloat.iter_pos shr_1 p mrs)).
    { rewrite iter_pos_shr_m by assumption. apply Z.div_pos; lia. }
    apply IH; [assumption| |].
    + apply IH; [assumption..|]. rewrite Hk. apply Z.mod_mul. lia.
    + rewrite iter_pos_shr_m by assumption. rewrite Hk, Z.div_mul by lia.
      apply Z.mod_mul. lia.
  - apply shr_1_exact; assumption.
Qed.

Lemma round_nearest_even_range (q : Z) (l : location) :
  q <= round_nearest_even q l <= q + 1.
Proof.
  destruct l as [|c]; cbn; [lia|].
  destruct c; [destruct (Z.even q)|..]; lia.
Qed.

Lemma loc_of_shr_record_of_loc (m : Z) (l : location) :
  loc_of_shr_record (shr_record_of_loc m l) = l.
Proof. destruct l as [|[]]; reflexivity. Qed.

Lemma shr_m_of_loc (m : Z) (l : location) : shr_m (shr_record_of_loc m l) = m.
Proof. destruct l as [|[]]; reflexivity. Qed.

Lemma loc_of_flags_clear (mrs : shr_record) :
  flags_clear mrs -> loc_of_shr_record mrs = loc_Exact.
Proof. destruct mrs as [m r s]. intros [H1 H2]. cbn in *. subst. reflexivity. Qed.

(* first shift *)
Lemma first_shift (m e : Z) (l : location) :
  0 <= m ->
  let n := round_shift m e in
  exists mrs,
    shr_fexp prec emax m e l = (mrs, e + n) /\
    shr_m mrs = m / 2 ^ n /\
    (l = loc_Exact -> m mod 2 ^ n = 0 -> loc_of_shr_record mrs = loc_Exact).
Proof.
  intros Hm n. unfold shr_fexp, shr. unfold n, round_shift.
  destruct (fexp prec emax (Zdigits2 m + e) - e) as [|p|p] eqn:Ea.
  - exists (shr_record_of_loc m l). rewrite Z.max_l by lia.
    rewrite Z.add_0_r, Z.div_1_r, shr_m_of_loc, loc_of_shr_record_of_loc.
    repeat split; auto.
  - exists (SpecFloat.iter_pos shr_1 p (shr_record_of_loc m l)).
    rewrite Z.max_r by lia.
    rewrite iter_pos_shr_m by (rewrite shr_m_of_loc; assumption).
    rewrite shr_m_of_loc. repeat split.
    intros -> Hmod. apply loc_of_flags_clear, iter_pos_shr_exact.
    + assumption.
    + split; reflexivity.
    + assumption.
  - exists (shr_record_of_loc m l). rewrite Z.max_l by lia.
    rewrite Z.add_0_r, Z.div_1_r, shr_m_of_loc, loc_of_shr_record_of_loc.
    repeat split; auto.
Qed.

Lemma first_shift_bounds (m e : Z) :
  0 <= m ->
  let n := round_shift m e in
  0 <= n /\ emin prec emax <= e + n /\ 0 <= m / 2 ^ n < 2 ^ prec.
Proof.
  intros Hm n. unfold n, round_shift, fexp.
  pose proof (Zdigits2_upper m Hm) as Hu.
  pose proof (Zdigits2_nonneg m) as Hd.
  set (d := Zdigits2 m) in *.
  assert (Hn : 0 <= Z.max 0 (Z.max (d + e - prec) (emin prec emax) - e)) by lia.
  split; [assumption|]. split; [lia|].
  split; [apply Z.div_pos; [lia|apply Z.pow_pos_nonneg; lia]|].
  apply Z.div_lt_upper_bound; [apply Z.pow_pos_nonneg; lia|].
  rewrite <- Z.pow_add_r by (unfold prec; lia).
  eapply Z.lt_le_trans; [exact Hu|].
  apply Z.pow_le_mono_r; lia.
Qed.

(* second shift: only when the mantissa reached 2^prec *)
Lemma second_shift (m1 e' : Z) :
  0 <= m1 <= 2 ^ prec -> emin prec emax <= e' ->
  exists mz ez,
    shr_fexp prec emax m1 e' loc_Exact = (Build_shr_record mz false false, ez) /\
    e' <= ez <= e' + 1 /\ m1 = mz * 2 ^ (ez - e') /\ 0 <= mz < 2 ^ prec.
Proof.
  intros [H0 H1] He. unfold shr_fexp.
  destruct (Z.eq_dec m1 (2 ^ prec)) as [->|Hne].
  - change (Zdigits2 (2 ^ prec)) with 25. unfold fexp.
    replace (Z.max (25 + e' - prec) (emin prec emax) - e') with 1 by (unfold prec in *; lia).
    exists (2 ^ 23), (e' + 1). cbn. repeat split; try lia.
    replace (e' + 1 - e') with 1 by lia. reflexivity.
  - assert (Hd : Zdigits2 m1 <= prec).
    { apply Zdigits2_le; [unfold prec; lia|lia]. }
    unfold shr, fexp.
    destruct (Z.max (Zdigits2 m1 + e' - prec) (emin prec emax) - e') as [|p|p] eqn:Ea;
      try lia.
    + exists m1, e'. change (2 ^ prec) with 16777216 in *.
      cbn. repeat split; try lia.
      rewrite Z.sub_diag. cbn. lia.
    + exists m1, e'. change (2 ^ prec) with 16777216 in *.
      cbn. repeat split; try lia.
      rewrite Z.sub_diag. cbn. lia.
Qed.

Lemma round_aux_Z (m e : Z) (l : location) :
  0 <= m ->
  let n := round_shift m e in
  e + n < emax - prec ->
  exists m1,
    m / 2 ^ n <= m1 <= m / 2 ^ n + 1 /\
    (l = loc_Exact -> m mod 2 ^ n = 0 -> m1 = m / 2 ^ n) /\
    represents (binary_round_aux prec emax false m e l) m1 (e + n).
Proof.
  intros Hm n Hov.
  destruct (first_shift m e l Hm) as (mrs & E1 & Hq & Hex). fold n in E1, Hq, Hex.
  destruct (first_shift_bounds m e Hm) as (Hn & Hemin & Hqb). fold n in Hn, Hemin, Hqb.
  set (m1 := round_nearest_even (shr_m mrs) (loc_of_shr_record mrs)).
  pose proof (round_nearest_even_range (shr_m mrs) (loc_of_shr_record mrs)) as Hr.
  fold m1 in Hr. rewrite Hq in Hr.
  exists m1. split; [assumption|]. split.
  { intros Hl Hmod. unfold m1. rewrite (Hex Hl Hmod). cbn. assumption. }
  destruct (second_shift m1 (e + n)) as (mz & ez & E2 & Hez & Hval & Hmz); [lia|assumption|].
  unfold binary_round_aux. rewrite E1. fold m1. rewrite E2. cbn [shr_m].
  destruct mz as [|pz|pz]; [|..|lia].
  - cbn. lia.
  - replace (ez <=? emax - prec) with true by (symmetry; apply Z.leb_le; lia).
    cbn [represents]. repeat split; try lia.
Qed.

Lemma round_shift_cases (m e : Z) :
  let n := round_shift m e in
  (n = 0 /\ Zdigits2 m + e - prec <= e /\ emin prec emax <= e) \/
  (0 < n /\
   (e + n = Zdigits2 m + e - prec \/ e + n = emin prec emax)).
Proof.
  cbv zeta. unfold round_shift, fexp.
  change IntDef.Z.max with Z.max. change IntDef.Z.sub with Z.sub.
  set (d := Zdigits2 m). set (em := emin prec emax). set (p := prec).
  lia.
Qed.

(** ** Real values of floats *)

Section RealValue.

Local Open Scope R_scope.

Lemma bpow_pos (e : Z) : 0 < bpow e.
Proof. apply powerRZ_lt. lra. Qed.

Lemma bpow_add (a b : Z) : bpow (a + b) = bpow a * bpow b.
Proof. apply powerRZ_add. lra. Qed.

Lemma bpow_0 : bpow 0 = 1.
Proof. reflexivity. Qed.

Lemma bpow_IZR (k : Z) : (0 <= k)%Z -> IZR (2 ^ k) = bpow k.
Proof.
  intros Hk. unfold bpow.
  rewrite <- (Z2Nat.id k Hk) at 1 2.
  rewrite <- pow_IZR, <- pow_powerRZ. reflexivity.
Qed.

Lemma bpow_le (a b : Z) : (a <= b)%Z -> bpow a <= bpow b.
Proof.
  intros H. replace b with (a + (b - a))%Z by lia.
  rewrite bpow_add. rewrite <- (bpow_IZR (b - a)) by lia.
  pose proof (bpow_pos a).
  assert (1 <= IZR (2 ^ (b - a))).
  { apply IZR_le. pose proof (Z.pow_pos_nonneg 2 (b - a)). lia. }
  nra.
Qed.

Lemma bpow_lt (a b : Z) : (a < b)%Z -> bpow a < bpow b.
Proof.
  intros H. replace b with (a + (b - a))%Z by lia.
  rewrite bpow_add. rewrite <- (bpow_IZR (b - a)) by lia.
  pose proof (bpow_pos a).
  assert (2 <= IZR (2 ^ (b - a))).
  { apply IZR_le. replace (b - a)%Z with (Z.succ (b - a - 1)) by lia.
    rewrite Z.pow_succ_r by lia. pose proof (Z.pow_pos_nonneg 2 (b - a - 1)). lia. }
  nra.
Qed.

Lemma represents_F2R (z : spec_float) (M E : Z) :
  represents z M E -> nonneg_finite z /\ F2R z = IZR M * bpow E.
Proof.
  destruct z as [[|]|[|]| |[|] mz ez]; cbn [represents F2R nonneg_finite cond_Zopp]; try tauto.
  - intros ->. split; [trivial|lra].
  - intros (HE & -> & Hb1 & Hb2). split; [split; assumption|].
    rewrite mult_IZR, bpow_IZR by lia.
    rewrite Rmult_assoc, <- bpow_add. f_equal. f_equal. lia.
Qed.

Lemma bpow_lt_inv (a b : Z) : bpow a < bpow b -> (a < b)%Z.
Proof.
  intros H. destruct (Z.lt_ge_cases a b) as [|Hge]; [assumption|exfalso].
  pose proof (bpow_le b a Hge). lra.
Qed.

Lemma IZR_pow2_le_digits (m : Z) :
  (0 < m)%Z -> bpow (Zdigits2 m - 1) <= IZR m.
Proof.
  intros Hm. pose proof (Zdigits2_lower m Hm) as H.
  assert (Hd : (0 <= Zdigits2 m - 1)%Z).
  { destruct m as [|p|p]; [lia| |lia]. cbn [Zdigits2]. lia. }
  rewrite <- bpow_IZR by assumption. now apply IZR_le.
Qed.

(** Rounding of [m * 2^e] at an exact location. *)
Lemma round_exact_R (m e : Z) :
  (0 < m)%Z -> IZR m * bpow e < bpow 100 ->
  let z := binary_round_aux prec emax false m e loc_Exact in
  let v := IZR m * bpow e in
  nonneg_finite z /\
  Rabs (F2R z - v) <= v * bpow (-23) + bpow (-149) /\
  (forall (Mb : positive) (Eb : Z),
      (Zpos Mb < 2 ^ prec)%Z -> (emin prec emax <= Eb)%Z ->
      v <= IZR (Zpos Mb) * bpow Eb -> F2R z <= IZR (Zpos Mb) * bpow Eb).
Proof.
  intros Hm Hv z v. unfold v. clear v. remember (IZR m * bpow e) as v eqn:Ev.
  pose proof (bpow_pos e) as Hbe.
  pose proof (IZR_pow2_le_digits m Hm) as Hdig.
  set (d := Zdigits2 m) in *.
  assert (Hm1 : 1 <= IZR m) by (apply IZR_le; lia).
  assert (Hv0 : 0 < v) by (rewrite Ev; apply Rmult_lt_0_compat; lra).
  assert (He100 : (e < 100)%Z).
  { apply bpow_lt_inv. eapply Rle_lt_trans; [|exact Hv]. nra. }
  assert (Hde : bpow (d - 1 + e) <= v).
  { rewrite bpow_add. nra. }
  assert (Hd100 : (d - 1 + e < 100)%Z).
  { apply bpow_lt_inv. lra. }
  set (n := round_shift m e).
  assert (Hov : (e + n < emax - prec)%Z).
  { unfold n, round_shift, fexp, emin, emax, prec. fold d. lia. }
  destruct (round_aux_Z m e loc_Exact ltac:(lia) Hov) as (m1 & Hrange & Hexact & Hrep).
  fold n in Hrange, Hexact, Hrep. fold z in Hrep.
  apply represents_F2R in Hrep. destruct Hrep as [Hfin HF].
  split; [assumption|].
  pose proof (first_shift_bounds m e ltac:(lia)) as (Hn0 & _ & _). fold n in Hn0.
  assert (Hpow : (0 < 2 ^ n)%Z) by (apply Z.pow_pos_nonneg; lia).
  assert (Hgrid : bpow (e + n) = IZR (2 ^ n) * bpow e).
  { rewrite Z.add_comm, bpow_add, bpow_IZR by assumption. reflexivity. }
  assert (Hq : (m / 2 ^ n * 2 ^ n <= m < (m / 2 ^ n + 1) * 2 ^ n)%Z).
  { Z.div_mod_to_equations. nia. }
  destruct (round_shift_cases m e) as [(Hn & _ & _)|(Hn & Hcase)]; fold n in Hn.
  - (* no shift: exact *)
    assert (E : m1 = m).
    { rewrite Hexact; [|reflexivity|]; rewrite Hn; [apply Z.div_1_r|apply Z.mod_1_r]. }
    assert (HFv : F2R z = v).
    { rewrite HF, E, Hn, Z.add_0_r. now rewrite Ev. }
    split.
    + rewrite HFv. replace (v - v) with 0 by lra. rewrite Rabs_R0.
      pose proof (bpow_pos (-23)). pose proof (bpow_pos (-149)). nra.
    + intros Mb Eb _ _ Hle. lra.
  - fold n d in Hcase.
    assert (Hulp : bpow (e + n) <= v * bpow (-23) + bpow (-149)).
    { pose proof (bpow_pos (-23)). pose proof (bpow_pos (-149)).
      destruct Hcase as [-> | ->].
      - replace (d + e - prec)%Z with ((d - 1 + e) + (-23))%Z by (unfold prec; lia).
        rewrite bpow_add. nra.
      - change (emin prec emax) with (-149)%Z. nra. }
    assert (Hm1r : IZR (m / 2 ^ n) <= IZR m1 <= IZR (m / 2 ^ n) + 1).
    { split; [apply IZR_le; lia|]. rewrite <- plus_IZR. apply IZR_le. lia. }
    assert (Hqr : IZR (m / 2 ^ n) * IZR (2 ^ n) <= IZR m < (IZR (m / 2 ^ n) + 1) * IZR (2 ^ n)).
    { rewrite <- plus_IZR, <- !mult_IZR. split; [apply IZR_le|apply IZR_lt]; lia. }
    assert (Hp2 : 0 < IZR (2 ^ n)) by (apply IZR_lt; lia).
    split.
    + assert (HD : - IZR (2 ^ n) <= IZR m1 * IZR (2 ^ n) - IZR m <= IZR (2 ^ n)) by nra.
      assert (HE : F2R z - v = (IZR m1 * IZR (2 ^ n) - IZR m) * bpow e).
      { rewrite HF, Hgrid, Ev. ring. }
      rewrite HE. apply Rle_trans with (bpow (e + n)); [|exact Hulp].
      rewrite Hgrid. apply Rabs_le. split; nra.
    + intros Mb Eb HMb HEb Hle.
      assert (HEn : (e + n <= Eb)%Z).
      { destruct Hcase as [E | E]; [|lia].
        destruct (Z.le_gt_cases (e + n) Eb) as [|Hgt]; [assumption|exfalso].
        assert (IZR (Zpos Mb) * bpow Eb < bpow (d - 1 + e)); [|lra].
        apply Rlt_le_trans with (bpow (Eb + prec)).
        - rewrite Z.add_comm, bpow_add, <- (bpow_IZR prec) by (unfold prec; lia).
          pose proof (bpow_pos Eb). apply IZR_lt in HMb. nra.
        - apply bpow_le. lia. }
      set (K := (Zpos Mb * 2 ^ (Eb - (e + n)))%Z).
      assert (HB : IZR (Zpos Mb) * bpow Eb = IZR K * bpow (e + n)).
      { unfold K. rewrite mult_IZR, bpow_IZR by lia.
        rewrite Rmult_assoc, <- bpow_add. do 2 f_equal. lia. }
      rewrite HB in Hle |- *. rewrite HF.
      assert (HmK : (m <= K * 2 ^ n)%Z).
      { apply le_IZR. rewrite mult_IZR.
        rewrite Hgrid in Hle. nra. }
      assert (Hm1K : (m1 <= K)%Z).
      { destruct (Z.eq_dec (m mod 2 ^ n)%Z 0%Z) as [Hmod|Hmod].
        - rewrite (Hexact eq_refl Hmod). apply Z.div_le_upper_bound; lia.
        - assert (m / 2 ^ n < K)%Z; [|lia].
          apply Z.div_lt_upper_bound; [lia|].
          assert (m <> K * 2 ^ n)%Z; [|lia].
          intros EK. apply Hmod. rewrite EK. apply Z.mod_mul. lia. }
      apply IZR_le in Hm1K. pose proof (bpow_pos (e + n)). nra.
Qed.

Lemma nonneg_finite_F2R (z : spec_float) : nonneg_finite z -> 0 <= F2R z.
Proof.
  destruct z as [s|s| |[|] m e]; cbn; try tauto; try lra.
  intros _. pose proof (bpow_pos e).
  assert (1 <= IZR (Zpos m)) by (apply IZR_le; lia). nra.
Qed.

Lemma rounds_to_exact (z : spec_float) : nonneg_finite z -> rounds_to z (F2R z).
Proof.
  intros Hz. pose proof (nonneg_finite_F2R z Hz).
  pose proof (bpow_pos (-23)). pose proof (bpow_pos (-149)).
  repeat split; try assumption.
  - replace (F2R z - F2R z) with 0 by lra. rewrite Rabs_R0. nra.
  - trivial.
  - intros. assumption.
Qed.

Lemma round_aux_rounds_to (m e : Z) :
  (0 < m)%Z -> IZR m * bpow e < bpow 100 ->
  rounds_to (binary_round_aux prec emax false m e loc_Exact) (IZR m * bpow e).
Proof.
  intros Hm Hv. destruct (round_exact_R m e Hm Hv) as (H1 & H2 & H3).
  repeat split; try assumption.
  intros E. exfalso. pose proof (bpow_pos e).
  assert (1 <= IZR m) by (apply IZR_le; lia). nra.
Qed.

Lemma Pos_iter_xO (m d : positive) :
  Zpos (Pos.iter xO m d) = (Zpos m * 2 ^ Zpos d)%Z.
Proof.
  induction d as [|d IH] using Pos.peano_ind.
  - cbn. lia.
  - rewrite Pos.iter_succ, Pos2Z.inj_xO, IH, Pos2Z.inj_succ, Z.pow_succ_r by lia. lia.
Qed.

Lemma shl_align_value (m : positive) (e t : Z) :
  (snd (shl_align m e t) <= e)%Z /\
  Zpos (fst (shl_align m e t)) = (Zpos m * 2 ^ (e - snd (shl_align m e t)))%Z.
Proof.
  unfold shl_align. destruct (t - e)%Z as [|d|d] eqn:E; cbn [fst snd].
  - rewrite Z.sub_diag. cbn. lia.
  - rewrite Z.sub_diag. cbn. lia.
  - split; [lia|]. rewrite Pos_iter_xO. f_equal. f_equal. lia.
Qed.

Lemma shl_align_R (m : positive) (e t : Z) :
  IZR (Zpos (fst (shl_align m e t))) * bpow (snd (shl_align m e t)) =
  IZR (Zpos m) * bpow e.
Proof.
  destruct (shl_align_value m e t) as [Hle ->].
  rewrite mult_IZR, bpow_IZR by lia.
  rewrite Rmult_assoc, <- bpow_add. do 2 f_equal. lia.
Qed.

Lemma binary_round_rounds_to (m : positive) (e : Z) :
  IZR (Zpos m) * bpow e < bpow 100 ->
  rounds_to (binary_round prec emax false m e) (IZR (Zpos m) * bpow e).
Proof.
  intros Hv. unfold binary_round.
  pose proof (shl_align_R m e (fexp prec emax (Zpos (digits2_pos m) + e))) as HR.
  destruct (shl_align m e (fexp prec emax (Zpos (digits2_pos m) + e))) as [mz ez].
  cbn [fst snd] in HR. rewrite <- HR.
  apply round_aux_rounds_to; [lia|]. now rewrite HR.
Qed.

Lemma binary_normalize_rounds_to (m e : Z) :
  (0 <= m)%Z -> IZR m * bpow e < bpow 100 ->
  rounds_to (binary_normalize prec emax m e false) (IZR m * bpow e).
Proof.
  intros Hm Hv. destruct m as [|p|p]; [|now apply binary_round_rounds_to|lia].
  cbn [binary_normalize]. replace (0 * bpow e) with (F2R (S754_zero false)) by (cbn; lra).
  apply rounds_to_exact. first [exact I | assumption].
Qed.

Lemma rounds_to_eq (z : spec_float) (v w : R) : v = w -> rounds_to z v -> rounds_to z w.
Proof. intros ->. trivial. Qed.

Lemma F2R_finite_pos (m : positive) (e : Z) : 0 < F2R (S754_finite false m e).
Proof.
  cbn. pose proof (bpow_pos e).
  assert (1 <= IZR (Zpos m)) by (apply IZR_le; lia). nra.
Qed.

Lemma SFmul_rounds_to (x y : spec_float) :
  nonneg_finite x -> nonneg_finite y -> F2R x * F2R y < bpow 100 ->
  rounds_to (SFmul prec emax x y) (F2R x * F2R y).
Proof.
  destruct x as [sx|sx| |[|] mx ex]; try (cbn; tauto);
    destruct y as [sy|sy| |[|] my ey]; try (cbn; tauto); intros Vx Vy Hv.
  - apply (rounds_to_eq _ (F2R (S754_zero (xorb sx sy)))); [cbn; lra|].
    apply rounds_to_exact. first [exact I | assumption].
  - apply (rounds_to_eq _ (F2R (S754_zero (xorb sx false)))); [cbn; lra|].
    apply rounds_to_exact. first [exact I | assumption].
  - apply (rounds_to_eq _ (F2R (S754_zero (xorb false sy)))); [cbn; lra|].
    apply rounds_to_exact. first [exact I | assumption].
  - cbn [SFmul xorb].
    assert (E : F2R (S754_finite false mx ex) * F2R (S754_finite false my ey) =
                IZR (Zpos (mx * my)) * bpow (ex + ey)).
    { cbn [F2R cond_Zopp]. rewrite Pos2Z.inj_mul, mult_IZR, bpow_add. ring. }
    rewrite E in Hv |- *. apply round_aux_rounds_to; [lia|assumption].
Qed.

Lemma aligned_R (m : positive) (e ez : Z) :
  (ez <= e)%Z ->
  IZR (Zpos (fst (shl_align m e ez))) * bpow ez = IZR (Zpos m) * bpow e.
Proof.
  intros Hle. pose proof (shl_align_R m e ez) as HR.
  unfold shl_align in *. destruct (ez - e)%Z as [|d|d] eqn:E; cbn [fst snd] in *.
  - replace ez with e by lia. reflexivity.
  - lia.
  - exact HR.
Qed.

Lemma SFadd_rounds_to (x y : spec_float) :
  nonneg_finite x -> nonneg_finite y -> F2R x + F2R y < bpow 100 ->
  rounds_to (SFadd prec emax x y) (F2R x + F2R y).
Proof.
  destruct x as [sx|sx| |[|] mx ex]; try (cbn; tauto);
    destruct y as [sy|sy| |[|] my ey]; try (cbn; tauto); intros Vx Vy Hv.
  - apply (rounds_to_eq _ 0); [cbn; lra|].
    replace 0 with (F2R (SFadd prec emax (S754_zero sx) (S754_zero sy)))
      by (destruct sx, sy; reflexivity).
    apply rounds_to_exact. destruct sx, sy; exact I.
  - apply (rounds_to_eq _ (F2R (S754_finite false my ey))); [cbn; lra|].
    apply rounds_to_exact. first [exact I | assumption].
  - apply (rounds_to_eq _ (F2R (S754_finite false mx ex))); [cbn; lra|].
    apply rounds_to_exact. first [exact I | assumption].
  - cbn [SFadd cond_Zopp].
    set (ez := Z.min ex ey).
    pose proof (aligned_R mx ex ez ltac:(lia)) as Hx.
    pose proof (aligned_R my ey ez ltac:(lia)) as Hy.
    assert (E : F2R (S754_finite false mx ex) + F2R (S754_finite false my ey) =
                IZR (Zpos (fst (shl_align mx ex ez)) + Zpos (fst (shl_align my ey ez))) * bpow ez).
    { cbn [F2R cond_Zopp]. rewrite plus_IZR, <- Hx, <- Hy. ring. }
    rewrite E in Hv |- *. apply binary_normalize_rounds_to; [lia|assumption].
Qed.

Lemma SFsub_rounds_to (x y : spec_float) :
  nonneg_finite x -> nonneg_finite y -> F2R y <= F2R x -> F2R x < bpow 100 ->
  rounds_to (SFsub prec emax x y) (F2R x - F2R y).
Proof.
  destruct x as [sx|sx| |[|] mx ex]; try (cbn; tauto);
    destruct y as [sy|sy| |[|] my ey]; try (cbn; tauto); intros Vx Vy Hle Hv.
  - apply (rounds_to_eq _ 0); [cbn; lra|].
    replace 0 with (F2R (SFsub prec emax (S754_zero sx) (S754_zero sy)))
      by (destruct sx, sy; reflexivity).
    apply rounds_to_exact. destruct sx, sy; exact I.
  - exfalso. pose proof (F2R_finite_pos my ey). change (F2R (S754_zero sx)) with 0 in Hle. lra.
  - apply (rounds_to_eq _ (F2R (S754_finite false mx ex))); [cbn; lra|].
    apply rounds_to_exact. first [exact I | assumption].
  - cbn [SFsub cond_Zopp].
    set (ez := Z.min ex ey).
    pose proof (aligned_R mx ex ez ltac:(lia)) as Hx.
    pose proof (aligned_R my ey ez ltac:(lia)) as Hy.
    assert (E : F2R (S754_finite false mx ex) - F2R (S754_finite false my ey) =
                IZR (Zpos (fst (shl_align mx ex ez)) - Zpos (fst (shl_align my ey ez))) * bpow ez).
    { cbn [F2R cond_Zopp]. rewrite minus_IZR, <- Hx, <- Hy. ring. }
    assert (Hnn : (0 <= Zpos (fst (shl_align mx ex ez)) - Zpos (fst (shl_align my ey ez)))%Z).
    { apply le_IZR. rewrite minus_IZR. cbn [F2R cond_Zopp] in Hle.
      rewrite <- Hx, <- Hy in Hle. pose proof (bpow_pos ez). nra. }
    pose proof (F2R_finite_pos my ey).
    rewrite E. apply binary_normalize_rounds_to; [assumption|]. rewrite <- E. lra.
Qed.

End RealValue.

(** ** Enclosures of sine and cosine at the table nodes *)

Section TrigEnclosure.

Local Open Scope R_scope.

Lemma ONE_pos : 0 < IZR ONE.
Proof. apply IZR_lt. reflexivity. Qed.

Lemma sqrt_lower (a : Z) (Y : R) :
  (0 <= a)%Z -> 0 <= Y -> IZR a <= Y * Y -> IZR (Z.sqrt a) <= Y.
Proof.
  intros Ha HY H. pose proof (Z.sqrt_spec a Ha) as [Hs _].
  pose proof (Z.sqrt_nonneg a) as Hn.
  apply IZR_le in Hs. rewrite mult_IZR in Hs. apply IZR_le in Hn.
  destruct (Rle_lt_dec (IZR (Z.sqrt a)) Y) as [|Hlt]; [assumption|exfalso].
  nra.
Qed.

Lemma sqrt_upper (a : Z) (Y : R) :
  (0 <= a)%Z -> 0 <= Y -> Y * Y <= IZR a -> Y <= IZR (Z.sqrt a + 1).
Proof.
  intros Ha HY H. pose proof (Z.sqrt_spec a Ha) as [_ Hs].
  pose proof (Z.sqrt_nonneg a) as Hn.
  apply IZR_lt in Hs. unfold Z.succ in Hs. rewrite mult_IZR in Hs. apply IZR_le in Hn.
  rewrite plus_IZR in *.
  destruct (Rle_lt_dec Y (IZR (Z.sqrt a) + 1)) as [|Hlt]; [assumption|exfalso].
  nra.
Qed.

Lemma floor_div (a b : Z) :
  (0 < b)%Z -> IZR (a / b) * IZR b <= IZR a < (IZR (a / b) + 1) * IZR b.
Proof.
  intros Hb. rewrite <- plus_IZR, <- !mult_IZR.
  split; [apply IZR_le|apply IZR_lt]; Z.div_mod_to_equations; nia.
Qed.

Lemma pow2_ge_1 (n : nat) : 1 <= 2 ^ n.
Proof. induction n as [|n IH]; simpl; lra. Qed.

Lemma half_angle_range (j : nat) : 0 < PI / 2 ^ S j <= PI / 2.
Proof.
  pose proof PI_RGT_0. pose proof (pow2_ge_1 j) as Hj.
  simpl. split.
  - apply Rdiv_lt_0_compat; lra.
  - apply Rmult_le_reg_r with (2 * 2 ^ j); [lra|].
    field_simplify; [|lra]. nra.
Qed.

Lemma half_sound (j : nat) :
  (0 <= fst (half_encl j))%Z /\
  encl (fst (half_encl j)) (snd (half_encl j)) (cos (PI / 2 ^ S j)).
Proof.
  induction j as [|j [IH0 IH]].
  - cbn [half_encl fst snd]. split; [lia|].
    replace (PI / 2 ^ 1) with (PI / 2) by (simpl; field).
    rewrite cos_PI2. unfold encl. lra.
  - cbn [half_encl]. unfold half_step. cbn [fst snd].
    set (l := fst (half_encl j)) in *. set (u := snd (half_encl j)) in *.
    set (x := cos (PI / 2 ^ S j)) in *.
    set (y := cos (PI / 2 ^ S (S j))).
    pose proof ONE_pos as H1.
    assert (Hxy : x = 2 * y * y - 1).
    { unfold x, y. rewrite <- cos_2a_cos. f_equal.
      pose proof (pow2_ge_1 j). simpl. field. lra. }
    assert (Hy : 0 <= y).
    { unfold y. pose proof (half_angle_range (S j)). pose proof PI_RGT_0.
      apply cos_ge_0; lra. }
    destruct IH as [Hl Hu].
    assert (Hlu : (l <= u)%Z) by (apply le_IZR; lra).
    split; [apply Z.sqrt_nonneg|].
    assert (EA : forall v, IZR (ONE * ONE / 2 + ONE / 2 * v) =
                           IZR ONE * IZR ONE / 2 + IZR ONE / 2 * IZR v).
    { intros v. rewrite plus_IZR, mult_IZR.
      change (ONE * ONE / 2)%Z with (2 ^ 199)%Z. change (ONE / 2)%Z with (2 ^ 99)%Z.
      replace (IZR ONE) with (2 * IZR (2 ^ 99)) by (rewrite <- mult_IZR; reflexivity).
      replace (IZR (2 ^ 199)) with (2 * IZR (2 ^ 99) * IZR (2 ^ 99))
        by (rewrite <- !mult_IZR; reflexivity).
      field. }
    assert (HY2 : (y * IZR ONE) * (y * IZR ONE) =
                  IZR ONE * IZR ONE / 2 + IZR ONE / 2 * (x * IZR ONE)).
    { rewrite Hxy. field. }
    assert (HY : 0 <= y * IZR ONE) by nra.
    assert (Hpos : forall v, (0 <= v)%Z -> (0 <= ONE * ONE / 2 + ONE / 2 * v)%Z).
    { intros v Hv. change (ONE * ONE / 2)%Z with (2 ^ 199)%Z.
      change (ONE / 2)%Z with (2 ^ 99)%Z. lia. }
    unfold encl. split.
    + apply sqrt_lower; [apply Hpos; assumption|assumption|].
      rewrite EA, HY2. nra.
    + apply sqrt_upper; [apply Hpos; lia|assumption|].
      rewrite EA, HY2. nra.
Qed.

Lemma delta_eq : delta = PI / 2 ^ 9.
Proof. unfold delta. f_equal. simpl. lra. Qed.

Lemma delta_range : 0 < delta <= PI / 2.
Proof. rewrite delta_eq. apply (half_angle_range 8). Qed.

Lemma delta_box_ok : box_ok delta_box delta.
Proof.
  destruct (half_sound 8) as [H0 [Hl Hu]]. rewrite <- delta_eq in Hl, Hu.
  unfold delta_box. set (c := half_encl 8) in *.
  pose proof ONE_pos as H1. pose proof delta_range as Hd. pose proof PI_RGT_0 as Hpi.
  assert (Hs : 0 <= sin delta) by (apply sin_ge_0; lra).
  assert (Hc : 0 <= cos delta) by (apply cos_ge_0; lra).
  pose proof (sin2_cos2 delta) as Hsc. unfold Rsqr in Hsc.
  assert (HQ : (sin delta * IZR ONE) * (sin delta * IZR ONE) =
               IZR ONE * IZR ONE - (cos delta * IZR ONE) * (cos delta * IZR ONE)) by nra.
  assert (HY : 0 <= sin delta * IZR ONE) by nra.
  assert (Hfu : (fst c <= snd c)%Z) by (apply le_IZR; lra).
  apply IZR_le in H0.
  unfold box_ok. cbn [sin_lo sin_hi cos_lo cos_hi].
  split; [apply Z.sqrt_nonneg|]. split; [apply le_IZR; assumption|].
  split; [|split; assumption].
  unfold encl. split.
  - apply sqrt_lower; [lia|assumption|].
    apply Z.max_case_strong; intros Hm.
    + nra.
    + rewrite minus_IZR, !mult_IZR. rewrite HQ. nra.
  - apply sqrt_upper; [lia|assumption|].
    apply Rle_trans with (IZR (ONE * ONE - fst c * fst c)); [|apply IZR_le; lia].
    rewrite minus_IZR, !mult_IZR. rewrite HQ. nra.
Qed.

Lemma trig_step_ok (b : trig_box) (a : R) :
  box_ok b a -> 0 <= sin a -> 0 <= cos a -> 0 <= cos (a + delta) ->
  box_ok (trig_step b) (a + delta).
Proof.
  intros (Hs0 & Hc0 & [Hsl Hsu] & [Hcl Hcu]) Hsa Hca Hca'.
  destruct delta_box_ok as (Hds0 & Hdc0 & [Hdsl Hdsu] & [Hdcl Hdcu]).
  pose proof ONE_pos as H1.
  set (d := delta_box) in *.
  unfold box_ok, trig_step. fold d. cbn [sin_lo sin_hi cos_lo cos_hi].
  apply IZR_le in Hs0, Hc0, Hds0, Hdc0.
  set (X := sin a * IZR ONE) in *. set (Y := cos a * IZR ONE) in *.
  set (P := cos delta * IZR ONE) in *. set (Q := sin delta * IZR ONE) in *.
  assert (HX : 0 <= X) by (unfold X; nra).
  assert (HY : 0 <= Y) by (unfold Y; nra).
  assert (HP : 0 <= P) by lra.
  assert (HQ : 0 <= Q) by lra.
  assert (Es : sin (a + delta) * IZR ONE * IZR ONE = X * P + Y * Q).
  { rewrite sin_plus. unfold X, Y, P, Q. ring. }
  assert (Ec : cos (a + delta) * IZR ONE * IZR ONE = Y * P - X * Q).
  { rewrite cos_plus. unfold X, Y, P, Q. ring. }
  assert (M1 : IZR (sin_lo b) * IZR (cos_lo d) <= X * P) by (apply Rmult_le_compat; lra).
  assert (M2 : IZR (cos_lo b) * IZR (sin_lo d) <= Y * Q) by (apply Rmult_le_compat; lra).
  assert (M3 : X * P <= IZR (sin_hi b) * IZR (cos_hi d)) by (apply Rmult_le_compat; lra).
  assert (M4 : Y * Q <= IZR (cos_hi b) * IZR (sin_hi d)) by (apply Rmult_le_compat; lra).
  assert (M5 : IZR (cos_lo b) * IZR (cos_lo d) <= Y * P) by (apply Rmult_le_compat; lra).
  assert (M6 : X * Q <= IZR (sin_hi b) * IZR (sin_hi d)) by (apply Rmult_le_compat; lra).
  assert (M7 : Y * P <= IZR (cos_hi b) * IZR (cos_hi d)) by (apply Rmult_le_compat; lra).
  assert (M8 : IZR (sin_lo b) * IZR (sin_lo d) <= X * Q) by (apply Rmult_le_compat; lra).
  split; [apply Z.div_pos; [apply le_IZR in Hs0, Hc0, Hds0, Hdc0; nia|reflexivity]|].
  split; [lia|].
  unfold encl. repeat split.
  - pose proof (floor_div (sin_lo b * cos_lo d + cos_lo b * sin_lo d) ONE ltac:(reflexivity)) as [F _].
    rewrite plus_IZR, !mult_IZR in F. nra.
  - pose proof (floor_div (sin_hi b * cos_hi d + cos_hi b * sin_hi d) ONE ltac:(reflexivity)) as [_ F].
    rewrite plus_IZR, !mult_IZR in F. rewrite plus_IZR. nra.
  - apply Z.max_case_strong; intros Hm.
    + nra.
    + pose proof (floor_div (cos_lo b * cos_lo d - sin_hi b * sin_hi d) ONE ltac:(reflexivity)) as [F _].
      rewrite minus_IZR, !mult_IZR in F. nra.
  - pose proof (floor_div (cos_hi b * cos_hi d - sin_lo b * sin_lo d) ONE ltac:(reflexivity)) as [_ F].
    rewrite minus_IZR, !mult_IZR in F. rewrite plus_IZR. nra.
Qed.

Lemma node_range (k : nat) : (k <= 256)%nat -> 0 <= INR k * delta <= PI / 2.
Proof.
  intros Hk. pose proof PI_RGT_0. unfold delta.
  assert (0 <= INR k) by apply pos_INR.
  assert (INR k <= 256).
  { replace 256 with (INR 256) by (rewrite INR_IZR_INZ; reflexivity). now apply le_INR. }
  split; [apply Rmult_le_pos; lra|]. nra.
Qed.

Lemma trig_encl_ok (k : nat) : (k <= 256)%nat -> box_ok (trig_encl k) (INR k * delta).
Proof.
  induction k as [|k IH]; intros Hk.
  - cbn [trig_encl]. rewrite Rmult_0_l. unfold box_ok, encl. cbn [sin_lo sin_hi cos_lo cos_hi].
    rewrite sin_0, cos_0. pose proof ONE_pos. repeat split; try lra.
    + lia.
    + apply le_IZR. lra.
  - cbn [trig_encl]. rewrite S_INR.
    replace ((INR k + 1) * delta) with (INR k * delta + delta) by ring.
    pose proof (node_range k ltac:(lia)) as Hr.
    pose proof (node_range (S k) Hk) as Hr'. rewrite S_INR in Hr'.
    replace ((INR k + 1) * delta) with (INR k * delta + delta) in Hr' by ring.
    pose proof PI_RGT_0.
    apply trig_step_ok.
    + apply IH. lia.
    + apply sin_ge_0; lra.
    + apply cos_ge_0; lra.
    + apply cos_ge_0; lra.
Qed.

End TrigEnclosure.

(** ** The reference table against the enclosures *)

Section TableCheck.

Local Open Scope R_scope.

Lemma ONE_bpow : IZR ONE = bpow 100.
Proof. unfold ONE. apply bpow_IZR. lia. Qed.

Lemma scaled_F2R (z : float) (t : Z) :
  scaled z = Some t -> nonneg_finite z /\ F2R z * IZR ONE = IZR t.
Proof.
  destruct z as [s|s| |[|] m e]; cbn [scaled]; try discriminate.
  - intros [= <-]. split; [exact I|]. cbn. lra.
  - destruct ((Zpos m <? 2 ^ 24)%Z && (-100 <=? e)%Z) eqn:E; [|discriminate].
    apply andb_true_iff in E. destruct E as [E1 E2].
    apply Z.ltb_lt in E1. apply Z.leb_le in E2.
    intros [= <-]. split.
    + split; [exact E1|]. unfold emin, emax, prec, F32.emax, F32.prec. lia.
    + cbn [F2R cond_Zopp]. rewrite mult_IZR, bpow_IZR, ONE_bpow by lia.
      rewrite bpow_add. ring.
Qed.

Lemma check_table_sound (tab : list float) : forall (k : nat),
  check_table tab (trig_encl k) = true ->
  forall (i : nat) (z : float),
    nth_error tab i = Some z ->
    entry_ok z (trig_encl (k + i)) = true /\
    (forall z', nth_error tab (S i) = Some z' -> entry_le z z' = true).
Proof.
  induction tab as [|z0 rest IH]; intros k Hc i z Hi.
  - destruct i; discriminate.
  - cbn [check_table] in Hc. apply andb_true_iff in Hc. destruct Hc as [Hc Hrest].
    apply andb_true_iff in Hc. destruct Hc as [H0 Hle].
    destruct i as [|i].
    + cbn in Hi. injection Hi as <-. rewrite Nat.add_0_r. split; [assumption|].
      intros z' Hz'. destruct rest as [|z1 rest']; [discriminate|].
      cbn in Hz'. injection Hz' as <-. assumption.
    + cbn [nth_error] in Hi |- *.
      replace (k + S i)%nat with (S k + i)%nat by lia.
      apply (IH (S k)); assumption.
Qed.

Lemma table_checked : check_table Ref.quarter_sin_table (trig_encl 0) = true.
Proof. vm_compute. reflexivity. Qed.

Lemma table_below_one :
  forallb entry_below_one (firstn 256 Ref.quarter_sin_table) = true.
Proof. vm_compute. reflexivity. Qed.

Lemma table_length : length Ref.quarter_sin_table = 257%nat.
Proof. reflexivity. Qed.

Lemma table_entry_error (i : nat) :
  (i <= 256)%nat ->
  nonneg_finite (table_entry i) /\
  F2R (table_entry i) <= 1 /\
  Rabs (F2R (table_entry i) - sin (INR i * delta)) <= bpow (-24).
Proof.
  intros Hi.
  assert (Hn : nth_error Ref.quarter_sin_table i = Some (table_entry i)).
  { apply nth_error_nth'. rewrite table_length. lia. }
  destruct (check_table_sound _ 0%nat table_checked i _ Hn) as [Hok _].
  cbn [Nat.add] in Hok. unfold entry_ok in Hok.
  destruct (scaled (table_entry i)) as [t|] eqn:Es; [|discriminate].
  apply andb_true_iff in Hok. destruct Hok as [Hok H1].
  apply andb_true_iff in Hok. destruct Hok as [Hhi Hlo].
  apply Z.leb_le in Hhi, Hlo, H1.
  destruct (scaled_F2R _ _ Es) as [Hfin HF].
  destruct (trig_encl_ok i Hi) as (_ & _ & [Hsl Hsu] & _).
  pose proof ONE_pos as HO.
  apply IZR_le in Hhi, Hlo, H1. rewrite minus_IZR in Hhi. rewrite plus_IZR in Hlo.
  assert (HE : IZR EPS_TAB = bpow (-24) * IZR ONE).
  { unfold EPS_TAB. rewrite bpow_IZR, ONE_bpow, <- bpow_add by lia. reflexivity. }
  split; [assumption|]. split; [nra|].
  apply Rabs_le. split; nra.
Qed.

Lemma table_entry_le (i : nat) :
  (i < 256)%nat -> F2R (table_entry i) <= F2R (table_entry (S i)).
Proof.
  intros Hi.
  assert (Hn : nth_error Ref.quarter_sin_table i = Some (table_entry i)).
  { apply nth_error_nth'. rewrite table_length. lia. }
  assert (Hn' : nth_error Ref.quarter_sin_table (S i) = Some (table_entry (S i))).
  { apply nth_error_nth'. rewrite table_length. lia. }
  destruct (check_table_sound _ 0%nat table_checked i _ Hn) as [_ Hle].
  specialize (Hle _ Hn'). unfold entry_le in Hle.
  destruct (scaled (table_entry i)) as [t|] eqn:Es; [|discriminate].
  destruct (scaled (table_entry (S i))) as [t'|] eqn:Es'; [|discriminate].
  apply Z.leb_le, IZR_le in Hle.
  destruct (scaled_F2R _ _ Es) as [_ HF]. destruct (scaled_F2R _ _ Es') as [_ HF'].
  pose proof ONE_pos. nra.
Qed.

Lemma table_entry_below_one (i : nat) :
  (i < 256)%nat -> F2R (table_entry i) <= 1 - bpow (-16).
Proof.
  intros Hi.
  pose proof table_below_one as H. rewrite forallb_forall in H.
  assert (Hin : In (table_entry i) (firstn 256 Ref.quarter_sin_table)).
  { unfold table_entry. rewrite <- (firstn_skipn 256 Ref.quarter_sin_table) at 1.
    rewrite app_nth1 by (rewrite length_firstn, table_length; lia).
    apply nth_In. rewrite length_firstn, table_length. lia. }
  specialize (H _ Hin). unfold entry_below_one in H.
  destruct (scaled (table_entry i)) as [t|] eqn:Es; [|discriminate].
  apply Z.leb_le, IZR_le in H. rewrite minus_IZR in H.
  destruct (scaled_F2R _ _ Es) as [_ HF].
  assert (HE : IZR (2 ^ 84) = bpow (-16) * IZR ONE).
  { rewrite bpow_IZR, ONE_bpow, <- bpow_add by lia. reflexivity. }
  pose proof ONE_pos. nra.
Qed.

End TableCheck.

(** ** Rounding error of the interpolation *)

Section Interpolation.

Local Open Scope R_scope.

Lemma Rabs_le_inv (a b : R) : Rabs a <= b -> - b <= a <= b.
Proof. unfold Rabs. destruct (Rcase_abs a); lra. Qed.

Lemma bpow_neg_inv (k : Z) : (0 <= k)%Z -> bpow (- k) = / IZR (2 ^ k).
Proof.
  intros Hk. rewrite bpow_IZR by assumption.
  pose proof (bpow_pos k). apply Rmult_eq_reg_r with (bpow k); [|lra].
  rewrite <- bpow_add, Rinv_l by lra. replace (- k + k)%Z with 0%Z by lia. reflexivity.
Qed.

Lemma bpow_m23 : bpow (-23) = / 8388608.
Proof. apply (bpow_neg_inv 23). lia. Qed.

Lemma bpow_m24 : bpow (-24) = / 16777216.
Proof. apply (bpow_neg_inv 24). lia. Qed.

Lemma bpow_m16 : bpow (-16) = / 65536.
Proof. apply (bpow_neg_inv 16). lia. Qed.

Lemma bpow_m149_small : bpow (-149) <= bpow (-23) * / 1000000.
Proof.
  replace (-149)%Z with (-23 + -126)%Z by lia. rewrite bpow_add.
  pose proof (bpow_pos (-23)).
  assert (bpow (-126) <= / 1000000); [|nra].
  apply Rle_trans with (bpow (-20)); [apply bpow_le; lia|].
  pose proof (bpow_neg_inv 20 ltac:(lia)) as E20.
  change (- (20))%Z with (-20)%Z in E20. rewrite E20.
  change (IZR (2 ^ 20)) with 1048576. lra.
Qed.

Lemma one_float : 1 = IZR (Zpos 1) * bpow 0.
Proof. rewrite bpow_0. lra. Qed.

(** The fraction [t / 2^24] as [u32_to_fraction] returns it. *)
Lemma fraction_rounds (t : Z) :
  (0 <= t < 2 ^ 24)%Z ->
  let g := Ref.u32_to_fraction (t * 2 ^ 8) in
  let f := IZR t * bpow (-24) in
  nonneg_finite g /\ F2R g <= 1 /\ Rabs (F2R g - f) <= 2 * bpow (-23).
Proof.
  intros Ht g f.
  assert (Ef : IZR (t * 2 ^ 8) * bpow (-32) = f).
  { unfold f. rewrite mult_IZR, bpow_IZR by lia.
    rewrite Rmult_assoc, <- bpow_add. reflexivity. }
  assert (Hf : 0 <= f < 1).
  { unfold f. rewrite bpow_m24.
    destruct Ht as [H0 H1]. apply IZR_le in H0. apply IZR_lt in H1.
    change (IZR (2 ^ 24)) with 16777216 in H1. lra. }
  clearbody f.
  assert (Hr : rounds_to g f).
  { rewrite <- Ef. apply binary_normalize_rounds_to; [lia|].
    rewrite Ef. apply Rlt_trans with 1; [lra|].
    rewrite <- bpow_0. apply bpow_lt. lia. }
  destruct Hr as (Hfin & Herr & _ & Hub).
  split; [assumption|]. split.
  - rewrite one_float. apply Hub; [reflexivity|change (emin prec emax) with (-149)%Z; lia|].
    rewrite <- one_float. lra.
  - pose proof bpow_m149_small. pose proof (bpow_pos (-23)). 
    eapply Rle_trans; [exact Herr|]. nra.
Qed.

(** Float evaluation of [a + (b - a) * fraction] against the exact
    interpolation. *)
Lemma interp_error (a b : float) (t : Z) :
  nonneg_finite a -> nonneg_finite b -> F2R a <= F2R b -> F2R b <= 1 ->
  (0 <= t < 2 ^ 24)%Z ->
  let val := (a + (b - a) * Ref.u32_to_fraction (t * 2 ^ 8))%f32 in
  let f := IZR t * bpow (-24) in
  nonneg_finite val /\
  Rabs (F2R val - (F2R a + (F2R b - F2R a) * f)) <= 10 * bpow (-23).
Proof.
  intros Ha Hb Hab Hb1 Ht val f.
  destruct (fraction_rounds t Ht) as (Hg & Hg1 & Hge). fold f in Hge.
  set (g := Ref.u32_to_fraction (t * 2 ^ 8)) in *.
  assert (Hf : 0 <= f < 1).
  { unfold f. rewrite bpow_m24.
    destruct Ht as [H0 H1]. apply IZR_le in H0. apply IZR_lt in H1.
    change (IZR (2 ^ 24)) with 16777216 in H1. lra. }
  clearbody f.
  pose proof (nonneg_finite_F2R a Ha) as HA0.
  pose proof (nonneg_finite_F2R g Hg) as Hg0.
  assert (H100 : 4 < bpow 100).
  { apply Rlt_le_trans with (bpow 3); [rewrite <- bpow_IZR by lia; change (IZR (2 ^ 3)) with 8; lra|apply bpow_le; lia]. }
  pose proof bpow_m149_small as Heta. pose proof (bpow_pos (-149)) as Heta0.
  rewrite bpow_m23 in *.
  (* b - a *)
  assert (Hb100 : F2R b < bpow 100) by lra.
  destruct (SFsub_rounds_to b a Hb Ha Hab Hb100) as (Hd & Hde & _ & _).
  fold (F32.sub b a) in Hd, Hde. set (d := F32.sub b a) in *.
  pose proof (nonneg_finite_F2R d Hd) as Hd0.
  rewrite bpow_m23 in Hde. apply Rabs_le_inv in Hde. apply Rabs_le_inv in Hge.
  assert (Hd2 : F2R d <= 1 + 2 / 8388608) by lra.
  (* (b - a) * fraction *)
  assert (Hdg0 : 0 <= F2R d * F2R g) by (apply Rmult_le_pos; lra).
  assert (Hdg1 : F2R d * F2R g <= F2R d * 1) by (apply Rmult_le_compat_l; lra).
  assert (Hdg100 : F2R d * F2R g < bpow 100) by lra.
  destruct (SFmul_rounds_to d g Hd Hg Hdg100) as (Hp & Hpe & _ & _).
  fold (F32.mul d g) in Hp, Hpe. set (p := F32.mul d g) in *.
  pose proof (nonneg_finite_F2R p Hp) as Hp0.
  rewrite bpow_m23 in Hpe. apply Rabs_le_inv in Hpe.
  assert (T1u : F2R d * (F2R g - f) <= F2R d * (2 * / 8388608))
    by (apply Rmult_le_compat_l; lra).
  assert (T1l : F2R d * (- (2 * / 8388608)) <= F2R d * (F2R g - f))
    by (apply Rmult_le_compat_l; lra).
  assert (T2u : (F2R d - (F2R b - F2R a)) * f <= (2 * / 8388608) * f)
    by (apply Rmult_le_compat_r; lra).
  assert (T2l : (- (2 * / 8388608)) * f <= (F2R d - (F2R b - F2R a)) * f)
    by (apply Rmult_le_compat_r; lra).
  assert (Hdgf : - (5 / 8388608) <= F2R d * F2R g - (F2R b - F2R a) * f <= 5 / 8388608).
  { replace (F2R d * F2R g - (F2R b - F2R a) * f)
      with (F2R d * (F2R g - f) + (F2R d - (F2R b - F2R a)) * f) by ring.
    lra. }
  assert (Hp7 : - (7 / 8388608) <= F2R p - (F2R b - F2R a) * f <= 7 / 8388608) by lra.
  assert (Hbaf : (F2R b - F2R a) * f <= (F2R b - F2R a) * 1)
    by (apply Rmult_le_compat_l; lra).
  assert (Hp2 : F2R p <= 1 + 7 / 8388608) by lra.
  (* a + ... *)
  assert (Hap100 : F2R a + F2R p < bpow 100) by lra.
  destruct (SFadd_rounds_to a p Ha Hp Hap100) as (Hw & Hwe & _ & _).
  fold (F32.add a p) in Hw, Hwe. fold val in Hw, Hwe.
  split; [assumption|].
  rewrite bpow_m23 in Hwe. apply Rabs_le_inv in Hwe. apply Rabs_le. lra.
Qed.

End Interpolation.

(** ** Chord error of linear interpolation of the sine *)

Section Chord.

Local Open Scope R_scope.

Lemma sin_upper (x : R) : 0 <= x -> sin x <= x.
Proof.
  intros [Hx|<-]; [left; now apply sin_lt_x|]. rewrite sin_0. lra.
Qed.

Lemma sin_lower (x : R) : 0 <= x <= 1 -> x - x * x * x / 6 <= sin x.
Proof.
  intros [H0 H1]. pose proof PI2_1 as Hpi.
  pose proof (SIN x H0 ltac:(lra)) as [Hlb _].
  eapply Rle_trans; [|exact Hlb].
  unfold sin_lb, sin_approx, sin_term, sum_f_R0.
  cbn [Nat.mul Nat.add fact pow]. rewrite !INR_IZR_INZ.
  repeat match goal with
    | |- context [Z.of_nat ?n] =>
        let v := eval vm_compute in (Z.of_nat n) in change (Z.of_nat n) with v
    end.
  assert (H5 : 0 <= x * x * x * x * x) by (repeat apply Rmult_le_pos; assumption).
  assert (Hxx : x * x <= 1) by nra.
  assert (H7 : x * x * x * x * x * (x * x) <= x * x * x * x * x * 1)
    by (apply Rmult_le_compat_l; assumption).
  lra.
Qed.

Lemma cos_lower (x : R) : 0 <= x <= 1 -> 1 - x * x / 2 <= cos x.
Proof.
  intros [H0 H1]. pose proof PI2_1 as Hpi.
  pose proof (COS x ltac:(lra) ltac:(lra)) as [Hlb _].
  eapply Rle_trans; [|exact Hlb].
  unfold cos_lb, cos_approx, cos_term, sum_f_R0.
  cbn [Nat.mul Nat.add fact pow]. rewrite !INR_IZR_INZ.
  repeat match goal with
    | |- context [Z.of_nat ?n] =>
        let v := eval vm_compute in (Z.of_nat n) in change (Z.of_nat n) with v
    end.
  assert (H4 : 0 <= x * x * x * x) by (repeat apply Rmult_le_pos; assumption).
  assert (Hxx : x * x <= 1) by nra.
  assert (H6 : x * x * x * x * (x * x) <= x * x * x * x * 1)
    by (apply Rmult_le_compat_l; assumption).
  lra.
Qed.

Lemma delta_small : 0 < delta <= / 128.
Proof.
  pose proof PI_RGT_0. pose proof PI_4. unfold delta. lra.
Qed.

Lemma unit_product (s b beta : R) :
  -1 <= s <= 1 -> - beta <= b <= beta -> - beta <= s * b <= beta.
Proof.
  intros Hs Hb.
  assert (Hbeta : 0 <= beta) by lra.
  destruct (Rle_lt_dec 0 b) as [Hb0|Hb0].
  - assert (s * b <= 1 * b) by (apply Rmult_le_compat_r; lra).
    assert (-1 * b <= s * b) by (apply Rmult_le_compat_r; lra).
    lra.
  - assert (s * (- b) <= 1 * (- b)) by (apply Rmult_le_compat_r; lra).
    assert (-1 * (- b) <= s * (- b)) by (apply Rmult_le_compat_r; lra).
    lra.
Qed.

(** Linear interpolation of the sine between two nodes [delta] apart
    against the sine itself. *)
Lemma chord_error (a f : R) :
  0 <= f <= 1 ->
  Rabs ((1 - f) * sin a + f * sin (a + delta) - sin (a + f * delta)) <= 4 / 100000.
Proof.
  intros [Hf0 Hf1]. destruct delta_small as [Hd0 Hd1].
  set (x := f * delta).
  assert (Hx0 : 0 <= x) by (apply Rmult_le_pos; lra).
  assert (Hxd : x <= 1 * delta) by (apply Rmult_le_compat_r; lra).
  assert (Hx1 : x <= / 128) by lra.
  pose proof (sin_upper delta ltac:(lra)) as Hsdu.
  pose proof (sin_lower delta ltac:(lra)) as Hsdl.
  pose proof (cos_lower delta ltac:(lra)) as Hcdl.
  pose proof (COS_bound delta) as [_ Hcdu].
  pose proof (sin_upper x Hx0) as Hsxu.
  pose proof (sin_lower x ltac:(lra)) as Hsxl.
  pose proof (cos_lower x ltac:(lra)) as Hcxl.
  pose proof (COS_bound x) as [_ Hcxu].
  assert (Hdd : delta * delta <= / 128 * / 128) by (apply Rmult_le_compat; lra).
  assert (Hxx : x * x <= / 128 * / 128) by (apply Rmult_le_compat; lra).
  assert (Hxx0 : 0 <= x * x) by (apply Rmult_le_pos; lra).
  assert (Hdd0 : 0 <= delta * delta) by (apply Rmult_le_pos; lra).
  assert (Hddd : delta * delta * delta <= / 128 * / 128 * / 128) by (apply Rmult_le_compat; lra).
  assert (Hxxx : x * x * x <= / 128 * / 128 * / 128) by (apply Rmult_le_compat; lra).
  assert (Hxxx0 : 0 <= x * x * x) by (apply Rmult_le_pos; lra).
  assert (Hddd0 : 0 <= delta * delta * delta) by (apply Rmult_le_pos; lra).
  set (b1 := (1 - f) + f * cos delta - cos x).
  set (b2 := f * sin delta - sin x).
  assert (E : (1 - f) * sin a + f * sin (a + delta) - sin (a + x) =
              sin a * b1 + cos a * b2).
  { rewrite !sin_plus. unfold b1, b2. ring. }
  rewrite E.
  assert (Hfc : f * (1 - delta * delta / 2) <= f * cos delta) by (apply Rmult_le_compat_l; lra).
  assert (Hfc' : f * cos delta <= f * 1) by (apply Rmult_le_compat_l; lra).
  assert (Hfdd : f * (delta * delta) <= 1 * (delta * delta)) by (apply Rmult_le_compat_r; lra).
  assert (Hb1 : - (/ 128 * / 128 / 2) <= b1 <= / 128 * / 128 / 2).
  { unfold b1. split; lra. }
  assert (Hfs : f * (delta - delta * delta * delta / 6) <= f * sin delta)
    by (apply Rmult_le_compat_l; lra).
  assert (Hfs' : f * sin delta <= f * delta) by (apply Rmult_le_compat_l; lra).
  assert (Hfddd : f * (delta * delta * delta) <= 1 * (delta * delta * delta))
    by (apply Rmult_le_compat_r; lra).
  assert (Hb2 : - (/ 128 * / 128 * / 128 / 6) <= b2 <= / 128 * / 128 * / 128 / 6).
  { unfold b2. fold x in Hfs'. unfold x in *. split; lra. }
  pose proof (unit_product (sin a) b1 _ (SIN_bound a) Hb1) as P1.
  pose proof (unit_product (cos a) b2 _ (COS_bound a) Hb2) as P2.
  apply Rabs_le. lra.
Qed.

End Chord.

(** ** Accuracy on a quarter wave *)

(** Index and fraction bits of an in-quadrant position, as the shifts of
    [phase_sin] extract them with [QUARTER_SINE_STEP_SHIFT = 8]. *)
Lemma position_split (x : Z) :
  is_u32 x ->
  Z.shiftr x 24 = x / 2 ^ 24 /\
  wrap32 (Z.shiftl x 8) = x mod 2 ^ 24 * 2 ^ 8 /\
  0 <= x / 2 ^ 24 < 256 /\ 0 <= x mod 2 ^ 24 < 2 ^ 24.
Proof.
  unfold is_u32, wrap32, TWO_POW_32. intros Hx.
  rewrite Z.shiftr_div_pow2, Z.shiftl_mul_pow2 by lia.
  change (2 ^ 32) with (2 ^ 24 * 2 ^ 8) in *.
  rewrite Z.mul_mod_distr_r by lia.
  change (2 ^ 24) with 16777216 in *. change (2 ^ 8) with 256 in *.
  repeat split; try (Z.div_mod_to_equations; lia).
Qed.

Lemma quarter_interp_ref (x : Z) :
  is_u32 x ->
  @quarter_interp Ref.table x =
  (table_entry (Z.to_nat (x / 2 ^ 24)) +
   (table_entry (S (Z.to_nat (x / 2 ^ 24))) - table_entry (Z.to_nat (x / 2 ^ 24))) *
   Ref.u32_to_fraction (x mod 2 ^ 24 * 2 ^ 8))%f32.
Proof.
  intros Hx. destruct (position_split x Hx) as (E1 & E2 & Hi & _).
  change (@quarter_interp Ref.table x) with
    (table_entry (Z.to_nat (Z.shiftr x 24)) +
     (table_entry (Z.to_nat (Z.shiftr x 24 + 1)) - table_entry (Z.to_nat (Z.shiftr x 24))) *
     Ref.u32_to_fraction (wrap32 (Z.shiftl x 8)))%f32.
  rewrite E1, E2. replace (Z.to_nat (x / 2 ^ 24 + 1)) with (S (Z.to_nat (x / 2 ^ 24))) by lia.
  reflexivity.
Qed.

Section QuarterWave.

Local Open Scope R_scope.

Lemma position_angle (x : Z) :
  is_u32 x ->
  IZR x * (PI / 2 / bpow 32) =
  INR (Z.to_nat (x / 2 ^ 24)) * delta + IZR (x mod 2 ^ 24)%Z * bpow (-24) * delta.
Proof.
  intros Hx. destruct (position_split x Hx) as (_ & _ & Hi & Ht).
  rewrite INR_IZR_INZ, Z2Nat.id by lia.
  rewrite (Z.div_mod x (2 ^ 24)) at 1 by lia.
  rewrite plus_IZR, mult_IZR. unfold delta.
  rewrite bpow_m24. rewrite <- (bpow_IZR 32) by lia.
  change (IZR (2 ^ 24)) with 16777216. change (IZR (2 ^ 32)) with 4294967296.
  field.
Qed.

(** In the last segment the table ends at exactly 1 and the result does
    not pass it. *)
Lemma last_segment_le_one (t : Z) :
  (0 <= t < 2 ^ 24)%Z ->
  F2R (table_entry 255 +
       (table_entry 256 - table_entry 255) * Ref.u32_to_fraction (t * 2 ^ 8))%f32 <= 1.
Proof.
  intros Ht.
  assert (Ea : table_entry 255 = S754_finite false 16776900 (-24)) by (vm_compute; reflexivity).
  assert (Ed : (table_entry 256 - table_entry 255)%f32 = S754_finite false 10354688 (-39))
    by (vm_compute; reflexivity).
  rewrite Ed, Ea.
  set (a := S754_finite false 16776900 (-24)).
  set (d := S754_finite false 10354688 (-39)).
  destruct (fraction_rounds t Ht) as (Hg & Hg1 & _).
  set (g := Ref.u32_to_fraction (t * 2 ^ 8)) in *.
  pose proof (nonneg_finite_F2R g Hg) as Hg0.
  assert (Ha : nonneg_finite a) by (split; [reflexivity|discriminate]).
  assert (Hd : nonneg_finite d) by (split; [reflexivity|discriminate]).
  assert (HA : F2R a = 16776900 / 16777216).
  { unfold a. cbn [F2R cond_Zopp]. rewrite bpow_m24. lra. }
  assert (HD : F2R d = 316 / 16777216).
  { unfold d. cbn [F2R cond_Zopp].
    pose proof (bpow_neg_inv 39 ltac:(lia)) as E39.
    change (- (39))%Z with (-39)%Z in E39. rewrite E39.
    change (IZR (2 ^ 39)) with 549755813888. lra. }
  assert (H100 : 4 < bpow 100).
  { apply Rlt_le_trans with (bpow 3); [|apply bpow_le; lia].
    rewrite <- bpow_IZR by lia. change (IZR (2 ^ 3)) with 8. lra. }
  assert (Hdg : F2R d * F2R g <= F2R d * 1) by (apply Rmult_le_compat_l; lra).
  assert (Hdg0 : 0 <= F2R d * F2R g) by (apply Rmult_le_pos; lra).
  assert (Hdg100 : F2R d * F2R g < bpow 100) by lra.
  destruct (SFmul_rounds_to d g Hd Hg Hdg100) as (Hp & _ & _ & Hpb).
  fold (F32.mul d g) in Hp, Hpb. set (p := F32.mul d g) in *.
  pose proof (nonneg_finite_F2R p Hp) as Hp0.
  assert (HpD : F2R p <= F2R d).
  { unfold d. cbn [F2R cond_Zopp]. apply Hpb; [reflexivity|discriminate|].
    change (IZR (Zpos 10354688) * bpow (-39)) with (F2R d). lra. }
  assert (Hap100 : F2R a + F2R p < bpow 100) by lra.
  destruct (SFadd_rounds_to a p Ha Hp Hap100) as (_ & _ & _ & Hwb).
  rewrite one_float. apply Hwb; [reflexivity|discriminate|].
  rewrite <- one_float. lra.
Qed.

(** The table interpolation at an in-quadrant position against the sine
    of the angle the position stands for. *)
Lemma quarter_interp_accuracy (x : Z) :
  is_u32 x ->
  nonneg_finite (@quarter_interp Ref.table x) /\
  F2R (@quarter_interp Ref.table x) <= 1 /\
  Rabs (F2R (@quarter_interp Ref.table x) - sin (IZR x * (PI / 2 / bpow 32)))
    <= 5 / 100000.
Proof.
  intros Hx. rewrite (quarter_interp_ref x Hx), (position_angle x Hx).
  destruct (position_split x Hx) as (_ & _ & Hi & Ht).
  set (k := Z.to_nat (x / 2 ^ 24)). set (t := (x mod 2 ^ 24)%Z) in *.
  assert (Hk : (k < 256)%nat) by (unfold k; lia).
  destruct (table_entry_error k ltac:(lia)) as (Ha & Ha1 & Hae).
  destruct (table_entry_error (S k) ltac:(lia)) as (Hb & Hb1 & Hbe).
  pose proof (table_entry_le k Hk) as Hab.
  destruct (interp_error _ _ t Ha Hb Hab Hb1 Ht) as (Hv & Hve).
  set (v := (table_entry k + (table_entry (S k) - table_entry k) *
             Ref.u32_to_fraction (t * 2 ^ 8))%f32) in *.
  set (f := IZR t * bpow (-24)) in *.
  assert (Hf : 0 <= f < 1).
  { unfold f. rewrite bpow_m24.
    destruct Ht as [H0 H1]. apply IZR_le in H0. apply IZR_lt in H1.
    change (IZR (2 ^ 24)) with 16777216 in H1. lra. }
  pose proof (nonneg_finite_F2R _ Ha) as HA0.
  set (A := F2R (table_entry k)) in *. set (B := F2R (table_entry (S k))) in *.
  rewrite bpow_m23 in Hve. rewrite bpow_m24 in Hae, Hbe.
  apply Rabs_le_inv in Hve, Hae, Hbe.
  assert (HBAf : (B - A) * f <= (B - A) * 1) by (apply Rmult_le_compat_l; lra).
  split; [assumption|]. split.
  - destruct (Nat.eq_dec k 255%nat) as [E|NE].
    + unfold v. rewrite E. apply last_segment_le_one. assumption.
    + pose proof (table_entry_below_one (S k) ltac:(lia)) as HB1.
      fold B in HB1. rewrite bpow_m16 in HB1. lra.
  - pose proof (chord_error (INR k * delta) f ltac:(lra)) as Hch.
    replace (INR k * delta + delta) with (INR (S k) * delta) in Hch
      by (rewrite S_INR; ring).
    apply Rabs_le_inv in Hch.
    set (S0 := sin (INR k * delta)) in *. set (S1 := sin (INR (S k) * delta)) in *.
    replace (INR k * delta + f * delta) with (INR k * delta + f * delta) in Hch by reflexivity.
    assert (P1u : (1 - f) * (A - S0) <= (1 - f) * (/ 16777216)) by (apply Rmult_le_compat_l; lra).
    assert (P1l : (1 - f) * (- / 16777216) <= (1 - f) * (A - S0)) by (apply Rmult_le_compat_l; lra).
    assert (P2u : f * (B - S1) <= f * (/ 16777216)) by (apply Rmult_le_compat_l; lra).
    assert (P2l : f * (- / 16777216) <= f * (B - S1)) by (apply Rmult_le_compat_l; lra).
    apply Rabs_le. split; lra.
Qed.

End QuarterWave.

(** ** Accuracy on the full circle *)

Section FullCircle.

Local Open Scope R_scope.

Lemma nonneg_valid (v : float) : nonneg_finite v -> valid_finite v.
Proof. destruct v as [s|s| |[|] m e]; cbn; tauto. Qed.

Lemma valid_neg (v : float) : valid_finite v -> valid_finite (- v)%f32.
Proof. destruct v as [s|s| |s m e]; cbn; tauto. Qed.

Lemma valid_is_finite (v : float) : valid_finite v -> F32.is_finite v = true.
Proof. destruct v as [s|s| |s m e]; cbn; tauto. Qed.

Lemma F2R_neg (v : float) : F2R (- v)%f32 = - F2R v.
Proof.
  destruct v as [s|s| |s m e]; cbn [F32.neg SFopp F2R]; try lra.
  destruct s; cbn [negb cond_Zopp]; rewrite ?opp_IZR; change (Z.neg m) with (- Z.pos m)%Z;
    rewrite ?opp_IZR; lra.
Qed.

Lemma eta_small : 0 < PI / 2 / bpow 32 <= / 1000000000.
Proof.
  pose proof PI_RGT_0. pose proof PI_4.
  rewrite <- (bpow_IZR 32) by lia. change (IZR (2 ^ 32)) with 4294967296.
  split; [apply Rdiv_lt_0_compat; lra|]. lra.
Qed.

Lemma sin_shift_small (a eta : R) :
  0 <= eta <= / 1000000000 ->
  - (2 / 1000000000) <= sin (a + eta) - sin a <= 2 / 1000000000.
Proof.
  intros [H0 H1]. rewrite sin_plus.
  pose proof (sin_upper eta H0) as Hsu.
  assert (Hs0 : 0 <= sin eta).
  { pose proof PI2_1. apply sin_ge_0; lra. }
  pose proof (cos_lower eta ltac:(lra)) as Hcl.
  pose proof (COS_bound eta) as [_ Hcu].
  assert (Hee : eta * eta <= / 1000000000 * / 1000000000) by (apply Rmult_le_compat; lra).
  assert (Hb1 : - / 1000000000 <= cos eta - 1 <= / 1000000000) by lra.
  assert (Hb2 : - / 1000000000 <= sin eta <= / 1000000000) by lra.
  pose proof (unit_product (sin a) (cos eta - 1) _ (SIN_bound a) Hb1) as P1.
  pose proof (unit_product (cos a) (sin eta) _ (COS_bound a) Hb2) as P2.
  lra.
Qed.

Lemma phase_split (p : Z) :
  is_u32 p ->
  exists k r : Z,
    p = (k * 2 ^ 30 + r)%Z /\ (0 <= k < 4)%Z /\ (0 <= r < 2 ^ 30)%Z /\
    phase_angle p = IZR k * (PI / 2) + IZR (4 * r) * (PI / 2 / bpow 32).
Proof.
  unfold is_u32, TWO_POW_32. intros Hp.
  exists (p / 2 ^ 30)%Z, (p mod 2 ^ 30)%Z.
  assert (Hs : p = (p / 2 ^ 30 * 2 ^ 30 + p mod 2 ^ 30)%Z).
  { rewrite Z.mul_comm. apply Z.div_mod. lia. }
  split; [exact Hs|].
  change (2 ^ 30)%Z with 1073741824%Z in *. change (2 ^ 32)%Z with 4294967296%Z in *.
  split; [Z.div_mod_to_equations; lia|].
  split; [Z.div_mod_to_equations; lia|].
  unfold phase_angle. rewrite Hs at 1.
  rewrite plus_IZR, !mult_IZR, <- (bpow_IZR 32) by lia.
  change (IZR (2 ^ 32)) with 4294967296. field.
Qed.

Lemma mirror_angle (r : Z) :
  IZR (u32_not (4 * r)) * (PI / 2 / bpow 32) + PI / 2 / bpow 32 =
  PI / 2 - IZR (4 * r) * (PI / 2 / bpow 32).
Proof.
  unfold u32_not, TWO_POW_32. rewrite !minus_IZR, <- (bpow_IZR 32) by lia.
  change (IZR (2 ^ 32)) with 4294967296. field.
Qed.

(** C4 for the sine, on the reference table. *)
Lemma phase_sin_accuracy (p : Z) :
  is_u32 p ->
  valid_finite (@phase_sin Ref.table p) /\
  -1 <= F2R (@phase_sin Ref.table p) <= 1 /\
  Rabs (F2R (@phase_sin Ref.table p) - sin (phase_angle p)) < 1 / 10000.
Proof.
  intros Hp. destruct (phase_split p Hp) as (k & r & Hs & Hk & Hr & Hang).
  rewrite phase_sin_quadrant, Hang. rewrite Hs.
  destruct (quadrant_split k r Hk Hr) as [-> _].
  rewrite (quadrant_pos_split k r Hk Hr).
  set (c := PI / 2 / bpow 32) in *. set (psi := IZR (4 * r) * c).
  pose proof eta_small as Hc. fold c in Hc.
  assert (Hx1 : is_u32 (4 * r)).
  { unfold is_u32, TWO_POW_32. change (2 ^ 30)%Z with 1073741824%Z in Hr.
    change (2 ^ 32)%Z with 4294967296%Z. lia. }
  assert (Hx2 : is_u32 (u32_not (4 * r))).
  { unfold is_u32, u32_not, TWO_POW_32 in *. lia. }
  pose proof (mirror_angle r) as Hm. fold c psi in Hm.
  assert (Hcases : (k = 0 \/ k = 1 \/ k = 2 \/ k = 3)%Z) by lia.
  unfold quadrant_sign.
  destruct Hcases as [-> | [-> | [-> | ->]]].
  - change (negb (Z.land 0 1 =? 0)%Z) with false. change (negb (Z.land 0 2 =? 0)%Z) with false.
    cbv iota.
    destruct (quarter_interp_accuracy _ Hx1) as (Hv & Hv1 & Hve).
    fold c psi in Hve. pose proof (nonneg_finite_F2R _ Hv) as Hv0.
    split; [exact (nonneg_valid _ Hv)|]. split; [lra|].
    replace (0 * (PI / 2) + psi) with psi by ring.
    eapply Rle_lt_trans; [exact Hve|]. lra.
  - change (negb (Z.land 1 1 =? 0)%Z) with true. change (negb (Z.land 1 2 =? 0)%Z) with false.
    cbv iota.
    destruct (quarter_interp_accuracy _ Hx2) as (Hv & Hv1 & Hve).
    fold c in Hve. pose proof (nonneg_finite_F2R _ Hv) as Hv0.
    split; [exact (nonneg_valid _ Hv)|]. split; [lra|].
    replace (1 * (PI / 2) + psi) with (PI / 2 + psi) by lra.
    rewrite <- cos_sin, <- sin_shift, <- Hm.
    pose proof (sin_shift_small (IZR (u32_not (4 * r)) * c) c ltac:(lra)) as Hsh.
    apply Rabs_le_inv in Hve. apply Rabs_def1; lra.
  - change (negb (Z.land 2 1 =? 0)%Z) with false. change (negb (Z.land 2 2 =? 0)%Z) with true.
    cbv iota.
    destruct (quarter_interp_accuracy _ Hx1) as (Hv & Hv1 & Hve).
    fold c psi in Hve. pose proof (nonneg_finite_F2R _ Hv) as Hv0.
    rewrite F2R_neg.
    split; [exact (valid_neg _ (nonneg_valid _ Hv))|]. split; [lra|].
    replace (2 * (PI / 2) + psi) with (psi + PI) by lra.
    rewrite neg_sin.
    apply Rabs_le_inv in Hve. apply Rabs_def1; lra.
  - change (negb (Z.land 3 1 =? 0)%Z) with true. change (negb (Z.land 3 2 =? 0)%Z) with true.
    cbv iota.
    destruct (quarter_interp_accuracy _ Hx2) as (Hv & Hv1 & Hve).
    fold c in Hve. pose proof (nonneg_finite_F2R _ Hv) as Hv0.
    rewrite F2R_neg.
    split; [exact (valid_neg _ (nonneg_valid _ Hv))|]. split; [lra|].
    replace (3 * (PI / 2) + psi) with (PI / 2 + psi + PI) by lra.
    rewrite neg_sin, <- cos_sin, <- sin_shift, <- Hm.
    pose proof (sin_shift_small (IZR (u32_not (4 * r)) * c) c ltac:(lra)) as Hsh.
    apply Rabs_le_inv in Hve. apply Rabs_def1; lra.
Qed.

(** C4 for the cosine, on the reference table. *)
Lemma phase_cos_accuracy (p : Z) :
  is_u32 p ->
  valid_finite (@phase_cos Ref.table p) /\
  -1 <= F2R (@phase_cos Ref.table p) <= 1 /\
  Rabs (F2R (@phase_cos Ref.table p) - cos (phase_angle p)) < 1 / 10000.
Proof.
  intros Hp. unfold phase_cos.
  set (p' := wrap32 (p + Z.shiftl 1 30)).
  assert (Hp' : is_u32 p') by apply wrap32_is_u32.
  destruct (phase_sin_accuracy p' Hp') as (Hfin & Hrange & Hacc).
  split; [exact Hfin|]. split; [exact Hrange|].
  assert (E : sin (phase_angle p') = cos (phase_angle p)); [|rewrite <- E; exact Hacc].
  rewrite cos_sin.
  assert (Hcase : (p' = p + 2 ^ 30 \/ p' = p + 2 ^ 30 - 2 ^ 32)%Z).
  { clear Hfin Hrange Hacc. unfold p', wrap32, is_u32, TWO_POW_32 in *. change (Z.shiftl 1 30) with (2 ^ 30)%Z.
    change (2 ^ 30)%Z with 1073741824%Z. change (2 ^ 32)%Z with 4294967296%Z in *.
    Z.div_mod_to_equations. lia. }
  destruct Hcase as [-> | ->].
  - f_equal. unfold phase_angle. rewrite plus_IZR.
    change (IZR (2 ^ 30)) with 1073741824. field.
  - rewrite <- (sin_period _ 1). f_equal. unfold phase_angle.
    rewrite minus_IZR, plus_IZR.
    change (IZR (2 ^ 30)) with 1073741824. change (IZR (2 ^ 32)) with 4294967296.
    change (INR 1) with 1. field.
Qed.

End FullCircle.

(** ** Square, division by one and square root *)

Lemma round_aux_opp (m e : Z) (l : location) :
  binary_round_aux prec emax true m e l =
  SFopp (binary_round_aux prec emax false m e l).
Proof.
  unfold binary_round_aux.
  destruct (shr_fexp prec emax m e l) as [mrs' e'].
  destruct (shr_fexp prec emax _ e' loc_Exact) as [mrs'' e''].
  destruct (shr_m mrs''); try reflexivity.
  destruct (e'' <=? emax - prec); reflexivity.
Qed.

Lemma div_eucl_exact (a b : Z) : 0 < b -> Z.div_eucl (a * b) b = (a, 0).
Proof.
  intros Hb.
  pose proof (Z.div_mul a b ltac:(lia)) as Hq.
  pose proof (Z.mod_mul a b ltac:(lia)) as Hr.
  unfold Z.div, Z.modulo in Hq, Hr.
  destruct (Z.div_eucl (a * b) b) as [q r]. now subst.
Qed.

Section Magnitude.

Local Open Scope R_scope.

Lemma F2R_abs_finite (s : bool) (m : positive) (e : Z) :
  Rabs (F2R (S754_finite s m e)) = IZR (Zpos m) * bpow e.
Proof.
  pose proof (bpow_pos e). assert (1 <= IZR (Zpos m)) by (apply IZR_le; lia).
  destruct s; cbn [F2R cond_Zopp].
  - change (Z.neg m) with (- Z.pos m)%Z. rewrite opp_IZR.
    rewrite Rabs_left by nra. lra.
  - rewrite Rabs_right by nra. reflexivity.
Qed.

Lemma F2R_opp_abs (z : float) : Rabs (F2R (SFopp z)) = Rabs (F2R z).
Proof. change (SFopp z) with (- z)%f32. rewrite F2R_neg. apply Rabs_Ropp. Qed.

(** The square of a finite float. *)
Lemma SFmul_square (x : float) :
  valid_finite x -> F2R x * F2R x < bpow 100 ->
  rounds_to (x * x)%f32 (F2R x * F2R x).
Proof.
  destruct x as [s|s| |s m e]; cbn [valid_finite]; try tauto; intros Hx Hv.
  - apply (rounds_to_eq _ (F2R (S754_zero (xorb s s)))); [cbn; lra|].
    apply rounds_to_exact. exact I.
  - unfold F32.mul. cbn [SFmul]. replace (xorb s s) with false by (destruct s; reflexivity).
    assert (E : F2R (S754_finite s m e) * F2R (S754_finite s m e) =
                IZR (Zpos (m * m)) * bpow (e + e)).
    { rewrite Pos2Z.inj_mul, mult_IZR, bpow_add.
      destruct s; cbn [F2R cond_Zopp]; [change (Z.neg m) with (- Z.pos m)%Z; rewrite opp_IZR|];
        ring. }
    rewrite E in Hv |- *. apply round_aux_rounds_to; [lia|assumption].
Qed.

(** Adding to zero. *)
Lemma add_zero_l (x : float) :
  valid_finite x ->
  valid_finite (F32.zero + x)%f32 /\ F2R (F32.zero + x)%f32 = F2R x.
Proof.
  destruct x as [s|s| |s m e]; cbn [valid_finite]; try tauto; intros Hx.
  - destruct s; cbn; split; trivial.
  - cbn. split; [assumption|reflexivity].
Qed.

(** Division by the float 1. *)
Lemma div_one (x : float) :
  valid_finite x -> Rabs (F2R x) < bpow 100 ->
  exists z,
    rounds_to z (Rabs (F2R x)) /\
    valid_finite (x / F32.of_Z 1)%f32 /\
    Rabs (F2R (x / F32.of_Z 1)%f32) = F2R z.
Proof.
  change (F32.of_Z 1) with (S754_finite false 8388608 (-23)).
  destruct x as [s|s| |s m e]; cbn [valid_finite]; try tauto; intros Hx Hv.
  - exists (S754_zero false). cbn [F32.div SFdiv valid_finite F2R].
    rewrite Rabs_R0. split; [|split; [exact I|reflexivity]].
    apply (rounds_to_eq _ (F2R (S754_zero false))); [reflexivity|].
    apply rounds_to_exact. exact I.
  - destruct Hx as [Hm He]. change (emin prec emax) with (-149)%Z in He.
    rewrite F2R_abs_finite in Hv |- *.
    unfold F32.div. cbn [SFdiv]. unfold SFdiv_core_binary.
    change (Zdigits2 (Zpos 8388608)) with 24%Z.
    set (d1 := Zdigits2 (Zpos m)).
    assert (Hd1 : (1 <= d1 <= 24)%Z).
    { unfold d1. split; [cbn; lia|].
      apply Zdigits2_le; [lia|]. change (2 ^ prec)%Z with (2 ^ 24)%Z in Hm. lia. }
    set (e' := Z.min (fexp prec emax (d1 + e - (24 + -23))) (e - -23)).
    assert (He' : (e' <= e)%Z /\ (-149 <= e')%Z).
    { unfold e', fexp. change (emin prec emax) with (-149)%Z.
      change IntDef.Z.max with Z.max. change IntDef.Z.sub with Z.sub.
      change prec with 24%Z. lia. }
    set (sh := (e - -23 - e')%Z).
    assert (Hsh : (23 <= sh)%Z) by (unfold sh; lia).
    destruct sh as [|psh|psh] eqn:Esh; try lia.
    rewrite Z.shiftl_mul_pow2 by lia.
    replace (Zpos m * 2 ^ Zpos psh)%Z with ((Zpos m * 2 ^ (Zpos psh - 23)) * 8388608)%Z.
    2:{ rewrite <- Z.mul_assoc. f_equal. change 8388608%Z with (2 ^ 23)%Z.
        rewrite <- Z.pow_add_r by lia. f_equal. lia. }
    rewrite div_eucl_exact by lia.
    change (new_location 8388608 0) with loc_Exact.
    set (q := (Zpos m * 2 ^ (Zpos psh - 23))%Z).
    assert (Hq : (0 < q)%Z).
    { unfold q. pose proof (Z.pow_pos_nonneg 2 (Zpos psh - 23) ltac:(lia) ltac:(lia)). lia. }
    assert (Eq : IZR q * bpow e' = IZR (Zpos m) * bpow e).
    { unfold q. rewrite mult_IZR, bpow_IZR by lia.
      rewrite Rmult_assoc, <- bpow_add. do 2 f_equal. unfold sh in Esh. lia. }
    exists (binary_round_aux prec emax false q e' loc_Exact).
    assert (Hr : rounds_to (binary_round_aux prec emax false q e' loc_Exact)
                   (IZR (Zpos m) * bpow e)).
    { rewrite <- Eq. apply round_aux_rounds_to; [assumption|]. now rewrite Eq. }
    split; [exact Hr|].
    destruct Hr as (Hz & _).
    replace (xorb s false) with s by (destruct s; reflexivity).
    destruct s.
    + rewrite round_aux_opp. split.
      * apply (valid_neg _ (nonneg_valid _ Hz)).
      * rewrite F2R_opp_abs. apply Rabs_right, Rle_ge, nonneg_finite_F2R, Hz.
    + split.
      * apply (nonneg_valid _ Hz).
      * apply Rabs_right, Rle_ge, nonneg_finite_F2R, Hz.
Qed.

Lemma bpow_m22 : bpow (-22) = / 4194304.
Proof. apply (bpow_neg_inv 22). lia. Qed.

Lemma bpow_2 : bpow 2 = 4.
Proof. rewrite <- (bpow_IZR 2) by lia. reflexivity. Qed.

Lemma bpow_1 : bpow 1 = 2.
Proof. rewrite <- (bpow_IZR 1) by lia. reflexivity. Qed.

Lemma bpow_m2 : bpow (-2) = / 4.
Proof. apply (bpow_neg_inv 2). lia. Qed.

Lemma IZR_lt_pow2_digits (m : Z) : (0 <= m)%Z -> IZR m < bpow (Zdigits2 m).
Proof.
  intros Hm. rewrite <- bpow_IZR by apply Zdigits2_nonneg.
  apply IZR_lt, Zdigits2_upper, Hm.
Qed.

(** Square root of a float in [1/4, 4): the result is at most
    [2^-22] below a number whose square exceeds the argument. *)
Lemma sqrtf_lower (x : float) :
  nonneg_finite x -> 1 / 4 <= F2R x < 4 ->
  nonneg_finite (F32.sqrtf x) /\
  F2R x < (F2R (F32.sqrtf x) + bpow (-22)) * (F2R (F32.sqrtf x) + bpow (-22)).
Proof.
  destruct x as [s|s| |s m e]; cbn [nonneg_finite]; try tauto.
  { cbn [F2R]. lra. }
  destruct s; [tauto|]. intros [Hm He] HX.
  change (emin prec emax) with (-149)%Z in He.
  change (2 ^ prec)%Z with (2 ^ 24)%Z in Hm.
  cbn [F2R cond_Zopp] in HX |- *.
  unfold F32.sqrtf. cbn [SFsqrt]. unfold SFsqrt_core_binary.
  set (d := Zdigits2 (Zpos m)).
  assert (Hd : (1 <= d <= 24)%Z).
  { unfold d. split; [cbn; lia|]. apply Zdigits2_le; lia. }
  assert (Hde : (-1 <= d + e <= 2)%Z).
  { pose proof (IZR_pow2_le_digits (Zpos m) ltac:(lia)) as Hlo.
    pose proof (IZR_lt_pow2_digits (Zpos m) ltac:(lia)) as Hhi.
    fold d in Hlo, Hhi. pose proof (bpow_pos e) as Hpe.
    assert (H1 : bpow (d - 1 + e) < bpow 2).
    { rewrite bpow_add, bpow_2.
      apply Rle_lt_trans with (IZR (Zpos m) * bpow e); [|lra].
      apply Rmult_le_compat_r; lra. }
    assert (H2 : bpow (-2) < bpow (d + e)).
    { rewrite bpow_add, bpow_m2.
      apply Rle_lt_trans with (IZR (Zpos m) * bpow e); [lra|].
      apply Rmult_lt_compat_r; lra. }
    apply bpow_lt_inv in H1, H2. lia. }
  set (e' := Z.min (fexp prec emax (Z.div2 (d + e + 1))) (Z.div2 e)).
  assert (He' : (-24 <= e' <= -23 /\ 0 <= e - 2 * e' /\ d + e - 2 * e' <= 50)%Z).
  { unfold e', fexp. change (emin prec emax) with (-149)%Z.
    change IntDef.Z.max with Z.max. change IntDef.Z.sub with Z.sub.
    change prec with 24%Z. rewrite !Z.div2_div.
    Z.div_mod_to_equations. lia. }
  destruct He' as (He'1 & Hs & Hds).
  set (m' := match (e - 2 * e')%Z with
             | Z0 => Zpos m
             | Zpos _ => Z.shiftl (Zpos m) (e - 2 * e')
             | Zneg _ => 0%Z
             end).
  assert (Em' : m' = (Zpos m * 2 ^ (e - 2 * e'))%Z).
  { unfold m'. destruct (e - 2 * e')%Z as [|ps|ps] eqn:Es; try lia.
    - now rewrite Z.shiftl_mul_pow2 by lia. }
  clearbody m'.
  assert (Hm'pos : (0 < m')%Z).
  { rewrite Em'. pose proof (Z.pow_pos_nonneg 2 (e - 2 * e') ltac:(lia) Hs). lia. }
  assert (Hm'up : (m' < 2 ^ 50)%Z).
  { rewrite Em'. pose proof (Zdigits2_upper (Zpos m) ltac:(lia)) as Hu. fold d in Hu.
    apply Z.lt_le_trans with (2 ^ d * 2 ^ (e - 2 * e'))%Z.
    - apply Z.mul_lt_mono_pos_r; [apply Z.pow_pos_nonneg; lia|exact Hu].
    - rewrite <- Z.pow_add_r by lia. apply Z.pow_le_mono_r; lia. }
  assert (EX : IZR (Zpos m) * bpow e = IZR m' * (bpow e' * bpow e')).
  { rewrite Em', mult_IZR, bpow_IZR by assumption.
    rewrite <- bpow_add, Rmult_assoc, <- bpow_add. do 2 f_equal. lia. }
  pose proof (Z.sqrtrem_spec m' ltac:(lia)) as Hsq.
  destruct (Z.sqrtrem m') as [q r]. destruct Hsq as [Hq Hr].
  assert (Hq0 : (0 <= q)%Z) by lia.
  assert (Hq25 : (q < 2 ^ 25)%Z).
  { change (2 ^ 50)%Z with (2 ^ 25 * 2 ^ 25)%Z in Hm'up. nia. }
  match goal with
  | |- context [binary_round_aux _ _ _ _ _ ?l0] => generalize l0; intros l
  end.
  assert (Hn : (0 <= round_shift q e' <= 1)%Z).
  { unfold round_shift, fexp. change (emin prec emax) with (-149)%Z.
    change IntDef.Z.max with Z.max. change IntDef.Z.sub with Z.sub.
    change prec with 24%Z.
    pose proof (Zdigits2_le q 25 ltac:(lia) ltac:(lia)).
    pose proof (Zdigits2_nonneg q). lia. }
  destruct (round_aux_Z q e' l Hq0) as (m1 & Hm1 & _ & Hrep).
  { change (emax - prec)%Z with 104%Z. lia. }
  apply represents_F2R in Hrep. destruct Hrep as [Hz Ez].
  split; [exact Hz|]. rewrite Ez, EX.
  pose proof (bpow_pos e') as Hpe'.
  assert (Hb : bpow e' <= bpow (-23)) by (apply bpow_le; lia).
  assert (Hlow : IZR (q - 1) * bpow e' <= IZR m1 * bpow (e' + round_shift q e')).
  { destruct (Z.eq_dec (round_shift q e') 0%Z) as [E0|E0].
    - rewrite E0 in Hm1 |- *. change (2 ^ 0)%Z with 1%Z in Hm1.
      rewrite Z.div_1_r in Hm1. rewrite Z.add_0_r.
      apply Rmult_le_compat_r; [lra|]. apply IZR_le. lia.
    - assert (E1 : round_shift q e' = 1%Z) by lia.
      rewrite E1 in Hm1 |- *. change (2 ^ 1)%Z with 2%Z in Hm1.
      rewrite bpow_add, bpow_1.
      replace (IZR m1 * (bpow e' * 2)) with (IZR (2 * m1) * bpow e')
        by (rewrite mult_IZR; ring).
      apply Rmult_le_compat_r; [lra|]. apply IZR_le.
      Z.div_mod_to_equations. lia. }
  rewrite minus_IZR in Hlow.
  set (Y := IZR m1 * bpow (e' + round_shift q e')) in *. clearbody Y.
  assert (Hm'q : IZR m' < IZR (q + 1) * IZR (q + 1)).
  { rewrite <- mult_IZR. apply IZR_lt. nia. }
  rewrite plus_IZR in Hm'q.
  assert (Hq1 : 0 <= IZR q) by (apply IZR_le; lia).
  rewrite bpow_m22. rewrite bpow_m23 in Hb.
  set (t := bpow e') in *. clearbody t.
  set (Q := IZR q) in *. clearbody Q.
  apply Rlt_le_trans with (((Q + 1) * t) * ((Q + 1) * t)).
  - replace ((Q + 1) * t * ((Q + 1) * t)) with ((Q + 1) * (Q + 1) * (t * t)) by ring.
    apply Rmult_lt_compat_r; [|assumption].
    apply Rmult_lt_0_compat; assumption.
  - assert (H0 : 0 <= (Q + 1) * t) by (apply Rmult_le_pos; lra).
    assert (H1 : (Q + 1) * t <= Y + / 4194304) by (simpl in *; lra).
    apply Rmult_le_compat; lra.
Qed.

End Magnitude.

(** ** The order parameter of a single oscillator *)

Section StepSequence.

Context `{T : sine_table} `{L : lfo_h}.

Lemma mean_vector_single (g : coupled_lfo_group) :
  count g = 1 -> mean_vector_magnitude g = single_magnitude (phase_at g 0).
Proof.
  intros Hc. unfold mean_vector_magnitude, cos_sum, sin_sum, single_magnitude.
  rewrite Hc. change (seqZ 0 1) with [0]. reflexivity.
Qed.

Hypothesis lfo_step_u32 :
  forall (l : lfo_state.t) (type : lfo_type),
    is_u32 (lfo_state.idx (fst (lfo_step l type))).

Lemma step_sequence_single (types : list lfo_type) :
  forall g : coupled_lfo_group,
    group_wf g -> count g = 1 -> is_u32 (phase_at g 0) ->
    exists g',
      step_sequence 0 types g = Some (tt, g') /\
      group_wf g' /\ count g' = 1 /\ is_u32 (phase_at g' 0).
Proof.
  induction types as [|type rest IH]; intros g Hwf Hc Hp.
  - exists g. split; [reflexivity|]. split; [exact Hwf|]. split; [exact Hc|exact Hp].
  - cbn [step_sequence]. unfold bind at 1.
    rewrite step_uncoupled; [|assumption|unfold MAX_COUPLED_LFOS; lia|].
    2:{ rewrite Hc. apply andb_false_r. }
    unfold standalone_step.
    destruct (lfos g !! Z.to_nat 0) as [l|] eqn:El.
    2:{ apply lookup_ge_None in El. unfold group_wf, MAX_COUPLED_LFOS in Hwf.
        cbn in El. lia. }
    apply IH.
    + now apply set_lfo_wf.
    + exact Hc.
    + unfold phase_at. rewrite set_lfo_lookup; [apply lfo_step_u32|assumption|].
      unfold MAX_COUPLED_LFOS; lia.
Qed.

End StepSequence.

Section SingleOscillator.

Local Open Scope R_scope.

Lemma square_lower (u w d : R) :
  0 <= u <= 1 -> 0 <= d -> 0 <= w -> u - d <= w -> u * u - 2 * d <= w * w.
Proof.
  intros Hu Hd Hw Hlow. destruct (Rle_dec d u) as [Hdu|Hdu].
  - assert (H1 : (u - d) * (u - d) <= w * w) by (apply Rmult_le_compat; lra).
    assert (H2 : d * u <= d * 1) by (apply Rmult_le_compat_l; lra).
    assert (H3 : 0 <= d * d) by (apply Rmult_le_pos; lra).
    replace ((u - d) * (u - d)) with (u * u - 2 * (d * u) + d * d) in H1 by ring.
    lra.
  - assert (H1 : u * u <= 1 * u) by (apply Rmult_le_compat_r; lra).
    assert (H2 : 0 <= w * w) by (apply Rmult_le_pos; lra).
    lra.
Qed.

(** One component of the mean vector: the rounded value divided by the
    float 1, squared. *)
Lemma component_square (x : float) (t : R) :
  valid_finite x -> -1 <= F2R x <= 1 -> -1 <= t <= 1 ->
  Rabs (F2R x - t) < 1 / 10000 ->
  let c := ((F32.zero + x) / F32.of_Z 1)%f32 in
  nonneg_finite (c * c)%f32 /\
  t * t - 3 / 10000 <= F2R (c * c)%f32 <= 1.
Proof.
  intros Hx Hr Ht Hacc c.
  destruct (add_zero_l x Hx) as [Hv0 E0].
  assert (Hb100 : 2 < bpow 100).
  { apply Rlt_le_trans with (bpow 2); [rewrite bpow_2; lra|apply bpow_le; lia]. }
  destruct (div_one (F32.zero + x)%f32 Hv0) as (z & Hz & Hvc & Ec).
  { rewrite E0. apply Rle_lt_trans with 1; [|lra].
    unfold Rabs. destruct (Rcase_abs (F2R x)); lra. }
  fold c in Hvc, Ec. rewrite E0 in Hz.
  destruct Hz as (Hz0 & Hz1 & _ & Hz3).
  pose proof (nonneg_finite_F2R z Hz0) as Hzpos.
  assert (HabsX : Rabs (F2R x) <= 1) by (unfold Rabs; destruct (Rcase_abs (F2R x)); lra).
  assert (Hz1' : F2R z <= 1).
  { rewrite one_float. apply Hz3; [reflexivity|change (emin prec emax) with (-149)%Z; lia|]. rewrite <- one_float. exact HabsX. }
  pose proof bpow_m149_small as Hsmall. rewrite bpow_m23 in Hz1, Hsmall.
  apply Rabs_le_inv in Hz1.
  assert (Hzlow : Rabs t - 11 / 100000 <= F2R z).
  { assert (Rabs t - 1 / 10000 <= Rabs (F2R x)).
    { revert Hacc. unfold Rabs.
      destruct (Rcase_abs (F2R x - t)), (Rcase_abs t), (Rcase_abs (F2R x)); lra. }
    assert (Rabs (F2R x) * / 8388608 <= 1 * / 8388608)
      by (apply Rmult_le_compat_r; lra).
    lra. }
  assert (Hcc : F2R c * F2R c = F2R z * F2R z).
  { rewrite <- Ec. unfold Rabs. destruct (Rcase_abs (F2R c)); ring. }
  assert (Hzz : F2R z * F2R z <= 1).
  { replace 1 with (1 * 1) by ring. apply Rmult_le_compat; lra. }
  destruct (SFmul_square c Hvc) as (Hm0 & Hm1 & _ & Hm3).
  { rewrite Hcc. lra. }
  split; [exact Hm0|]. rewrite Hcc in Hm1, Hm3.
  rewrite bpow_m23 in Hm1. apply Rabs_le_inv in Hm1.
  split.
  - assert (Habs_t : 0 <= Rabs t <= 1) by (unfold Rabs; destruct (Rcase_abs t); lra).
    pose proof (square_lower (Rabs t) (F2R z) (11 / 100000) Habs_t ltac:(lra) Hzpos
                  ltac:(lra)) as Hsq.
    assert (Ett : Rabs t * Rabs t = t * t) by (unfold Rabs; destruct (Rcase_abs t); ring).
    rewrite Ett in Hsq.
    assert (F2R z * F2R z * / 8388608 <= 1 * / 8388608)
      by (apply Rmult_le_compat_r; lra).
    lra.
  - rewrite one_float. apply Hm3; [reflexivity|change (emin prec emax) with (-149)%Z; lia|]. rewrite <- one_float. exact Hzz.
Qed.

Lemma single_magnitude_lower (p : Z) :
  is_u32 p ->
  nonneg_finite (@single_magnitude Ref.table p) /\
  999 / 1000 < F2R (@single_magnitude Ref.table p).
Proof.
  intros Hp. unfold single_magnitude.
  destruct (phase_cos_accuracy p Hp) as (Hcv & Hcr & Hca).
  destruct (phase_sin_accuracy p Hp) as (Hsv & Hsr & Hsa).
  pose proof (COS_bound (phase_angle p)) as Hcb.
  pose proof (SIN_bound (phase_angle p)) as Hsb.
  pose proof (component_square _ _ Hcv Hcr Hcb Hca) as (Ha0 & Ha).
  pose proof (component_square _ _ Hsv Hsr Hsb Hsa) as (Hb0 & Hb).
  cbv zeta in Ha0, Ha, Hb0, Hb.
  set (a := (_ * _)%f32) in *. clearbody a.
  set (b := (_ * _)%f32) in *. clearbody b.
  pose proof (sin2_cos2 (phase_angle p)) as Hone. unfold Rsqr in Hone.
  assert (Hb100 : 2 < bpow 100).
  { apply Rlt_le_trans with (bpow 2); [rewrite bpow_2; lra|apply bpow_le; lia]. }
  destruct (SFadd_rounds_to a b Ha0 Hb0 ltac:(lra)) as (Hs0 & Hs1 & _ & Hs3).
  fold (F32.add a b) in Hs0, Hs1, Hs3.
  pose proof bpow_m149_small as Hsmall. rewrite bpow_m23 in Hs1, Hsmall.
  apply Rabs_le_inv in Hs1.
  assert (Hup : F2R (a + b)%f32 <= 2).
  { replace 2 with (IZR (Zpos 1) * bpow 1) by (rewrite bpow_1; lra).
    apply Hs3; [reflexivity|change (emin prec emax) with (-149)%Z; lia|]. rewrite bpow_1. lra. }
  assert (Hlo : 9990 / 10000 <= F2R (a + b)%f32).
  { assert ((F2R a + F2R b) * / 8388608 <= 2 * / 8388608)
      by (apply Rmult_le_compat_r; lra).
    lra. }
  destruct (sqrtf_lower (a + b)%f32 Hs0 ltac:(lra)) as (Hr0 & Hr1).
  split; [exact Hr0|].
  pose proof (nonneg_finite_F2R _ Hr0) as Hrpos.
  rewrite bpow_m22 in Hr1.
  set (Y := F2R (F32.sqrtf (a + b)%f32)) in *. clearbody Y.
  destruct (Rlt_dec (999 / 1000) Y) as [Hy|Hy]; [exact Hy|exfalso].
  assert ((Y + / 4194304) * (Y + / 4194304) <= (9991 / 10000) * (9991 / 10000))
    by (apply Rmult_le_compat; lra).
  lra.
Qed.

End SingleOscillator.

(** ** The numerical claims *)

(** C4, on the reference table: for every 32-bit phase, [phase_sin] and
    [phase_cos] each return a finite float whose value lies in [-1,1]
    and differs from the sine, respectively the cosine, of
    [phase / 2^32 * 2 pi] by less than 1e-4. *)
Theorem phase_sin_cos_accuracy (p : Z) :
  is_u32 p ->
  (F32.is_finite (@phase_sin Ref.table p) = true /\
   (-1 <= F2R (@phase_sin Ref.table p) <= 1)%R /\
   (Rabs (F2R (@phase_sin Ref.table p) - sin (phase_angle p)) < 1 / 10000)%R) /\
  (F32.is_finite (@phase_cos Ref.table p) = true /\
   (-1 <= F2R (@phase_cos Ref.table p) <= 1)%R /\
   (Rabs (F2R (@phase_cos Ref.table p) - cos (phase_angle p)) < 1 / 10000)%R).
Proof.
  intros Hp.
  destruct (phase_sin_accuracy p Hp) as (Hsv & Hsr & Hsa).
  destruct (phase_cos_accuracy p Hp) as (Hcv & Hcr & Hca).
  split.
  - split; [exact (valid_is_finite _ Hsv)|]. split; [exact Hsr|exact Hsa].
  - split; [exact (valid_is_finite _ Hcv)|]. split; [exact Hcr|exact Hca].
Qed.


(** ** The theorems at concrete groups, on the reference tables *)

Lemma zero_coupling_is_standalone_witness :
  exists l,
    lfos group_uncoupled !! Z.to_nat 0 = Some l /\
    coupled_lfo_step 0 lfo_sinewave group_uncoupled =
    Some (snd (lfo_step l lfo_sinewave),
          set_lfo group_uncoupled 0 (fst (lfo_step l lfo_sinewave))).
Proof.
  apply (@zero_coupling_is_standalone Ref.table Ref.lfo group_uncoupled 0 lfo_sinewave).
  - reflexivity.
  - left. reflexivity.
  - cbn. lia.
  - cbn. unfold MAX_COUPLED_LFOS. lia.
Defined.

Lemma negative_coupling_is_standalone_witness :
  exists l,
    lfos group_neg !! Z.to_nat 1 = Some l /\
    coupled_lfo_step 1 lfo_triangle group_neg =
    Some (snd (lfo_step l lfo_triangle),
          set_lfo group_neg 1 (fst (lfo_step l lfo_triangle))).
Proof.
  apply (@negative_coupling_is_standalone Ref.table Ref.lfo group_neg 1 lfo_triangle).
  - reflexivity.
  - reflexivity.
  - cbn. lia.
  - cbn. unfold MAX_COUPLED_LFOS. lia.
Defined.

Lemma positive_coupling_step_witness :
  coupled_lfo_step 0 lfo_sinewave group_pos =
  Some (snd (lfo_step (lfo_state.mk 1 7) lfo_sinewave),
        set_lfo group_pos 0 (lfo_state.mk 8 7)).
Proof.
  apply (@positive_coupling_step Ref.table Ref.lfo group_pos 0 lfo_sinewave
           (lfo_state.mk 0 7) 1).
  - reflexivity.
  - reflexivity.
  - cbn. unfold MAX_COUPLED_LFOS. lia.
  - cbn. lia.
  - reflexivity.
  - vm_compute. reflexivity.
  - lia.
Defined.


Lemma order_parameter_pure_read_witness :
  (exists r, coupled_lfo_order_parameter group_pos = Some (r, group_pos)) /\
  (forall n : nat, poll_order_parameter n group_pos = Some (tt, group_pos)) /\
  (forall (n : nat) (idx : Z) (type : lfo_type),
      (run poll_order_parameter n; coupled_lfo_step idx type)%M group_pos =
      coupled_lfo_step idx type group_pos).
Proof.
  apply (@order_parameter_pure_read Ref.table Ref.lfo group_pos).
  - reflexivity.
  - cbn. unfold MAX_COUPLED_LFOS. lia.
Defined.

(** ** Where the code departs from the specification's wording *)

(** C1 as stated fails twice.  With coupling -1/2 (nonzero) the coupling
    block is skipped: the phase of slot 0 goes from 0 to 7, where the
    stated formula gives 0 + round(-1.75) + 7 = 5.  With coupling 1/2 the
    extra advance is the truncation of 1.75, so the phase goes to 8,
    where the stated formula gives 0 + round(1.75) + 7 = 9. *)
Lemma stated_extra_advance_fails :
  (F32.eqb (coupling group_neg) F32.zero = false /\
   (snd <$> coupled_lfo_step 0 lfo_sinewave group_neg) = Some (set_lfo group_neg 0 (lfo_state.mk 7 7)) /\
   spec_stepped_phase group_neg 0 = Some 5) /\
  (F32.eqb (coupling group_pos) F32.zero = false /\
   (snd <$> coupled_lfo_step 0 lfo_sinewave group_pos) = Some (set_lfo group_pos 0 (lfo_state.mk 8 7)) /\
   spec_stepped_phase group_pos 0 = Some 9).
Proof. vm_compute. repeat split. Qed.

(** C3 as stated fails at p = 1, q = 0: [phase_sin 1] interpolates at
    in-quadrant position 4, [phase_sin (2^32 - 1)] at position 3, and the
    two values are not negatives of each other. *)
Lemma phase_sin_not_odd :
  F32.eqb (phase_sin (wrap32 (1 - 0))) (- phase_sin (wrap32 (0 - 1)))%f32 = false.
Proof. vm_compute. reflexivity. Qed.


(** C5 at a locked group: three oscillators at the same phase 763361994.
    The call returns the magnitude of the mean unit vector as the formula
    has it, the group is untouched, and the value is the float just above
    1, outside [0,1]. *)
Theorem order_parameter_exceeds_one :
  coupled_lfo_order_parameter group_locked =
  Some (mean_vector_magnitude group_locked, group_locked) /\
  mean_vector_magnitude group_locked = S754_finite false 8388609 (-23) /\
  F32.leb (mean_vector_magnitude group_locked) f_one = false.
Proof. vm_compute. repeat split. Qed.

Lemma phase_sin_cos_accuracy_witness :
  (F32.is_finite (@phase_sin Ref.table 763361994) = true /\
   (-1 <= F2R (@phase_sin Ref.table 763361994) <= 1)%R /\
   (Rabs (F2R (@phase_sin Ref.table 763361994) - sin (phase_angle 763361994))
    < 1 / 10000)%R) /\
  (F32.is_finite (@phase_cos Ref.table 763361994) = true /\
   (-1 <= F2R (@phase_cos Ref.table 763361994) <= 1)%R /\
   (Rabs (F2R (@phase_cos Ref.table 763361994) - cos (phase_angle 763361994))
    < 1 / 10000)%R).
Proof.
  apply (phase_sin_cos_accuracy 763361994).
  unfold is_u32, TWO_POW_32. lia.
Defined.


(** * Further theorems *)

(** ** Symmetries, bounds of the array and uncoupled runs *)

Section StructuralFacts.

Section HalfTurn.

Context `{T : sine_table}.

Lemma half_turn_split (p : Z) :
  is_u32 p ->
  exists k r, 0 <= k < 4 /\ 0 <= r < 2 ^ 30 /\
    p = k * 2 ^ 30 + r /\
    wrap32 (p + 2 ^ 31) = ((k + 2) mod 4) * 2 ^ 30 + r.
Proof.
  unfold is_u32, wrap32, TWO_POW_32. intros Hp.
  exists (p / 2 ^ 30), (p mod 2 ^ 30).
  change (2 ^ 30) with 1073741824 in *. change (2 ^ 32) with 4294967296 in *.
  change (2 ^ 31) with 2147483648.
  repeat split; Z.div_mod_to_equations; lia.
Qed.

Lemma phase_sin_half_turn_eq (p : Z) :
  is_u32 p ->
  phase_sin (wrap32 (p + 2 ^ 31)) = (- phase_sin p)%f32.
Proof.
  intros Hp. destruct (half_turn_split p Hp) as (k & r & Hk & Hr & Ep & Ep').
  rewrite Ep', Ep at 1. clear Ep Ep'.
  assert (Hk' : 0 <= (k + 2) mod 4 < 4) by (apply Z.mod_pos_bound; lia).
  rewrite !phase_sin_quadrant.
  rewrite (quadrant_pos_split _ r Hk' Hr), (quadrant_pos_split k r Hk Hr).
  destruct (quadrant_split _ r Hk' Hr) as [-> _].
  destruct (quadrant_split k r Hk Hr) as [-> _].
  assert (Hcases : k = 0 \/ k = 1 \/ k = 2 \/ k = 3) by lia.
  destruct Hcases as [-> | [-> | [-> | ->]]]; cbn [Z.add Z.modulo Z.div_eucl Z.pos_div_eucl];
    unfold quadrant_sign;
    repeat match goal with
    | |- context [Z.land ?a ?b] =>
        let v := eval vm_compute in (Z.land a b) in change (Z.land a b) with v
    | |- context [(?a + ?b) mod ?c] =>
        let v := eval vm_compute in ((a + b) mod c) in change ((a + b) mod c) with v
    end; cbn [Z.eqb negb Z.land Pos.land]; try reflexivity;
    now rewrite neg_involutive.
Qed.

Lemma phase_cos_shifted_eq (p : Z) :
  is_u32 p ->
  phase_cos (wrap32 (p + 2 ^ 30)) = (- phase_sin p)%f32 /\
  phase_cos (wrap32 (p + 2 ^ 31)) = (- phase_cos p)%f32.
Proof.
  intros Hp. unfold phase_cos. change (Z.shiftl 1 30) with (2 ^ 30). split.
  - rewrite <- (phase_sin_half_turn_eq p Hp). f_equal.
    unfold wrap32, TWO_POW_32. rewrite Zplus_mod_idemp_l. f_equal. lia.
  - rewrite <- (phase_sin_half_turn_eq (wrap32 (p + 2 ^ 30)) (wrap32_is_u32 _)). f_equal.
    unfold wrap32, TWO_POW_32. rewrite !Zplus_mod_idemp_l. f_equal. lia.
Qed.

(** X1: half a turn further the table-based sine is the exact
    negative, bit for bit, whatever the table holds. *)
Theorem phase_sin_half_turn (p : Z) :
  is_u32 p ->
  phase_sin (wrap32 (p + 2 ^ 31)) = (- phase_sin p)%f32.
Proof. exact (phase_sin_half_turn_eq p). Qed.

(** X2: a quarter turn further the cosine is the exact negative of the
    sine, and half a turn further the exact negative of the cosine. *)
Theorem phase_cos_shifted (p : Z) :
  is_u32 p ->
  phase_cos (wrap32 (p + 2 ^ 30)) = (- phase_sin p)%f32 /\
  phase_cos (wrap32 (p + 2 ^ 31)) = (- phase_cos p)%f32.
Proof. exact (phase_cos_shifted_eq p). Qed.

End HalfTurn.

Section Bounds.

Context `{T : sine_table} `{L : lfo_h}.

Lemma load_lfo_out_of_range (g : coupled_lfo_group) (i : Z) :
  i < 0 \/ MAX_COUPLED_LFOS <= i -> load_lfo i g = None.
Proof.
  intros Hi. unfold load_lfo.
  replace ((0 <=? i) && (i <? MAX_COUPLED_LFOS)) with false; [reflexivity|].
  symmetry. apply andb_false_iff.
  destruct Hi; [left; apply Z.leb_gt|right; apply Z.ltb_ge]; lia.
Qed.

Lemma for_loop_app {A} (body : Z -> A -> M A) (n m : nat) :
  forall (j : Z) (acc : A) (g : coupled_lfo_group),
    for_loop (n + m) j body acc g =
    (do acc' <- for_loop n j body acc; for_loop m (j + Z.of_nat n) body acc')%M g.
Proof.
  induction n as [|n IH]; intros j acc g.
  - cbn [for_loop Nat.add]. unfold bind, ret. now rewrite Z.add_0_r.
  - cbn [for_loop Nat.add]. unfold bind.
    destruct (body j acc g) as [[acc' g']|]; [|reflexivity].
    rewrite IH. unfold bind.
    replace (j + 1 + Z.of_nat n) with (j + Z.of_nat (S n)) by lia. reflexivity.
Qed.

(** The loop of [coupled_lfo_order_parameter] runs off the array when
    it is asked for more than [MAX_COUPLED_LFOS] rounds. *)
Lemma order_loop_overrun (g : coupled_lfo_group) (n : nat) (acc : float * float) :
  group_wf g -> (Z.to_nat MAX_COUPLED_LFOS < n)%nat ->
  for_loop n 0 order_term acc g = None.
Proof.
  intros Hwf Hn.
  replace n with (Z.to_nat MAX_COUPLED_LFOS + S (n - S (Z.to_nat MAX_COUPLED_LFOS)))%nat by lia.
  rewrite for_loop_app. unfold bind at 1.
  rewrite (order_loop g Hwf) by (unfold MAX_COUPLED_LFOS; lia).
  cbn [for_loop]. unfold bind at 1. unfold order_term at 1. unfold bind at 1.
  rewrite load_lfo_out_of_range; [reflexivity|]. unfold MAX_COUPLED_LFOS. lia.
Qed.

(** X3: on a group with its eight slots, the order parameter is
    undefined exactly when [count] exceeds [MAX_COUPLED_LFOS]. *)
Theorem order_parameter_undefined_iff (g : coupled_lfo_group) :
  group_wf g ->
  (coupled_lfo_order_parameter g = None <-> MAX_COUPLED_LFOS < count g).
Proof.
  intros Hwf. split.
  - intros Hnone. destruct (Z.lt_ge_cases MAX_COUPLED_LFOS (count g)) as [H|H]; [exact H|].
    rewrite (order_parameter_eq g Hwf) in Hnone by lia. discriminate.
  - intros Hc. unfold coupled_lfo_order_parameter.
    unfold bind at 1. unfold load_count at 1.
    replace (count g =? 0) with false
      by (symmetry; apply Z.eqb_neq; unfold MAX_COUPLED_LFOS in Hc; lia).
    unfold bind at 1. unfold load_count at 1. unfold bind at 1.
    rewrite order_loop_overrun; [reflexivity|exact Hwf|].
    unfold MAX_COUPLED_LFOS in *. lia.
Qed.

(** The first round of the coupling loop already leaves the array when
    [idx] does. *)
Lemma coupling_loop_bad_index (g : coupled_lfo_group) (idx : Z) (n : nat) (sum : float) :
  group_wf g -> idx < 0 \/ MAX_COUPLED_LFOS <= idx -> (0 < n)%nat ->
  for_loop n 0 (coupling_term idx) sum g = None.
Proof.
  intros Hwf Hi Hn. destruct n as [|n]; [lia|].
  cbn [for_loop]. unfold bind at 1. unfold coupling_term.
  replace (0 =? idx) with false
    by (symmetry; apply Z.eqb_neq; unfold MAX_COUPLED_LFOS in Hi; lia).
  unfold bind at 1.
  destruct (load_lfo_in_range g 0 Hwf) as (l0 & _ & ->); [unfold MAX_COUPLED_LFOS; lia|].
  unfold bind at 1. now rewrite load_lfo_out_of_range.
Qed.

Lemma coupling_loop_overrun (g : coupled_lfo_group) (idx : Z) (n : nat) (sum : float) :
  group_wf g -> 0 <= idx < MAX_COUPLED_LFOS -> (Z.to_nat MAX_COUPLED_LFOS < n)%nat ->
  for_loop n 0 (coupling_term idx) sum g = None.
Proof.
  intros Hwf Hi Hn.
  replace n with (Z.to_nat MAX_COUPLED_LFOS + S (n - S (Z.to_nat MAX_COUPLED_LFOS)))%nat by lia.
  rewrite for_loop_app. unfold bind at 1.
  rewrite (coupling_loop g idx Hwf Hi) by (unfold MAX_COUPLED_LFOS; lia).
  cbn [for_loop]. unfold bind at 1. unfold coupling_term at 1.
  replace (0 + Z.of_nat (Z.to_nat MAX_COUPLED_LFOS) =? idx) with false
    by (symmetry; apply Z.eqb_neq; unfold MAX_COUPLED_LFOS in *; lia).
  unfold bind at 1.
  rewrite load_lfo_out_of_range; [reflexivity|]. unfold MAX_COUPLED_LFOS. lia.
Qed.

(** X5: [coupled_lfo_step] checks neither [idx] nor [count] against the
    array: with [idx] outside [0, MAX_COUPLED_LFOS) the call is
    undefined whatever the group holds, and so it is with coupling > 0
    and [count] above [MAX_COUPLED_LFOS]. *)
Theorem coupled_step_out_of_bounds (g : coupled_lfo_group) (idx : Z) (type : lfo_type) :
  group_wf g ->
  idx < 0 \/ MAX_COUPLED_LFOS <= idx \/
  (F32.ltb F32.zero (coupling g) = true /\ MAX_COUPLED_LFOS < count g) ->
  coupled_lfo_step idx type g = None.
Proof.
  intros Hwf Hbad. unfold coupled_lfo_step.
  unfold bind at 1. unfold load_coupling at 1.
  unfold bind at 1. unfold load_count at 1.
  unfold bind at 1.
  destruct (F32.ltb F32.zero (coupling g) && (1 <? count g)) eqn:Hguard.
  - apply andb_true_iff in Hguard. destruct Hguard as [HK Hc]. apply Z.ltb_lt in Hc.
    unfold coupling_adjust. unfold bind at 1. unfold load_count at 1.
    unfold bind at 1.
    assert (Hloop : for_loop (Z.to_nat (count g)) 0 (coupling_term idx) F32.zero g = None).
    { destruct (Z.lt_ge_cases idx 0) as [Hlo|Hlo].
      - apply coupling_loop_bad_index; [exact Hwf|lia|lia].
      - destruct (Z.lt_ge_cases idx MAX_COUPLED_LFOS) as [Hhi|Hhi].
        + apply coupling_loop_overrun; [exact Hwf|lia|].
          unfold MAX_COUPLED_LFOS in *. lia.
        + apply coupling_loop_bad_index; [exact Hwf|lia|lia]. }
    now rewrite Hloop.
  - unfold ret at 1. unfold bind at 1.
    rewrite load_lfo_out_of_range; [reflexivity|].
    apply andb_false_iff in Hguard.
    destruct Hbad as [H|[H|[HK Hc]]]; [lia|lia|].
    destruct Hguard as [Hg|Hg]; [congruence|].
    apply Z.ltb_ge in Hg. unfold MAX_COUPLED_LFOS in Hc. lia.
Qed.

End Bounds.

Section Runs.

Context `{T : sine_table} `{L : lfo_h}.

Lemma set_lfo_same (g : coupled_lfo_group) (i : Z) (l : lfo_state.t) :
  lfos g !! Z.to_nat i = Some l -> set_lfo g i l = g.
Proof.
  intros Hl. unfold set_lfo. rewrite list_insert_id by exact Hl. now destruct g.
Qed.

(** X6: as long as the coupling block is skipped, any run of samples
    from one slot is the run of the standalone oscillator. *)
Theorem uncoupled_run_is_standalone (types : list lfo_type) :
  forall (g : coupled_lfo_group) (idx : Z) (l : lfo_state.t),
    group_wf g -> 0 <= idx < MAX_COUPLED_LFOS ->
    F32.ltb F32.zero (coupling g) && (1 <? count g) = false ->
    lfos g !! Z.to_nat idx = Some l ->
    coupled_run idx types g =
    Some (fst (standalone_run l types), set_lfo g idx (snd (standalone_run l types))).
Proof.
  induction types as [|type rest IH]; intros g idx l Hwf Hi Hguard Hl.
  - cbn [coupled_run standalone_run fst snd]. unfold ret.
    now rewrite set_lfo_same.
  - cbn [coupled_run standalone_run]. unfold bind at 1.
    rewrite step_uncoupled by assumption. unfold standalone_step. rewrite Hl.
    destruct (lfo_step l type) as [l' v] eqn:Estep. cbn [fst snd].
    unfold bind at 1.
    rewrite (IH (set_lfo g idx l') idx l').
    + destruct (standalone_run l' rest) as [vs l'']. cbn [fst snd]. unfold ret.
      now rewrite set_lfo_twice.
    + now apply set_lfo_wf.
    + exact Hi.
    + exact Hguard.
    + now apply set_lfo_lookup.
Qed.

(** X7: with the coupling block skipped, steps of two different slots
    commute. *)
Theorem uncoupled_steps_commute
    (g : coupled_lfo_group) (i j : Z) (ti tj : lfo_type) :
  group_wf g -> 0 <= i < MAX_COUPLED_LFOS -> 0 <= j < MAX_COUPLED_LFOS -> i <> j ->
  F32.ltb F32.zero (coupling g) && (1 <? count g) = false ->
  (do a <- coupled_lfo_step i ti; do b <- coupled_lfo_step j tj; ret (a, b))%M g =
  (do b <- coupled_lfo_step j tj; do a <- coupled_lfo_step i ti; ret (a, b))%M g.
Proof.
  intros Hwf Hi Hj Hij Hguard.
  destruct (load_lfo_in_range g i Hwf Hi) as (li & Eli & _).
  destruct (load_lfo_in_range g j Hwf Hj) as (lj & Elj & _).
  assert (Hne : Z.to_nat i <> Z.to_nat j) by lia.
  unfold bind, ret.
  rewrite (step_uncoupled g i), (step_uncoupled g j) by assumption.
  unfold standalone_step. rewrite Eli, Elj.
  rewrite (step_uncoupled (set_lfo g i _) j);
    [|now apply set_lfo_wf|assumption|exact Hguard].
  rewrite (step_uncoupled (set_lfo g j _) i);
    [|now apply set_lfo_wf|assumption|exact Hguard].
  unfold standalone_step. cbn [lfos set_lfo].
  rewrite !list_lookup_insert_ne by congruence. rewrite Eli, Elj.
  unfold set_lfo. cbn [lfos count coupling].
  now rewrite list_insert_insert_ne by congruence.
Qed.

End Runs.

End StructuralFacts.

(** ** Rounding with a location; floats of either sign *)

Section SignedRounding.

Local Open Scope R_scope.

(** Rounding of a mantissa that carries enough digits, with any
    location. *)
Lemma round_loc_R (m e : Z) (l : location) (v : R) :
  (0 <= m)%Z -> located m e l v -> v < bpow 100 ->
  (e <= fexp prec emax (Zdigits2 m + e))%Z ->
  rounds_to (binary_round_aux prec emax false m e l) v.
Proof.
  intros Hm Hloc Hv Hfexp.
  set (z := binary_round_aux prec emax false m e l).
  pose proof (bpow_pos e) as Hbe.
  assert (Hm0 : 0 <= IZR m) by (apply IZR_le; lia).
  assert (Hvm : IZR m * bpow e <= v < IZR (m + 1) * bpow e).
  { destruct l; cbn [located] in Hloc.
    - rewrite Hloc, plus_IZR. nra.
    - lra. }
  set (d := Zdigits2 m) in *.
  assert (Hd0 : (0 <= d)%Z) by apply Zdigits2_nonneg.
  assert (Hde : (0 < m)%Z -> bpow (d - 1 + e) <= v /\ (d - 1 + e < 100)%Z).
  { intros Hpos. pose proof (IZR_pow2_le_digits m Hpos) as Hdig. fold d in Hdig.
    assert (bpow (d - 1 + e) <= v) by (rewrite bpow_add; nra).
    split; [assumption|]. apply bpow_lt_inv. lra. }
  set (n := round_shift m e).
  assert (En : (e + n)%Z = fexp prec emax (d + e)).
  { unfold n, round_shift. fold d. lia. }
  assert (Hcase : ((0 < m)%Z /\ (e + n = d + e - prec)%Z) \/ (e + n)%Z = emin prec emax).
  { rewrite En. unfold fexp. change IntDef.Z.max with Z.max. change IntDef.Z.sub with Z.sub.
    destruct (Z.eq_dec m 0%Z) as [->|Hne].
    - right. revert Hfexp. unfold d, fexp. change (Zdigits2 0) with 0%Z.
      change IntDef.Z.max with Z.max. change IntDef.Z.sub with Z.sub.
      change prec with 24%Z. lia.
    - destruct (Z.max_spec (d + e - prec) (emin prec emax)) as [[_ ->]|[_ ->]];
        [now right|left; split; [lia|reflexivity]]. }
  assert (Hov : (e + n < emax - prec)%Z).
  { destruct Hcase as [[Hpos ->]| ->].
    - destruct (Hde Hpos) as [_ H]. unfold prec, emax, F32.prec, F32.emax. lia.
    - reflexivity. }
  destruct (round_aux_Z m e l Hm Hov) as (m1 & Hrange & Hexact & Hrep).
  fold n in Hrange, Hexact, Hrep. fold z in Hrep.
  apply represents_F2R in Hrep. destruct Hrep as [Hfin HF].
  pose proof (first_shift_bounds m e Hm) as (Hn0 & _ & _). fold n in Hn0.
  assert (Hpow : (0 < 2 ^ n)%Z) by (apply Z.pow_pos_nonneg; lia).
  assert (Hgrid : bpow (e + n) = IZR (2 ^ n) * bpow e).
  { rewrite Z.add_comm, bpow_add, bpow_IZR by assumption. reflexivity. }
  assert (Hq : (m / 2 ^ n * 2 ^ n <= m /\ m + 1 <= (m / 2 ^ n + 1) * 2 ^ n)%Z).
  { Z.div_mod_to_equations. nia. }
  assert (Hulp : bpow (e + n) <= v * bpow (-23) + bpow (-149)).
  { pose proof (bpow_pos (-23)). pose proof (bpow_pos (-149)).
    assert (0 <= v) by nra.
    destruct Hcase as [[Hpos ->]| ->].
    - destruct (Hde Hpos) as [Hlow _].
      replace (d + e - prec)%Z with ((d - 1 + e) + (-23))%Z
        by (unfold prec, F32.prec; lia).
      rewrite bpow_add. nra.
    - change (emin prec emax) with (-149)%Z. nra. }
  set (f := (m / 2 ^ n)%Z) in *.
  assert (Hm1r : IZR f <= IZR m1 <= IZR f + 1).
  { split; [apply IZR_le; lia|]. rewrite <- plus_IZR. apply IZR_le. lia. }
  assert (Hp2 : 0 < IZR (2 ^ n)) by (apply IZR_lt; lia).
  assert (Hvf : IZR f * bpow (e + n) <= v <= (IZR f + 1) * bpow (e + n)).
  { rewrite Hgrid. destruct Hq as [Hq1 Hq2].
    assert (Hq1' : IZR f * IZR (2 ^ n) <= IZR m).
    { rewrite <- mult_IZR. apply IZR_le. exact Hq1. }
    assert (Hq2' : IZR (m + 1) <= (IZR f + 1) * IZR (2 ^ n)).
    { replace (IZR f + 1) with (IZR (f + 1)) by (rewrite plus_IZR; reflexivity).
      rewrite <- mult_IZR. apply IZR_le. exact Hq2. }
    split.
    - apply Rle_trans with (IZR m * bpow e); [|lra].
      rewrite <- Rmult_assoc. apply Rmult_le_compat_r; lra.
    - apply Rle_trans with (IZR (m + 1) * bpow e); [lra|].
      rewrite <- Rmult_assoc. apply Rmult_le_compat_r; lra. }
  pose proof (bpow_pos (e + n)) as Hben.
  repeat split.
  - exact Hfin.
  - rewrite HF. apply Rle_trans with (bpow (e + n)); [|exact Hulp].
    apply Rabs_le.
    assert (IZR f * bpow (e + n) <= IZR m1 * bpow (e + n) <= (IZR f + 1) * bpow (e + n)).
    { split; apply Rmult_le_compat_r; lra. }
    replace ((IZR f + 1) * bpow (e + n)) with (IZR f * bpow (e + n) + bpow (e + n)) in * by ring.
    lra.
  - intros Hv0. rewrite HF.
    assert (Em : m = 0%Z).
    { destruct (Z.eq_dec m 0%Z) as [|Hne]; [assumption|exfalso].
      assert (1 <= IZR m) by (apply IZR_le; lia). nra. }
    assert (El : l = loc_Exact).
    { destruct l; [reflexivity|exfalso]. cbn [located] in Hloc. nra. }
    rewrite (Hexact El); [|rewrite Em; apply Z.mod_0_l; lia].
    unfold f. rewrite Em, Z.div_0_l by lia. lra.
  - intros Mb Eb HMb HEb Hle.
    assert (HEn : (e + n <= Eb)%Z).
    { destruct Hcase as [[Hpos E] | E]; [|lia].
      destruct (Hde Hpos) as [Hlow _].
      destruct (Z.le_gt_cases (e + n) Eb) as [|Hgt]; [assumption|exfalso].
      assert (IZR (Zpos Mb) * bpow Eb < bpow (d - 1 + e)); [|lra].
      apply Rlt_le_trans with (bpow (Eb + prec)).
      - rewrite Z.add_comm, bpow_add, <- (bpow_IZR prec) by (unfold prec, F32.prec; lia).
        pose proof (bpow_pos Eb). apply IZR_lt in HMb. nra.
      - apply bpow_le. lia. }
    set (K := (Zpos Mb * 2 ^ (Eb - (e + n)))%Z).
    assert (HB : IZR (Zpos Mb) * bpow Eb = IZR K * bpow (e + n)).
    { unfold K. rewrite mult_IZR, bpow_IZR by lia.
      rewrite Rmult_assoc, <- bpow_add. do 2 f_equal. lia. }
    rewrite HB in Hle |- *. rewrite HF.
    assert (Hm1K : (m1 <= K)%Z).
    { destruct l as [|c].
      - cbn [located] in Hloc.
        assert (HmK : (m <= K * 2 ^ n)%Z).
        { apply le_IZR. rewrite mult_IZR. rewrite Hgrid in Hle. nra. }
        destruct (Z.eq_dec (m mod 2 ^ n)%Z 0%Z) as [Hmod|Hmod].
        + rewrite (Hexact eq_refl Hmod). apply Z.div_le_upper_bound; lia.
        + assert (f < K)%Z; [|lia].
          apply Z.div_lt_upper_bound; [lia|].
          assert (m <> K * 2 ^ n)%Z; [|lia].
          intros EK. apply Hmod. rewrite EK. apply Z.mod_mul. lia.
      - cbn [located] in Hloc.
        assert (HmK : (m < K * 2 ^ n)%Z).
        { apply lt_IZR. rewrite mult_IZR. rewrite Hgrid in Hle. nra. }
        assert (f < K)%Z; [|lia].
        apply Z.div_lt_upper_bound; [lia|]. lia. }
    apply IZR_le in Hm1K. apply Rmult_le_compat_r; lra.
Qed.

Lemma new_location_located (q e my r : Z) (v : R) :
  (0 < my)%Z -> (0 <= r < my)%Z ->
  v = (IZR q + IZR r / IZR my) * bpow e ->
  located q e (new_location my r) v.
Proof.
  intros Hmy Hr Ev. pose proof (bpow_pos e) as Hbe.
  assert (Hmy' : 0 < IZR my) by (apply IZR_lt; lia).
  assert (Hinex : forall c, r <> 0%Z -> located q e (loc_Inexact c) v).
  { intros c Hne. cbn [located]. rewrite plus_IZR.
    assert (0 < IZR r / IZR my < 1).
    { assert (0 < IZR r) by (apply IZR_lt; lia).
      assert (IZR r < IZR my) by (apply IZR_lt; lia).
      split.
      - apply Rdiv_lt_0_compat; assumption.
      - apply Rmult_lt_reg_r with (IZR my); [assumption|].
        unfold Rdiv. rewrite Rmult_assoc, Rinv_l by lra. lra. }
    rewrite Ev. split; apply Rmult_lt_compat_r; lra. }
  assert (Hex : r = 0%Z -> located q e loc_Exact v).
  { intros ->. cbn [located]. rewrite Ev. unfold Rdiv. rewrite Rmult_0_l. ring. }
  unfold new_location, new_location_even, new_location_odd.
  destruct (IntDef.Z.even my); destruct (Z.eqb_spec r 0); auto.
Qed.

Lemma Zdigits2_ge (q k : Z) : (0 <= k)%Z -> (2 ^ k <= q)%Z -> (k < Zdigits2 q)%Z.
Proof.
  intros Hk Hq.
  assert (Hq0 : (0 <= q)%Z) by (pose proof (Z.pow_pos_nonneg 2 k ltac:(lia) Hk); lia).
  pose proof (Zdigits2_upper q Hq0) as Hu.
  pose proof (Zdigits2_nonneg q) as Hd.
  destruct (Z.lt_ge_cases k (Zdigits2 q)) as [|Hge]; [assumption|exfalso].
  pose proof (Z.pow_le_mono_r 2 (Zdigits2 q) k ltac:(lia) Hge). lia.
Qed.

(** Division of positive floats. *)
Lemma SFdiv_pos (mx my : positive) (ex ey : Z) :
  (Zpos mx < 2 ^ prec)%Z -> (Zpos my < 2 ^ prec)%Z ->
  let v := (IZR (Zpos mx) * bpow ex) / (IZR (Zpos my) * bpow ey) in
  v < bpow 100 ->
  rounds_to (SFdiv prec emax (S754_finite false mx ex) (S754_finite false my ey)) v.
Proof.
  intros Hmx Hmy v Hv. cbn [SFdiv xorb]. unfold SFdiv_core_binary.
  set (d1 := Zdigits2 (Zpos mx)). set (d2 := Zdigits2 (Zpos my)).
  change IntDef.Z.min with Z.min. change IntDef.Z.shiftl with Z.shiftl.
  change IntDef.Z.div_eucl with Z.div_eucl.
  set (e' := Z.min (fexp prec emax (d1 + ex - (d2 + ey))) (ex - ey)).
  set (s := (ex - ey - e')%Z).
  assert (Hs : (0 <= s)%Z) by (unfold s, e'; lia).
  set (m' := match s with
             | Z0 => Zpos mx
             | Zpos _ => Z.shiftl (Zpos mx) s
             | Zneg _ => 0%Z
             end).
  assert (Em' : m' = (Zpos mx * 2 ^ s)%Z).
  { unfold m'. destruct s as [|ps|ps] eqn:Es; try lia.
    now rewrite Z.shiftl_mul_pow2 by lia. }
  clearbody m'.
  pose proof (Z.div_eucl_eq m' (Zpos my) ltac:(lia)) as Hdiv.
  pose proof (Z.mod_pos_bound m' (Zpos my) ltac:(lia)) as Hrem.
  unfold Z.modulo in Hrem.
  destruct (Z.div_eucl m' (Zpos my)) as [q r].
  assert (Hp2 : (0 < 2 ^ s)%Z) by (apply Z.pow_pos_nonneg; lia).
  assert (Hq0 : (0 <= q)%Z) by nia.
  pose proof (bpow_pos ex). pose proof (bpow_pos ey). pose proof (bpow_pos e') as Hbe'.
  assert (Hmy' : 0 < IZR (Zpos my)) by (apply IZR_lt; lia).
  assert (Ev : v = (IZR q + IZR r / IZR (Zpos my)) * bpow e').
  { unfold v.
    assert (E1 : IZR (Zpos mx) * bpow ex = IZR m' * bpow e' * bpow ey).
    { rewrite Em', mult_IZR, bpow_IZR by assumption.
      rewrite !Rmult_assoc, <- !bpow_add. do 2 f_equal. unfold s. lia. }
    assert (E2 : IZR m' = IZR (Zpos my) * IZR q + IZR r).
    { rewrite Hdiv, plus_IZR, mult_IZR. reflexivity. }
    rewrite E1, E2. field. split; lra. }
  apply round_loc_R.
  - exact Hq0.
  - apply new_location_located; [lia|exact Hrem|exact Ev].
  - exact Hv.
  - fold d1 d2 in e'.
    assert (Hcases : (e' <= emin prec emax)%Z \/ (24 <= d1 - d2 + s)%Z).
    { unfold e', s, fexp. change IntDef.Z.max with Z.max. change IntDef.Z.sub with Z.sub.
      unfold e', fexp. change IntDef.Z.max with Z.max. change IntDef.Z.sub with Z.sub.
      change prec with 24%Z. lia. }
    unfold fexp. change IntDef.Z.max with Z.max. change IntDef.Z.sub with Z.sub.
    destruct Hcases as [Hc|Hc]; [lia|].
    assert (Hdq : (23 < Zdigits2 q)%Z).
    { apply Zdigits2_ge; [lia|].
      pose proof (Zdigits2_lower (Zpos mx) ltac:(lia)) as Hl1. fold d1 in Hl1.
      pose proof (Zdigits2_upper (Zpos my) ltac:(lia)) as Hu2. fold d2 in Hu2.
      assert (Hd2 : (0 <= d2)%Z) by apply Zdigits2_nonneg.
      assert (Hd1 : (1 <= d1)%Z) by (unfold d1; cbn; lia).
      set (t := (d1 - 1 + s - d2)%Z).
      assert (Ht : (23 <= t)%Z) by (unfold t; lia).
      assert (Hpow : (2 ^ (d1 - 1) * 2 ^ s = 2 ^ t * 2 ^ d2)%Z).
      { rewrite <- !Z.pow_add_r by lia. f_equal. unfold t. lia. }
      assert (Hq1 : (2 ^ t < q + 1)%Z).
      { assert (H2t : (0 < 2 ^ t)%Z) by (apply Z.pow_pos_nonneg; lia).
        assert (H2d : (0 < 2 ^ d2)%Z) by (apply Z.pow_pos_nonneg; lia).
        assert (Hbig : (2 ^ t * 2 ^ d2 < (q + 1) * 2 ^ d2)%Z).
        { rewrite <- Hpow.
          apply Z.le_lt_trans with m'; [rewrite Em'; apply Z.mul_le_mono_nonneg_r; lia|].
          apply Z.lt_le_trans with ((q + 1) * Zpos my)%Z; [lia|].
          apply Z.mul_le_mono_nonneg_l; lia. }
        apply Z.mul_lt_mono_pos_r in Hbig; assumption. }
      apply Z.le_trans with (2 ^ t)%Z; [apply Z.pow_le_mono_r; lia|lia]. }
    change prec with 24%Z. lia.
Qed.

(** Square root of a nonnegative float. *)
Lemma SFsqrt_rounds_to (x : float) :
  nonneg_finite x -> F2R x < bpow 100 ->
  rounds_to (F32.sqrtf x) (sqrt (F2R x)).
Proof.
  destruct x as [s|s| |s m e]; cbn [nonneg_finite]; try tauto.
  { intros _ _. cbn [F32.sqrtf SFsqrt F2R]. rewrite sqrt_0.
    apply (rounds_to_eq _ (F2R (S754_zero s))); [reflexivity|].
    apply rounds_to_exact. exact I. }
  destruct s; [tauto|]. intros [Hm He] HX.
  change (2 ^ prec)%Z with (2 ^ 24)%Z in Hm.
  cbn [F2R cond_Zopp] in HX |- *.
  unfold F32.sqrtf. cbn [SFsqrt]. unfold SFsqrt_core_binary.
  change IntDef.Z.min with Z.min. change IntDef.Z.shiftl with Z.shiftl.
  change IntDef.Z.div2 with Z.div2. change IntDef.Z.sqrtrem with Z.sqrtrem.
  set (d := Zdigits2 (Zpos m)).
  assert (Hd : (1 <= d <= 24)%Z).
  { unfold d. split; [cbn; lia|]. apply Zdigits2_le; lia. }
  set (e' := Z.min (fexp prec emax (Z.div2 (d + e + 1))) (Z.div2 e)).
  assert (Hs : (0 <= e - 2 * e')%Z).
  { unfold e'. rewrite !Z.div2_div. Z.div_mod_to_equations. lia. }
  set (m' := match (e - 2 * e')%Z with
             | Z0 => Zpos m
             | Zpos _ => Z.shiftl (Zpos m) (e - 2 * e')
             | Zneg _ => 0%Z
             end).
  assert (Em' : m' = (Zpos m * 2 ^ (e - 2 * e'))%Z).
  { unfold m'. destruct (e - 2 * e')%Z as [|ps|ps] eqn:Es; try lia.
    now rewrite Z.shiftl_mul_pow2 by lia. }
  clearbody m'.
  assert (Hp2 : (0 < 2 ^ (e - 2 * e'))%Z) by (apply Z.pow_pos_nonneg; lia).
  assert (Hm'pos : (0 < m')%Z) by (rewrite Em'; lia).
  pose proof (bpow_pos e') as Hbe'.
  assert (EX : IZR (Zpos m) * bpow e = IZR m' * (bpow e' * bpow e')).
  { rewrite Em', mult_IZR, bpow_IZR by assumption.
    rewrite <- bpow_add, Rmult_assoc, <- bpow_add. do 2 f_equal. lia. }
  assert (Esqrt : sqrt (IZR (Zpos m) * bpow e) = sqrt (IZR m') * bpow e').
  { rewrite EX, sqrt_mult_alt by (apply IZR_le; lia).
    f_equal. apply sqrt_square. lra. }
  pose proof (Z.sqrtrem_spec m' ltac:(lia)) as Hsq.
  destruct (Z.sqrtrem m') as [q r]. destruct Hsq as [Hq Hr].
  assert (Hq0 : (0 <= q)%Z) by lia.
  assert (Hq0' : 0 <= IZR q) by (apply IZR_le; lia).
  assert (Hlow : IZR q <= sqrt (IZR m')).
  { rewrite <- (sqrt_square (IZR q)) by assumption.
    apply sqrt_le_1_alt. rewrite <- mult_IZR. apply IZR_le. nia. }
  assert (Hup : sqrt (IZR m') < IZR (q + 1)).
  { assert (Hq1 : 0 <= IZR (q + 1)) by (apply IZR_le; lia).
    rewrite <- (sqrt_square (IZR (q + 1))) by assumption.
    apply sqrt_lt_1_alt. split; [apply IZR_le; lia|].
    rewrite <- mult_IZR. apply IZR_lt. nia. }
  rewrite Esqrt.
  apply round_loc_R.
  - exact Hq0.
  - destruct (Z.eqb_spec r 0) as [Hr0|Hr0]; cbn [located].
    + f_equal. rewrite Hq, Hr0, Z.add_0_r, mult_IZR. now apply sqrt_square.
    + split; [|apply Rmult_lt_compat_r; assumption].
      apply Rmult_lt_compat_r; [assumption|].
      rewrite <- (sqrt_square (IZR q)) by assumption.
      apply sqrt_lt_1_alt. split; [apply Rmult_le_pos; assumption|].
      rewrite <- mult_IZR. apply IZR_lt. nia.
  - rewrite <- Esqrt.
    apply Rle_lt_trans with (Rmax 1 (IZR (Zpos m) * bpow e)).
    + destruct (Rle_dec (IZR (Zpos m) * bpow e) 1) as [Hle|Hgt].
      * rewrite Rmax_left by assumption. rewrite <- sqrt_1.
        apply sqrt_le_1_alt. exact Hle.
      * rewrite Rmax_right by lra. apply Rlt_le. apply sqrt_less; lra.
    + apply Rmax_lub_lt; [|assumption].
      apply Rlt_le_trans with (bpow 1); [rewrite bpow_1; lra|apply bpow_le; lia].
  - assert (Hcases : (e' <= emin prec emax)%Z \/ (47 <= d + (e - 2 * e'))%Z).
    { unfold e', fexp. change IntDef.Z.max with Z.max. change IntDef.Z.sub with Z.sub.
      change prec with 24%Z. change (emin 24 emax) with (-149)%Z.
      rewrite !Z.div2_div. Z.div_mod_to_equations. lia. }
    unfold fexp. change IntDef.Z.max with Z.max. change IntDef.Z.sub with Z.sub.
    destruct Hcases as [Hc|Hc]; [lia|].
    assert (Hdq : (23 < Zdigits2 q)%Z).
    { apply Zdigits2_ge; [lia|].
      pose proof (Zdigits2_lower (Zpos m) ltac:(lia)) as Hl1. fold d in Hl1.
      assert (Hbig : (2 ^ 46 <= m')%Z).
      { rewrite Em'. apply Z.le_trans with (2 ^ (d - 1) * 2 ^ (e - 2 * e'))%Z.
        - rewrite <- Z.pow_add_r by lia. apply Z.pow_le_mono_r; lia.
        - apply Z.mul_le_mono_nonneg_r; lia. }
      change (2 ^ 46)%Z with (2 ^ 23 * 2 ^ 23)%Z in Hbig.
      change (2 ^ 23)%Z with 8388608%Z in *. nia. }
    change prec with 24%Z. lia.
Qed.

Lemma rounds_signed_pos (z : float) (v : R) :
  rounds_to z v -> 0 <= v -> rounds_signed z v.
Proof.
  intros (Hz & Herr & Hzero & Hbound) Hv.
  pose proof (nonneg_finite_F2R z Hz) as Hpos.
  split; [exact (nonneg_valid z Hz)|].
  split; [rewrite (Rabs_right v) by lra; exact Herr|].
  split; [intros _; exact Hpos|].
  split.
  - intros Hle. assert (E : v = 0) by lra. rewrite (Hzero E). lra.
  - intros Mb Eb HMb HEb Hle. rewrite (Rabs_right v) in Hle by lra.
    rewrite Rabs_right by lra. now apply Hbound.
Qed.

Lemma rounds_signed_opp (z : float) (v : R) :
  rounds_signed z v -> rounds_signed (- z)%f32 (- v).
Proof.
  intros (Hz & Herr & Hpos & Hneg & Hbound).
  split; [exact (valid_neg z Hz)|]. rewrite F2R_neg.
  split.
  - replace (- F2R z - - v) with (- (F2R z - v)) by ring.
    now rewrite !Rabs_Ropp.
  - split; [intros H; assert (v <= 0) by lra; pose proof (Hneg H0); lra|].
    split; [intros H; assert (0 <= v) by lra; pose proof (Hpos H0); lra|].
    intros Mb Eb HMb HEb Hle. rewrite Rabs_Ropp in Hle |- *. now apply Hbound.
Qed.

Lemma rounds_signed_eq (z : float) (v w : R) :
  v = w -> rounds_signed z v -> rounds_signed z w.
Proof. now intros ->. Qed.

Lemma rounds_signed_exact (z : float) : valid_finite z -> rounds_signed z (F2R z).
Proof.
  intros Hz. split; [exact Hz|].
  replace (F2R z - F2R z) with 0 by ring. rewrite Rabs_R0.
  pose proof (bpow_pos (-23)). pose proof (bpow_pos (-149)).
  pose proof (Rabs_pos (F2R z)).
  split; [nra|]. split; [tauto|]. split; [tauto|]. intros Mb Eb _ _ H2. exact H2.
Qed.

Lemma binary_round_opp (m : positive) (e : Z) :
  binary_round prec emax true m e = (- binary_round prec emax false m e)%f32.
Proof.
  unfold binary_round.
  destruct (shl_align m e (fexp prec emax (Zpos (digits2_pos m) + e))) as [mz ez].
  apply round_aux_opp.
Qed.

Lemma binary_normalize_signed (m e : Z) (s0 : bool) :
  Rabs (IZR m * bpow e) < bpow 100 ->
  rounds_signed (binary_normalize prec emax m e s0) (IZR m * bpow e).
Proof.
  intros Hv. pose proof (bpow_pos e) as Hbe. destruct m as [|p|p]; cbn [binary_normalize].
  - apply (rounds_signed_eq _ (F2R (S754_zero s0))); [cbn [F2R]; lra|].
    apply rounds_signed_exact. exact I.
  - assert (Hpos : 0 <= IZR (Zpos p) * bpow e).
    { apply Rmult_le_pos; [apply IZR_le; lia|lra]. }
    rewrite Rabs_right in Hv by lra.
    apply rounds_signed_pos; [|exact Hpos]. now apply binary_round_rounds_to.
  - assert (Hpos : 0 <= IZR (Zpos p) * bpow e).
    { apply Rmult_le_pos; [apply IZR_le; lia|lra]. }
    assert (E : IZR (Zneg p) * bpow e = - (IZR (Zpos p) * bpow e)).
    { change (Zneg p) with (- Zpos p)%Z. rewrite opp_IZR. ring. }
    rewrite E in Hv |- *. rewrite Rabs_Ropp, Rabs_right in Hv by lra.
    rewrite binary_round_opp. apply rounds_signed_opp.
    apply rounds_signed_pos; [|exact Hpos]. now apply binary_round_rounds_to.
Qed.

Lemma F2R_finite (s : bool) (m : positive) (e : Z) :
  F2R (S754_finite s m e) = IZR (cond_Zopp s (Zpos m)) * bpow e.
Proof. reflexivity. Qed.

Lemma F2R_aligned (s : bool) (m : positive) (e ez : Z) :
  (ez <= e)%Z ->
  IZR (cond_Zopp s (Zpos (fst (shl_align m e ez)))) * bpow ez =
  F2R (S754_finite s m e).
Proof.
  intros Hle. pose proof (aligned_R m e ez Hle) as Ha. rewrite F2R_finite.
  destruct s; cbn [cond_Zopp].
  - change (Zneg (fst (shl_align m e ez))) with (- Zpos (fst (shl_align m e ez)))%Z.
    change (Zneg m) with (- Zpos m)%Z. rewrite !opp_IZR. lra.
  - exact Ha.
Qed.

(** Addition and subtraction of finite floats of either sign. *)
Lemma SFadd_signed (x y : float) :
  valid_finite x -> valid_finite y -> Rabs (F2R x) + Rabs (F2R y) < bpow 100 ->
  rounds_signed (x + y)%f32 (F2R x + F2R y).
Proof.
  unfold F32.add.
  destruct x as [sx|sx| |sx mx ex]; cbn [valid_finite]; try tauto;
    destruct y as [sy|sy| |sy my ey]; cbn [valid_finite]; try tauto; intros Vx Vy Hv.
  - apply (rounds_signed_eq _ (F2R (SFadd prec emax (S754_zero sx) (S754_zero sy)))).
    + destruct sx, sy; cbn; lra.
    + apply rounds_signed_exact. destruct sx, sy; exact I.
  - apply (rounds_signed_eq _ (F2R (S754_finite sy my ey))); [cbn [F2R]; lra|].
    apply rounds_signed_exact. exact Vy.
  - apply (rounds_signed_eq _ (F2R (S754_finite sx mx ex))); [cbn [F2R]; lra|].
    apply rounds_signed_exact. exact Vx.
  - cbn [SFadd]. change IntDef.Z.min with Z.min. set (ez := Z.min ex ey).
    pose proof (F2R_aligned sx mx ex ez ltac:(lia)) as Hx.
    pose proof (F2R_aligned sy my ey ez ltac:(lia)) as Hy.
    assert (E : F2R (S754_finite sx mx ex) + F2R (S754_finite sy my ey) =
                IZR (cond_Zopp sx (Zpos (fst (shl_align mx ex ez))) +
                     cond_Zopp sy (Zpos (fst (shl_align my ey ez)))) * bpow ez).
    { rewrite plus_IZR, <- Hx, <- Hy. ring. }
    rewrite E. apply binary_normalize_signed. rewrite <- E.
    eapply Rle_lt_trans; [apply Rabs_triang|exact Hv].
Qed.

Lemma SFsub_signed (x y : float) :
  valid_finite x -> valid_finite y -> Rabs (F2R x) + Rabs (F2R y) < bpow 100 ->
  rounds_signed (x - y)%f32 (F2R x - F2R y).
Proof.
  unfold F32.sub.
  destruct x as [sx|sx| |sx mx ex]; cbn [valid_finite]; try tauto;
    destruct y as [sy|sy| |sy my ey]; cbn [valid_finite]; try tauto; intros Vx Vy Hv.
  - apply (rounds_signed_eq _ (F2R (SFsub prec emax (S754_zero sx) (S754_zero sy)))).
    + destruct sx, sy; cbn; lra.
    + apply rounds_signed_exact. destruct sx, sy; exact I.
  - apply (rounds_signed_eq _ (F2R (S754_finite (negb sy) my ey))).
    + cbn [F2R]. destruct sy; cbn [negb cond_Zopp];
        change (Zneg my) with (- Zpos my)%Z; rewrite ?opp_IZR; lra.
    + apply rounds_signed_exact. exact Vy.
  - apply (rounds_signed_eq _ (F2R (S754_finite sx mx ex))); [cbn [F2R]; lra|].
    apply rounds_signed_exact. exact Vx.
  - cbn [SFsub]. change IntDef.Z.min with Z.min. set (ez := Z.min ex ey).
    pose proof (F2R_aligned sx mx ex ez ltac:(lia)) as Hx.
    pose proof (F2R_aligned sy my ey ez ltac:(lia)) as Hy.
    assert (E : F2R (S754_finite sx mx ex) - F2R (S754_finite sy my ey) =
                IZR (cond_Zopp sx (Zpos (fst (shl_align mx ex ez))) -
                     cond_Zopp sy (Zpos (fst (shl_align my ey ez)))) * bpow ez).
    { rewrite minus_IZR, <- Hx, <- Hy. ring. }
    rewrite E. apply binary_normalize_signed. rewrite <- E.
    eapply Rle_lt_trans; [|exact Hv].
    unfold Rminus. eapply Rle_trans; [apply Rabs_triang|]. rewrite Rabs_Ropp. lra.
Qed.

Lemma F2R_abs (s : bool) (m : positive) (e : Z) :
  Rabs (F2R (S754_finite s m e)) = IZR (Zpos m) * bpow e.
Proof.
  pose proof (bpow_pos e). assert (1 <= IZR (Zpos m)) by (apply IZR_le; lia).
  rewrite F2R_finite. destruct s; cbn [cond_Zopp].
  - change (Zneg m) with (- Zpos m)%Z. rewrite opp_IZR.
    rewrite Rabs_left by nra. lra.
  - rewrite Rabs_right by nra. reflexivity.
Qed.

Lemma F2R_sign (s : bool) (m : positive) (e : Z) :
  F2R (S754_finite s m e) = (if s then -1 else 1) * (IZR (Zpos m) * bpow e).
Proof.
  rewrite F2R_finite. destruct s; cbn [cond_Zopp].
  - change (Zneg m) with (- Zpos m)%Z. rewrite opp_IZR. ring.
  - ring.
Qed.

Lemma rounds_signed_xor (s : bool) (z : float) (v : R) :
  rounds_to z v -> 0 <= v ->
  rounds_signed (if s then (- z)%f32 else z) ((if s then -1 else 1) * v).
Proof.
  intros Hz Hv. destruct s.
  - replace (-1 * v) with (- v) by ring.
    apply rounds_signed_opp. now apply rounds_signed_pos.
  - rewrite Rmult_1_l. now apply rounds_signed_pos.
Qed.

Lemma round_aux_sign (s : bool) (m e : Z) (l : location) :
  binary_round_aux prec emax s m e l =
  if s then (- binary_round_aux prec emax false m e l)%f32
  else binary_round_aux prec emax false m e l.
Proof. destruct s; [apply round_aux_opp|reflexivity]. Qed.

Lemma xor_sign (sx sy : bool) :
  (if xorb sx sy then -1 else 1) = (if sx then -1 else 1) * (if sy then -1 else 1).
Proof. destruct sx, sy; cbn; ring. Qed.

(** Multiplication of finite floats of either sign. *)
Lemma SFmul_signed (x y : float) :
  valid_finite x -> valid_finite y -> Rabs (F2R x) * Rabs (F2R y) < bpow 100 ->
  rounds_signed (x * y)%f32 (F2R x * F2R y).
Proof.
  unfold F32.mul.
  destruct x as [sx|sx| |sx mx ex]; cbn [valid_finite]; try tauto;
    destruct y as [sy|sy| |sy my ey]; cbn [valid_finite]; try tauto; intros Vx Vy Hv.
  - apply (rounds_signed_eq _ (F2R (S754_zero (xorb sx sy)))); [cbn [F2R]; lra|].
    apply rounds_signed_exact. exact I.
  - apply (rounds_signed_eq _ (F2R (S754_zero (xorb sx sy)))); [cbn [F2R]; lra|].
    apply rounds_signed_exact. exact I.
  - apply (rounds_signed_eq _ (F2R (S754_zero (xorb sx sy)))); [cbn [F2R]; lra|].
    apply rounds_signed_exact. exact I.
  - cbn [SFmul]. rewrite round_aux_sign.
    rewrite !F2R_abs in Hv.
    assert (E : IZR (Zpos (mx * my)) * bpow (ex + ey) =
                IZR (Zpos mx) * bpow ex * (IZR (Zpos my) * bpow ey)).
    { rewrite Pos2Z.inj_mul, mult_IZR, bpow_add. ring. }
    apply (rounds_signed_eq _ ((if xorb sx sy then -1 else 1) *
                               (IZR (Zpos (mx * my)) * bpow (ex + ey)))).
    { rewrite (F2R_sign sx), (F2R_sign sy), xor_sign, E. ring. }
    apply rounds_signed_xor.
    + apply round_aux_rounds_to; [lia|]. rewrite E. exact Hv.
    + rewrite E. pose proof (bpow_pos ex). pose proof (bpow_pos ey).
      assert (0 <= IZR (Zpos mx)) by (apply IZR_le; lia).
      assert (0 <= IZR (Zpos my)) by (apply IZR_le; lia).
      apply Rmult_le_pos; apply Rmult_le_pos; lra.
Qed.

(** Division of a finite float by a finite nonzero float. *)
Lemma SFdiv_signed (x y : float) :
  valid_finite x -> valid_finite y -> F2R y <> 0 ->
  Rabs (F2R x) / Rabs (F2R y) < bpow 100 ->
  rounds_signed (x / y)%f32 (F2R x / F2R y).
Proof.
  unfold F32.div.
  destruct x as [sx|sx| |sx mx ex]; cbn [valid_finite]; try tauto;
    destruct y as [sy|sy| |sy my ey]; cbn [valid_finite]; try tauto; intros Vx Vy Hy Hv.
  - apply (rounds_signed_eq _ (F2R (S754_zero (xorb sx sy)))).
    + cbn [F2R]. unfold Rdiv. now rewrite Rmult_0_l.
    + apply rounds_signed_exact. exact I.
  - rewrite !F2R_abs in Hv.
    pose proof (SFdiv_pos mx my ex ey (proj1 Vx) (proj1 Vy) Hv) as Hpos.
    cbn [SFdiv xorb] in Hpos |- *.
    destruct (SFdiv_core_binary prec emax (Zpos mx) ex (Zpos my) ey) as [[q e'] l].
    rewrite round_aux_sign.
    pose proof (bpow_pos ex). pose proof (bpow_pos ey).
    assert (0 < IZR (Zpos mx)) by (apply IZR_lt; lia).
    assert (0 < IZR (Zpos my)) by (apply IZR_lt; lia).
    assert (Hden : 0 < IZR (Zpos my) * bpow ey) by (apply Rmult_lt_0_compat; lra).
    apply (rounds_signed_eq _ ((if xorb sx sy then -1 else 1) *
             (IZR (Zpos mx) * bpow ex / (IZR (Zpos my) * bpow ey)))).
    { rewrite (F2R_sign sx), (F2R_sign sy), xor_sign.
      destruct sx, sy; field; lra. }
    apply rounds_signed_xor; [exact Hpos|].
    apply Rlt_le. apply Rdiv_lt_0_compat; [apply Rmult_lt_0_compat; lra|exact Hden].
Qed.

End SignedRounding.

(** ** When the coupled step is defined *)

Section StepSafety.

Lemma shiftl_pos_bounds (m : positive) (e : Z) :
  0 <= Z.shiftl (Zpos m) e /\
  (e < 0 -> Z.shiftl (Zpos m) e * 2 ^ (- e) <= Zpos m) /\
  (0 <= e -> Z.shiftl (Zpos m) e = Zpos m * 2 ^ e).
Proof.
  destruct (Z.lt_ge_cases e 0) as [Hneg|Hpos].
  - rewrite Z.shiftl_div_pow2 by lia.
    assert (0 < 2 ^ (- e)) by (apply Z.pow_pos_nonneg; lia).
    repeat split; try lia.
    + apply Z.div_pos; lia.
    + intros _. rewrite Z.mul_comm. apply Z.mul_div_le. lia.
  - rewrite Z.shiftl_mul_pow2 by lia.
    assert (0 < 2 ^ e) by (apply Z.pow_pos_nonneg; lia).
    repeat split; try lia.
Qed.

Local Open Scope R_scope.

(** Truncation toward zero does not increase the magnitude. *)
Lemma trunc_bound (z : float) :
  valid_finite z ->
  exists t : Z, F32.trunc z = Some t /\ Rabs (IZR t) <= Rabs (F2R z) /\
    (0 <= F2R z -> (0 <= t)%Z) /\ (F2R z <= 0 -> (t <= 0)%Z).
Proof.
  destruct z as [s|s| |s m e]; cbn [valid_finite]; try tauto; intros Hz.
  - exists 0%Z. split; [reflexivity|]. cbn [F2R].
    split; [lra|]. split; intros _; lia.
  - exists (cond_Zopp s (Z.shiftl (Zpos m) e)). split; [reflexivity|].
    destruct (shiftl_pos_bounds m e) as (H0 & Hneg & Hpos).
    assert (Hsign : (0 <= F2R (S754_finite s m e) -> (0 <= cond_Zopp s (Z.shiftl (Zpos m) e))%Z) /\
                    (F2R (S754_finite s m e) <= 0 -> (cond_Zopp s (Z.shiftl (Zpos m) e) <= 0)%Z)).
    { pose proof (bpow_pos e) as Hbe.
      assert (Hm : 0 < IZR (Zpos m) * bpow e).
      { apply Rmult_lt_0_compat; [apply IZR_lt; lia|exact Hbe]. }
      destruct s; cbn [F2R]; cbn [cond_Zopp]; split; intros Hs; try lia.
      - exfalso. change (Z.neg m) with (- Z.pos m)%Z in Hs. rewrite opp_IZR in Hs. lra.
      - exfalso. lra. }
    split; [|exact Hsign].
    rewrite F2R_abs.
    assert (Habs : Rabs (IZR (cond_Zopp s (Z.shiftl (Zpos m) e))) =
                   IZR (Z.shiftl (Zpos m) e)).
    { assert (0 <= IZR (Z.shiftl (Zpos m) e)) by (apply IZR_le; exact H0).
      destruct s; cbn [cond_Zopp].
      - rewrite opp_IZR, Rabs_Ropp. apply Rabs_right. lra.
      - apply Rabs_right. lra. }
    rewrite Habs. pose proof (bpow_pos e) as Hbe.
    destruct (Z.lt_ge_cases e 0) as [He|He].
    + specialize (Hneg He). apply IZR_le in Hneg. rewrite mult_IZR in Hneg.
      rewrite bpow_IZR in Hneg by lia.
      pose proof (bpow_pos (- e)) as Hbn.
      assert (Hone : bpow (- e) * bpow e = 1).
      { rewrite <- bpow_add. replace (- e + e)%Z with 0%Z by lia. apply bpow_0. }
      apply Rmult_le_compat_r with (r := bpow e) in Hneg; [|lra].
      rewrite Rmult_assoc, Hone, Rmult_1_r in Hneg. exact Hneg.
    + rewrite (Hpos He), mult_IZR, bpow_IZR by lia. lra.
Qed.

Lemma to_s32_defined (z : float) :
  valid_finite z -> Rabs (F2R z) < 2147483648 ->
  exists d : Z, F32.to_s32 z = Some d /\ Rabs (IZR d) <= Rabs (F2R z) /\
    (0 <= F2R z -> (0 <= d)%Z) /\ (F2R z <= 0 -> (d <= 0)%Z).
Proof.
  intros Hz Hlt. destruct (trunc_bound z Hz) as (t & Et & Ht & Hts).
  exists t. split; [|exact (conj Ht Hts)]. unfold F32.to_s32. rewrite Et.
  assert (Hr : IZR t < 2147483648 /\ - 2147483648 < IZR t).
  { apply Rabs_def2. lra. }
  destruct Hr as [H2 H1].
  assert (H1' : (-2147483648 < t)%Z) by (apply lt_IZR; lra).
  assert (H2' : (t < 2147483648)%Z) by (apply lt_IZR; lra).
  replace ((- 2 ^ 31 <=? t)%Z && (t <? 2 ^ 31)%Z) with true; [reflexivity|].
  symmetry. apply andb_true_iff. split; [apply Z.leb_le|apply Z.ltb_lt]; lia.
Qed.

Lemma Rabs_quot (a b : R) : b <> 0 -> Rabs (a / b) = Rabs a / Rabs b.
Proof.
  intros Hb. unfold Rdiv. rewrite Rabs_mult. f_equal.
  first [apply Rabs_inv | now apply Rabs_inv].
Qed.

(** Small positive integers convert exactly. *)
Lemma of_Z_small (n : Z) :
  (1 <= n <= 8)%Z -> nonneg_finite (F32.of_Z n) /\ F2R (F32.of_Z n) = IZR n.
Proof.
  intros Hn.
  assert (Hcases : n = 1%Z \/ n = 2%Z \/ n = 3%Z \/ n = 4%Z \/
                   n = 5%Z \/ n = 6%Z \/ n = 7%Z \/ n = 8%Z) by lia.
  pose proof (bpow_neg_inv 23 ltac:(lia)) as E23.
  pose proof (bpow_neg_inv 22 ltac:(lia)) as E22.
  pose proof (bpow_neg_inv 21 ltac:(lia)) as E21.
  pose proof (bpow_neg_inv 20 ltac:(lia)) as E20.
  change (- (23))%Z with (-23)%Z in E23. change (- (22))%Z with (-22)%Z in E22.
  change (- (21))%Z with (-21)%Z in E21. change (- (20))%Z with (-20)%Z in E20.
  change (IZR (2 ^ 23)) with 8388608 in E23. change (IZR (2 ^ 22)) with 4194304 in E22.
  change (IZR (2 ^ 21)) with 2097152 in E21. change (IZR (2 ^ 20)) with 1048576 in E20.
  destruct Hcases as [-> | [-> | [-> | [-> | [-> | [-> | [-> | ->]]]]]]];
    (split; [vm_compute; split; [reflexivity|discriminate]|]);
    match goal with
    | |- F2R (F32.of_Z ?k) = _ =>
        let v := eval vm_compute in (F32.of_Z k) in change (F32.of_Z k) with v
    end; cbn [F2R cond_Zopp]; rewrite ?E23, ?E22, ?E21, ?E20; lra.
Qed.

Section Safety.

Context `{T : sine_table} `{L : lfo_h}.

Hypothesis table_bounded : bounded_table.

Lemma coupling_fold_bound (g : coupled_lfo_group) (idx : Z) (js : list Z) :
  forall (acc : float) (k : nat),
    valid_finite acc -> Rabs (F2R acc) <= INR k ->
    (k + length js <= 16)%nat ->
    let r := fold_left
               (fun sum j =>
                  if (j =? idx)%Z then sum
                  else (sum + phase_sin (wrap32 (phase_at g j - phase_at g idx)))%f32)
               js acc in
    valid_finite r /\ Rabs (F2R r) <= INR (k + length js).
Proof.
  induction js as [|j js IH]; intros acc k Hacc Hk Hlen.
  - cbn [fold_left length]. rewrite Nat.add_0_r. split; assumption.
  - cbn [fold_left length] in *.
    replace (k + S (length js))%nat with (S k + length js)%nat by lia.
    apply IH; [| |lia].
    + destruct (j =? idx)%Z; [exact Hacc|].
      destruct (table_bounded _ (wrap32_is_u32 (phase_at g j - phase_at g idx)))
        as [Hv Hb].
      apply SFadd_signed; [exact Hacc|exact Hv|].
      apply Rle_lt_trans with (INR 16 + 1).
      * apply Rplus_le_compat; [|exact Hb].
        apply Rle_trans with (INR k); [exact Hk|]. apply le_INR. lia.
      * apply Rlt_le_trans with (bpow 5); [|apply bpow_le; lia].
        rewrite <- (bpow_IZR 5) by lia. cbn. lra.
    + destruct (j =? idx)%Z.
      { apply Rle_trans with (INR k); [exact Hk|]. apply le_INR. lia. }
      destruct (table_bounded _ (wrap32_is_u32 (phase_at g j - phase_at g idx)))
        as [Hv Hb].
      assert (Hsum : Rabs (F2R acc) + Rabs (F2R (phase_sin (wrap32 (phase_at g j - phase_at g idx))))
                     < bpow 100).
      { apply Rle_lt_trans with (INR 16 + 1).
        - apply Rplus_le_compat; [|exact Hb].
          apply Rle_trans with (INR k); [exact Hk|]. apply le_INR. lia.
        - apply Rlt_le_trans with (bpow 5); [|apply bpow_le; lia].
          rewrite <- (bpow_IZR 5) by lia. cbn. lra. }
      destruct (SFadd_signed _ _ Hacc Hv Hsum) as (_ & _ & _ & _ & Hbound).
      rewrite S_INR, INR_IZR_INZ.
      replace (IZR (Z.of_nat k) + 1) with (IZR (Zpos (Pos.of_succ_nat k)) * bpow 0).
      2:{ rewrite bpow_0, Rmult_1_r, Zpos_P_of_succ_nat, succ_IZR. reflexivity. }
      apply Hbound.
      * rewrite Zpos_P_of_succ_nat. change (2 ^ prec)%Z with 16777216%Z. lia.
      * change (emin prec emax) with (-149)%Z. lia.
      * rewrite bpow_0, Rmult_1_r, Zpos_P_of_succ_nat, succ_IZR.
        eapply Rle_trans; [apply Rabs_triang|].
        rewrite <- INR_IZR_INZ. lra.
Qed.

(** The coupling sum over a full group has magnitude at most
    [count - 1]. *)
Lemma coupling_sum_bound (g : coupled_lfo_group) (idx : Z) :
  (0 <= idx < count g)%Z -> (count g <= MAX_COUPLED_LFOS)%Z ->
  valid_finite (coupling_sum g idx) /\
  Rabs (F2R (coupling_sum g idx)) <= IZR (count g - 1).
Proof.
  intros Hidx Hc. unfold coupling_sum, MAX_COUPLED_LFOS in *.
  replace (count g) with (idx + (1 + (count g - idx - 1)))%Z at 1 2 by lia.
  rewrite seqZ_app by lia. rewrite (seqZ_app (0 + idx) 1) by lia.
  rewrite !fold_left_app.
  change (seqZ (0 + idx) 1) with [(0 + idx)%Z].
  cbn [fold_left]. rewrite Z.add_0_l, Z.eqb_refl.
  destruct (coupling_fold_bound g idx (seqZ 0 idx) F32.zero 0) as [Hv1 Hb1].
  { exact I. }
  { unfold F32.zero. cbn [F2R INR]. rewrite Rabs_R0. lra. }
  { rewrite length_seqZ. lia. }
  cbv zeta in Hv1, Hb1.
  destruct (coupling_fold_bound g idx (seqZ (idx + 1) (count g - idx - 1)) _
              (0 + length (seqZ 0 idx)) Hv1 Hb1) as [Hv2 Hb2].
  { rewrite !length_seqZ. lia. }
  cbv zeta in Hv2, Hb2.
  split; [exact Hv2|].
  eapply Rle_trans; [exact Hb2|].
  rewrite !length_seqZ, INR_IZR_INZ. apply IZR_le. lia.
Qed.

Lemma positive_coupling_nonneg (K : float) :
  F32.ltb F32.zero K = true -> valid_finite K -> nonneg_finite K /\ 0 < F2R K.
Proof.
  destruct K as [s|s| |s m e]; cbn [valid_finite]; try tauto.
  - intros H. discriminate H.
  - destruct s; intros H Hv; [discriminate H|].
    split; [exact Hv|]. apply F2R_finite_pos.
Qed.

(** The adjustment [coupling * S / count] has magnitude at most 7/8. *)
Lemma adjustment_bound (g : coupled_lfo_group) (idx : Z) :
  F32.ltb F32.zero (coupling g) = true ->
  valid_finite (coupling g) -> F2R (coupling g) <= 1 ->
  (2 <= count g <= MAX_COUPLED_LFOS)%Z -> (0 <= idx < count g)%Z ->
  valid_finite (adjustment g idx) /\ Rabs (F2R (adjustment g idx)) <= 7 / 8.
Proof.
  intros HK HKv HK1 Hc Hidx. unfold MAX_COUPLED_LFOS in Hc.
  destruct (positive_coupling_nonneg _ HK HKv) as [HKn HKpos].
  destruct (coupling_sum_bound g idx Hidx) as [HSv HSb]; [unfold MAX_COUPLED_LFOS; lia|].
  assert (Hc1 : 1 <= IZR (count g - 1) <= 7).
  { split; apply IZR_le; lia. }
  assert (HKabs : Rabs (F2R (coupling g)) <= 1) by (rewrite Rabs_right; lra).
  assert (Hprod : Rabs (F2R (coupling g)) * Rabs (F2R (coupling_sum g idx)) <=
                  IZR (count g - 1)).
  { replace (IZR (count g - 1)) with (1 * IZR (count g - 1)) by ring.
    apply Rmult_le_compat; try apply Rabs_pos; assumption. }
  assert (Hb100 : 8 < bpow 100).
  { apply Rlt_le_trans with (bpow 4); [|apply bpow_le; lia].
    rewrite <- (bpow_IZR 4) by lia. cbn. lra. }
  destruct (SFmul_signed _ _ HKv HSv ltac:(lra)) as (Hmv & _ & _ & _ & Hmb).
  assert (Hmul : Rabs (F2R (coupling g * coupling_sum g idx)%f32) <= IZR (count g - 1)).
  { replace (IZR (count g - 1)) with (IZR (Zpos (Z.to_pos (count g - 1))) * bpow 0)
      by (rewrite bpow_0, Rmult_1_r, Z2Pos.id by lia; reflexivity).
    apply Hmb.
    - rewrite Z2Pos.id by lia. change (2 ^ prec)%Z with 16777216%Z. lia.
    - change (emin prec emax) with (-149)%Z. lia.
    - rewrite bpow_0, Rmult_1_r, Z2Pos.id by lia. rewrite Rabs_mult. exact Hprod. }
  destruct (of_Z_small (count g) ltac:(lia)) as [Hcn Hcv].
  assert (Hcpos : 2 <= IZR (count g) <= 8) by (split; apply IZR_le; lia).
  assert (Hquot : Rabs (F2R (coupling g * coupling_sum g idx)%f32) /
                  Rabs (F2R (F32.of_Z (count g))) <= 7 / 8).
  { rewrite Hcv, (Rabs_right (IZR (count g))) by lra.
    apply Rle_trans with (IZR (count g - 1) / IZR (count g)).
    - apply Rmult_le_compat_r; [|exact Hmul].
      apply Rlt_le, Rinv_0_lt_compat. lra.
    - rewrite minus_IZR. apply Rmult_le_reg_r with (IZR (count g)); [lra|].
      unfold Rdiv. rewrite Rmult_assoc, Rinv_l by lra. lra. }
  unfold adjustment.
  destruct (SFdiv_signed _ _ Hmv (nonneg_valid _ Hcn) ltac:(rewrite Hcv; lra) ltac:(lra))
    as (Hdv & _ & _ & _ & Hdb).
  split; [exact Hdv|].
  pose proof (bpow_neg_inv 3 ltac:(lia)) as E3.
  change (- (3))%Z with (-3)%Z in E3. change (IZR (2 ^ 3)) with 8 in E3.
  replace (7 / 8) with (IZR (Zpos 7) * bpow (-3)) by (rewrite E3; lra).
  apply Hdb.
  - reflexivity.
  - change (emin prec emax) with (-149)%Z. lia.
  - rewrite E3. rewrite Rabs_quot by (rewrite Hcv; lra).
    replace (7 * / 8) with (7 / 8) by lra. exact Hquot.
Qed.

Lemma adjustment_conversion (g : coupled_lfo_group) (idx st : Z) :
  F32.ltb F32.zero (coupling g) = true ->
  valid_finite (coupling g) -> F2R (coupling g) <= 1 ->
  (2 <= count g <= MAX_COUPLED_LFOS)%Z -> (0 <= idx < count g)%Z ->
  (0 <= st <= 2 ^ 31)%Z ->
  exists d : Z,
    F32.to_s32 (adjustment g idx * F32.of_Z st)%f32 = Some d /\
    (- st <= d <= st)%Z /\
    (0 <= F2R (adjustment g idx) -> (0 <= d)%Z) /\
    (F2R (adjustment g idx) <= 0 -> (d <= 0)%Z).
Proof.
  intros HK HKv HK1 Hc Hidx Hstep.
  destruct (adjustment_bound g idx HK HKv HK1 Hc Hidx) as [Hav Hab].
  assert (Hst : 0 <= IZR st <= 2147483648).
  { split; [apply IZR_le; lia|]. change 2147483648 with (IZR (2 ^ 31)). apply IZR_le. lia. }
  pose proof bpow_m149_small as Hsmall. rewrite bpow_m23 in Hsmall.
  assert (Hb100 : 2147483648 < bpow 100).
  { apply Rlt_le_trans with (bpow 32); [|apply bpow_le; lia].
    rewrite <- (bpow_IZR 32) by lia. change (IZR (2 ^ 32)) with 4294967296. lra. }
  assert (Hsf : rounds_to (F32.of_Z st) (IZR st)).
  { unfold F32.of_Z. apply (rounds_to_eq _ (IZR st * bpow 0)); [rewrite bpow_0; ring|].
    apply binary_normalize_rounds_to; [lia|]. rewrite bpow_0. lra. }
  destruct Hsf as (Hsn & Hse & Hs0 & Hsb).
  pose proof (nonneg_finite_F2R _ Hsn) as Hspos.
  rewrite bpow_m23 in Hse. apply Rabs_le_inv in Hse.
  assert (Hsup : F2R (F32.of_Z st) <= 2147483648).
  { replace 2147483648 with (IZR (Zpos 1) * bpow 31)
      by (rewrite <- (bpow_IZR 31) by lia; change (IZR (2 ^ 31)) with 2147483648; lra).
    apply Hsb; [reflexivity|change (emin prec emax) with (-149)%Z; lia|].
    rewrite <- (bpow_IZR 31) by lia. change (IZR (2 ^ 31)) with 2147483648. lra. }
  set (sf := F32.of_Z st) in *.
  assert (Habs_sf : Rabs (F2R sf) = F2R sf) by (apply Rabs_right; lra).
  assert (Hreal : Rabs (F2R (adjustment g idx) * F2R sf) <= 7 / 8 * F2R sf).
  { rewrite Rabs_mult, Habs_sf. apply Rmult_le_compat_r; assumption. }
  destruct (SFmul_signed (adjustment g idx) sf Hav (nonneg_valid _ Hsn))
    as (Hpv & Hpe & Hpp & Hpn & _).
  { rewrite <- Rabs_mult. lra. }
  rewrite bpow_m23 in Hpe. apply Rabs_le_inv in Hpe.
  set (P := F2R (adjustment g idx * sf)%f32) in *.
  set (V := F2R (adjustment g idx) * F2R sf) in *.
  assert (HPabs : Rabs P <= Rabs V + (Rabs V * / 8388608 + bpow (-149))).
  { unfold Rabs at 1 2. destruct (Rcase_abs P), (Rcase_abs V); lra. }
  assert (HP : Rabs P <= 9 / 10 * IZR st /\ (IZR st = 0 -> P = 0)).
  { split.
    - destruct (Z.eq_dec st 0%Z) as [E0|Hne].
      + assert (EV : V = 0).
        { unfold V. rewrite (Hs0 ltac:(rewrite E0; reflexivity)). ring. }
        assert (P = 0) by (pose proof (Hpp ltac:(lra)); pose proof (Hpn ltac:(lra)); lra).
        rewrite H, Rabs_R0, E0. lra.
      + assert (1 <= IZR st) by (apply IZR_le; lia). lra.
    - intros E0.
      assert (EV : V = 0) by (unfold V; rewrite (Hs0 E0); ring).
      pose proof (Hpp ltac:(lra)); pose proof (Hpn ltac:(lra)); lra. }
  destruct HP as [HP _].
  destruct (to_s32_defined (adjustment g idx * sf)%f32 Hpv) as (d & Ed & Hd & Hd0 & Hd1).
  { fold P. lra. }
  fold P in Hd, Hd0, Hd1.
  exists d. split; [exact Ed|]. split; [|split].
  - assert (Hdr : Rabs (IZR d) <= IZR st).
    { destruct (Z.eq_dec st 0%Z) as [E0|Hne]; [|assert (1 <= IZR st) by (apply IZR_le; lia); lra].
      rewrite E0 in HP |- *. lra. }
    apply Rabs_le_inv in Hdr. rewrite <- opp_IZR in Hdr.
    destruct Hdr as [H1 H2]. apply le_IZR in H1, H2. lia.
  - intros Ha. apply Hd0. apply Hpp. unfold V.
    apply Rmult_le_pos; [exact Ha|exact Hspos].
  - intros Ha. apply Hd1. apply Hpn. unfold V.
    rewrite <- (Rmult_0_l (F2R sf)). apply Rmult_le_compat_r; [exact Hspos|exact Ha].
Qed.

Lemma coupled_step_in_range
    (g : coupled_lfo_group) (idx : Z) (type : lfo_type) (l : lfo_state.t) :
  group_wf g ->
  F32.ltb F32.zero (coupling g) = true ->
  valid_finite (coupling g) -> F2R (coupling g) <= 1 ->
  (2 <= count g <= MAX_COUPLED_LFOS)%Z -> (0 <= idx < count g)%Z ->
  lfos g !! Z.to_nat idx = Some l ->
  (0 <= lfo_state.step l <= 2 ^ 31)%Z ->
  exists d : Z,
    (- lfo_state.step l <= d <= lfo_state.step l)%Z /\
    coupled_lfo_step idx type g =
    let l' := lfo_state.mk (wrap32 (lfo_state.idx l + d)) (lfo_state.step l) in
    Some (snd (lfo_step l' type), set_lfo g idx (fst (lfo_step l' type))).
Proof.
  intros Hwf HK HKv HK1 Hc Hidx Hl Hstep.
  destruct (adjustment_conversion g idx (lfo_state.step l) HK HKv HK1 Hc Hidx Hstep)
    as (d & Ed & Hd & _).
  exists d. split; [exact Hd|].
  rewrite (step_coupled g idx type l); try assumption.
  - rewrite Ed. reflexivity.
  - unfold MAX_COUPLED_LFOS in *. lia.
  - unfold MAX_COUPLED_LFOS in *. lia.
  - rewrite HK. apply Z.ltb_lt. lia.
Qed.

(** X9: with 0 < coupling <= 1, 2 <= count <= 8, a table whose values
    are finite and at most 1 in magnitude, and an increment of at most
    [2^31], the conversion to [s32] in [coupled_lfo_step] is defined
    and the coupling moves the phase by no more than the oscillator's
    own increment. *)
Theorem coupled_step_defined
    (g : coupled_lfo_group) (idx : Z) (type : lfo_type) (l : lfo_state.t) :
  group_wf g ->
  F32.ltb F32.zero (coupling g) = true ->
  valid_finite (coupling g) -> F2R (coupling g) <= 1 ->
  (2 <= count g <= MAX_COUPLED_LFOS)%Z -> (0 <= idx < count g)%Z ->
  lfos g !! Z.to_nat idx = Some l ->
  (0 <= lfo_state.step l <= 2 ^ 31)%Z ->
  exists d : Z,
    (- lfo_state.step l <= d <= lfo_state.step l)%Z /\
    coupled_lfo_step idx type g =
    let l' := lfo_state.mk (wrap32 (lfo_state.idx l + d)) (lfo_state.step l) in
    Some (snd (lfo_step l' type), set_lfo g idx (fst (lfo_step l' type))).
Proof. exact (coupled_step_in_range g idx type l). Qed.

End Safety.

End StepSafety.

(** ** Rounding up to the largest float *)

Section TopRange.

Lemma finite_float_inv (s : bool) (m : positive) (e : Z) :
  finite_float (S754_finite s m e) ->
  Zpos m < 2 ^ prec /\ emin prec emax <= e <= emax - prec.
Proof.
  intros [Hv _]. cbn [valid_binary] in Hv. unfold bounded, canonical_mantissa in Hv.
  apply andb_true_iff in Hv. destruct Hv as [Hc He].
  apply Z.leb_le in He. apply Z.eqb_eq in Hc.
  unfold fexp in Hc. change IntDef.Z.max with Z.max in Hc.
  change IntDef.Z.sub with Z.sub in Hc.
  pose proof (Zdigits2_upper (Zpos m) ltac:(lia)) as Hu.
  change (Zdigits2 (Zpos m)) with (Zpos (digits2_pos m)) in Hu.
  set (d := Zpos (digits2_pos m)) in *.
  split; [|lia].
  eapply Z.lt_le_trans; [exact Hu|]. apply Z.pow_le_mono_r; lia.
Qed.

Lemma finite_float_valid (x : float) : finite_float x -> valid_finite x.
Proof.
  destruct x as [s|s| |s m e]; intros H; try (destruct H as [_ H]; discriminate H).
  - exact I.
  - destruct (finite_float_inv s m e H) as [H1 H2]. split; [exact H1|lia].
Qed.

(** No second shift when the rounded mantissa fits. *)
Lemma second_shift_small (m1 e' : Z) :
  0 <= m1 < 2 ^ prec -> emin prec emax <= e' ->
  shr_fexp prec emax m1 e' loc_Exact = (Build_shr_record m1 false false, e').
Proof.
  intros [H0 H1] He. unfold shr_fexp.
  assert (Hd : Zdigits2 m1 <= prec).
  { apply Zdigits2_le; [unfold prec; lia|lia]. }
  unfold shr, fexp.
  destruct (Z.max (Zdigits2 m1 + e' - prec) (emin prec emax) - e') as [|p|p] eqn:Ea;
    try lia; reflexivity.
Qed.

(** Rounding at the top of the exponent range: no overflow as long as
    the value does not pass the largest float. *)
Lemma round_aux_top (m e : Z) :
  0 <= m ->
  let n := round_shift m e in
  e + n <= emax - prec -> m <= (2 ^ prec - 1) * 2 ^ n ->
  exists m1,
    m / 2 ^ n <= m1 <= m / 2 ^ n + 1 /\
    (m mod 2 ^ n = 0 -> m1 = m / 2 ^ n) /\
    represents (binary_round_aux prec emax false m e loc_Exact) m1 (e + n).
Proof.
  intros Hm n Hov Hcap.
  destruct (first_shift m e loc_Exact Hm) as (mrs & E1 & Hq & Hex). fold n in E1, Hq, Hex.
  destruct (first_shift_bounds m e Hm) as (Hn & Hemin & Hqb). fold n in Hn, Hemin, Hqb.
  set (m1 := round_nearest_even (shr_m mrs) (loc_of_shr_record mrs)).
  pose proof (round_nearest_even_range (shr_m mrs) (loc_of_shr_record mrs)) as Hr.
  fold m1 in Hr. rewrite Hq in Hr.
  assert (Hp2 : 0 < 2 ^ n) by (apply Z.pow_pos_nonneg; lia).
  assert (Hexact : m mod 2 ^ n = 0 -> m1 = m / 2 ^ n).
  { intros Hmod. unfold m1. rewrite (Hex eq_refl Hmod). cbn. exact Hq. }
  assert (Hfit : m1 < 2 ^ prec).
  { destruct (Z.eq_dec (m mod 2 ^ n) 0) as [Hmod|Hmod].
    - rewrite (Hexact Hmod). lia.
    - assert (Hne : m <> (2 ^ prec - 1) * 2 ^ n).
      { intros E. apply Hmod. rewrite E. apply Z.mod_mul. lia. }
      assert (m / 2 ^ n < 2 ^ prec - 1); [|lia].
      apply Z.div_lt_upper_bound; lia. }
  exists m1. split; [exact Hr|]. split; [exact Hexact|].
  pose proof (second_shift_small m1 (e + n) ltac:(lia) Hemin) as E2.
  unfold binary_round_aux. rewrite E1. fold m1. rewrite E2. cbn [shr_m].
  destruct m1 as [|p1|p1]; [| |lia].
  - cbn. reflexivity.
  - replace (e + n <=? emax - prec) with true by (symmetry; apply Z.leb_le; lia).
    cbn [represents]. rewrite Z.sub_diag. repeat split; try lia.
Qed.

Local Open Scope R_scope.

(** Rounding of [m * 2^e] at an exact location, for a value that a
    float [Mt * 2^Et] of the format bounds. *)
Lemma round_exact_top (m e : Z) (Mt : positive) (Et : Z) :
  (0 < m)%Z -> (e <= emax - prec)%Z ->
  (Zpos Mt < 2 ^ prec)%Z -> (Et <= emax - prec)%Z ->
  IZR m * bpow e <= IZR (Zpos Mt) * bpow Et ->
  let z := binary_round_aux prec emax false m e loc_Exact in
  let v := IZR m * bpow e in
  nonneg_finite z /\
  Rabs (F2R z - v) <= v * bpow (-23) + bpow (-149) /\
  (forall (Mb : positive) (Eb : Z),
      (Zpos Mb < 2 ^ prec)%Z -> (emin prec emax <= Eb)%Z ->
      v <= IZR (Zpos Mb) * bpow Eb -> F2R z <= IZR (Zpos Mb) * bpow Eb).
Proof.
  intros Hm He HMt HEt Hv z v. unfold v. clear v. remember (IZR m * bpow e) as v eqn:Ev.
  pose proof (bpow_pos e) as Hbe.
  pose proof (IZR_pow2_le_digits m Hm) as Hdig.
  set (d := Zdigits2 m) in *.
  assert (Hm1 : 1 <= IZR m) by (apply IZR_le; lia).
  assert (Hv0 : 0 < v) by (rewrite Ev; apply Rmult_lt_0_compat; lra).
  assert (Hde : bpow (d - 1 + e) <= v).
  { rewrite bpow_add. nra. }
  assert (HMt1 : 1 <= IZR (Zpos Mt) <= 16777215).
  { split; apply IZR_le; [lia|]. change (2 ^ prec)%Z with 16777216%Z in HMt. lia. }
  assert (Hmax : IZR (Zpos Mt) * bpow Et <= 16777215 * bpow 104).
  { pose proof (bpow_pos Et). pose proof (bpow_le Et 104 ltac:(unfold emax, prec in HEt; lia)).
    apply Rmult_le_compat; lra. }
  assert (Hd128 : (d - 1 + e < 128)%Z).
  { apply bpow_lt_inv. apply Rle_lt_trans with (16777215 * bpow 104); [lra|].
    replace 128%Z with (24 + 104)%Z by lia. rewrite bpow_add.
    rewrite <- (bpow_IZR 24) by lia. change (IZR (2 ^ 24)) with 16777216.
    pose proof (bpow_pos 104). nra. }
  set (n := round_shift m e).
  assert (Hov : (e + n <= emax - prec)%Z).
  { unfold n, round_shift, fexp, emin, emax, prec in *. fold d. lia. }
  pose proof (first_shift_bounds m e ltac:(lia)) as (Hn0 & _ & _). fold n in Hn0.
  assert (Hpow : (0 < 2 ^ n)%Z) by (apply Z.pow_pos_nonneg; lia).
  assert (Hgrid : bpow (e + n) = IZR (2 ^ n) * bpow e).
  { rewrite Z.add_comm, bpow_add, bpow_IZR by assumption. reflexivity. }
  assert (Hround : exists m1 : Z,
             (m / 2 ^ n <= m1 <= m / 2 ^ n + 1)%Z /\
             ((m mod 2 ^ n = 0)%Z -> m1 = (m / 2 ^ n)%Z) /\
             represents z m1 (e + n)).
  { destruct (Z.eq_dec (e + n)%Z (emax - prec)%Z) as [Etop|Hlow].
    - apply (round_aux_top m e ltac:(lia) Hov).
      fold n. apply le_IZR. rewrite mult_IZR.
      change (IZR (2 ^ prec - 1)) with 16777215.
      apply Rmult_le_reg_r with (bpow e); [exact Hbe|].
      rewrite Rmult_assoc, <- Hgrid, Etop. change (emax - prec)%Z with 104%Z.
      rewrite <- Ev. lra.
    - destruct (round_aux_Z m e loc_Exact ltac:(lia)) as (m1 & H1 & H2 & H3).
      { fold n. lia. }
      exists m1. split; [exact H1|]. split; [exact (H2 eq_refl)|exact H3]. }
  destruct Hround as (m1 & Hrange & Hexact & Hrep).
  apply represents_F2R in Hrep. destruct Hrep as [Hfin HF].
  split; [assumption|].
  assert (Hq : (m / 2 ^ n * 2 ^ n <= m < (m / 2 ^ n + 1) * 2 ^ n)%Z).
  { Z.div_mod_to_equations. nia. }
  destruct (round_shift_cases m e) as [(Hn & _ & _)|(Hn & Hcase)]; fold n in Hn.
  - (* no shift: exact *)
    assert (E : m1 = m).
    { rewrite Hexact; rewrite Hn; [apply Z.div_1_r|apply Z.mod_1_r]. }
    assert (HFv : F2R z = v).
    { rewrite HF, E, Hn, Z.add_0_r. now rewrite Ev. }
    split.
    + rewrite HFv. replace (v - v) with 0 by lra. rewrite Rabs_R0.
      pose proof (bpow_pos (-23)). pose proof (bpow_pos (-149)). nra.
    + intros Mb Eb _ _ Hle. lra.
  - fold n d in Hcase.
    assert (Hulp : bpow (e + n) <= v * bpow (-23) + bpow (-149)).
    { pose proof (bpow_pos (-23)). pose proof (bpow_pos (-149)).
      destruct Hcase as [-> | ->].
      - replace (d + e - prec)%Z with ((d - 1 + e) + (-23))%Z by (unfold prec; lia).
        rewrite bpow_add. nra.
      - change (emin prec emax) with (-149)%Z. nra. }
    assert (Hm1r : IZR (m / 2 ^ n) <= IZR m1 <= IZR (m / 2 ^ n) + 1).
    { split; [apply IZR_le; lia|]. rewrite <- plus_IZR. apply IZR_le. lia. }
    assert (Hqr : IZR (m / 2 ^ n) * IZR (2 ^ n) <= IZR m < (IZR (m / 2 ^ n) + 1) * IZR (2 ^ n)).
    { rewrite <- plus_IZR, <- !mult_IZR. split; [apply IZR_le|apply IZR_lt]; lia. }
    assert (Hp2 : 0 < IZR (2 ^ n)) by (apply IZR_lt; lia).
    split.
    + assert (HD : - IZR (2 ^ n) <= IZR m1 * IZR (2 ^ n) - IZR m <= IZR (2 ^ n)) by nra.
      assert (HE : F2R z - v = (IZR m1 * IZR (2 ^ n) - IZR m) * bpow e).
      { rewrite HF, Hgrid, Ev. ring. }
      rewrite HE. apply Rle_trans with (bpow (e + n)); [|exact Hulp].
      rewrite Hgrid. apply Rabs_le. split; nra.
    + intros Mb Eb HMb HEb Hle.
      assert (HEn : (e + n <= Eb)%Z).
      { destruct Hcase as [E | E]; [|lia].
        destruct (Z.le_gt_cases (e + n) Eb) as [|Hgt]; [assumption|exfalso].
        assert (IZR (Zpos Mb) * bpow Eb < bpow (d - 1 + e)); [|lra].
        apply Rlt_le_trans with (bpow (Eb + prec)).
        - rewrite Z.add_comm, bpow_add, <- (bpow_IZR prec) by (unfold prec; lia).
          pose proof (bpow_pos Eb). apply IZR_lt in HMb. nra.
        - apply bpow_le. lia. }
      set (K := (Zpos Mb * 2 ^ (Eb - (e + n)))%Z).
      assert (HB : IZR (Zpos Mb) * bpow Eb = IZR K * bpow (e + n)).
      { unfold K. rewrite mult_IZR, bpow_IZR by lia.
        rewrite Rmult_assoc, <- bpow_add. do 2 f_equal. lia. }
      rewrite HB in Hle |- *. rewrite HF.
      assert (HmK : (m <= K * 2 ^ n)%Z).
      { apply le_IZR. rewrite mult_IZR.
        rewrite Hgrid in Hle. nra. }
      assert (Hm1K : (m1 <= K)%Z).
      { destruct (Z.eq_dec (m mod 2 ^ n)%Z 0%Z) as [Hmod|Hmod].
        - rewrite (Hexact Hmod). apply Z.div_le_upper_bound; lia.
        - assert (m / 2 ^ n < K)%Z; [|lia].
          apply Z.div_lt_upper_bound; [lia|].
          assert (m <> K * 2 ^ n)%Z; [|lia].
          intros EK. apply Hmod. rewrite EK. apply Z.mod_mul. lia. }
      apply IZR_le in Hm1K. pose proof (bpow_pos (e + n)). nra.
Qed.

(** Rounding a mantissa that fits, up to the largest exponent: the
    value is kept. *)
Lemma round_exact_scaled_top (m : positive) (e k : Z) :
  (Zpos m < 2 ^ prec)%Z -> (emin prec emax <= e <= emax - prec)%Z -> (0 <= k)%Z ->
  let z := binary_round_aux prec emax false (Zpos m * 2 ^ k) (e - k) loc_Exact in
  nonneg_finite z /\ F2R z = IZR (Zpos m) * bpow e.
Proof.
  intros Hm He Hk z.
  assert (Hp2 : (0 < 2 ^ k)%Z) by (apply Z.pow_pos_nonneg; lia).
  set (M := (Zpos m * 2 ^ k)%Z) in *.
  assert (HM : (0 < M)%Z) by (unfold M; lia).
  assert (HD : (Zdigits2 M <= 24 + k)%Z).
  { apply Zdigits2_le; [lia|]. split; [lia|].
    rewrite Z.pow_add_r by lia. unfold M.
    apply Z.mul_lt_mono_pos_r; [exact Hp2|]. exact Hm. }
  pose proof (Zdigits2_nonneg M) as HD0.
  set (n := round_shift M (e - k)).
  assert (Hn : (0 <= n <= k)%Z).
  { unfold n, round_shift, fexp. change IntDef.Z.max with Z.max.
    change IntDef.Z.sub with Z.sub. change (emin prec emax) with (-149)%Z in *.
    change prec with 24%Z. lia. }
  assert (Hpn : (0 < 2 ^ n)%Z) by (apply Z.pow_pos_nonneg; lia).
  assert (EM : M = (Zpos m * 2 ^ (k - n) * 2 ^ n)%Z).
  { unfold M. rewrite <- Z.mul_assoc, <- Z.pow_add_r by lia. do 2 f_equal. lia. }
  assert (Hdiv : (M / 2 ^ n = Zpos m * 2 ^ (k - n))%Z).
  { rewrite EM. apply Z.div_mul. lia. }
  assert (Hmod : (M mod 2 ^ n = 0)%Z).
  { rewrite EM. apply Z.mod_mul. lia. }
  pose proof (first_shift_bounds M (e - k) ltac:(lia)) as (_ & _ & Hqb). fold n in Hqb.
  destruct (round_aux_top M (e - k) ltac:(lia)) as (m1 & _ & Hex & Hrep).
  { fold n. lia. }
  { fold n. rewrite EM at 1. rewrite <- Hdiv.
    apply Z.mul_le_mono_nonneg_r; lia. }
  fold n in Hex, Hrep. fold z in Hrep.
  assert (Em1 : m1 = (Zpos m * 2 ^ (k - n))%Z) by (rewrite (Hex Hmod); exact Hdiv).
  apply represents_F2R in Hrep. destruct Hrep as [Hfin HF].
  split; [exact Hfin|]. rewrite HF, Em1, mult_IZR, bpow_IZR by lia.
  rewrite Rmult_assoc, <- bpow_add. do 2 f_equal. lia.
Qed.

(** Multiplication of a finite float by the float 1 keeps the
    value. *)
Lemma mul_one (x : float) :
  finite_float x ->
  valid_finite (x * f_one)%f32 /\ F2R (x * f_one)%f32 = F2R x.
Proof.
  change f_one with (S754_finite false 8388608 (-23)).
  destruct x as [s|s| |s m e]; intros Hx; try (destruct Hx as [_ Hx]; discriminate Hx).
  - split; [exact I|reflexivity].
  - destruct (finite_float_inv s m e Hx) as [Hm He].
    unfold F32.mul. cbn [SFmul]. rewrite round_aux_sign.
    destruct (round_exact_scaled_top m e 23 Hm He ltac:(lia)) as [Hfin HF].
    replace (Zpos (m * 8388608)) with (Zpos m * 2 ^ 23)%Z by (rewrite Pos2Z.inj_mul; reflexivity).
    replace (e + -23)%Z with (e - 23)%Z by lia.
    set (z := binary_round_aux prec emax false (Zpos m * 2 ^ 23) (e - 23) loc_Exact) in *.
    rewrite (F2R_sign s). replace (xorb s false) with s by (destruct s; reflexivity).
    destruct s.
    + split; [exact (valid_neg _ (nonneg_valid _ Hfin))|]. rewrite F2R_neg, HF. ring.
    + split; [exact (nonneg_valid _ Hfin)|]. rewrite HF. ring.
Qed.

(** Multiplication of a finite float by a gain in [0, 1] does not
    increase the magnitude and keeps the sign, up to the largest
    float. *)
Lemma attenuate (x g : float) :
  finite_float x -> valid_finite g -> 0 <= F2R g <= 1 ->
  valid_finite (x * g)%f32 /\
  Rabs (F2R (x * g)%f32) <= Rabs (F2R x) /\
  0 <= F2R (x * g)%f32 * F2R x.
Proof.
  intros Hx Hg Hg01. unfold F32.mul.
  destruct x as [sx|sx| |sx mx ex]; try (destruct Hx as [_ Hx]; discriminate Hx).
  - destruct g as [sg|sg| |sg mg eg]; cbn [valid_finite] in Hg; try tauto;
      cbn [SFmul F2R valid_finite]; rewrite Rabs_R0; (split; [exact I|]); lra.
  - destruct (finite_float_inv sx mx ex Hx) as [Hmx Hex].
    destruct g as [sg|sg| |sg mg eg]; cbn [valid_finite] in Hg; try tauto.
    + cbn [SFmul F2R valid_finite]. rewrite Rabs_R0.
      split; [exact I|]. split; [apply Rabs_pos|lra].
    + assert (Hsg : sg = false).
      { destruct sg; [exfalso|reflexivity].
        pose proof (F2R_finite_pos mg eg) as Hpos.
        rewrite (F2R_sign true) in Hg01. rewrite (F2R_sign false) in Hpos. lra. }
      subst sg. rewrite (F2R_sign false), Rmult_1_l in Hg01.
      pose proof (bpow_pos ex) as Hbx. pose proof (bpow_pos eg) as Hbg.
      assert (Hmx1 : 1 <= IZR (Zpos mx)) by (apply IZR_le; lia).
      assert (Hmg1 : 1 <= IZR (Zpos mg)) by (apply IZR_le; lia).
      assert (Heg : (eg <= 0)%Z).
      { destruct (Z.le_gt_cases eg 0) as [|Hgt]; [assumption|exfalso].
        pose proof (bpow_le 1 eg ltac:(lia)) as H1. rewrite bpow_1 in H1. nra. }
      cbn [SFmul]. rewrite round_aux_sign.
      replace (xorb sx false) with sx by (destruct sx; reflexivity).
      assert (E : IZR (Zpos (mx * mg)) * bpow (ex + eg) =
                  IZR (Zpos mx) * bpow ex * (IZR (Zpos mg) * bpow eg)).
      { rewrite Pos2Z.inj_mul, mult_IZR, bpow_add. ring. }
      assert (Hle : IZR (Zpos (mx * mg)) * bpow (ex + eg) <= IZR (Zpos mx) * bpow ex).
      { rewrite E. rewrite <- (Rmult_1_r (IZR (Zpos mx) * bpow ex)) at 2.
        apply Rmult_le_compat_l; [|lra]. apply Rmult_le_pos; lra. }
      destruct (round_exact_top (Zpos (mx * mg)) (ex + eg) mx ex
                  ltac:(lia) ltac:(lia) Hmx ltac:(lia) Hle) as (Hzf & _ & Hzb).
      specialize (Hzb mx ex Hmx ltac:(lia) Hle).
      set (z := binary_round_aux prec emax false (Zpos (mx * mg)) (ex + eg) loc_Exact) in *.
      pose proof (nonneg_finite_F2R z Hzf) as Hz0.
      rewrite F2R_abs, (F2R_sign sx).
      destruct sx.
      * split; [exact (valid_neg _ (nonneg_valid _ Hzf))|].
        rewrite F2R_neg, Rabs_Ropp, Rabs_right by lra.
        split; [exact Hzb|].
        replace (- F2R z * (-1 * (IZR (Zpos mx) * bpow ex)))
          with (F2R z * (IZR (Zpos mx) * bpow ex)) by ring.
        apply Rmult_le_pos; [lra|]. apply Rmult_le_pos; lra.
      * split; [exact (nonneg_valid _ Hzf)|].
        rewrite Rabs_right by lra.
        split; [exact Hzb|].
        rewrite Rmult_1_l. apply Rmult_le_pos; [lra|]. apply Rmult_le_pos; lra.
Qed.

End TopRange.

(** ** The direction of the coupling *)

Section AttractionTheory.

Section Attraction.

Context `{T : sine_table} `{L : lfo_h}.

Hypothesis table_bounded : bounded_table.

Local Open Scope R_scope.

Lemma coupling_fold_sign (g : coupled_lfo_group) (idx : Z) (b : bool) (js : list Z) :
  forall (acc : float) (k : nat),
    valid_finite acc -> Rabs (F2R acc) <= INR k ->
    (k + length js <= 16)%nat ->
    sided b (F2R acc) ->
    (forall j : Z, In j js -> j <> idx ->
       sided b (F2R (phase_sin (wrap32 (phase_at g j - phase_at g idx))))) ->
    sided b (F2R (fold_left
               (fun sum j =>
                  if (j =? idx)%Z then sum
                  else (sum + phase_sin (wrap32 (phase_at g j - phase_at g idx)))%f32)
               js acc)).
Proof.
  induction js as [|j js IH]; intros acc k Hacc Hk Hlen Hs Hall.
  - exact Hs.
  - cbn [fold_left length] in *.
    destruct (coupling_fold_bound table_bounded g idx [j] acc k Hacc Hk ltac:(cbn; lia))
      as [Hv1 Hb1].
    cbn [fold_left length] in Hv1, Hb1.
    apply (IH _ (k + 1)%nat Hv1 Hb1 ltac:(lia)).
    + destruct (Z.eqb_spec j idx) as [E|Hne]; [exact Hs|].
      destruct (table_bounded _ (wrap32_is_u32 (phase_at g j - phase_at g idx)))
        as [Hv Hb].
      assert (Hsum : Rabs (F2R acc) + Rabs (F2R (phase_sin (wrap32 (phase_at g j - phase_at g idx))))
                     < bpow 100).
      { apply Rle_lt_trans with (INR 16 + 1).
        - apply Rplus_le_compat; [|exact Hb].
          apply Rle_trans with (INR k); [exact Hk|]. apply le_INR. lia.
        - apply Rlt_le_trans with (bpow 5); [|apply bpow_le; lia].
          rewrite <- (bpow_IZR 5) by lia. cbn. lra. }
      destruct (SFadd_signed _ _ Hacc Hv Hsum) as (_ & _ & Hp & Hn & _).
      pose proof (Hall j (or_introl eq_refl) Hne) as Hj.
      unfold sided in *. destruct b; [apply Hp|apply Hn]; lra.
    + intros j' Hin. apply Hall. right. exact Hin.
Qed.

Lemma coupling_sum_sign (g : coupled_lfo_group) (idx : Z) (b : bool) :
  (count g <= MAX_COUPLED_LFOS)%Z ->
  (forall j : Z, (0 <= j < count g)%Z -> j <> idx ->
     sided b (F2R (phase_sin (wrap32 (phase_at g j - phase_at g idx))))) ->
  sided b (F2R (coupling_sum g idx)).
Proof.
  intros Hc Hall. unfold coupling_sum, MAX_COUPLED_LFOS in *.
  apply (coupling_fold_sign g idx b (seqZ 0 (count g)) F32.zero 0).
  - exact I.
  - unfold F32.zero. cbn [F2R INR]. rewrite Rabs_R0. lra.
  - rewrite length_seqZ. lia.
  - unfold F32.zero, sided. cbn [F2R]. destruct b; lra.
  - intros j Hin. apply Hall. apply list_elem_of_In, elem_of_seqZ in Hin. lia.
Qed.

Lemma adjustment_sign (g : coupled_lfo_group) (idx : Z) (b : bool) :
  F32.ltb F32.zero (coupling g) = true ->
  valid_finite (coupling g) -> F2R (coupling g) <= 1 ->
  (2 <= count g <= MAX_COUPLED_LFOS)%Z -> (0 <= idx < count g)%Z ->
  sided b (F2R (coupling_sum g idx)) ->
  sided b (F2R (adjustment g idx)).
Proof.
  intros HK HKv HK1 Hc Hidx Hs. unfold MAX_COUPLED_LFOS in Hc.
  destruct (positive_coupling_nonneg _ HK HKv) as [HKn HKpos].
  destruct (coupling_sum_bound table_bounded g idx Hidx) as [HSv HSb];
    [unfold MAX_COUPLED_LFOS; lia|].
  assert (Hc1 : 1 <= IZR (count g - 1) <= 7).
  { split; apply IZR_le; lia. }
  assert (HKabs : Rabs (F2R (coupling g)) <= 1) by (rewrite Rabs_right; lra).
  assert (Hprod : Rabs (F2R (coupling g)) * Rabs (F2R (coupling_sum g idx)) <=
                  IZR (count g - 1)).
  { replace (IZR (count g - 1)) with (1 * IZR (count g - 1)) by ring.
    apply Rmult_le_compat; try apply Rabs_pos; assumption. }
  assert (Hb100 : 8 < bpow 100).
  { apply Rlt_le_trans with (bpow 4); [|apply bpow_le; lia].
    rewrite <- (bpow_IZR 4) by lia. cbn. lra. }
  destruct (SFmul_signed _ _ HKv HSv ltac:(lra)) as (Hmv & _ & Hmp & Hmn & Hmb).
  assert (Hmul : Rabs (F2R (coupling g * coupling_sum g idx)%f32) <= IZR (count g - 1)).
  { replace (IZR (count g - 1)) with (IZR (Zpos (Z.to_pos (count g - 1))) * bpow 0)
      by (rewrite bpow_0, Rmult_1_r, Z2Pos.id by lia; reflexivity).
    apply Hmb.
    - rewrite Z2Pos.id by lia. change (2 ^ prec)%Z with 16777216%Z. lia.
    - change (emin prec emax) with (-149)%Z. lia.
    - rewrite bpow_0, Rmult_1_r, Z2Pos.id by lia. rewrite Rabs_mult. exact Hprod. }
  destruct (of_Z_small (count g) ltac:(lia)) as [Hcn Hcv].
  assert (Hcpos : 2 <= IZR (count g) <= 8) by (split; apply IZR_le; lia).
  assert (Hquot : Rabs (F2R (coupling g * coupling_sum g idx)%f32) /
                  Rabs (F2R (F32.of_Z (count g))) < bpow 100).
  { rewrite Hcv, (Rabs_right (IZR (count g))) by lra.
    apply Rle_lt_trans with (7 / 1); [|lra].
    apply Rmult_le_compat; [apply Rabs_pos| |lra|].
    - apply Rlt_le, Rinv_0_lt_compat. lra.
    - apply Rinv_le_contravar; lra. }
  unfold adjustment.
  destruct (SFdiv_signed _ _ Hmv (nonneg_valid _ Hcn) ltac:(rewrite Hcv; lra) Hquot)
    as (_ & _ & Hdp & Hdn & _).
  rewrite Hcv in Hdp, Hdn.
  assert (Hinv : 0 < / IZR (count g)) by (apply Rinv_0_lt_compat; lra).
  unfold sided in *. destruct b.
  - apply Hdp. apply Rmult_le_pos; [|lra]. apply Hmp.
    apply Rmult_le_pos; lra.
  - apply Hdn. unfold Rdiv.
    rewrite <- (Rmult_0_l (/ IZR (count g))).
    apply Rmult_le_compat_r; [lra|]. apply Hmn.
    rewrite <- (Rmult_0_r (F2R (coupling g))).
    apply Rmult_le_compat_l; lra.
Qed.

(** X18: in a coupled group (0 < coupling <= 1, 2 <= count <= 8) whose
    active oscillators all stand at the phase of slot [idx], on a table
    whose sine of phase 0 is 0, the coupling adds nothing:
    [coupled_lfo_step] on slot [idx] is the standalone [lfo_step] on
    that oscillator. *)
Theorem locked_step_is_standalone
    (g : coupled_lfo_group) (idx : Z) (type : lfo_type) (l : lfo_state.t) :
  F2R (phase_sin 0) = 0 ->
  group_wf g ->
  F32.ltb F32.zero (coupling g) = true ->
  valid_finite (coupling g) -> F2R (coupling g) <= 1 ->
  (2 <= count g <= MAX_COUPLED_LFOS)%Z -> (0 <= idx < count g)%Z ->
  lfos g !! Z.to_nat idx = Some l ->
  is_u32 (lfo_state.idx l) ->
  (0 <= lfo_state.step l <= 2 ^ 31)%Z ->
  (forall j : Z, (0 <= j < count g)%Z -> phase_at g j = phase_at g idx) ->
  coupled_lfo_step idx type g = standalone_step g idx type.
Proof.
  intros Hz Hwf HK HKv HK1 Hc Hidx Hl Hu Hstep Hsame.
  destruct (adjustment_conversion table_bounded g idx (lfo_state.step l)
              HK HKv HK1 Hc Hidx Hstep) as (d & Ed & Hd & Hd0 & Hd1).
  assert (Hterm : forall (b : bool) (j : Z), (0 <= j < count g)%Z -> j <> idx ->
            sided b (F2R (phase_sin (wrap32 (phase_at g j - phase_at g idx))))).
  { intros b j Hj _. rewrite (Hsame j Hj), Z.sub_diag.
    change (wrap32 0) with 0%Z. rewrite Hz. unfold sided. destruct b; lra. }
  assert (H0 : (0 <= d)%Z).
  { apply Hd0. apply (adjustment_sign g idx true HK HKv HK1 Hc Hidx).
    apply (coupling_sum_sign g idx true); [lia|exact (Hterm true)]. }
  assert (H1 : (d <= 0)%Z).
  { apply Hd1. apply (adjustment_sign g idx false HK HKv HK1 Hc Hidx).
    apply (coupling_sum_sign g idx false); [lia|exact (Hterm false)]. }
  assert (E0 : d = 0%Z) by lia.
  rewrite (step_coupled g idx type l); try assumption.
  - rewrite Ed, E0, Z.add_0_r, (wrap32_small _ Hu). cbv zeta.
    unfold standalone_step. rewrite Hl. destruct l as [i st]. reflexivity.
  - unfold MAX_COUPLED_LFOS in *. lia.
  - unfold MAX_COUPLED_LFOS in *. lia.
  - rewrite HK. apply Z.ltb_lt. lia.
Qed.

Hypothesis table_signed : signed_table.

(** X17: the coupling pulls an oscillator towards the others. With
    0 < coupling <= 1, 2 <= count <= 8 and a table whose sine is not
    negative over the first half turn and not positive over the second,
    [coupled_lfo_step] moves the phase of slot [idx] by some [d] before
    [lfo_step]; when every other active oscillator is ahead by less
    than half a turn, [0 <= d <= step], and when every other one is
    behind by at most half a turn, [- step <= d <= 0]. *)
Theorem coupling_pulls_together
    (g : coupled_lfo_group) (idx : Z) (type : lfo_type) (l : lfo_state.t) :
  group_wf g ->
  F32.ltb F32.zero (coupling g) = true ->
  valid_finite (coupling g) -> F2R (coupling g) <= 1 ->
  (2 <= count g <= MAX_COUPLED_LFOS)%Z -> (0 <= idx < count g)%Z ->
  lfos g !! Z.to_nat idx = Some l ->
  (0 <= lfo_state.step l <= 2 ^ 31)%Z ->
  exists d : Z,
    coupled_lfo_step idx type g =
    (let l' := lfo_state.mk (wrap32 (lfo_state.idx l + d)) (lfo_state.step l) in
     Some (snd (lfo_step l' type), set_lfo g idx (fst (lfo_step l' type)))) /\
    (others_ahead g idx -> (0 <= d <= lfo_state.step l)%Z) /\
    (others_behind g idx -> (- lfo_state.step l <= d <= 0)%Z).
Proof.
  intros Hwf HK HKv HK1 Hc Hidx Hl Hstep.
  destruct (adjustment_conversion table_bounded g idx (lfo_state.step l)
              HK HKv HK1 Hc Hidx Hstep) as (d & Ed & Hd & Hd0 & Hd1).
  exists d. split; [|split].
  - rewrite (step_coupled g idx type l); try assumption.
    + rewrite Ed. reflexivity.
    + unfold MAX_COUPLED_LFOS in *. lia.
    + unfold MAX_COUPLED_LFOS in *. lia.
    + rewrite HK. apply Z.ltb_lt. lia.
  - intros Ha. split; [|lia]. apply Hd0.
    apply (adjustment_sign g idx true HK HKv HK1 Hc Hidx).
    apply (coupling_sum_sign g idx true); [lia|].
    intros j Hj Hne.
    unfold sided. apply (table_signed _ (wrap32_is_u32 _)). exact (Ha j Hj Hne).
  - intros Hb. split; [lia|]. apply Hd1.
    apply (adjustment_sign g idx false HK HKv HK1 Hc Hidx).
    apply (coupling_sum_sign g idx false); [lia|].
    intros j Hj Hne.
    unfold sided. apply (table_signed _ (wrap32_is_u32 _)). exact (Hb j Hj Hne).
Qed.

End Attraction.

End AttractionTheory.

(** ** The order parameter: range *)

Section OrderParameterTheory.

Local Open Scope R_scope.

Lemma valid_nonneg (z : float) : valid_finite z -> 0 <= F2R z -> nonneg_finite z.
Proof.
  destruct z as [s|s| |s m e]; cbn [valid_finite nonneg_finite]; try tauto.
  destruct s; [|tauto]. intros _ H. exfalso.
  pose proof (F2R_finite_pos m e) as Hpos.
  rewrite (F2R_sign true) in H. rewrite (F2R_sign false) in Hpos. lra.
Qed.

(** A float sum of values within [1/10000] of [tau]: the error grows
    by at most [1/10000 + 2^-18] a term. *)
Lemma float_sum_error (F : Z -> float) (tau : Z -> R) (js : list Z) :
  Forall (fun j => valid_finite (F j) /\ Rabs (F2R (F j)) <= 1 /\
                   Rabs (F2R (F j) - tau j) <= 1 / 10000) js ->
  forall (acc : float) (k : nat) (A err : R),
    valid_finite acc -> Rabs (F2R acc) <= INR k -> (k + length js <= 16)%nat ->
    Rabs (F2R acc - A) <= err ->
    let r := fold_left (fun acc j => (acc + F j)%f32) js acc in
    valid_finite r /\ Rabs (F2R r) <= INR (k + length js) /\
    Rabs (F2R r - (A + real_sum tau js)) <=
      err + INR (length js) * (1 / 10000 + bpow (-18)).
Proof.
  induction 1 as [|j js (Hv & Hb & Hacc) Hjs IH]; intros acc k A err Hav Hk Hlen Herr.
  - cbn [fold_left length real_sum fold_right INR]. rewrite Nat.add_0_r.
    split; [exact Hav|]. split; [exact Hk|]. rewrite Rplus_0_r, Rmult_0_l, Rplus_0_r.
    exact Herr.
  - cbn [fold_left length real_sum fold_right] in *. fold (real_sum tau js).
    assert (Hk16 : INR k <= 16).
    { apply Rle_trans with (INR 16); [apply le_INR; lia|]. cbn. lra. }
    assert (Hsum : Rabs (F2R acc) + Rabs (F2R (F j)) < bpow 100).
    { apply Rle_lt_trans with (16 + 1); [lra|].
      apply Rlt_le_trans with (bpow 5); [|apply bpow_le; lia].
      rewrite <- (bpow_IZR 5) by lia. cbn. lra. }
    destruct (SFadd_signed _ _ Hav Hv Hsum) as (Hrv & Hre & _ & _ & Hrb).
    assert (Htri : Rabs (F2R acc + F2R (F j)) <= INR k + 1).
    { eapply Rle_trans; [apply Rabs_triang|]. lra. }
    assert (Hbound : Rabs (F2R (acc + F j)%f32) <= INR (S k)).
    { rewrite S_INR, INR_IZR_INZ.
      replace (IZR (Z.of_nat k) + 1) with (IZR (Zpos (Pos.of_succ_nat k)) * bpow 0).
      2:{ rewrite bpow_0, Rmult_1_r, Zpos_P_of_succ_nat, succ_IZR. reflexivity. }
      apply Hrb.
      - rewrite Zpos_P_of_succ_nat. change (2 ^ prec)%Z with 16777216%Z. lia.
      - change (emin prec emax) with (-149)%Z. lia.
      - rewrite bpow_0, Rmult_1_r, Zpos_P_of_succ_nat, succ_IZR, <- INR_IZR_INZ.
        exact Htri. }
    assert (Hround : Rabs (F2R (acc + F j)%f32 - (F2R acc + F2R (F j))) <= bpow (-18)).
    { eapply Rle_trans; [exact Hre|].
      pose proof bpow_m149_small as Hsmall. rewrite bpow_m23 in *.
      pose proof (bpow_neg_inv 18 ltac:(lia)) as E19.
      change (- (18))%Z with (-18)%Z in E19. change (IZR (2 ^ 18)) with 262144 in E19.
      rewrite E19. lra. }
    assert (Herr' : Rabs (F2R (acc + F j)%f32 - (A + tau j)) <=
                    err + (1 / 10000 + bpow (-18))).
    { replace (F2R (acc + F j)%f32 - (A + tau j)) with
        ((F2R (acc + F j)%f32 - (F2R acc + F2R (F j))) + ((F2R acc - A) + (F2R (F j) - tau j)))
        by ring.
      eapply Rle_trans; [apply Rabs_triang|].
      eapply Rle_trans; [apply Rplus_le_compat_l, Rabs_triang|]. lra. }
    destruct (IH _ (S k) (A + tau j) _ Hrv Hbound ltac:(lia) Herr') as (H1 & H2 & H3).
    split; [exact H1|]. split.
    + replace (k + S (length js))%nat with (S k + length js)%nat by lia. exact H2.
    + replace (A + (tau j + real_sum tau js)) with (A + tau j + real_sum tau js) by ring.
      eapply Rle_trans; [exact H3|]. rewrite S_INR. lra.
Qed.

(** The sum of unit vectors is no longer than their number. *)
Lemma unit_vector_step (C S c s n : R) :
  0 <= n -> C * C + S * S <= n * n -> c * c + s * s = 1 ->
  (C + c) * (C + c) + (S + s) * (S + s) <= (n + 1) * (n + 1).
Proof.
  intros Hn HCS Hcs.
  assert (Hdot : C * c + S * s <= n).
  { destruct (Rle_dec (C * c + S * s) n) as [|Hgt]; [assumption|exfalso].
    assert (Hlt : n < C * c + S * s) by lra.
    assert (Hsq : n * n < (C * c + S * s) * (C * c + S * s)).
    { apply Rle_lt_trans with (n * (C * c + S * s)).
      - apply Rmult_le_compat_l; lra.
      - apply Rmult_lt_compat_r; lra. }
    assert (Hid : (C * c + S * s) * (C * c + S * s) + (C * s - S * c) * (C * s - S * c) =
                  (C * C + S * S) * (c * c + s * s)) by ring.
    pose proof (Rle_0_sqr (C * s - S * c)) as Hpos. unfold Rsqr in Hpos.
    rewrite Hcs, Rmult_1_r in Hid. lra. }
  replace ((C + c) * (C + c) + (S + s) * (S + s)) with
    ((C * C + S * S) + 2 * (C * c + S * s) + (c * c + s * s)) by ring.
  replace ((n + 1) * (n + 1)) with (n * n + 2 * n + 1) by ring. lra.
Qed.

Lemma unit_vector_sum (angle : Z -> R) (js : list Z) :
  let C := real_sum (fun j => cos (angle j)) js in
  let S := real_sum (fun j => sin (angle j)) js in
  C * C + S * S <= INR (length js) * INR (length js).
Proof.
  induction js as [|j js IH]; cbn [real_sum fold_right length] in *.
  - cbn [INR]. lra.
  - fold (real_sum (fun j => cos (angle j)) js) in *.
    fold (real_sum (fun j => sin (angle j)) js) in *.
    rewrite S_INR.
    set (C := real_sum (fun j => cos (angle j)) js) in *.
    set (S := real_sum (fun j => sin (angle j)) js) in *.
    pose proof (unit_vector_step C S (cos (angle j)) (sin (angle j)) (INR (length js))
                  (pos_INR _) IH) as Hstep.
    assert (Hone : cos (angle j) * cos (angle j) + sin (angle j) * sin (angle j) = 1).
    { pose proof (sin2_cos2 (angle j)) as H. unfold Rsqr in H. lra. }
    specialize (Hstep Hone). lra.
Qed.

Section OrderRange.

Context `{T : sine_table}.

(** One component of the mean vector: the float sum divided by the
    count. *)
Lemma mean_component (sum : float) (n : Z) (A : R) :
  (1 <= n <= 8)%Z ->
  valid_finite sum -> Rabs (F2R sum) <= IZR n ->
  Rabs (F2R sum - A) <= IZR n * (1 / 10000 + bpow (-18)) ->
  let a := (sum / F32.of_Z n)%f32 in
  valid_finite a /\ Rabs (F2R a) <= 1 /\
  Rabs (F2R a - A / IZR n) <= 105 / 1000000.
Proof.
  intros Hn Hv Hb Herr a.
  destruct (of_Z_small n Hn) as [Hnn Hnv].
  assert (Hnr : 1 <= IZR n <= 8) by (split; apply IZR_le; lia).
  assert (Hb100 : 8 < bpow 100).
  { apply Rlt_le_trans with (bpow 4); [|apply bpow_le; lia].
    rewrite <- (bpow_IZR 4) by lia. cbn. lra. }
  assert (Hquot : Rabs (F2R sum) / Rabs (F2R (F32.of_Z n)) <= 1).
  { rewrite Hnv, (Rabs_right (IZR n)) by lra.
    apply Rmult_le_reg_r with (IZR n); [lra|].
    unfold Rdiv. rewrite Rmult_assoc, Rinv_l by lra. lra. }
  destruct (SFdiv_signed sum (F32.of_Z n) Hv (nonneg_valid _ Hnn)
              ltac:(rewrite Hnv; lra) ltac:(lra)) as (Hav & Hae & _ & _ & Hab).
  fold a in Hav, Hae, Hab. rewrite Hnv in Hae, Hab.
  assert (Hq1 : Rabs (F2R sum / IZR n) <= 1).
  { rewrite Rabs_quot by lra. rewrite (Rabs_right (IZR n)) by lra.
    rewrite Hnv, (Rabs_right (IZR n)) in Hquot by lra. exact Hquot. }
  split; [exact Hav|]. split.
  - rewrite one_float. apply Hab; [reflexivity|change (emin prec emax) with (-149)%Z; lia|].
    rewrite <- one_float. exact Hq1.
  - pose proof bpow_m149_small as Hsmall. rewrite bpow_m23 in *.
    pose proof (bpow_neg_inv 18 ltac:(lia)) as E18.
    change (- (18))%Z with (-18)%Z in E18. change (IZR (2 ^ 18)) with 262144 in E18.
    rewrite E18 in Herr.
    assert (Hdiv : Rabs (F2R sum / IZR n - A / IZR n) <= 1 / 10000 + / 262144).
    { replace (F2R sum / IZR n - A / IZR n) with ((F2R sum - A) / IZR n) by (field; lra).
      rewrite Rabs_quot by lra. rewrite (Rabs_right (IZR n)) by lra.
      apply Rmult_le_reg_r with (IZR n); [lra|].
      unfold Rdiv. rewrite Rmult_assoc, Rinv_l by lra. lra. }
    replace (F2R a - A / IZR n) with
      ((F2R a - F2R sum / IZR n) + (F2R sum / IZR n - A / IZR n)) by ring.
    eapply Rle_trans; [apply Rabs_triang|].
    assert (Rabs (F2R sum / IZR n) * / 8388608 <= 1 * / 8388608)
      by (apply Rmult_le_compat_r; lra).
    lra.
Qed.

(** The sum of the two squares as computed: within a factor
    [(1 +- 2^-23)^2] and [2^-147] of the exact sum of squares. *)
Lemma squares_sum (a b : float) :
  valid_finite a -> Rabs (F2R a) <= 1 ->
  valid_finite b -> Rabs (F2R b) <= 1 ->
  let X := F2R (a * a + b * b)%f32 in
  let Y := F2R a * F2R a + F2R b * F2R b in
  nonneg_finite (a * a + b * b)%f32 /\
  Y * ((1 - bpow (-23)) * (1 - bpow (-23))) - bpow (-147) <= X <=
  Y * ((1 + bpow (-23)) * (1 + bpow (-23))) + bpow (-147).
Proof.
  intros Hav Hab Hbv Hbb X Y.
  assert (Hsq : forall c : float, Rabs (F2R c) <= 1 ->
                  0 <= F2R c * F2R c <= 1 /\ Rabs (F2R c) * Rabs (F2R c) <= 1).
  { intros c Hc.
    assert (E : F2R c * F2R c = Rabs (F2R c) * Rabs (F2R c))
      by (unfold Rabs; destruct (Rcase_abs (F2R c)); ring).
    assert (Rabs (F2R c) * Rabs (F2R c) <= 1).
    { replace 1 with (1 * 1) by ring.
      apply Rmult_le_compat; try apply Rabs_pos; assumption. }
    pose proof (Rle_0_sqr (F2R c)) as H0. unfold Rsqr in H0. lra. }
  destruct (Hsq a Hab) as [Ha2 Ha2']. destruct (Hsq b Hbb) as [Hb2 Hb2'].
  assert (Hb100 : 4 < bpow 100).
  { apply Rlt_le_trans with (bpow 3); [|apply bpow_le; lia].
    rewrite <- (bpow_IZR 3) by lia. cbn. lra. }
  destruct (SFmul_signed a a Hav Hav ltac:(lra)) as (Hsav & Hsae & Hsap & _ & Hsab).
  destruct (SFmul_signed b b Hbv Hbv ltac:(lra)) as (Hsbv & Hsbe & Hsbp & _ & Hsbb).
  specialize (Hsap ltac:(lra)). specialize (Hsbp ltac:(lra)).
  rewrite (Rabs_right (F2R a * F2R a)) in Hsae, Hsab by lra.
  rewrite (Rabs_right (F2R b * F2R b)) in Hsbe, Hsbb by lra.
  assert (Hsa1 : F2R (a * a)%f32 <= 1).
  { rewrite <- (Rabs_right (F2R (a * a)%f32)) by lra. rewrite one_float.
    apply Hsab; [reflexivity|change (emin prec emax) with (-149)%Z; lia|].
    rewrite <- one_float. lra. }
  assert (Hsb1 : F2R (b * b)%f32 <= 1).
  { rewrite <- (Rabs_right (F2R (b * b)%f32)) by lra. rewrite one_float.
    apply Hsbb; [reflexivity|change (emin prec emax) with (-149)%Z; lia|].
    rewrite <- one_float. lra. }
  destruct (SFadd_signed (a * a)%f32 (b * b)%f32 Hsav Hsbv) as (HXv & HXe & HXp & _ & _).
  { rewrite !Rabs_right by lra. lra. }
  specialize (HXp ltac:(lra)).
  rewrite (Rabs_right (F2R (a * a)%f32 + F2R (b * b)%f32)) in HXe by lra.
  split; [exact (valid_nonneg _ HXv HXp)|].
  fold X in HXe, HXp. unfold Y.
  apply Rabs_le_inv in Hsae, Hsbe, HXe.
  assert (E147 : bpow (-147) = 4 * bpow (-149)).
  { replace (-147)%Z with (2 + -149)%Z by lia. rewrite bpow_add, bpow_2. ring. }
  pose proof (bpow_pos (-149)) as Heta.
  rewrite E147. rewrite bpow_m23 in *.
  set (P := F2R a * F2R a) in *. set (Q := F2R b * F2R b) in *.
  set (sa := F2R (a * a)%f32) in *. set (sb := F2R (b * b)%f32) in *.
  set (eta := bpow (-149)) in *.
  split.
  - replace ((P + Q) * ((1 - / 8388608) * (1 - / 8388608))) with
      ((P * (1 - / 8388608) + Q * (1 - / 8388608)) * (1 - / 8388608)) by ring.
    assert (H1 : (P * (1 - / 8388608) + Q * (1 - / 8388608)) * (1 - / 8388608) <=
                 (sa + sb + 2 * eta) * (1 - / 8388608)).
    { apply Rmult_le_compat_r; lra. }
    lra.
  - replace ((P + Q) * ((1 + / 8388608) * (1 + / 8388608))) with
      ((P * (1 + / 8388608) + Q * (1 + / 8388608)) * (1 + / 8388608)) by ring.
    assert (H1 : (sa + sb - 2 * eta) * (1 + / 8388608) <=
                 (P * (1 + / 8388608) + Q * (1 + / 8388608)) * (1 + / 8388608)).
    { apply Rmult_le_compat_r; lra. }
    lra.
Qed.

Lemma real_sum_bound (tau : Z -> R) (js : list Z) :
  (forall j, Rabs (tau j) <= 1) -> Rabs (real_sum tau js) <= INR (length js).
Proof.
  intros Ht. induction js as [|j js IH]; cbn [real_sum fold_right length].
  - cbn [INR]. rewrite Rabs_R0. lra.
  - fold (real_sum tau js). rewrite S_INR.
    eapply Rle_trans; [apply Rabs_triang|]. specialize (Ht j). lra.
Qed.

(** The two components of the mean vector as the code computes them,
    against the exact means. *)
Lemma mean_vector_parts (g : coupled_lfo_group) :
  accurate_table ->
  (1 <= count g <= MAX_COUPLED_LFOS)%Z ->
  (forall i : Z, (0 <= i < count g)%Z -> is_u32 (phase_at g i)) ->
  let a := (cos_sum g / F32.of_Z (count g))%f32 in
  let b := (sin_sum g / F32.of_Z (count g))%f32 in
  (valid_finite a /\ Rabs (F2R a) <= 1 /\ Rabs (F2R a - mean_cos g) <= 105 / 1000000) /\
  (valid_finite b /\ Rabs (F2R b) <= 1 /\ Rabs (F2R b - mean_sin g) <= 105 / 1000000) /\
  mean_cos g * mean_cos g + mean_sin g * mean_sin g <= 1.
Proof.
  intros Htab Hc Hph. unfold MAX_COUPLED_LFOS in Hc.
  unfold cos_sum, sin_sum, mean_cos, mean_sin.
  set (js := seqZ 0 (count g)).
  assert (Hlen : length js = Z.to_nat (count g)) by apply length_seqZ.
  assert (Hjs : Forall (fun j => (0 <= j < count g)%Z) js).
  { apply Forall_seqZ. intros j Hj. lia. }
  set (angle := fun j : Z => phase_angle (phase_at g j)).
  assert (HFc : Forall (fun j => valid_finite (phase_cos (phase_at g j)) /\
                          Rabs (F2R (phase_cos (phase_at g j))) <= 1 /\
                          Rabs (F2R (phase_cos (phase_at g j)) - cos (angle j)) <= 1 / 10000) js).
  { eapply Forall_impl; [exact Hjs|]. intros j Hj. cbv beta.
    exact (proj2 (Htab _ (Hph j Hj))). }
  assert (HFs : Forall (fun j => valid_finite (phase_sin (phase_at g j)) /\
                          Rabs (F2R (phase_sin (phase_at g j))) <= 1 /\
                          Rabs (F2R (phase_sin (phase_at g j)) - sin (angle j)) <= 1 / 10000) js).
  { eapply Forall_impl; [exact Hjs|]. intros j Hj. cbv beta.
    exact (proj1 (Htab _ (Hph j Hj))). }
  assert (Hz : Rabs (F2R F32.zero - 0) <= 0).
  { unfold F32.zero. cbn [F2R]. rewrite Rminus_0_r, Rabs_R0. lra. }
  assert (Hz' : Rabs (F2R F32.zero) <= INR 0).
  { unfold F32.zero. cbn [F2R INR]. rewrite Rabs_R0. lra. }
  destruct (float_sum_error (fun j => phase_cos (phase_at g j)) (fun j => cos (angle j))
              js HFc F32.zero 0%nat 0 0 I Hz' ltac:(rewrite Hlen; lia) Hz)
    as (Hcv & Hcb & Hce).
  destruct (float_sum_error (fun j => phase_sin (phase_at g j)) (fun j => sin (angle j))
              js HFs F32.zero 0%nat 0 0 I Hz' ltac:(rewrite Hlen; lia) Hz)
    as (Hsv & Hsb & Hse).
  cbv zeta beta in Hcv, Hcb, Hce, Hsv, Hsb, Hse.
  set (cs := fold_left (fun acc j => (acc + phase_cos (phase_at g j))%f32) js F32.zero) in *.
  set (sn := fold_left (fun acc j => (acc + phase_sin (phase_at g j))%f32) js F32.zero) in *.
  fold angle.
  set (C := real_sum (fun j => cos (angle j)) js) in *.
  set (S := real_sum (fun j => sin (angle j)) js) in *.
  assert (En : INR (length js) = IZR (count g)).
  { rewrite Hlen, INR_IZR_INZ, Z2Nat.id by lia. reflexivity. }
  rewrite Nat.add_0_l, En in Hcb, Hsb. rewrite Rplus_0_l, En in Hce, Hse.
  rewrite Rplus_0_l in Hce, Hse.
  pose proof (unit_vector_sum angle js) as Hunit. cbv zeta in Hunit.
  fold C S in Hunit. rewrite En in Hunit.
  assert (Hnr : 1 <= IZR (count g) <= 8) by (split; apply IZR_le; lia).
  split; [exact (mean_component cs (count g) C ltac:(lia) Hcv Hcb Hce)|].
  split; [exact (mean_component sn (count g) S ltac:(lia) Hsv Hsb Hse)|].
  assert (HAB : C / IZR (count g) * (C / IZR (count g)) +
                S / IZR (count g) * (S / IZR (count g)) <= 1).
  { replace (C / IZR (count g) * (C / IZR (count g)) + S / IZR (count g) * (S / IZR (count g)))
      with ((C * C + S * S) / (IZR (count g) * IZR (count g))) by (field; lra).
    assert (Hnn : 0 < IZR (count g) * IZR (count g)) by (apply Rmult_lt_0_compat; lra).
    apply Rmult_le_reg_r with (IZR (count g) * IZR (count g)); [exact Hnn|].
    unfold Rdiv. rewrite Rmult_assoc, Rinv_l by lra. lra. }
  exact HAB.
Qed.

Lemma order_parameter_value (g : coupled_lfo_group) :
  group_wf g -> (1 <= count g <= MAX_COUPLED_LFOS)%Z ->
  coupled_lfo_order_parameter g = Some (mean_vector_magnitude g, g).
Proof.
  intros Hwf Hc. rewrite (order_parameter_eq g Hwf) by lia.
  replace (count g =? 0)%Z with false by (symmetry; apply Z.eqb_neq; lia).
  reflexivity.
Qed.

(** X10: on an accurate table, for 1 <= count <= 8 and 32-bit phases,
    the order parameter is a finite float between 0 and 1.0005. *)
Theorem order_parameter_range (g : coupled_lfo_group) :
  accurate_table -> group_wf g ->
  (1 <= count g <= MAX_COUPLED_LFOS)%Z ->
  (forall i : Z, (0 <= i < count g)%Z -> is_u32 (phase_at g i)) ->
  exists r : float,
    coupled_lfo_order_parameter g = Some (r, g) /\
    F32.is_finite r = true /\ 0 <= F2R r <= 10005 / 10000.
Proof.
  intros Htab Hwf Hc Hph.
  exists (mean_vector_magnitude g).
  split; [exact (order_parameter_value g Hwf Hc)|].
  destruct (mean_vector_parts g Htab Hc Hph) as ((Hav & Hab & Hae) & (Hbv & Hbb & Hbe) & HAB).
  cbv zeta in Hav, Hab, Hae, Hbv, Hbb, Hbe.
  unfold mean_vector_magnitude.
  set (a := (cos_sum g / F32.of_Z (count g))%f32) in *.
  set (b := (sin_sum g / F32.of_Z (count g))%f32) in *.
  set (A := mean_cos g) in *. set (B := mean_sin g) in *.
  destruct (squares_sum a b Hav Hab Hbv Hbb) as (HXn & _ & HXup).
  cbv zeta in HXup.
  assert (Hsqa : F2R a * F2R a <= A * A + 22 / 100000 /\ F2R a * F2R a <= 1).
  { assert (HA1 : Rabs A <= 1).
    { apply Rabs_le.
      assert (0 <= B * B) by (pose proof (Rle_0_sqr B); unfold Rsqr in *; lra).
      split; nra. }
    assert (E : F2R a * F2R a = Rabs (F2R a) * Rabs (F2R a))
      by (unfold Rabs; destruct (Rcase_abs (F2R a)); ring).
    assert (Hle : Rabs (F2R a) <= Rabs A + 105 / 1000000).
    { revert Hae. unfold Rabs.
      destruct (Rcase_abs (F2R a - A)), (Rcase_abs (F2R a)), (Rcase_abs A); lra. }
    assert (Hsq : F2R a * F2R a <= (Rabs A + 105 / 1000000) * (Rabs A + 105 / 1000000)).
    { rewrite E. apply Rmult_le_compat; try apply Rabs_pos; assumption. }
    assert (EA : Rabs A * Rabs A = A * A) by (unfold Rabs; destruct (Rcase_abs A); ring).
    replace ((Rabs A + 105 / 1000000) * (Rabs A + 105 / 1000000)) with
      (A * A + 2 * (105 / 1000000) * Rabs A + (105 / 1000000) * (105 / 1000000)) in Hsq
      by (rewrite <- EA; ring).
    split; [lra|]. rewrite E. replace 1 with (1 * 1) by ring.
    apply Rmult_le_compat; try apply Rabs_pos; assumption. }
  assert (Hsqb : F2R b * F2R b <= B * B + 22 / 100000 /\ F2R b * F2R b <= 1).
  { assert (HB1 : Rabs B <= 1).
    { apply Rabs_le.
      assert (0 <= A * A) by (pose proof (Rle_0_sqr A); unfold Rsqr in *; lra).
      split; nra. }
    assert (E : F2R b * F2R b = Rabs (F2R b) * Rabs (F2R b))
      by (unfold Rabs; destruct (Rcase_abs (F2R b)); ring).
    assert (Hle : Rabs (F2R b) <= Rabs B + 105 / 1000000).
    { revert Hbe. unfold Rabs.
      destruct (Rcase_abs (F2R b - B)), (Rcase_abs (F2R b)), (Rcase_abs B); lra. }
    assert (Hsq : F2R b * F2R b <= (Rabs B + 105 / 1000000) * (Rabs B + 105 / 1000000)).
    { rewrite E. apply Rmult_le_compat; try apply Rabs_pos; assumption. }
    assert (EB : Rabs B * Rabs B = B * B) by (unfold Rabs; destruct (Rcase_abs B); ring).
    replace ((Rabs B + 105 / 1000000) * (Rabs B + 105 / 1000000)) with
      (B * B + 2 * (105 / 1000000) * Rabs B + (105 / 1000000) * (105 / 1000000)) in Hsq
      by (rewrite <- EB; ring).
    split; [lra|]. rewrite E. replace 1 with (1 * 1) by ring.
    apply Rmult_le_compat; try apply Rabs_pos; assumption. }
  set (X := F2R (a * a + b * b)%f32) in *.
  assert (HX : X <= 10006 / 10000).
  { assert (E147 : bpow (-147) <= bpow (-23)) by (apply bpow_le; lia).
    rewrite bpow_m23 in *.
    set (Y := F2R a * F2R a + F2R b * F2R b) in *.
    assert (HY : 0 <= Y <= 10005 / 10000).
    { unfold Y. pose proof (Rle_0_sqr (F2R a)). pose proof (Rle_0_sqr (F2R b)).
      unfold Rsqr in *. lra. }
    replace (Y * ((1 + / 8388608) * (1 + / 8388608))) with
      (Y + Y * (2 * / 8388608 + / 8388608 * / 8388608)) in HXup by ring.
    assert (Y * (2 * / 8388608 + / 8388608 * / 8388608) <=
            2 * (2 * / 8388608 + / 8388608 * / 8388608)).
    { apply Rmult_le_compat_r; lra. }
    lra. }
  pose proof (nonneg_finite_F2R _ HXn) as HX0. fold X in HX0.
  assert (Hb100 : 4 < bpow 100).
  { apply Rlt_le_trans with (bpow 3); [|apply bpow_le; lia].
    rewrite <- (bpow_IZR 3) by lia. cbn. lra. }
  destruct (SFsqrt_rounds_to (a * a + b * b)%f32 HXn ltac:(fold X; lra)) as (Hrn & _ & _ & Hrb).
  fold X in Hrb.
  split; [exact (valid_is_finite _ (nonneg_valid _ Hrn))|].
  split; [exact (nonneg_finite_F2R _ Hrn)|].
  pose proof (bpow_neg_inv 11 ltac:(lia)) as E11.
  change (- (11))%Z with (-11)%Z in E11. change (IZR (2 ^ 11)) with 2048 in E11.
  apply Rle_trans with (IZR (Zpos 2049) * bpow (-11)); [|rewrite E11; lra].
  apply Hrb; [reflexivity|change (emin prec emax) with (-149)%Z; lia|].
  rewrite E11. rewrite <- (sqrt_square (2049 * / 2048)) by lra.
  apply sqrt_le_1_alt. lra.
Qed.

End OrderRange.

End OrderParameterTheory.

(** ** How far phase_sin is from odd; the adjustments of a group *)

Section CancellationTheory.

Lemma wrap32_opp (p q : Z) : wrap32 (q - p) = wrap32 (0 - wrap32 (p - q)).
Proof.
  unfold wrap32, TWO_POW_32. change (2 ^ 32) with 4294967296.
  Z.div_mod_to_equations. lia.
Qed.

Local Open Scope R_scope.

(** The exact interpolation on the float entries, one position
    apart. *)
Lemma adjacent_positions (x : Z) :
  is_u32 x -> is_u32 (x + 1) ->
  Rabs (F2R (@quarter_interp Ref.table (x + 1)) - F2R (@quarter_interp Ref.table x))
    <= 21 * bpow (-23).
Proof.
  intros Hx Hx1.
  rewrite (quarter_interp_ref x Hx), (quarter_interp_ref (x + 1) Hx1).
  destruct (position_split x Hx) as (_ & _ & Hi & Ht).
  destruct (position_split (x + 1) Hx1) as (_ & _ & Hi1 & Ht1).
  set (k := Z.to_nat (x / 2 ^ 24)). set (t := (x mod 2 ^ 24)%Z) in *.
  assert (Hk : (k < 256)%nat) by (unfold k; lia).
  assert (Hsplit : x = (Z.of_nat k * 2 ^ 24 + t)%Z).
  { unfold k, t. rewrite Z2Nat.id by lia. rewrite Z.mul_comm. apply Z.div_mod. lia. }
  destruct (table_entry_error k ltac:(lia)) as (Ha & Ha1 & _).
  destruct (table_entry_error (S k) ltac:(lia)) as (Hb & Hb1 & _).
  pose proof (table_entry_le k Hk) as Hab.
  pose proof (nonneg_finite_F2R _ Ha) as HA0.
  destruct (interp_error _ _ t Ha Hb Hab Hb1 Ht) as (_ & Hve).
  rewrite bpow_m24 in Hve. rewrite bpow_m23 in Hve |- *.
  apply Rabs_le_inv in Hve.
  set (A := F2R (table_entry k)) in *. set (B := F2R (table_entry (S k))) in *.
  assert (Htr : 0 <= IZR t <= 16777215).
  { change (2 ^ 24)%Z with 16777216%Z in Ht. split; apply IZR_le; lia. }
  destruct (Z.eq_dec t (2 ^ 24 - 1)%Z) as [Elast|Hin].
  - (* across a node *)
    assert (Hk1 : (S k < 256)%nat).
    { unfold is_u32, TWO_POW_32 in Hx1. change (2 ^ 32)%Z with (256 * 2 ^ 24)%Z in Hx1.
      change (2 ^ 24)%Z with 16777216%Z in *. lia. }
    assert (Ediv : Z.to_nat ((x + 1) / 2 ^ 24) = S k).
    { rewrite Hsplit, Elast.
      replace (Z.of_nat k * 2 ^ 24 + (2 ^ 24 - 1) + 1)%Z with ((Z.of_nat k + 1) * 2 ^ 24)%Z by lia.
      rewrite Z.div_mul by lia. lia. }
    assert (Emod : ((x + 1) mod 2 ^ 24 = 0)%Z).
    { rewrite Hsplit, Elast.
      replace (Z.of_nat k * 2 ^ 24 + (2 ^ 24 - 1) + 1)%Z with ((Z.of_nat k + 1) * 2 ^ 24)%Z by lia.
      apply Z.mod_mul. lia. }
    rewrite Ediv, Emod.
    destruct (table_entry_error (S (S k)) ltac:(lia)) as (Hc & Hc1 & _).
    pose proof (table_entry_le (S k) Hk1) as Hbc.
    destruct (interp_error _ _ 0%Z Hb Hc Hbc Hc1 ltac:(lia)) as (_ & Hve1).
    rewrite bpow_m23 in Hve1. apply Rabs_le_inv in Hve1.
    rewrite Rmult_0_l, Rmult_0_r, Rplus_0_r in Hve1. fold B in Hve1.
    assert (Et : IZR t = 16777215) by (rewrite Elast; reflexivity).
    rewrite Et in Hve.
    replace ((B - A) * (16777215 * / 16777216))
      with ((B - A) - (B - A) * / 16777216) in Hve by field.
    assert (Hd : 0 <= (B - A) * / 16777216 <= / 16777216).
    { split; [apply Rmult_le_pos; lra|].
      rewrite <- (Rmult_1_l (/ 16777216)) at 2. apply Rmult_le_compat_r; lra. }
    apply Rabs_le. split; lra.
  - (* within a segment *)
    assert (Ediv : Z.to_nat ((x + 1) / 2 ^ 24) = k).
    { rewrite Hsplit. replace (Z.of_nat k * 2 ^ 24 + t + 1)%Z with (t + 1 + Z.of_nat k * 2 ^ 24)%Z by lia.
      rewrite Z.div_add by lia. rewrite Z.div_small by lia. lia. }
    assert (Emod : ((x + 1) mod 2 ^ 24 = t + 1)%Z).
    { rewrite Hsplit. replace (Z.of_nat k * 2 ^ 24 + t + 1)%Z with (t + 1 + Z.of_nat k * 2 ^ 24)%Z by lia.
      rewrite Z.mod_add by lia. apply Z.mod_small. lia. }
    rewrite Ediv, Emod.
    destruct (interp_error _ _ (t + 1)%Z Ha Hb Hab Hb1 ltac:(lia)) as (_ & Hve1).
    rewrite bpow_m24 in Hve1. rewrite bpow_m23 in Hve1. apply Rabs_le_inv in Hve1.
    fold A B in Hve1. rewrite plus_IZR in Hve1.
    replace ((B - A) * ((IZR t + 1) * / 16777216))
      with ((B - A) * (IZR t * / 16777216) + (B - A) * / 16777216) in Hve1 by ring.
    assert (Hd : 0 <= (B - A) * / 16777216 <= / 16777216).
    { split; [apply Rmult_le_pos; lra|].
      rewrite <- (Rmult_1_l (/ 16777216)) at 2. apply Rmult_le_compat_r; lra. }
    apply Rabs_le. split; lra.
Qed.

Local Open Scope R_scope.

Lemma real_sum_app (tau : Z -> R) (a b : list Z) :
  real_sum tau (a ++ b) = real_sum tau a + real_sum tau b.
Proof.
  induction a as [|x a IH]; cbn [app real_sum fold_right].
  - fold (real_sum tau b). lra.
  - fold (real_sum tau (a ++ b)). fold (real_sum tau a). rewrite IH. lra.
Qed.

Lemma real_sum_plus (f h : Z -> R) (js : list Z) :
  real_sum (fun j => f j + h j) js = real_sum f js + real_sum h js.
Proof.
  induction js as [|x js IH]; cbn [real_sum fold_right].
  - lra.
  - fold (real_sum (fun j => f j + h j) js). fold (real_sum f js). fold (real_sum h js).
    rewrite IH. lra.
Qed.

Lemma real_sum_scal (c : R) (f : Z -> R) (js : list Z) :
  real_sum (fun j => c * f j) js = c * real_sum f js.
Proof.
  induction js as [|x js IH]; cbn [real_sum fold_right].
  - lra.
  - fold (real_sum (fun j => c * f j) js). fold (real_sum f js). rewrite IH. lra.
Qed.

Lemma real_sum_each (f : Z -> R) (c : R) (js : list Z) :
  (forall j, In j js -> Rabs (f j) <= c) ->
  Rabs (real_sum f js) <= INR (length js) * c.
Proof.
  induction js as [|x js IH]; intros Hf; cbn [real_sum fold_right length].
  - cbn [INR]. rewrite Rabs_R0. lra.
  - fold (real_sum f js). rewrite S_INR.
    eapply Rle_trans; [apply Rabs_triang|].
    pose proof (Hf x (or_introl eq_refl)).
    pose proof (IH (fun j Hj => Hf j (or_intror Hj))). lra.
Qed.

Lemma real_sum_near (f h : Z -> R) (c : R) (js : list Z) :
  (forall j, In j js -> Rabs (f j - h j) <= c) ->
  Rabs (real_sum f js - real_sum h js) <= INR (length js) * c.
Proof.
  intros Hf.
  replace (real_sum f js - real_sum h js) with (real_sum (fun j => f j + (-1) * h j) js).
  - apply real_sum_each. intros j Hj.
    replace (f j + -1 * h j) with (f j - h j) by ring. exact (Hf j Hj).
  - rewrite real_sum_plus, real_sum_scal. ring.
Qed.

Lemma seqZ_snoc (n : nat) :
  seqZ 0 (Z.of_nat (S n)) = seqZ 0 (Z.of_nat n) ++ [Z.of_nat n].
Proof.
  rewrite Nat2Z.inj_succ. unfold Z.succ. rewrite seqZ_app by lia. reflexivity.
Qed.

Lemma real_sum_single (f : Z -> R) (a : Z) : real_sum f [a] = f a.
Proof. cbn [real_sum fold_right]. lra. Qed.

Lemma real_sum_rows (y : Z -> Z -> R) (js : list Z) (N : Z) (l : list Z) :
  real_sum (fun i => real_sum (y i) (js ++ [N])) l =
  real_sum (fun i => real_sum (y i) js) l + real_sum (fun i => y i N) l.
Proof.
  induction l as [|x l IHl]; cbn [real_sum fold_right]; [lra|].
  fold (real_sum (fun i => real_sum (y i) (js ++ [N])) l).
  fold (real_sum (fun i => real_sum (y i) js) l).
  fold (real_sum (fun i => y i N) l).
  rewrite IHl, real_sum_app, real_sum_single. lra.
Qed.

(** A double sum of terms that cancel in pairs up to [dlt]. *)
Lemma pair_double_sum (y : Z -> Z -> R) (dlt : R) :
  (forall i, y i i = 0) -> (forall i j, Rabs (y i j + y j i) <= dlt) ->
  forall n : nat,
    Rabs (real_sum (fun i => real_sum (y i) (seqZ 0 (Z.of_nat n))) (seqZ 0 (Z.of_nat n)))
      <= INR n * (INR n - 1) / 2 * dlt.
Proof.
  intros Hdiag Hpair. induction n as [|n IH].
  - change (seqZ 0 (Z.of_nat 0)) with (@nil Z). cbn [real_sum fold_right INR].
    rewrite Rabs_R0. lra.
  - rewrite (seqZ_snoc n). set (js := seqZ 0 (Z.of_nat n)) in *.
    set (N := Z.of_nat n) in *.
    rewrite real_sum_app, real_sum_single. cbv beta.
    rewrite (real_sum_app (y N)), real_sum_single, Hdiag, Rplus_0_r.
    rewrite real_sum_rows.
    replace (real_sum (fun i => real_sum (y i) js) js + real_sum (fun i => y i N) js +
             real_sum (y N) js)
      with (real_sum (fun i => real_sum (y i) js) js +
            real_sum (fun i => y i N + y N i) js)
      by (rewrite real_sum_plus; ring).
    eapply Rle_trans; [apply Rabs_triang|].
    pose proof (real_sum_each (fun i => y i N + y N i) dlt js
                  (fun j _ => Hpair j N)) as Hrow.
    assert (Hlen : length js = n) by (unfold js, N; rewrite length_seqZ; lia).
    rewrite Hlen in Hrow.
    rewrite S_INR. nra.
Qed.

Section Cancellation.

Context `{T : sine_table}.

Variable dlt : R.

Hypothesis table_smooth : smooth_table dlt.

Lemma smooth_table_bounded : bounded_table.
Proof. exact (proj1 table_smooth). Qed.

Lemma smooth_table_nonneg : 0 <= dlt.
Proof.
  destruct table_smooth as (_ & _ & Hadj).
  eapply Rle_trans; [apply Rabs_pos|].
  apply (Hadj 0%Z); unfold is_u32, TWO_POW_32; lia.
Qed.

Local Open Scope Z_scope.

(** [phase_sin] of a difference and of the opposite difference cancel
    up to [dlt]: the two interpolate one position apart, and exactly at
    the same position for a multiple of a quarter turn. *)
Lemma phase_sin_nearly_odd (p q : Z) :
  (Rabs (F2R (phase_sin (wrap32 (p - q))) +
         F2R (phase_sin (wrap32 (q - p)))) <= dlt)%R.
Proof.
  destruct table_smooth as (_ & Hzero & Hadj).
  pose proof smooth_table_nonneg as Hdlt.
  rewrite (wrap32_opp p q).
  pose proof (wrap32_is_u32 (p - q)) as Hd. set (d := wrap32 (p - q)) in *.
  assert (Hsplit : exists k r : Z, d = k * 2 ^ 30 + r /\ 0 <= k < 4 /\ 0 <= r < 2 ^ 30).
  { exists (d / 2 ^ 30), (d mod 2 ^ 30).
    unfold is_u32, TWO_POW_32 in Hd.
    change (2 ^ 32) with 4294967296 in Hd. change (2 ^ 30) with 1073741824.
    repeat split; Z.div_mod_to_equations; lia. }
  destruct Hsplit as (k & r & Hs & Hk & Hr).
  destruct (Z.eq_dec r 0) as [Hr0|Hrn].
  - (* a multiple of a quarter turn: exact *)
    assert (Hcases : k = 0 \/ k = 1 \/ k = 2 \/ k = 3) by lia.
    assert (E : (F2R (phase_sin d) + F2R (phase_sin (wrap32 (0 - d))) = 0)%R).
    { rewrite Hs, Hr0.
      destruct Hcases as [-> | [-> | [-> | ->]]].
      - change (wrap32 (0 - (0 * 2 ^ 30 + 0))) with (0 * 2 ^ 30 + 0).
        rewrite phase_sin_quadrant.
        destruct (quadrant_split 0 0 ltac:(lia) ltac:(lia)) as [-> _].
        rewrite (quadrant_pos_split 0 0) by lia.
        change (quadrant_sign 0 (quarter_interp (if negb (Z.land 0 1 =? 0) then u32_not (4 * 0) else 4 * 0)))
          with (quarter_interp 0).
        rewrite Hzero. lra.
      - change (wrap32 (0 - (1 * 2 ^ 30 + 0))) with (3 * 2 ^ 30 + 0).
        rewrite !phase_sin_quadrant.
        destruct (quadrant_split 1 0 ltac:(lia) ltac:(lia)) as [-> _].
        destruct (quadrant_split 3 0 ltac:(lia) ltac:(lia)) as [-> _].
        rewrite (quadrant_pos_split 1 0), (quadrant_pos_split 3 0) by lia.
        change (quadrant_sign 1 (quarter_interp (if negb (Z.land 1 1 =? 0) then u32_not (4 * 0) else 4 * 0)))
          with (quarter_interp (u32_not 0)).
        change (quadrant_sign 3 (quarter_interp (if negb (Z.land 3 1 =? 0) then u32_not (4 * 0) else 4 * 0)))
          with (- quarter_interp (u32_not 0))%f32.
        rewrite F2R_neg. lra.
      - change (wrap32 (0 - (2 * 2 ^ 30 + 0))) with (2 * 2 ^ 30 + 0).
        rewrite phase_sin_quadrant.
        destruct (quadrant_split 2 0 ltac:(lia) ltac:(lia)) as [-> _].
        rewrite (quadrant_pos_split 2 0) by lia.
        change (quadrant_sign 2 (quarter_interp (if negb (Z.land 2 1 =? 0) then u32_not (4 * 0) else 4 * 0)))
          with (- quarter_interp 0)%f32.
        rewrite F2R_neg, Hzero. lra.
      - change (wrap32 (0 - (3 * 2 ^ 30 + 0))) with (1 * 2 ^ 30 + 0).
        rewrite !phase_sin_quadrant.
        destruct (quadrant_split 1 0 ltac:(lia) ltac:(lia)) as [-> _].
        destruct (quadrant_split 3 0 ltac:(lia) ltac:(lia)) as [-> _].
        rewrite (quadrant_pos_split 1 0), (quadrant_pos_split 3 0) by lia.
        change (quadrant_sign 1 (quarter_interp (if negb (Z.land 1 1 =? 0) then u32_not (4 * 0) else 4 * 0)))
          with (quarter_interp (u32_not 0)).
        change (quadrant_sign 3 (quarter_interp (if negb (Z.land 3 1 =? 0) then u32_not (4 * 0) else 4 * 0)))
          with (- quarter_interp (u32_not 0))%f32.
        rewrite F2R_neg. lra. }
    rewrite E, Rabs_R0. exact Hdlt.
  - assert (Hd0 : is_u32 0) by (unfold is_u32, TWO_POW_32; lia).
    assert (Ew : wrap32 (d - 0) = d) by (rewrite Z.sub_0_r; apply wrap32_small; exact Hd).
    assert (Hmod : wrap32 (d - 0) mod 2 ^ 30 <> 0).
    { rewrite Ew, Hs. rewrite Z.add_comm, Z.mod_add by lia.
      rewrite Z.mod_small by lia. exact Hrn. }
    destruct (phase_sin_opposite_difference d 0 Hd Hd0 Hmod) as [E1 E2].
    cbv zeta in E1, E2. rewrite Ew in E1, E2. rewrite E1, E2. clear E1 E2.
    rewrite Hs.
    destruct (quadrant_split k r Hk ltac:(lia)) as [Eq _]. rewrite Eq.
    rewrite (quadrant_pos_split k r Hk ltac:(lia)).
    rewrite F2R_neg.
    assert (Hx1 : is_u32 (4 * r)).
    { unfold is_u32, TWO_POW_32. change (2 ^ 30) with 1073741824 in Hr.
      change (2 ^ 32) with 4294967296. lia. }
    assert (Hx2 : is_u32 (u32_not (4 * r))).
    { unfold is_u32, u32_not, TWO_POW_32 in *. lia. }
    assert (Hx1' : is_u32 (4 * r - 1)).
    { unfold is_u32, TWO_POW_32 in *. lia. }
    assert (Hx2' : is_u32 (u32_not (4 * r) + 1)).
    { unfold is_u32, u32_not, TWO_POW_32 in *. lia. }
    pose proof (Hadj (4 * r - 1) Hx1') as Ha.
    replace (4 * r - 1 + 1) with (4 * r) in Ha by lia. specialize (Ha Hx1).
    pose proof (Hadj (u32_not (4 * r)) Hx2 Hx2') as Hb.
    apply Rabs_le_inv in Ha, Hb.
    unfold quadrant_sign.
    assert (Hcases : k = 0 \/ k = 1 \/ k = 2 \/ k = 3) by lia.
    destruct Hcases as [-> | [-> | [-> | ->]]];
      repeat match goal with
        | |- context [Z.land ?a ?b =? 0] =>
            let v := eval vm_compute in (Z.land a b =? 0) in
            change (Z.land a b =? 0) with v
        end;
      cbn [negb]; rewrite ?F2R_neg;
      replace (4 * r + -1) with (4 * r - 1) by lia;
      apply Rabs_le; split; lra.
Qed.

Local Open Scope R_scope.

(** The float sum of the coupling terms against their real sum: each
    addition adds at most [9 * 2^-23]. *)
Lemma coupling_fold_error (g : coupled_lfo_group) (idx : Z) (js : list Z) :
  forall (acc : float) (k : nat) (A err : R),
    valid_finite acc -> Rabs (F2R acc) <= INR k -> (k + length js <= 8)%nat ->
    Rabs (F2R acc - A) <= err ->
    Rabs (F2R (fold_left
                 (fun sum j =>
                    if (j =? idx)%Z then sum
                    else (sum + phase_sin (wrap32 (phase_at g j - phase_at g idx)))%f32)
                 js acc) -
          (A + real_sum (coupling_term_value g idx) js))
      <= err + INR (length js) * (9 * bpow (-23)).
Proof.
  pose proof (bpow_pos (-23)) as Heps.
  induction js as [|j js IH]; intros acc k A err Hacc Hk Hlen Herr.
  - cbn [fold_left real_sum fold_right length INR]. rewrite Rplus_0_r, Rmult_0_l, Rplus_0_r.
    exact Herr.
  - cbn [fold_left real_sum fold_right length] in *. fold (real_sum (coupling_term_value g idx) js).
    destruct (coupling_fold_bound smooth_table_bounded g idx [j] acc k Hacc Hk ltac:(cbn; lia))
      as [Hv1 Hb1].
    cbn [fold_left length] in Hv1, Hb1.
    replace (A + (coupling_term_value g idx j + real_sum (coupling_term_value g idx) js))
      with ((A + coupling_term_value g idx j) + real_sum (coupling_term_value g idx) js) by ring.
    rewrite S_INR.
    eapply Rle_trans; [apply (IH _ (k + 1)%nat _ (err + 9 * bpow (-23)) Hv1 Hb1 ltac:(lia))|lra].
    unfold coupling_term_value.
    destruct (Z.eqb_spec j idx) as [E|Hne].
    + rewrite Rplus_0_r. lra.
    + destruct (smooth_table_bounded _ (wrap32_is_u32 (phase_at g j - phase_at g idx)))
        as [Hv Hb].
      set (x := phase_sin (wrap32 (phase_at g j - phase_at g idx))) in *.
      assert (Hk8 : INR k <= 7).
      { apply Rle_trans with (INR 7); [apply le_INR; lia|]. cbn. lra. }
      assert (Hsum : Rabs (F2R acc) + Rabs (F2R x) < bpow 100).
      { apply Rle_lt_trans with 8; [lra|].
        apply Rlt_le_trans with (bpow 4); [|apply bpow_le; lia].
        rewrite <- (bpow_IZR 4) by lia. cbn. lra. }
      destruct (SFadd_signed _ _ Hacc Hv Hsum) as (_ & He & _).
      assert (Htri : Rabs (F2R acc + F2R x) <= 8).
      { eapply Rle_trans; [apply Rabs_triang|]. lra. }
      pose proof bpow_m149_small as Hsmall.
      assert (Hround : Rabs (F2R (acc + x)%f32 - (F2R acc + F2R x)) <= 9 * bpow (-23)).
      { eapply Rle_trans; [exact He|].
        assert (Rabs (F2R acc + F2R x) * bpow (-23) <= 8 * bpow (-23))
          by (apply Rmult_le_compat_r; lra).
        lra. }
      replace (F2R (acc + x)%f32 - (A + F2R x))
        with ((F2R (acc + x)%f32 - (F2R acc + F2R x)) + (F2R acc - A)) by ring.
      eapply Rle_trans; [apply Rabs_triang|]. lra.
Qed.

Lemma coupling_sum_error (g : coupled_lfo_group) (idx : Z) :
  (count g <= MAX_COUPLED_LFOS)%Z ->
  Rabs (F2R (coupling_sum g idx) -
        real_sum (coupling_term_value g idx) (seqZ 0 (count g))) <= 72 * bpow (-23).
Proof.
  intros Hc. unfold MAX_COUPLED_LFOS in Hc. pose proof (bpow_pos (-23)) as Heps.
  unfold coupling_sum.
  pose proof (coupling_fold_error g idx (seqZ 0 (count g)) F32.zero 0 0 0) as H.
  rewrite Rplus_0_l in H.
  eapply Rle_trans; [apply H|].
  - exact I.
  - unfold F32.zero. cbn [F2R INR]. rewrite Rabs_R0. lra.
  - rewrite length_seqZ. lia.
  - unfold F32.zero. cbn [F2R]. rewrite Rminus_0_r, Rabs_R0. lra.
  - rewrite Rplus_0_l, length_seqZ.
    assert (INR (Z.to_nat (count g)) <= 8).
    { apply Rle_trans with (INR 8); [apply le_INR; lia|]. cbn. lra. }
    nra.
Qed.

(** The adjustment [coupling * S / count] as a float against the same
    expression on the real sum of the terms: the error is relative to
    the coupling, apart from underflow. *)
Lemma adjustment_error (g : coupled_lfo_group) (idx : Z) :
  F32.ltb F32.zero (coupling g) = true ->
  valid_finite (coupling g) -> F2R (coupling g) <= 1 ->
  (2 <= count g <= MAX_COUPLED_LFOS)%Z -> (0 <= idx < count g)%Z ->
  Rabs (F2R (adjustment g idx) -
        F2R (coupling g) / IZR (count g) *
        real_sum (coupling_term_value g idx) (seqZ 0 (count g)))
    <= (87 * bpow (-23) * F2R (coupling g) + 2 * bpow (-149)) / IZR (count g)
       + bpow (-149).
Proof.
  intros HK HKv HK1 Hc Hidx. unfold MAX_COUPLED_LFOS in Hc.
  pose proof (bpow_pos (-23)) as Heps. pose proof (bpow_pos (-149)) as Heta.
  assert (Heps1 : bpow (-23) <= / 8388608) by (rewrite bpow_m23; lra).
  destruct (positive_coupling_nonneg _ HK HKv) as [HKn HKpos].
  destruct (coupling_sum_bound smooth_table_bounded g idx Hidx) as [HSv HSb];
    [unfold MAX_COUPLED_LFOS; lia|].
  pose proof (coupling_sum_error g idx ltac:(unfold MAX_COUPLED_LFOS; lia)) as HSe.
  set (Sr := real_sum (coupling_term_value g idx) (seqZ 0 (count g))) in *.
  assert (Hc1 : 1 <= IZR (count g - 1) <= 7) by (split; apply IZR_le; lia).
  assert (Hcpos : 2 <= IZR (count g) <= 8) by (split; apply IZR_le; lia).
  assert (HS7 : Rabs (F2R (coupling_sum g idx)) <= 7) by lra.
  assert (HKabs : Rabs (F2R (coupling g)) = F2R (coupling g)) by (apply Rabs_right; lra).
  assert (Hb100 : 8 < bpow 100).
  { apply Rlt_le_trans with (bpow 4); [|apply bpow_le; lia].
    rewrite <- (bpow_IZR 4) by lia. cbn. lra. }
  set (K := F2R (coupling g)) in *. set (Sf := F2R (coupling_sum g idx)) in *.
  set (N := IZR (count g)) in *. set (eps := bpow (-23)) in *. set (eta := bpow (-149)) in *.
  assert (HKS : Rabs K * Rabs Sf <= 7 * K).
  { rewrite HKabs, Rmult_comm. apply Rmult_le_compat_r; lra. }
  destruct (SFmul_signed _ _ HKv HSv) as (Hmv & Hme & _).
  { fold K Sf. lra. }
  fold K Sf eps eta in Hme. rewrite Rabs_mult in Hme.
  set (P := F2R (coupling g * coupling_sum g idx)%f32) in *.
  assert (Hme' : Rabs (P - K * Sf) <= 7 * K * eps + eta).
  { eapply Rle_trans; [exact Hme|].
    assert (Rabs K * Rabs Sf * eps <= 7 * K * eps) by (apply Rmult_le_compat_r; lra).
    lra. }
  assert (HP : Rabs P <= 7 * K + (7 * K * eps + eta)).
  { replace P with ((P - K * Sf) + K * Sf) by ring.
    eapply Rle_trans; [apply Rabs_triang|]. rewrite (Rabs_mult K Sf). lra. }
  assert (HKe : 0 <= K * eps <= K * / 8388608).
  { split; [apply Rmult_le_pos; lra|apply Rmult_le_compat_l; lra]. }
  assert (Heta1 : eta <= / 1000000).
  { pose proof bpow_m149_small as Hs. fold eta eps in Hs. nra. }
  assert (HP8 : Rabs P <= 8) by lra.
  destruct (of_Z_small (count g) ltac:(lia)) as [Hcn Hcv]. fold N in Hcv.
  assert (Hinv : 0 < / N <= / 2).
  { split; [apply Rinv_0_lt_compat; lra|]. apply Rinv_le_contravar; lra. }
  unfold adjustment.
  destruct (SFdiv_signed (coupling g * coupling_sum g idx)%f32 (F32.of_Z (count g))
              Hmv (nonneg_valid _ Hcn)) as (_ & Hde & _).
  { rewrite Hcv. lra. }
  { rewrite Hcv, (Rabs_right N) by lra. fold P.
    apply Rle_lt_trans with (8 * / 2); [|lra].
    unfold Rdiv. apply Rmult_le_compat; [apply Rabs_pos|lra|lra|lra]. }
  rewrite Hcv in Hde. fold P eps eta in Hde.
  set (Afl := F2R (coupling g * coupling_sum g idx / F32.of_Z (count g))%f32) in *.
  assert (Hde' : Rabs (Afl - P / N) <= (7 * K * eps + K * eps + eta) / N + eta).
  { eapply Rle_trans; [exact Hde|]. apply Rplus_le_compat_r.
    rewrite Rabs_quot by lra. rewrite (Rabs_right N) by lra.
    unfold Rdiv. rewrite Rmult_assoc, (Rmult_comm (/ N)), <- Rmult_assoc.
    apply Rmult_le_compat_r; [lra|].
    apply Rle_trans with ((7 * K + (7 * K * eps + eta)) * eps).
    - apply Rmult_le_compat_r; lra.
    - assert (7 * K * eps * eps <= K * eps * (7 * / 8388608)).
      { replace (7 * K * eps * eps) with (K * eps * (7 * eps)) by ring.
        apply Rmult_le_compat_l; lra. }
      assert (eta * eps <= eta * / 8388608) by (apply Rmult_le_compat_l; lra).
      lra. }
  replace (Afl - K / N * Sr)
    with ((Afl - P / N) + ((P - K * Sf) / N + K * (Sf - Sr) / N))
    by (field; lra).
  eapply Rle_trans; [apply Rabs_triang|].
  assert (H2 : Rabs ((P - K * Sf) / N) <= (7 * K * eps + eta) / N).
  { rewrite Rabs_quot by lra. rewrite (Rabs_right N) by lra.
    apply Rmult_le_compat_r; [lra|exact Hme']. }
  assert (H3 : Rabs (K * (Sf - Sr) / N) <= (72 * eps * K) / N).
  { rewrite Rabs_quot by lra. rewrite (Rabs_right N) by lra.
    apply Rmult_le_compat_r; [lra|].
    rewrite Rabs_mult, HKabs, (Rmult_comm (72 * eps)).
    apply Rmult_le_compat_l; lra. }
  eapply Rle_trans;
    [apply Rplus_le_compat; [exact Hde'|eapply Rle_trans; [apply Rabs_triang|]];
     apply Rplus_le_compat; [exact H2|exact H3]|].
  replace ((7 * K * eps + K * eps + eta) / N + eta +
           ((7 * K * eps + eta) / N + 72 * eps * K / N))
    with ((87 * eps * K + 2 * eta) / N + eta) by (field; lra).
  lra.
Qed.

(** The adjustments that one snapshot of a complete group gives its
    oscillators cancel up to the rounding of each and the odd-symmetry
    error of the table, both relative to the coupling. *)
Lemma adjustments_cancel (g : coupled_lfo_group) :
  F32.ltb F32.zero (coupling g) = true ->
  valid_finite (coupling g) -> F2R (coupling g) <= 1 ->
  (2 <= count g <= MAX_COUPLED_LFOS)%Z ->
  Rabs (real_sum (fun i => F2R (adjustment g i)) (seqZ 0 (count g)))
    <= (7 / 2 * dlt + 87 * bpow (-23)) * F2R (coupling g) + 10 * bpow (-149).
Proof.
  intros HK HKv HK1 Hc. pose proof Hc as Hc'. unfold MAX_COUPLED_LFOS in Hc'.
  pose proof (bpow_pos (-23)) as Heps. pose proof (bpow_pos (-149)) as Heta.
  destruct (positive_coupling_nonneg _ HK HKv) as [_ HKpos].
  assert (Hcpos : 2 <= IZR (count g) <= 8) by (split; apply IZR_le; lia).
  pose proof smooth_table_nonneg as Hdlt.
  set (js := seqZ 0 (count g)).
  assert (Hlen : INR (length js) = IZR (count g)).
  { unfold js. rewrite length_seqZ, INR_IZR_INZ, Z2Nat.id by lia. reflexivity. }
  set (K := F2R (coupling g)) in *. set (N := IZR (count g)) in *.
  set (eps := bpow (-23)) in *. set (eta := bpow (-149)) in *.
  pose proof (real_sum_near (fun i => F2R (adjustment g i))
                (fun i => K / N * real_sum (coupling_term_value g i) js)
                ((87 * eps * K + 2 * eta) / N + eta) js) as Hnear.
  rewrite Hlen in Hnear.
  assert (Herr : Rabs (real_sum (fun i => F2R (adjustment g i)) js -
                       real_sum (fun i => K / N * real_sum (coupling_term_value g i) js) js)
                 <= 87 * eps * K + 10 * eta).
  { eapply Rle_trans; [apply Hnear|].
    - intros j Hj. apply list_elem_of_In, elem_of_seqZ in Hj.
      apply (adjustment_error g j HK HKv HK1 Hc). lia.
    - replace (N * ((87 * eps * K + 2 * eta) / N + eta))
        with (87 * eps * K + 2 * eta + N * eta) by (field; lra).
      assert (N * eta <= 8 * eta) by (apply Rmult_le_compat_r; lra).
      lra. }
  rewrite real_sum_scal in Herr.
  pose proof (pair_double_sum (coupling_term_value g) dlt) as Hpair.
  assert (Hdiag : forall i : Z, coupling_term_value g i i = 0).
  { intros i. unfold coupling_term_value. now rewrite Z.eqb_refl. }
  assert (Hanti : forall i j : Z,
             Rabs (coupling_term_value g i j + coupling_term_value g j i) <= dlt).
  { intros i j. unfold coupling_term_value. rewrite (Z.eqb_sym i j).
    destruct (Z.eqb_spec j i) as [E|Hne].
    - rewrite Rplus_0_r, Rabs_R0. exact Hdlt.
    - apply (phase_sin_nearly_odd (phase_at g j) (phase_at g i)). }
  specialize (Hpair Hdiag Hanti (Z.to_nat (count g))).
  rewrite Z2Nat.id in Hpair by lia. fold js in Hpair.
  rewrite INR_IZR_INZ, Z2Nat.id in Hpair by lia. fold N in Hpair.
  set (D := real_sum (fun i => real_sum (coupling_term_value g i) js) js) in *.
  assert (HinvN : 0 < / N) by (apply Rinv_0_lt_compat; lra).
  assert (Hmain : Rabs (K / N * D) <= 7 / 2 * dlt * K).
  { rewrite Rabs_mult, (Rabs_right (K / N)) by (apply Rle_ge, Rmult_le_pos; lra).
    apply Rle_trans with (K / N * (N * (N - 1) / 2 * dlt)).
    - apply Rmult_le_compat_l; [apply Rmult_le_pos; lra|exact Hpair].
    - replace (K / N * (N * (N - 1) / 2 * dlt)) with ((N - 1) / 2 * dlt * K) by (field; lra).
      apply Rmult_le_compat_r; [lra|].
      apply Rmult_le_compat_r; [exact Hdlt|]. lra. }
  replace (real_sum (fun i => F2R (adjustment g i)) js)
    with ((real_sum (fun i => F2R (adjustment g i)) js - K / N * D) + K / N * D) by ring.
  eapply Rle_trans; [apply Rabs_triang|]. lra.
Qed.

(** On a smooth table the pairs cancel up to [dlt] and the
    adjustments of a complete group up to
    [(7/2 * dlt + 87 * 2^-23) * coupling + 10 * 2^-149]. *)
Lemma smooth_table_cancellation :
  (forall p q : Z,
     is_u32 p -> is_u32 q ->
     Rabs (F2R (phase_sin (wrap32 (p - q))) + F2R (phase_sin (wrap32 (q - p)))) <= dlt) /\
  (forall g : coupled_lfo_group,
     F32.ltb F32.zero (coupling g) = true ->
     valid_finite (coupling g) -> F2R (coupling g) <= 1 ->
     (2 <= count g <= MAX_COUPLED_LFOS)%Z ->
     Rabs (real_sum (fun i => F2R (adjustment g i)) (seqZ 0 (count g)))
       <= (7 / 2 * dlt + 87 * bpow (-23)) * F2R (coupling g) + 10 * bpow (-149)).
Proof.
  split.
  - intros p q _ _. apply phase_sin_nearly_odd.
  - intros g HK HKv HK1 Hc. exact (adjustments_cancel g HK HKv HK1 Hc).
Qed.

End Cancellation.

End CancellationTheory.

(** ** The order parameter: a negative count, a pair in antiphase *)

Section OrderEdgeCases.

(** A negative [int] converts to a negative finite float. *)
Lemma of_Z_negative (n : Z) :
  - 2 ^ 31 <= n < 0 -> exists m e, F32.of_Z n = S754_finite true m e.
Proof.
  intros Hn. destruct n as [|p|p]; try lia.
  unfold F32.of_Z. cbn [binary_normalize]. rewrite binary_round_opp.
  assert (Hv : (IZR (Zpos p) * bpow 0 < bpow 100)%R).
  { rewrite bpow_0, Rmult_1_r.
    apply Rle_lt_trans with (IZR (2 ^ 31)); [apply IZR_le; lia|].
    rewrite bpow_IZR by lia. apply bpow_lt. lia. }
  destruct (binary_round_rounds_to p 0 Hv) as (Hfin & Herr & _ & _).
  destruct (binary_round prec emax false p 0) as [s|s| |s m e];
    cbn [nonneg_finite] in Hfin; try tauto.
  - exfalso. cbn [F2R] in Herr. rewrite bpow_0, Rmult_1_r in Herr.
    assert (1 <= IZR (Zpos p))%R by (apply IZR_le; lia).
    pose proof bpow_m149_small as Hsmall. rewrite bpow_m23 in *.
    apply Rabs_le_inv in Herr. lra.
  - destruct s; [tauto|]. exists m, e. reflexivity.
Qed.

Section EdgeCases.

Context `{T : sine_table}.

(** X4: a negative [count] is taken for an empty group: no slot is
    read and the result is exactly 0. *)
Theorem order_parameter_negative_count (g : coupled_lfo_group) :
  - 2 ^ 31 <= count g < 0 ->
  coupled_lfo_order_parameter g = Some (F32.zero, g).
Proof.
  intros Hc. destruct (of_Z_negative (count g) Hc) as (m & e & En).
  unfold coupled_lfo_order_parameter, bind, load_count.
  replace (count g =? 0) with false by (symmetry; apply Z.eqb_neq; lia).
  replace (Z.to_nat (count g)) with O by lia.
  cbn [for_loop]. unfold ret. cbn [fst snd]. rewrite En. reflexivity.
Qed.

Lemma add_opposite (x : float) :
  F32.is_finite x = true -> ((F32.zero + x) + (- x))%f32 = F32.zero.
Proof.
  destruct x as [s|s| |s m e]; try discriminate; intros _.
  - destruct s; reflexivity.
  - unfold F32.add, F32.neg, F32.zero. cbn [SFadd SFopp].
    change IntDef.Z.min with Z.min. rewrite Z.min_id.
    unfold shl_align. rewrite Z.sub_diag. cbn [fst].
    replace (cond_Zopp s (Zpos m) + cond_Zopp (negb s) (Zpos m)) with 0
      by (destruct s; cbn [cond_Zopp negb]; lia).
    reflexivity.
Qed.

(** X8: two oscillators exactly half a turn apart have order parameter
    exactly 0, whenever the table gives finite values at their phases. *)
Theorem antiphase_pair_order_zero (g : coupled_lfo_group) :
  group_wf g -> count g = 2 ->
  is_u32 (phase_at g 0) ->
  phase_at g 1 = wrap32 (phase_at g 0 + 2 ^ 31) ->
  F32.is_finite (phase_sin (phase_at g 0)) = true ->
  F32.is_finite (phase_cos (phase_at g 0)) = true ->
  coupled_lfo_order_parameter g = Some (F32.zero, g).
Proof.
  intros Hwf Hc Hp E1 Hfs Hfc.
  rewrite (order_parameter_eq g Hwf) by (rewrite Hc; unfold MAX_COUPLED_LFOS; lia).
  rewrite Hc. cbn [Z.eqb]. do 2 f_equal.
  unfold mean_vector_magnitude, cos_sum, sin_sum. rewrite Hc.
  change (seqZ 0 2) with [0; 1]. cbn [fold_left]. rewrite E1.
  destruct (phase_cos_shifted_eq (phase_at g 0) Hp) as [_ ->].
  rewrite (phase_sin_half_turn_eq (phase_at g 0) Hp).
  rewrite (add_opposite _ Hfs), (add_opposite _ Hfc). reflexivity.
Qed.

End EdgeCases.

End OrderEdgeCases.

(** ** The order parameter: accuracy *)

Section OrderParameterAccuracy.

Local Open Scope R_scope.

Lemma square_le_inv (x y : R) : 0 <= y -> x * x <= y * y -> x <= y.
Proof.
  intros Hy Hsq. destruct (Rle_dec x y) as [|Hgt]; [assumption|exfalso].
  assert (Hlt : y < x) by lra.
  assert (y * y < x * x); [|lra].
  apply Rle_lt_trans with (y * x).
  - apply Rmult_le_compat_l; lra.
  - apply Rmult_lt_compat_r; lra.
Qed.

Lemma cauchy_schwarz_2 (A B x y : R) :
  A * x + B * y <= sqrt (A * A + B * B) * sqrt (x * x + y * y).
Proof.
  assert (HAB : 0 <= A * A + B * B).
  { pose proof (Rle_0_sqr A). pose proof (Rle_0_sqr B). unfold Rsqr in *. lra. }
  assert (Hxy : 0 <= x * x + y * y).
  { pose proof (Rle_0_sqr x). pose proof (Rle_0_sqr y). unfold Rsqr in *. lra. }
  apply square_le_inv.
  - apply Rmult_le_pos; apply sqrt_pos.
  - replace (sqrt (A * A + B * B) * sqrt (x * x + y * y) *
             (sqrt (A * A + B * B) * sqrt (x * x + y * y)))
      with ((sqrt (A * A + B * B) * sqrt (A * A + B * B)) *
            (sqrt (x * x + y * y) * sqrt (x * x + y * y))) by ring.
    rewrite !sqrt_sqrt by assumption.
    pose proof (Rle_0_sqr (A * y - B * x)) as Hpos. unfold Rsqr in Hpos.
    replace ((A * A + B * B) * (x * x + y * y)) with
      ((A * x + B * y) * (A * x + B * y) + (A * y - B * x) * (A * y - B * x)) by ring.
    lra.
Qed.

(** The Euclidean norm of the plane is 1-Lipschitz. *)
Lemma norm_triangle (a b A B : R) :
  sqrt (a * a + b * b) <=
  sqrt (A * A + B * B) + sqrt ((a - A) * (a - A) + (b - B) * (b - B)).
Proof.
  set (x := a - A). set (y := b - B).
  assert (HAB : 0 <= A * A + B * B).
  { pose proof (Rle_0_sqr A). pose proof (Rle_0_sqr B). unfold Rsqr in *. lra. }
  assert (Hxy : 0 <= x * x + y * y).
  { pose proof (Rle_0_sqr x). pose proof (Rle_0_sqr y). unfold Rsqr in *. lra. }
  assert (Hab : 0 <= a * a + b * b).
  { pose proof (Rle_0_sqr a). pose proof (Rle_0_sqr b). unfold Rsqr in *. lra. }
  pose proof (sqrt_pos (A * A + B * B)) as HU.
  pose proof (sqrt_pos (x * x + y * y)) as Hw.
  apply square_le_inv; [lra|].
  rewrite sqrt_sqrt by assumption.
  pose proof (cauchy_schwarz_2 A B x y) as Hcs.
  pose proof (sqrt_sqrt _ HAB) as EU. pose proof (sqrt_sqrt _ Hxy) as Ew.
  set (U := sqrt (A * A + B * B)) in *. set (w := sqrt (x * x + y * y)) in *.
  replace ((U + w) * (U + w)) with (U * U + 2 * (U * w) + w * w) by ring.
  rewrite EU, Ew.
  replace (a * a + b * b) with
    (A * A + B * B + 2 * (A * x + B * y) + (x * x + y * y)) by (unfold x, y; ring).
  lra.
Qed.

Lemma norm_lipschitz (a b A B d : R) :
  Rabs (a - A) <= d -> Rabs (b - B) <= d ->
  Rabs (sqrt (a * a + b * b) - sqrt (A * A + B * B)) <= 3 / 2 * d.
Proof.
  intros Ha Hb.
  assert (Hd : 0 <= d) by (pose proof (Rabs_pos (a - A)); lra).
  assert (Hw : forall x y, Rabs x <= d -> Rabs y <= d ->
                 sqrt (x * x + y * y) <= 3 / 2 * d).
  { intros x y Hx Hy. apply square_le_inv; [lra|].
    assert (0 <= x * x + y * y).
    { pose proof (Rle_0_sqr x). pose proof (Rle_0_sqr y). unfold Rsqr in *. lra. }
    rewrite sqrt_sqrt by assumption.
    assert (x * x <= d * d).
    { replace (x * x) with (Rabs x * Rabs x)
        by (unfold Rabs; destruct (Rcase_abs x); ring).
      apply Rmult_le_compat; try apply Rabs_pos; assumption. }
    assert (y * y <= d * d).
    { replace (y * y) with (Rabs y * Rabs y)
        by (unfold Rabs; destruct (Rcase_abs y); ring).
      apply Rmult_le_compat; try apply Rabs_pos; assumption. }
    assert (0 <= d * d) by (apply Rmult_le_pos; lra).
    replace (3 / 2 * d * (3 / 2 * d)) with (9 / 4 * (d * d)) by field. lra. }
  pose proof (norm_triangle a b A B) as H1.
  pose proof (norm_triangle A B a b) as H2.
  pose proof (Hw (a - A) (b - B) Ha Hb) as H3.
  assert (Ha' : Rabs (A - a) <= d) by (rewrite Rabs_minus_sym; exact Ha).
  assert (Hb' : Rabs (B - b) <= d) by (rewrite Rabs_minus_sym; exact Hb).
  pose proof (Hw (A - a) (B - b) Ha' Hb') as H4.
  apply Rabs_le. lra.
Qed.

Lemma sqrt_le_sum (x s : R) : 0 <= s -> x <= s * s -> sqrt x <= s.
Proof.
  intros Hs Hx. destruct (Rle_dec 0 x) as [H0|H0].
  - rewrite <- (sqrt_square s) by assumption. now apply sqrt_le_1_alt.
  - rewrite sqrt_neg_0 by lra. exact Hs.
Qed.

Lemma sqrt_ge_diff (x s : R) : 0 <= x -> s * s <= x -> s <= sqrt x.
Proof.
  intros Hx Hs. destruct (Rle_dec 0 s) as [H0|H0].
  - rewrite <- (sqrt_square s) by assumption. now apply sqrt_le_1_alt.
  - pose proof (sqrt_pos x). lra.
Qed.

(** The square root is stable under a relative perturbation [e] and an
    absolute perturbation [t * t] of its argument. *)
Lemma sqrt_perturbed (X Y e t : R) :
  0 <= Y -> 0 <= X -> 0 <= e <= 1 / 2 -> 0 <= t ->
  Y * ((1 - e) * (1 - e)) - t * t <= X <= Y * ((1 + e) * (1 + e)) + t * t ->
  Rabs (sqrt X - sqrt Y) <= sqrt Y * e + 2 * t.
Proof.
  intros HY HX He Ht [Hlo Hhi].
  pose proof (sqrt_pos Y) as HsY. pose proof (sqrt_sqrt Y HY) as EY.
  set (r := sqrt Y) in *.
  assert (Hup : sqrt X <= r * (1 + e) + t).
  { apply sqrt_le_sum.
    - assert (0 <= r * (1 + e)) by (apply Rmult_le_pos; lra). lra.
    - replace ((r * (1 + e) + t) * (r * (1 + e) + t)) with
        (r * r * ((1 + e) * (1 + e)) + 2 * (r * (1 + e) * t) + t * t) by ring.
      rewrite EY.
      assert (0 <= r * (1 + e) * t).
      { apply Rmult_le_pos; [apply Rmult_le_pos; lra|lra]. }
      lra. }
  assert (Hdown : r * (1 - e) - 2 * t <= sqrt X).
  { destruct (Rle_dec (r * (1 - e)) (2 * t)) as [Hsmall|Hbig].
    - pose proof (sqrt_pos X). lra.
    - assert (Hgt : 2 * t < r * (1 - e)) by lra.
      apply sqrt_ge_diff; [exact HX|].
      replace ((r * (1 - e) - 2 * t) * (r * (1 - e) - 2 * t)) with
        (r * r * ((1 - e) * (1 - e)) - 4 * (r * (1 - e)) * t + 4 * (t * t)) by ring.
      rewrite EY.
      assert (2 * t * t <= r * (1 - e) * t).
      { apply Rmult_le_compat_r; lra. }
      assert (0 <= t * t) by (apply Rmult_le_pos; lra).
      lra. }
  apply Rabs_le. split.
  - replace (r * (1 - e)) with (r - r * e) in Hdown by ring. lra.
  - replace (r * (1 + e)) with (r + r * e) in Hup by ring. lra.
Qed.

Section OrderAccuracy.

Context `{T : sine_table}.

Lemma order_parameter_error (g : coupled_lfo_group) :
  accurate_table -> group_wf g ->
  (1 <= count g <= MAX_COUPLED_LFOS)%Z ->
  (forall i : Z, (0 <= i < count g)%Z -> is_u32 (phase_at g i)) ->
  exists r : float,
    coupled_lfo_order_parameter g = Some (r, g) /\
    F32.is_finite r = true /\
    Rabs (F2R r - kuramoto_order g) <= 2 / 10000.
Proof.
  intros Htab Hwf Hc Hph.
  exists (mean_vector_magnitude g).
  split; [exact (order_parameter_value g Hwf Hc)|].
  destruct (mean_vector_parts g Htab Hc Hph) as ((Hav & Hab & Hae) & (Hbv & Hbb & Hbe) & HAB).
  cbv zeta in Hav, Hab, Hae, Hbv, Hbb, Hbe.
  unfold mean_vector_magnitude, kuramoto_order.
  set (a := (cos_sum g / F32.of_Z (count g))%f32) in *.
  set (b := (sin_sum g / F32.of_Z (count g))%f32) in *.
  set (A := mean_cos g) in *. set (B := mean_sin g) in *.
  destruct (squares_sum a b Hav Hab Hbv Hbb) as (HXn & HXlo & HXup).
  cbv zeta in HXlo, HXup.
  set (X := F2R (a * a + b * b)%f32) in *.
  set (Y := F2R a * F2R a + F2R b * F2R b) in *.
  pose proof (nonneg_finite_F2R _ HXn) as HX0. fold X in HX0.
  assert (HY : 0 <= Y <= 2).
  { unfold Y.
    assert (Hsq : forall c : float, Rabs (F2R c) <= 1 -> 0 <= F2R c * F2R c <= 1).
    { intros c Hc1.
      assert (E : F2R c * F2R c = Rabs (F2R c) * Rabs (F2R c))
        by (unfold Rabs; destruct (Rcase_abs (F2R c)); ring).
      assert (Rabs (F2R c) * Rabs (F2R c) <= 1).
      { replace 1 with (1 * 1) by ring.
        apply Rmult_le_compat; try apply Rabs_pos; assumption. }
      pose proof (Rle_0_sqr (F2R c)) as H0. unfold Rsqr in H0. lra. }
    pose proof (Hsq a Hab). pose proof (Hsq b Hbb). lra. }
  pose proof (bpow_pos (-23)) as He0.
  assert (He1 : bpow (-23) <= 1 / 2).
  { rewrite bpow_m23. lra. }
  assert (Ht : bpow (-147) <= bpow (-73) * bpow (-73)).
  { rewrite <- bpow_add. apply bpow_le. lia. }
  pose proof (bpow_pos (-73)) as Ht0.
  assert (Hsqrt : Rabs (sqrt X - sqrt Y) <= sqrt Y * bpow (-23) + 2 * bpow (-73)).
  { apply sqrt_perturbed; try lra. }
  assert (HsY : 0 <= sqrt Y <= 3 / 2).
  { split; [apply sqrt_pos|]. apply sqrt_le_sum; lra. }
  assert (Ht73 : bpow (-73) <= bpow (-23) * / 1000000).
  { replace (-73)%Z with (-23 + -50)%Z by lia. rewrite bpow_add.
    apply Rmult_le_compat_l; [lra|].
    apply Rle_trans with (bpow (-20)); [apply bpow_le; lia|].
    pose proof (bpow_neg_inv 20 ltac:(lia)) as E20.
    change (- (20))%Z with (-20)%Z in E20. rewrite E20.
    change (IZR (2 ^ 20)) with 1048576. lra. }
  assert (HX2 : X <= 3).
  { assert (E : bpow (-147) <= bpow (-23)) by (apply bpow_le; lia).
    rewrite bpow_m23 in *.
    replace (Y * ((1 + / 8388608) * (1 + / 8388608))) with
      (Y + Y * (2 * / 8388608 + / 8388608 * / 8388608)) in HXup by ring.
    assert (Y * (2 * / 8388608 + / 8388608 * / 8388608) <=
            2 * (2 * / 8388608 + / 8388608 * / 8388608)).
    { apply Rmult_le_compat_r; lra. }
    lra. }
  assert (Hb100 : 4 < bpow 100).
  { apply Rlt_le_trans with (bpow 3); [|apply bpow_le; lia].
    rewrite <- (bpow_IZR 3) by lia. cbn. lra. }
  destruct (SFsqrt_rounds_to (a * a + b * b)%f32 HXn ltac:(fold X; lra)) as (Hrn & Hre & _ & _).
  fold X in Hre.
  split; [exact (valid_is_finite _ (nonneg_valid _ Hrn))|].
  assert (HsX : 0 <= sqrt X <= 2).
  { split; [apply sqrt_pos|]. apply sqrt_le_sum; lra. }
  pose proof (norm_lipschitz (F2R a) (F2R b) A B (105 / 1000000) Hae Hbe) as Hlip.
  fold Y in Hlip.
  pose proof bpow_m149_small as Hsmall.
  rewrite bpow_m23 in *.
  set (r := F2R (F32.sqrtf (a * a + b * b)%f32)) in *.
  set (R0 := sqrt (A * A + B * B)) in *.
  assert (H1 : sqrt X * / 8388608 <= 2 * / 8388608) by (apply Rmult_le_compat_r; lra).
  assert (H2 : sqrt Y * / 8388608 <= 3 / 2 * / 8388608) by (apply Rmult_le_compat_r; lra).
  replace (r - R0) with ((r - sqrt X) + (sqrt X - sqrt Y) + (sqrt Y - R0)) by ring.
  eapply Rle_trans; [apply Rabs_triang|].
  eapply Rle_trans; [apply Rplus_le_compat_r, Rabs_triang|].
  lra.
Qed.

(** X11: on an accurate table, for 1 <= count <= 8 and 32-bit phases,
    the value returned is within 2e-4 of the length of the mean unit
    vector of the phases. *)
Theorem order_parameter_accuracy (g : coupled_lfo_group) :
  accurate_table -> group_wf g ->
  (1 <= count g <= MAX_COUPLED_LFOS)%Z ->
  (forall i : Z, (0 <= i < count g)%Z -> is_u32 (phase_at g i)) ->
  exists r : float,
    coupled_lfo_order_parameter g = Some (r, g) /\
    F32.is_finite r = true /\
    Rabs (F2R r - kuramoto_order g) <= 2 / 10000.
Proof. exact (order_parameter_error g). Qed.

Lemma real_sum_const (tau : Z -> R) (c : R) (js : list Z) :
  Forall (fun j => tau j = c) js -> real_sum tau js = INR (length js) * c.
Proof.
  induction 1 as [|j js Hj Hjs IH]; cbn [real_sum fold_right length].
  - cbn [INR]. ring.
  - fold (real_sum tau js). rewrite IH, Hj, S_INR. ring.
Qed.

(** X12: oscillators that are all at one phase give an order parameter
    of at least 0.9998. *)
Theorem locked_group_order (g : coupled_lfo_group) (p : Z) :
  accurate_table -> group_wf g ->
  (1 <= count g <= MAX_COUPLED_LFOS)%Z -> is_u32 p ->
  (forall i : Z, (0 <= i < count g)%Z -> phase_at g i = p) ->
  exists r : float,
    coupled_lfo_order_parameter g = Some (r, g) /\
    F32.is_finite r = true /\ 9998 / 10000 <= F2R r.
Proof.
  intros Htab Hwf Hc Hp Hall.
  destruct (order_parameter_error g Htab Hwf Hc) as (r & Er & Hfin & Hacc).
  { intros i Hi. now rewrite (Hall i Hi). }
  exists r. split; [exact Er|]. split; [exact Hfin|].
  assert (Hn : 1 <= IZR (count g)) by (apply IZR_le; lia).
  assert (Hlen : INR (length (seqZ 0 (count g))) = IZR (count g)).
  { rewrite length_seqZ, INR_IZR_INZ, Z2Nat.id by lia. reflexivity. }
  assert (EK : kuramoto_order g = 1).
  { unfold kuramoto_order, mean_cos, mean_sin.
    rewrite (real_sum_const _ (cos (phase_angle p))), (real_sum_const _ (sin (phase_angle p))).
    - rewrite Hlen.
      replace (IZR (count g) * cos (phase_angle p) / IZR (count g)) with (cos (phase_angle p))
        by (field; lra).
      replace (IZR (count g) * sin (phase_angle p) / IZR (count g)) with (sin (phase_angle p))
        by (field; lra).
      pose proof (sin2_cos2 (phase_angle p)) as H. unfold Rsqr in H.
      replace (cos (phase_angle p) * cos (phase_angle p) +
               sin (phase_angle p) * sin (phase_angle p)) with 1 by lra.
      apply sqrt_1.
    - apply Forall_seqZ. intros j Hj. now rewrite (Hall j ltac:(lia)).
    - apply Forall_seqZ. intros j Hj. now rewrite (Hall j ltac:(lia)). }
  rewrite EK in Hacc. apply Rabs_le_inv in Hacc. lra.
Qed.

End OrderAccuracy.

End OrderParameterAccuracy.

(** ** Schedules of steps *)

Section Schedules.

Section Schedule.

Context `{T : sine_table} `{L : lfo_h}.

Hypothesis table_bounded : bounded_table.

Hypothesis lfo_step_keeps_step :
  forall (l : lfo_state.t) (type : lfo_type),
    lfo_state.step (fst (lfo_step l type)) = lfo_state.step l.

Lemma group_ok_set (g : coupled_lfo_group) (i : Z) (l : lfo_state.t) :
  group_ok g -> 0 <= lfo_state.step l <= 2 ^ 31 -> group_ok (set_lfo g i l).
Proof.
  intros (Hwf & Hc & HKv & HK1 & Hall) Hl.
  split; [now apply set_lfo_wf|]. split; [exact Hc|]. split; [exact HKv|].
  split; [exact HK1|]. cbn [set_lfo lfos].
  apply Forall_insert; assumption.
Qed.

(** One step on an active slot of such a group is defined and leaves
    such a group. *)
Lemma coupled_step_ok (g : coupled_lfo_group) (idx : Z) (type : lfo_type) :
  group_ok g -> 0 <= idx < count g ->
  exists (v : float) (g' : coupled_lfo_group),
    coupled_lfo_step idx type g = Some (v, g') /\ group_ok g' /\
    count g' = count g.
Proof.
  intros Hok Hidx. pose proof Hok as (Hwf & Hc & HKv & HK1 & Hall).
  assert (Hi : 0 <= idx < MAX_COUPLED_LFOS) by lia.
  destruct (load_lfo_in_range g idx Hwf Hi) as (l & El & _).
  assert (Hl : 0 <= lfo_state.step l <= 2 ^ 31).
  { rewrite Forall_lookup in Hall. exact (Hall _ _ El). }
  destruct (F32.ltb F32.zero (coupling g) && (1 <? count g)) eqn:Hguard.
  - apply andb_true_iff in Hguard. destruct Hguard as [HK Hcnt]. apply Z.ltb_lt in Hcnt.
    destruct (coupled_step_in_range table_bounded g idx type l Hwf HK HKv HK1
                ltac:(lia) Hidx El Hl) as (d & _ & Estep).
    cbv zeta in Estep. rewrite Estep. eexists _, _. split; [reflexivity|].
    split; [|reflexivity].
    apply group_ok_set; [exact Hok|]. rewrite lfo_step_keeps_step. exact Hl.
  - rewrite (step_uncoupled g idx type Hwf Hi Hguard). unfold standalone_step.
    rewrite El. eexists _, _. split; [reflexivity|]. split; [|reflexivity].
    apply group_ok_set; [exact Hok|]. rewrite lfo_step_keeps_step. exact Hl.
Qed.

(** X13: on such a group every schedule of steps on active slots runs
    to its end (no array access out of bounds, no conversion out of
    range) and leaves such a group. *)
Theorem schedule_defined (sched : list (Z * lfo_type)) :
  forall g : coupled_lfo_group,
    group_ok g ->
    Forall (fun e => 0 <= fst e < count g) sched ->
    exists (vs : list float) (g' : coupled_lfo_group),
      step_schedule sched g = Some (vs, g') /\
      length vs = length sched /\ group_ok g' /\ count g' = count g.
Proof.
  induction sched as [|[idx type] rest IH]; intros g Hok Hs.
  - exists [], g. repeat split; try reflexivity; apply Hok.
  - apply Forall_cons in Hs. destruct Hs as [Hidx Hrest]. cbn [fst] in Hidx.
    destruct (coupled_step_ok g idx type Hok Hidx) as (v & g1 & E1 & Hok1 & Ec1).
    destruct (IH g1 Hok1) as (vs & g' & E2 & Hlen & Hok' & Ec').
    { rewrite Ec1. exact Hrest. }
    exists (v :: vs), g'. cbn [step_schedule]. unfold bind at 1. rewrite E1.
    unfold bind at 1. rewrite E2. unfold ret.
    split; [reflexivity|]. split; [cbn [length]; now rewrite Hlen|].
    split; [exact Hok'|]. now rewrite Ec'.
Qed.

End Schedule.

End Schedules.

(** ** The tremolo *)

Section TremoloTheory.

Local Open Scope R_scope.

Lemma F2R_one : F2R f_one = 1.
Proof.
  change f_one with (S754_finite false 8388608 (-23)). cbn [F2R cond_Zopp].
  rewrite bpow_m23. lra.
Qed.

Lemma F2R_half : F2R f_half = 1 / 2.
Proof.
  change f_half with (S754_finite false 8388608 (-24)). cbn [F2R cond_Zopp].
  rewrite bpow_m24. lra.
Qed.

Lemma valid_one : valid_finite f_one.
Proof. vm_compute. split; [reflexivity|discriminate]. Qed.

Lemma valid_half : valid_finite f_half.
Proof. vm_compute. split; [reflexivity|discriminate]. Qed.

Lemma two_float : 2 = IZR (Zpos 1) * bpow 1.
Proof. rewrite bpow_1. lra. Qed.

(** The gain lies in [0, 1] for a depth in [0, 1] and an LFO sample in
    [-1, 1]. *)
Lemma tremolo_gain_range (depth lfo : float) :
  valid_finite depth -> 0 <= F2R depth <= 1 ->
  valid_finite lfo -> Rabs (F2R lfo) <= 1 ->
  valid_finite (tremolo_gain depth lfo) /\ 0 <= F2R (tremolo_gain depth lfo) <= 1.
Proof.
  intros Hdv Hd Hlv Hl. unfold tremolo_gain.
  assert (Hb100 : 4 < bpow 100).
  { apply Rlt_le_trans with (bpow 3); [|apply bpow_le; lia].
    rewrite <- (bpow_IZR 3) by lia. cbn. lra. }
  pose proof (Rabs_le_inv _ _ Hl) as Hl'.
  assert (Hemin : (emin prec emax <= 1)%Z /\ (emin prec emax <= 0)%Z)
    by (change (emin prec emax) with (-149)%Z; lia).
  (* u = 1 - lfo in [0, 2] *)
  destruct (SFsub_signed f_one lfo valid_one Hlv) as (Huv & _ & Hup & _ & Hub).
  { rewrite F2R_one, Rabs_R1. lra. }
  rewrite F2R_one in Hup, Hub. specialize (Hup ltac:(lra)).
  assert (Hu2 : Rabs (F2R (f_one - lfo)%f32) <= 2).
  { rewrite two_float. apply Hub; [reflexivity|apply Hemin|].
    rewrite <- two_float. apply Rabs_le. lra. }
  rewrite Rabs_right in Hu2 by lra.
  set (u := (f_one - lfo)%f32) in *.
  (* w = depth * u in [0, 2] *)
  assert (Hdu : 0 <= F2R depth * F2R u <= 2).
  { split; [apply Rmult_le_pos; lra|].
    replace 2 with (1 * 2) by ring. apply Rmult_le_compat; lra. }
  destruct (SFmul_signed depth u Hdv Huv) as (Hwv & _ & Hwp & _ & Hwb).
  { rewrite <- Rabs_mult, Rabs_right; lra. }
  specialize (Hwp ltac:(lra)).
  assert (Hw2 : Rabs (F2R (depth * u)%f32) <= 2).
  { rewrite two_float. apply Hwb; [reflexivity|apply Hemin|].
    rewrite <- two_float, Rabs_right; lra. }
  rewrite Rabs_right in Hw2 by lra.
  set (w := (depth * u)%f32) in *.
  (* h = w * 0.5 in [0, 1] *)
  destruct (SFmul_signed w f_half Hwv valid_half) as (Hhv & _ & Hhp & _ & Hhb).
  { rewrite F2R_half, <- Rabs_mult, Rabs_right; lra. }
  rewrite F2R_half in Hhp, Hhb. specialize (Hhp ltac:(lra)).
  assert (Hh1 : Rabs (F2R (w * f_half)%f32) <= 1).
  { rewrite one_float. apply Hhb; [reflexivity|apply Hemin|].
    rewrite <- one_float, Rabs_right; lra. }
  rewrite Rabs_right in Hh1 by lra.
  set (h := (w * f_half)%f32) in *.
  (* mult = 1 - h in [0, 1] *)
  destruct (SFsub_signed f_one h valid_one Hhv) as (Hmv & _ & Hmp & _ & Hmb).
  { rewrite F2R_one, Rabs_R1, Rabs_right; lra. }
  rewrite F2R_one in Hmp, Hmb. specialize (Hmp ltac:(lra)).
  assert (Hm1 : Rabs (F2R (f_one - h)%f32) <= 1).
  { rewrite one_float. apply Hmb; [reflexivity|apply Hemin|].
    rewrite <- one_float, Rabs_right; lra. }
  rewrite Rabs_right in Hm1 by lra.
  split; [exact Hmv|]. lra.
Qed.

Lemma valid_zero (z : float) :
  valid_finite z -> F2R z = 0 -> exists s : bool, z = S754_zero s.
Proof.
  destruct z as [s|s| |s m e]; cbn [valid_finite]; try tauto; intros Hv H0.
  - now exists s.
  - exfalso. pose proof (F2R_abs s m e) as Ha. rewrite H0, Rabs_R0 in Ha.
    pose proof (F2R_finite_pos m e) as Hp. rewrite (F2R_sign false) in Hp. lra.
Qed.

Section TremoloFacts.

Context `{L : lfo_h}.

(** X14: for every finite input, a depth in [0, 1] and an LFO sample
    in [-1, 1] the tremolo only attenuates: the gain lies in [0, 1],
    and the output is finite, no larger in magnitude than the input,
    and of the same sign. *)
Theorem tremolo_attenuates (input : float) (t : tremolo.t) :
  finite_float input ->
  valid_finite (tremolo.depth t) -> 0 <= F2R (tremolo.depth t) <= 1 ->
  valid_finite (snd (lfo_step (tremolo.lfo t) (tremolo.wave t))) ->
  Rabs (F2R (snd (lfo_step (tremolo.lfo t) (tremolo.wave t)))) <= 1 ->
  let out := fst (tremolo_step input t) in
  let gain := tremolo_gain (tremolo.depth t)
                (snd (lfo_step (tremolo.lfo t) (tremolo.wave t))) in
  out = (input * gain)%f32 /\
  0 <= F2R gain <= 1 /\
  F32.is_finite out = true /\
  Rabs (F2R out) <= Rabs (F2R input) /\
  0 <= F2R out * F2R input.
Proof.
  intros Hi Hdv Hd Hlv Hl out gain. unfold out, gain, tremolo_step.
  destruct (lfo_step (tremolo.lfo t) (tremolo.wave t)) as [lfo' lfo].
  cbn [fst snd] in *. fold (tremolo_gain (tremolo.depth t) lfo).
  destruct (tremolo_gain_range _ _ Hdv Hd Hlv Hl) as [Hgv Hg].
  destruct (attenuate input _ Hi Hgv Hg) as (Hov & Hob & Hos).
  split; [reflexivity|]. split; [exact Hg|].
  split; [exact (valid_is_finite _ Hov)|]. split; assumption.
Qed.

(** X15: with a depth of zero, or at an LFO sample of exactly 1, the
    gain is the float 1 and the output has the value of the input,
    for every finite input. *)
Theorem tremolo_unity_gain (input : float) (t : tremolo.t) :
  finite_float input ->
  valid_finite (tremolo.depth t) ->
  valid_finite (snd (lfo_step (tremolo.lfo t) (tremolo.wave t))) ->
  Rabs (F2R (snd (lfo_step (tremolo.lfo t) (tremolo.wave t)))) <= 1 ->
  F2R (tremolo.depth t) = 0 \/
  F2R (snd (lfo_step (tremolo.lfo t) (tremolo.wave t))) = 1 ->
  let out := fst (tremolo_step input t) in
  let gain := tremolo_gain (tremolo.depth t)
                (snd (lfo_step (tremolo.lfo t) (tremolo.wave t))) in
  out = (input * gain)%f32 /\ gain = f_one /\
  F32.is_finite out = true /\ F2R out = F2R input.
Proof.
  intros Hi Hdv Hlv Hl Hcase out gain. unfold out, gain, tremolo_step, tremolo_gain.
  destruct (lfo_step (tremolo.lfo t) (tremolo.wave t)) as [lfo' lfo].
  cbn [fst snd] in *.
  destruct (SFsub_signed f_one lfo valid_one Hlv) as (Huv & _ & Hup & Hun & _).
  { rewrite F2R_one, Rabs_R1.
    apply Rle_lt_trans with 2; [lra|].
    apply Rlt_le_trans with (bpow 2); [rewrite bpow_2; lra|apply bpow_le; lia]. }
  rewrite F2R_one in Hup, Hun.
  assert (Egain : (f_one - tremolo.depth t * (f_one - lfo) * f_half)%f32 = f_one).
  { assert (Ew : exists sw, (tremolo.depth t * (f_one - lfo))%f32 = S754_zero sw).
    { destruct Hcase as [Hd0|Hl1].
      - destruct (valid_zero _ Hdv Hd0) as [sd ->].
        destruct (f_one - lfo)%f32 as [su|su| |su mu eu]; cbn [valid_finite] in Huv;
          try tauto; eexists; reflexivity.
      - assert (Eu : F2R (f_one - lfo)%f32 = 0).
        { pose proof (Hup ltac:(lra)). pose proof (Hun ltac:(lra)). lra. }
        destruct (valid_zero _ Huv Eu) as [su ->].
        destruct (tremolo.depth t) as [sd|sd| |sd md ed]; cbn [valid_finite] in Hdv;
          try tauto; eexists; reflexivity. }
    destruct Ew as [sw ->]. reflexivity. }
  split; [reflexivity|]. rewrite Egain. split; [reflexivity|].
  destruct (mul_one input Hi) as [Hov HF].
  split; [exact (valid_is_finite _ Hov)|exact HF].
Qed.

End TremoloFacts.

End TremoloTheory.

(** ** The entrained chorus *)

Section EntrainedTheory.

Section EntrainedFacts.

Context `{T : sine_table} `{L : lfo_h} `{E : effect_h}.

Hypothesis table_bounded : bounded_table.

Hypothesis lfo_step_keeps_step :
  forall (l : lfo_state.t) (type : lfo_type),
    lfo_state.step (fst (lfo_step l type)) = lfo_state.step l.

Lemma step_schedule_app (a b : list (Z * lfo_type)) :
  forall g : coupled_lfo_group,
    step_schedule (a ++ b) g =
    match step_schedule a g with
    | Some (vs, g1) =>
        match step_schedule b g1 with
        | Some (ws, g2) => Some (vs ++ ws, g2)
        | None => None
        end
    | None => None
    end.
Proof.
  induction a as [|[idx type] a IH]; intros g.
  - cbn [app step_schedule]. unfold ret.
    destruct (step_schedule b g) as [[ws g2]|]; reflexivity.
  - cbn [app step_schedule]. unfold bind at 1 3.
    destruct (coupled_lfo_step idx type g) as [[v g0]|]; [|reflexivity].
    unfold bind. rewrite IH.
    destruct (step_schedule a g0) as [[vs g1]|]; [|reflexivity].
    unfold ret.
    destruct (step_schedule b g1) as [[ws g2]|]; reflexivity.
Qed.

(** The voices of one sample: slots [i], [i + 1], ... are stepped in
    turn as sines, and nothing else of the effect changes. *)
Lemma entrained_voices_steps (n : nat) :
  forall (i : Z) (wet : float) (s : entrained.t) (dl : delay_line),
    entrained_ready s -> 0 <= i -> i + Z.of_nat n <= ENTRAINED_VOICES ->
    exists (wet' : float) (s' : entrained.t) (vs : list float),
      entrained_voices n i wet s dl = Some (wet', s') /\ entrained_ready s' /\
      step_schedule ((fun j => (j, lfo_sinewave)) <$> seqZ i (Z.of_nat n))
        (entrained.group s) = Some (vs, entrained.group s') /\
      entrained.delay_base s' = entrained.delay_base s /\
      entrained.depth s' = entrained.depth s /\
      entrained.mix s' = entrained.mix s.
Proof.
  induction n as [|n IH]; intros i wet s dl Hr Hi Hn.
  - exists wet, s, []. split; [reflexivity|]. split; [exact Hr|].
    split; [reflexivity|]. split; [reflexivity|]. split; reflexivity.
  - destruct Hr as [Hok Hc].
    destruct (coupled_step_ok table_bounded lfo_step_keeps_step
                (entrained.group s) i lfo_sinewave Hok ltac:(lia))
      as (v & g' & Estep & Hok' & Ec).
    cbn [entrained_voices]. unfold entrained_voice. rewrite Estep.
    match goal with
    | |- context [entrained_voices n (i + 1) ?w ?s1 dl] =>
        destruct (IH (i + 1) w s1 dl) as (wet' & s' & vs & Ev & Hr' & Es & E1 & E2 & E3)
    end.
    + split; cbn [entrained.group]; [exact Hok'|]. rewrite Ec. exact Hc.
    + lia.
    + lia.
    + exists wet', s', (v :: vs). split; [exact Ev|]. split; [exact Hr'|].
      split; [|split; [exact E1|split; [exact E2|exact E3]]].
      rewrite seqZ_cons by lia. cbn [fmap list_fmap step_schedule].
      unfold bind at 1. rewrite Estep. unfold bind at 1.
      replace (Z.succ i) with (i + 1) by lia.
      replace (Z.pred (Z.of_nat (S n))) with (Z.of_nat n) by lia.
      cbn [entrained.group] in Es. rewrite Es. reflexivity.
Qed.

(** X16: once the group is ready, [entrained_step] runs for any number
    of samples without undefined behaviour and returns one output a
    sample; over the run it steps voices 0, 1 and 2 in turn, once each
    a sample and as sines, so that the group it leaves is the one
    [entrained_schedule] leads to and is ready again; the delay base,
    depth and mix stay as they are, and the inputs are written to the
    delay line in order. *)
Theorem entrained_run_defined (inputs : list float) :
  forall (s : entrained.t) (dl : delay_line),
    entrained_ready s ->
    exists (outs : list float) (s' : entrained.t) (dl' : delay_line) (vs : list float),
      entrained_run inputs s dl = Some (outs, (s', dl')) /\
      length outs = length inputs /\ entrained_ready s' /\
      step_schedule (entrained_schedule (length inputs)) (entrained.group s) =
        Some (vs, entrained.group s') /\
      length vs = (3 * length inputs)%nat /\
      entrained.delay_base s' = entrained.delay_base s /\
      entrained.depth s' = entrained.depth s /\
      entrained.mix s' = entrained.mix s /\
      dl' = fold_left (fun d x => sample_array_write x d) inputs dl.
Proof.
  induction inputs as [|input rest IH]; intros s dl Hr.
  - exists [], s, dl, []. split; [reflexivity|]. split; [reflexivity|].
    split; [exact Hr|]. split; [reflexivity|]. split; [reflexivity|].
    split; [reflexivity|]. split; [reflexivity|]. split; reflexivity.
  - destruct (entrained_voices_steps (Z.to_nat ENTRAINED_VOICES) 0 F32.zero s dl Hr)
      as (wet & s1 & v1 & Ev & Hr1 & Es1 & Eb1 & Ed1 & Em1);
      [lia|unfold ENTRAINED_VOICES; lia|].
    cbn [entrained_run]. unfold entrained_step. rewrite Ev.
    destruct (IH s1 (sample_array_write input dl) Hr1)
      as (outs & s' & dl' & vs & Er & Hlen & Hr' & Es & Hvs & Eb & Ed & Em & Edl).
    rewrite Er.
    assert (Hv1 : length v1 = 3%nat).
    { change (Z.of_nat (Z.to_nat ENTRAINED_VOICES)) with 3 in Es1.
      change ((fun j => (j, lfo_sinewave)) <$> seqZ 0 3)
        with [(0, lfo_sinewave); (1, lfo_sinewave); (2, lfo_sinewave)] in Es1.
      cbn [step_schedule] in Es1. unfold bind, ret in Es1.
      destruct (coupled_lfo_step 0 lfo_sinewave (entrained.group s)) as [[a0 g0]|];
        [|discriminate Es1].
      destruct (coupled_lfo_step 1 lfo_sinewave g0) as [[a1 g1]|]; [|discriminate Es1].
      destruct (coupled_lfo_step 2 lfo_sinewave g1) as [[a2 g2]|]; [|discriminate Es1].
      injection Es1 as <- _. reflexivity. }
    eexists _, s', dl', (v1 ++ vs). split; [reflexivity|].
    split; [cbn [length]; now rewrite Hlen|]. split; [exact Hr'|].
    split; [|split; [|split; [|split; [|split]]]].
    + cbn [length entrained_schedule].
      rewrite step_schedule_app.
      change (Z.of_nat (Z.to_nat ENTRAINED_VOICES)) with 3 in Es1.
      change (entrained_voice_steps) with
        ((fun j => (j, lfo_sinewave)) <$> seqZ 0 3).
      rewrite Es1, Es. reflexivity.
    + rewrite length_app, Hv1, Hvs. cbn [length]. lia.
    + now rewrite Eb.
    + now rewrite Ed.
    + now rewrite Em.
    + cbn [fold_left]. exact Edl.
Qed.

End EntrainedFacts.

End EntrainedTheory.

(** ** The chorus at zero mix *)

Section MixTheory.

Local Open Scope R_scope.

Lemma one_minus_zero (sg : bool) : (F32.of_Z 1 - S754_zero sg)%f32 = f_one.
Proof. destruct sg; vm_compute; reflexivity. Qed.

Lemma mul_zero_r (x : float) (sg : bool) :
  valid_finite x -> exists sg' : bool, (x * S754_zero sg)%f32 = S754_zero sg'.
Proof.
  destruct x as [s|s| |s m e]; cbn [valid_finite]; try tauto; intros _;
    eexists; reflexivity.
Qed.

Lemma add_zero_r (x : float) (sg : bool) :
  valid_finite x ->
  valid_finite (x + S754_zero sg)%f32 /\ F2R (x + S754_zero sg)%f32 = F2R x.
Proof.
  destruct x as [s|s| |s m e]; cbn [valid_finite]; try tauto; intros Hx.
  - destruct s, sg; cbn; split; trivial.
  - cbn. split; [assumption|reflexivity].
Qed.

Section EntrainedMix.

Context `{T : sine_table} `{L : lfo_h} `{E : effect_h}.

Hypothesis table_bounded : bounded_table.

Hypothesis lfo_step_keeps_step :
  forall (l : lfo_state.t) (type : lfo_type),
    lfo_state.step (fst (lfo_step l type)) = lfo_state.step l.

(** The voices leave [mix] as it is, and their sum is finite. *)
Lemma entrained_voices_sum (n : nat) :
  forall (i : Z) (wet : float) (k : positive) (s : entrained.t) (dl : delay_line),
    entrained_ready s -> finite_reads dl ->
    (0 <= i)%Z -> (i + Z.of_nat n <= ENTRAINED_VOICES)%Z ->
    valid_finite wet -> Rabs (F2R wet) <= IZR (Zpos k) * bpow 96 ->
    (Zpos k + Z.of_nat n <= 4)%Z ->
    exists (wet' : float) (s' : entrained.t),
      entrained_voices n i wet s dl = Some (wet', s') /\
      entrained.mix s' = entrained.mix s /\
      valid_finite wet' /\ Rabs (F2R wet') <= 4 * bpow 96.
Proof.
  pose proof (bpow_pos 96) as Hb96.
  induction n as [|n IH]; intros i wet k s dl Hr reads_finite Hi Hn Hw Hwb Hk.
  - exists wet, s. split; [reflexivity|]. split; [reflexivity|]. split; [exact Hw|].
    eapply Rle_trans; [exact Hwb|].
    apply Rmult_le_compat_r; [lra|]. apply IZR_le. lia.
  - destruct Hr as [Hok Hc].
    destruct (coupled_step_ok table_bounded lfo_step_keeps_step
                (entrained.group s) i lfo_sinewave Hok ltac:(lia))
      as (v & g' & Estep & Hok' & Ec).
    cbn [entrained_voices]. unfold entrained_voice. rewrite Estep.
    match goal with
    | |- context [sample_array_read ?d dl] => set (r := sample_array_read d dl)
    end.
    destruct (reads_finite
                (let d := F64.to_f32
                   (F64.mul (F64.of_f32 (entrained.delay_base s))
                      (F64.add (F64.of_Z 1)
                         (F64.mul (F64.of_f32 (v * entrained.depth s)%f32) F64.half))) in
                 if F32.ltb d (F32.of_Z 1) then F32.of_Z 1 else d)) as [Hrv Hrb].
    cbv zeta in Hrv, Hrb. fold r in Hrv, Hrb.
    assert (Hk4 : IZR (Zpos k) <= 3) by (apply IZR_le; lia).
    assert (Hb100 : 4 * bpow 96 < bpow 100).
    { replace 4 with (bpow 2) by (rewrite <- (bpow_IZR 2) by lia; reflexivity).
      rewrite <- bpow_add. apply bpow_lt. lia. }
    assert (Hsum : Rabs (F2R wet) + Rabs (F2R r) < bpow 100).
    { apply Rle_lt_trans with (4 * bpow 96); [|exact Hb100].
      replace (4 * bpow 96) with (3 * bpow 96 + bpow 96) by ring.
      apply Rplus_le_compat; [|exact Hrb].
      eapply Rle_trans; [exact Hwb|]. apply Rmult_le_compat_r; lra. }
    destruct (SFadd_signed _ _ Hw Hrv Hsum) as (Hsv & _ & _ & _ & Hsb).
    destruct (IH (i + 1)%Z (wet + r)%f32 (k + 1)%positive
                (entrained.mk g' (entrained.delay_base s) (entrained.depth s) (entrained.mix s))
                dl) as (wet' & s' & Ev & Em & Hv' & Hb').
    + split; cbn [entrained.group]; [exact Hok'|]. rewrite Ec. exact Hc.
    + exact reads_finite.
    + lia.
    + lia.
    + exact Hsv.
    + apply Hsb.
      * change (2 ^ prec)%Z with 16777216%Z. lia.
      * change (emin prec emax) with (-149)%Z. lia.
      * eapply Rle_trans; [apply Rabs_triang|].
        rewrite Pos2Z.inj_add, plus_IZR.
        replace ((IZR (Zpos k) + 1) * bpow 96) with (IZR (Zpos k) * bpow 96 + bpow 96) by ring.
        apply Rplus_le_compat; assumption.
    + lia.
    + exists wet', s'. split; [exact Ev|]. split; [exact Em|]. split; assumption.
Qed.

(** X19: with the mix at zero the chorus returns the dry signal: once
    the group is ready and the reads of the delay line are finite,
    [entrained_step] on every finite input is defined, writes the input to
    the delay line and returns a finite sample of the value of the
    input. *)
Theorem entrained_dry_at_zero_mix
    (input : float) (s : entrained.t) (dl : delay_line) (sg : bool) :
  entrained_ready s -> finite_reads dl ->
  entrained.mix s = S754_zero sg ->
  finite_float input ->
  exists (out : float) (s' : entrained.t),
    entrained_step input s dl = Some (out, (s', sample_array_write input dl)) /\
    valid_finite out /\ F2R out = F2R input.
Proof.
  intros Hr Hreads Hmix Hin.
  pose proof (bpow_pos 96) as Hb96.
  destruct (entrained_voices_sum (Z.to_nat ENTRAINED_VOICES) 0 F32.zero 1 s dl Hr Hreads)
    as (wet & s' & Ev & Em & Hwv & Hwb).
  - lia.
  - unfold ENTRAINED_VOICES. lia.
  - exact I.
  - unfold F32.zero. cbn [F2R]. rewrite Rabs_R0. lra.
  - unfold ENTRAINED_VOICES. lia.
  - unfold entrained_step. rewrite Ev, Em, Hmix, one_minus_zero.
    destruct (of_Z_small ENTRAINED_VOICES ltac:(unfold ENTRAINED_VOICES; lia)) as [H3n H3v].
    assert (E3 : IZR ENTRAINED_VOICES = 3) by reflexivity.
    assert (Hb100 : 4 * bpow 96 < bpow 100).
    { replace 4 with (bpow 2) by (rewrite <- (bpow_IZR 2) by lia; reflexivity).
      rewrite <- bpow_add. apply bpow_lt. lia. }
    destruct (SFdiv_signed wet (F32.of_Z ENTRAINED_VOICES) Hwv (nonneg_valid _ H3n))
      as (Hqv & _).
    { rewrite H3v, E3. lra. }
    { rewrite H3v, E3, (Rabs_right 3) by lra. lra. }
    destruct (mul_zero_r _ sg Hqv) as (sg' & Ez). rewrite Ez.
    destruct (mul_one input Hin) as [Hmv Hme].
    destruct (add_zero_r _ sg' Hmv) as [Hov Hoe].
    eexists _, s'. split; [reflexivity|]. split; [exact Hov|].
    rewrite Hoe. exact Hme.
Qed.

End EntrainedMix.

End MixTheory.

(** ** The reference table and oscillator meet the conditions *)

Lemma ref_table_accurate : @accurate_table Ref.table.
Proof.
  intros p Hp.
  destruct (phase_sin_accuracy p Hp) as (Hsv & Hsr & Hsa).
  destruct (phase_cos_accuracy p Hp) as (Hcv & Hcr & Hca).
  split.
  - split; [exact Hsv|]. split; [apply Rabs_le; exact Hsr|apply Rlt_le; exact Hsa].
  - split; [exact Hcv|]. split; [apply Rabs_le; exact Hcr|apply Rlt_le; exact Hca].
Qed.

Lemma ref_table_bounded : @bounded_table Ref.table.
Proof.
  intros p Hp. destruct (ref_table_accurate p Hp) as [(Hv & Hb & _) _].
  split; [exact Hv|exact Hb].
Qed.

Lemma ref_table_signed : @signed_table Ref.table.
Proof.
  intros p Hp. destruct (phase_split p Hp) as (k & r & Hs & Hk & Hr & _).
  rewrite phase_sin_quadrant, Hs.
  destruct (quadrant_split k r Hk Hr) as [-> _].
  rewrite (quadrant_pos_split k r Hk Hr).
  assert (Hx1 : is_u32 (4 * r)).
  { unfold is_u32, TWO_POW_32. change (2 ^ 30)%Z with 1073741824%Z in Hr.
    change (2 ^ 32)%Z with 4294967296%Z. lia. }
  assert (Hx2 : is_u32 (u32_not (4 * r))).
  { unfold is_u32, u32_not, TWO_POW_32 in *. lia. }
  assert (Hnn : (0 <= F2R (@quarter_interp Ref.table
                     (if negb (Z.land k 1 =? 0) then u32_not (4 * r) else 4 * r)))%R).
  { destruct (negb (Z.land k 1 =? 0)).
    - destruct (quarter_interp_accuracy _ Hx2) as (Hv & _).
      exact (nonneg_finite_F2R _ Hv).
    - destruct (quarter_interp_accuracy _ Hx1) as (Hv & _).
      exact (nonneg_finite_F2R _ Hv). }
  change (2 ^ 30) with 1073741824 in *. change (2 ^ 31) with 2147483648.
  unfold quadrant_sign.
  assert (Hcases : k = 0 \/ k = 1 \/ k = 2 \/ k = 3) by lia.
  destruct Hcases as [-> | [-> | [-> | ->]]].
  - change (negb (Z.land 0 2 =? 0)) with false. cbv iota.
    split; [intros _; exact Hnn|intros H; exfalso; lia].
  - change (negb (Z.land 1 2 =? 0)) with false. cbv iota.
    split; [intros _; exact Hnn|intros H; exfalso; lia].
  - change (negb (Z.land 2 2 =? 0)) with true. cbv iota. rewrite F2R_neg.
    split; [intros H; exfalso; lia|intros _; lra].
  - change (negb (Z.land 3 2 =? 0)) with true. cbv iota. rewrite F2R_neg.
    split; [intros H; exfalso; lia|intros _; lra].
Qed.

Lemma ref_table_smooth : @smooth_table Ref.table (21 * bpow (-23))%R.
Proof.
  split; [exact ref_table_bounded|]. split.
  - assert (E : @quarter_interp Ref.table 0 = S754_zero false) by (vm_compute; reflexivity).
    rewrite E. reflexivity.
  - exact adjacent_positions.
Qed.

Lemma ref_lfo_keeps_step (l : lfo_state.t) (type : lfo_type) :
  lfo_state.step (fst (@lfo_step Ref.lfo l type)) = lfo_state.step l.
Proof. reflexivity. Qed.

Lemma group_locked_phases (i : Z) :
  0 <= i < count group_locked -> phase_at group_locked i = 763361994.
Proof.
  intros Hi. change (count group_locked) with 3 in Hi.
  assert (Hcases : i = 0 \/ i = 1 \/ i = 2) by lia.
  destruct Hcases as [-> | [-> | ->]]; reflexivity.
Qed.

Lemma group_locked_ok : group_ok group_locked.
Proof.
  split; [reflexivity|]. split; [cbn; unfold MAX_COUPLED_LFOS; lia|].
  split; [vm_compute; split; [reflexivity|discriminate]|].
  split.
  - change (coupling group_locked) with f_half. rewrite F2R_half. lra.
  - unfold group_locked, group_of. cbn [lfos map repeat app fst snd].
    repeat (apply Forall_cons; split; [cbn [lfo_state.step]; lia|]). apply Forall_nil.
    exact I.
Qed.

(** ** The adjustments of a complete group *)

Section AdjustmentsCancel.

Local Open Scope R_scope.

(** C3, amended: [phase_sin] of a wrapping difference and of the
    opposite difference are negatives of each other only up to [dlt],
    the most the table interpolation moves between adjacent
    in-quadrant positions, because the mirror [~phase] is one position
    off the exact reflection; consequently the adjustments
    [coupling * S / count] that [coupled_lfo_step] computes for the
    oscillators of a complete group from one set of phases (coupling
    in (0, 1], 2 <= count <= 8) sum to zero up to
    [(7/2 * dlt + 87 * 2^-23) * coupling + 10 * 2^-149].  This holds
    for every table that starts at 0 with finite values of magnitude
    at most 1; for the table of 256 steps of rounded sines
    [dlt = 21 * 2^-23]. *)
Theorem coupling_adjustments_cancel :
  (forall (T : sine_table) (dlt : R),
     @smooth_table T dlt ->
     (forall p q : Z,
        is_u32 p -> is_u32 q ->
        Rabs (F2R (@phase_sin T (wrap32 (p - q))) + F2R (@phase_sin T (wrap32 (q - p))))
          <= dlt) /\
     (forall g : coupled_lfo_group,
        F32.ltb F32.zero (coupling g) = true ->
        valid_finite (coupling g) -> F2R (coupling g) <= 1 ->
        (2 <= count g <= MAX_COUPLED_LFOS)%Z ->
        Rabs (real_sum (fun i => F2R (@adjustment T g i)) (seqZ 0 (count g)))
          <= (7 / 2 * dlt + 87 * bpow (-23)) * F2R (coupling g) + 10 * bpow (-149))) /\
  @smooth_table Ref.table (21 * bpow (-23)).
Proof.
  split.
  - intros T dlt Hsmooth. exact (smooth_table_cancellation dlt Hsmooth).
  - exact ref_table_smooth.
Qed.

Lemma coupling_adjustments_cancel_witness :
  Rabs (F2R (@phase_sin Ref.table (wrap32 (1 - 0))) +
        F2R (@phase_sin Ref.table (wrap32 (0 - 1)))) <= 21 * bpow (-23) /\
  Rabs (real_sum (fun i => F2R (@adjustment Ref.table group_spread i))
          (seqZ 0 (count group_spread)))
    <= (7 / 2 * (21 * bpow (-23)) + 87 * bpow (-23)) * F2R (coupling group_spread)
       + 10 * bpow (-149).
Proof.
  destruct coupling_adjustments_cancel as [Hgen Href].
  destruct (Hgen Ref.table (21 * bpow (-23)) Href) as [Hpair Hsum].
  split.
  - apply Hpair; unfold is_u32, TWO_POW_32; lia.
  - apply Hsum.
    + reflexivity.
    + vm_compute. split; [reflexivity|discriminate].
    + change (coupling group_spread) with f_half.
      change f_half with (S754_finite false 8388608 (-24)). cbn [F2R cond_Zopp].
      rewrite bpow_m24. lra.
    + cbn. unfold MAX_COUPLED_LFOS. lia.
Defined.

End AdjustmentsCancel.

(** ** The further theorems at concrete inputs *)

Lemma phase_sin_half_turn_witness :
  @phase_sin Ref.table (wrap32 (763361994 + 2 ^ 31)) =
  (- @phase_sin Ref.table 763361994)%f32.
Proof.
  apply (@phase_sin_half_turn Ref.table 763361994).
  unfold is_u32, TWO_POW_32. lia.
Defined.

Lemma phase_cos_shifted_witness :
  @phase_cos Ref.table (wrap32 (763361994 + 2 ^ 30)) =
  (- @phase_sin Ref.table 763361994)%f32 /\
  @phase_cos Ref.table (wrap32 (763361994 + 2 ^ 31)) =
  (- @phase_cos Ref.table 763361994)%f32.
Proof.
  apply (@phase_cos_shifted Ref.table 763361994).
  unfold is_u32, TWO_POW_32. lia.
Defined.

Lemma order_parameter_undefined_iff_witness :
  @coupled_lfo_order_parameter Ref.table group_overfull = None <->
  MAX_COUPLED_LFOS < count group_overfull.
Proof.
  apply (@order_parameter_undefined_iff Ref.table group_overfull).
  reflexivity.
Defined.

Lemma order_parameter_negative_count_witness :
  @coupled_lfo_order_parameter Ref.table group_negative = Some (F32.zero, group_negative).
Proof.
  apply (@order_parameter_negative_count Ref.table group_negative).
  cbn. lia.
Defined.

Lemma coupled_step_out_of_bounds_witness :
  @coupled_lfo_step Ref.table Ref.lfo 8 lfo_sinewave group_pos = None.
Proof.
  apply (@coupled_step_out_of_bounds Ref.table Ref.lfo group_pos 8 lfo_sinewave).
  - reflexivity.
  - right. left. unfold MAX_COUPLED_LFOS. lia.
Defined.

Lemma uncoupled_run_is_standalone_witness :
  @coupled_run Ref.table Ref.lfo 0 [lfo_sinewave; lfo_triangle] group_uncoupled =
  Some (fst (@standalone_run Ref.lfo (lfo_state.mk 0 89478) [lfo_sinewave; lfo_triangle]),
        set_lfo group_uncoupled 0
          (snd (@standalone_run Ref.lfo (lfo_state.mk 0 89478) [lfo_sinewave; lfo_triangle]))).
Proof.
  apply (@uncoupled_run_is_standalone Ref.table Ref.lfo [lfo_sinewave; lfo_triangle]
           group_uncoupled 0 (lfo_state.mk 0 89478)).
  - reflexivity.
  - unfold MAX_COUPLED_LFOS. lia.
  - reflexivity.
  - reflexivity.
Defined.

Lemma uncoupled_steps_commute_witness :
  (do a <- @coupled_lfo_step Ref.table Ref.lfo 0 lfo_sinewave;
   do b <- @coupled_lfo_step Ref.table Ref.lfo 1 lfo_triangle;
   ret (a, b))%M group_uncoupled =
  (do b <- @coupled_lfo_step Ref.table Ref.lfo 1 lfo_triangle;
   do a <- @coupled_lfo_step Ref.table Ref.lfo 0 lfo_sinewave;
   ret (a, b))%M group_uncoupled.
Proof.
  apply (@uncoupled_steps_commute Ref.table Ref.lfo group_uncoupled 0 1
           lfo_sinewave lfo_triangle).
  - reflexivity.
  - unfold MAX_COUPLED_LFOS. lia.
  - unfold MAX_COUPLED_LFOS. lia.
  - lia.
  - reflexivity.
Defined.

Lemma antiphase_pair_order_zero_witness :
  @coupled_lfo_order_parameter Ref.table group_antiphase = Some (F32.zero, group_antiphase).
Proof.
  apply (@antiphase_pair_order_zero Ref.table group_antiphase).
  - reflexivity.
  - reflexivity.
  - change (phase_at group_antiphase 0) with 5. unfold is_u32, TWO_POW_32. lia.
  - reflexivity.
  - vm_compute. reflexivity.
  - vm_compute. reflexivity.
Defined.

Lemma coupled_step_defined_witness :
  exists d : Z,
    - 7 <= d <= 7 /\
    @coupled_lfo_step Ref.table Ref.lfo 0 lfo_sinewave group_pos =
    let l' := lfo_state.mk (wrap32 (0 + d)) 7 in
    Some (snd (@lfo_step Ref.lfo l' lfo_sinewave),
          set_lfo group_pos 0 (fst (@lfo_step Ref.lfo l' lfo_sinewave))).
Proof.
  apply (@coupled_step_defined Ref.table Ref.lfo ref_table_bounded group_pos 0
           lfo_sinewave (lfo_state.mk 0 7)).
  - reflexivity.
  - reflexivity.
  - vm_compute. split; [reflexivity|discriminate].
  - change (coupling group_pos) with f_half. rewrite F2R_half. lra.
  - cbn. unfold MAX_COUPLED_LFOS. lia.
  - cbn. lia.
  - reflexivity.
  - cbn. lia.
Defined.

Lemma order_parameter_range_witness :
  exists r : float,
    @coupled_lfo_order_parameter Ref.table group_locked = Some (r, group_locked) /\
    F32.is_finite r = true /\ (0 <= F2R r <= 10005 / 10000)%R.
Proof.
  apply (@order_parameter_range Ref.table group_locked ref_table_accurate).
  - reflexivity.
  - cbn. unfold MAX_COUPLED_LFOS. lia.
  - intros i Hi. rewrite (group_locked_phases i Hi). unfold is_u32, TWO_POW_32. lia.
Defined.

Lemma order_parameter_accuracy_witness :
  exists r : float,
    @coupled_lfo_order_parameter Ref.table group_locked = Some (r, group_locked) /\
    F32.is_finite r = true /\
    (Rabs (F2R r - kuramoto_order group_locked) <= 2 / 10000)%R.
Proof.
  apply (@order_parameter_accuracy Ref.table group_locked ref_table_accurate).
  - reflexivity.
  - cbn. unfold MAX_COUPLED_LFOS. lia.
  - intros i Hi. rewrite (group_locked_phases i Hi). unfold is_u32, TWO_POW_32. lia.
Defined.

Lemma locked_group_order_witness :
  exists r : float,
    @coupled_lfo_order_parameter Ref.table group_locked = Some (r, group_locked) /\
    F32.is_finite r = true /\ (9998 / 10000 <= F2R r)%R.
Proof.
  apply (@locked_group_order Ref.table group_locked 763361994 ref_table_accurate).
  - reflexivity.
  - cbn. unfold MAX_COUPLED_LFOS. lia.
  - unfold is_u32, TWO_POW_32. lia.
  - exact group_locked_phases.
Defined.

Lemma schedule_defined_witness :
  exists (vs : list float) (g' : coupled_lfo_group),
    @step_schedule Ref.table Ref.lfo
      [(0, lfo_sinewave); (1, lfo_triangle); (2, lfo_sawtooth)] group_locked =
    Some (vs, g') /\
    length vs = 3%nat /\ group_ok g' /\ count g' = count group_locked.
Proof.
  apply (@schedule_defined Ref.table Ref.lfo ref_table_bounded ref_lfo_keeps_step
           [(0, lfo_sinewave); (1, lfo_triangle); (2, lfo_sawtooth)] group_locked).
  - exact group_locked_ok.
  - repeat (apply Forall_cons; split; [cbn; lia|]). apply Forall_nil. exact I.
Defined.

Lemma f_max_finite : finite_float f_max.
Proof. split; reflexivity. Qed.

Lemma tremolo_sample_bounded (t : tremolo.t) :
  tremolo.wave t = lfo_sinewave ->
  valid_finite (snd (@lfo_step Ref.lfo (tremolo.lfo t) (tremolo.wave t))) /\
  (Rabs (F2R (snd (@lfo_step Ref.lfo (tremolo.lfo t) (tremolo.wave t)))) <= 1)%R.
Proof.
  intros ->.
  exact (ref_table_bounded _ (wrap32_is_u32 _)).
Qed.

Lemma tremolo_attenuates_witness :
  fst (@tremolo_step Ref.lfo f_max tremolo_half) =
    (f_max * tremolo_gain f_half (snd (@lfo_step Ref.lfo (lfo_state.mk 0 89478) lfo_sinewave)))%f32 /\
  (0 <= F2R (tremolo_gain f_half (snd (@lfo_step Ref.lfo (lfo_state.mk 0 89478) lfo_sinewave)))
     <= 1)%R /\
  F32.is_finite (fst (@tremolo_step Ref.lfo f_max tremolo_half)) = true /\
  (Rabs (F2R (fst (@tremolo_step Ref.lfo f_max tremolo_half))) <= Rabs (F2R f_max))%R /\
  (0 <= F2R (fst (@tremolo_step Ref.lfo f_max tremolo_half)) * F2R f_max)%R.
Proof.
  apply (@tremolo_attenuates Ref.lfo f_max tremolo_half).
  - exact f_max_finite.
  - exact valid_half.
  - change (tremolo.depth tremolo_half) with f_half. rewrite F2R_half. lra.
  - exact (proj1 (tremolo_sample_bounded tremolo_half eq_refl)).
  - exact (proj2 (tremolo_sample_bounded tremolo_half eq_refl)).
Defined.

Lemma tremolo_unity_gain_witness :
  fst (@tremolo_step Ref.lfo f_max tremolo_flat) =
    (f_max * tremolo_gain F32.zero (snd (@lfo_step Ref.lfo (lfo_state.mk 0 89478) lfo_sinewave)))%f32 /\
  tremolo_gain F32.zero (snd (@lfo_step Ref.lfo (lfo_state.mk 0 89478) lfo_sinewave)) = f_one /\
  F32.is_finite (fst (@tremolo_step Ref.lfo f_max tremolo_flat)) = true /\
  F2R (fst (@tremolo_step Ref.lfo f_max tremolo_flat)) = F2R f_max.
Proof.
  apply (@tremolo_unity_gain Ref.lfo f_max tremolo_flat).
  - exact f_max_finite.
  - exact I.
  - exact (proj1 (tremolo_sample_bounded tremolo_flat eq_refl)).
  - exact (proj2 (tremolo_sample_bounded tremolo_flat eq_refl)).
  - left. reflexivity.
Defined.

Lemma entrained_run_defined_witness :
  exists (outs : list float) (s' : entrained.t) (dl' : @delay_line hold_line)
         (vs : list float),
    @entrained_run Ref.table Ref.lfo hold_line [f_half; f_one] entrained_locked f_half =
    Some (outs, (s', dl')) /\
    length outs = 2%nat /\ entrained_ready s' /\
    @step_schedule Ref.table Ref.lfo (entrained_schedule 2) group_locked =
      Some (vs, entrained.group s') /\
    length vs = 6%nat /\
    entrained.delay_base s' = F32.of_Z 720 /\
    entrained.depth s' = f_half /\
    entrained.mix s' = f_half /\
    dl' = f_one.
Proof.
  apply (@entrained_run_defined Ref.table Ref.lfo hold_line ref_table_bounded
           ref_lfo_keeps_step [f_half; f_one] entrained_locked f_half).
  split; [exact group_locked_ok|]. cbn. unfold ENTRAINED_VOICES. lia.
Defined.

Lemma coupling_pulls_together_witness :
  exists d : Z,
    @coupled_lfo_step Ref.table Ref.lfo 0 lfo_sinewave group_pos =
    (let l' := lfo_state.mk (wrap32 (0 + d)) 7 in
     Some (snd (@lfo_step Ref.lfo l' lfo_sinewave),
           set_lfo group_pos 0 (fst (@lfo_step Ref.lfo l' lfo_sinewave)))) /\
    0 <= d <= 7.
Proof.
  destruct (@coupling_pulls_together Ref.table Ref.lfo ref_table_bounded ref_table_signed
              group_pos 0 lfo_sinewave (lfo_state.mk 0 7)) as (d & Ed & Ha & _).
  - reflexivity.
  - reflexivity.
  - vm_compute. split; [reflexivity|discriminate].
  - change (coupling group_pos) with f_half. rewrite F2R_half. lra.
  - cbn. unfold MAX_COUPLED_LFOS. lia.
  - cbn. lia.
  - reflexivity.
  - cbn. lia.
  - exists d. split; [exact Ed|]. apply Ha.
    intros j Hj Hne. change (count group_pos) with 2 in Hj.
    assert (E : j = 1) by lia. rewrite E. vm_compute. reflexivity.
Defined.

Lemma locked_step_is_standalone_witness :
  @coupled_lfo_step Ref.table Ref.lfo 0 lfo_sinewave group_locked =
  @standalone_step Ref.lfo group_locked 0 lfo_sinewave.
Proof.
  apply (@locked_step_is_standalone Ref.table Ref.lfo ref_table_bounded group_locked 0
           lfo_sinewave (lfo_state.mk 763361994 89478)).
  - vm_compute. reflexivity.
  - reflexivity.
  - reflexivity.
  - vm_compute. split; [reflexivity|discriminate].
  - change (coupling group_locked) with f_half. rewrite F2R_half. lra.
  - cbn. unfold MAX_COUPLED_LFOS. lia.
  - cbn. lia.
  - reflexivity.
  - unfold is_u32, TWO_POW_32. cbn. lia.
  - cbn. lia.
  - intros j Hj. change (count group_locked) with 3 in Hj.
    assert (Hcases : j = 0 \/ j = 1 \/ j = 2) by lia.
    destruct Hcases as [-> | [-> | ->]]; reflexivity.
Defined.

Lemma entrained_dry_at_zero_mix_witness :
  exists (out : float) (s' : entrained.t),
    @entrained_step Ref.table Ref.lfo hold_line f_max entrained_dry f_half =
    Some (out, (s', f_max)) /\
    valid_finite out /\ (F2R out = F2R f_max)%R.
Proof.
  apply (@entrained_dry_at_zero_mix Ref.table Ref.lfo hold_line ref_table_bounded
           ref_lfo_keeps_step f_max entrained_dry f_half false).
  - split; [exact group_locked_ok|]. cbn. unfold ENTRAINED_VOICES. lia.
  - intros d. change (@sample_array_read hold_line d f_half) with f_half.
    split; [vm_compute; split; [reflexivity|discriminate]|].
    rewrite F2R_half, Rabs_right by lra.
    apply Rle_trans with (bpow 0); [rewrite bpow_0; lra|apply bpow_le; lia].
  - reflexivity.
  - exact f_max_finite.
Defined.
